(** * ptree: a red-black tree of pointers with a recycling node arena

    A shallow embedding of [src/src/ptree.c] and the properties of its
    specification.  The C program keeps its nodes in separately allocated
    objects linked by child and parent pointers, with one shared static
    sentinel [_leaf]; the embedding keeps exactly that: a heap of node
    objects addressed by pointers, a table of node pointers (the arena), and
    every C function as a function in a state-and-error monad. *)

From Stdlib Require Import ZArith List Lia Bool.
From stdpp Require Import base option gmap list sorting.

Local Open Scope Z_scope.

(** ** Machine words *)

Section Build.

(** [storage64] is the macro [PTREE_STORAGE_64BIT]: [ptree_size_int] is
    [uint64_t] when it is 1 and [uint32_t] otherwise (the default). *)
Variable storage64 : bool.

Definition word_bits : Z := if storage64 then 64 else 32.

(** Conversion to [ptree_size_int]. *)
Definition wrap (z : Z) : Z := z mod 2 ^ word_bits.

(** Conversion to [int32_t] (two's complement). *)
Definition to_int32 (z : Z) : Z := (z + 2 ^ 31) mod 2 ^ 32 - 2 ^ 31.

Definition red_flag : Z :=
  if storage64 then 0x8000000000000000 else 0x80000000.

Definition max_nodes : Z :=
  if storage64 then 9223372036854775807 else 2147483647.

(** [~x] at type [ptree_size_int]. *)
Definition wnot (x : Z) : Z := wrap (Z.lnot x).

Definition flags_is_red (f : Z) : bool := negb (Z.land f red_flag =? 0).
Definition flags_paint_red (f : Z) : Z := Z.lor f red_flag.
Definition flags_paint_black (f : Z) : Z := Z.land f (wnot red_flag).
Definition flags_get_index (f : Z) : Z := Z.land f (wnot red_flag).
Definition flags_set_index (f index : Z) : Z :=
  Z.lor (wrap index) (Z.land f red_flag).

End Build.

(** ** Pointers, nodes, the tree object *)

(** A pointer to a node is [NULL], the address of the static sentinel
    [_leaf], or the address of a node object obtained from [malloc]. *)
Inductive pointer : Type :=
  | Null
  | Leaf
  | Ptr (a : nat).

Global Instance pointer_eq_dec : EqDecision pointer.
Proof. solve_decision. Defined.

Definition ptr_eqb (p q : pointer) : bool := bool_decide (p = q).

(** [struct ptree_node]; [links[0]] and [links[1]] are two fields.  A handle
    ([void *]) is an address, an integer. *)
Record node : Type := Node {
  ptr : Z;
  link0 : pointer;
  link1 : pointer;
  parent : pointer;
  flags : Z
}.

Definition links (n : node) (dir : bool) : pointer :=
  if dir then link1 n else link0 n.

Definition with_ptr (v : Z) (n : node) : node :=
  Node v (link0 n) (link1 n) (parent n) (flags n).
Definition with_link (dir : bool) (q : pointer) (n : node) : node :=
  if dir then Node (ptr n) (link0 n) q (parent n) (flags n)
  else Node (ptr n) q (link1 n) (parent n) (flags n).
Definition with_parent (q : pointer) (n : node) : node :=
  Node (ptr n) (link0 n) (link1 n) q (flags n).
Definition with_flags (f : Z) (n : node) : node :=
  Node (ptr n) (link0 n) (link1 n) (parent n) f.

(** The object [memset] to zero: null handle, null links, flags 0. *)
Definition zero_node : node := Node 0 Null Null Null 0.

(** [struct ptree].  [nodes] is the table of node pointers with the length
    it was last given by [realloc]. *)
Record ptree : Type := Ptree {
  root : pointer;
  nodes_num : Z;
  allocated_nodes_num : Z;
  nodes : list pointer;
  cmp : Z -> Z -> Z;
  cmp_key : Z -> Z -> Z
}.

Definition with_root (p : pointer) (t : ptree) : ptree :=
  Ptree p (nodes_num t) (allocated_nodes_num t) (nodes t) (cmp t) (cmp_key t).
Definition with_nodes_num (n : Z) (t : ptree) : ptree :=
  Ptree (root t) n (allocated_nodes_num t) (nodes t) (cmp t) (cmp_key t).
Definition with_allocated (n : Z) (t : ptree) : ptree :=
  Ptree (root t) (nodes_num t) n (nodes t) (cmp t) (cmp_key t).
Definition with_nodes (l : list pointer) (t : ptree) : ptree :=
  Ptree (root t) (nodes_num t) (allocated_nodes_num t) l (cmp t) (cmp_key t).

(** The rest of the process: the node objects on the heap, the static
    [_leaf], the static [max_nodes_to_auto_allocate], and the allocator.  The
    allocator is an oracle: request number [allocs] succeeds when
    [alloc_ok allocs] holds, and a successful [malloc] returns the fresh
    address [allocs]. *)
Record world : Type := World {
  heap : gmap nat node;
  leaf_node : node;
  max_nodes_to_auto_allocate : Z;
  allocs : nat;
  alloc_ok : nat -> bool
}.

Definition with_heap (h : gmap nat node) (w : world) : world :=
  World h (leaf_node w) (max_nodes_to_auto_allocate w) (allocs w) (alloc_ok w).
Definition with_leaf (n : node) (w : world) : world :=
  World (heap w) n (max_nodes_to_auto_allocate w) (allocs w) (alloc_ok w).
Definition with_max_auto (m : Z) (w : world) : world :=
  World (heap w) (leaf_node w) m (allocs w) (alloc_ok w).
Definition with_allocs (k : nat) (w : world) : world :=
  World (heap w) (leaf_node w) (max_nodes_to_auto_allocate w) k (alloc_ok w).

(** The state a call works on: the process and the tree object it is given. *)
Record state : Type := State { mem : world; tree : ptree }.

(** ** The monad of C computations *)

(** A call returns, or the process stops: [Oom] is [abort()] through the
    macro [oom()], [Assertion] a failed [assert], [Undefined] an access
    outside an object (a null, dangling or out-of-range access), and
    [Timeout] is the embedding's own: a loop ran out of the iterations it was
    given. *)
Inductive fault : Type := Oom | Assertion | Undefined | Timeout.

Inductive res (A : Type) : Type :=
  | Ok (a : A)
  | Fail (f : fault).
Arguments Ok {A} a.
Arguments Fail {A} f.

Definition M (A : Type) : Type := state -> res (A * state).

Definition ret {A} (a : A) : M A := fun s => Ok (a, s).
Definition bind {A B} (m : M A) (k : A -> M B) : M B :=
  fun s => match m s with
           | Ok (a, s') => k a s'
           | Fail f => Fail f
           end.
Definition fail {A} (f : fault) : M A := fun _ => Fail f.

Notation "'do' x <- m ;; k" := (bind m (fun x => k))
  (at level 10, x name, m at level 99, k at level 200, only parsing).

Definition get_tree : M ptree := fun s => Ok (tree s, s).
Definition put_tree (t : ptree) : M unit := fun s => Ok (tt, State (mem s) t).
Definition get_mem : M world := fun s => Ok (mem s, s).
Definition put_mem (w : world) : M unit := fun s => Ok (tt, State w (tree s)).

Definition assert (b : bool) : M unit :=
  if b then ret tt else fail Assertion.

(** Reading and writing a node object through a pointer. *)
Definition load (p : pointer) : M node :=
  fun s => match p with
           | Null => Fail Undefined
           | Leaf => Ok (leaf_node (mem s), s)
           | Ptr a => match heap (mem s) !! a with
                      | Some n => Ok (n, s)
                      | None => Fail Undefined
                      end
           end.

Definition store (p : pointer) (n : node) : M unit :=
  fun s => match p with
           | Null => Fail Undefined
           | Leaf => Ok (tt, State (with_leaf n (mem s)) (tree s))
           | Ptr a => match heap (mem s) !! a with
                      | Some _ =>
                          Ok (tt, State (with_heap (<[a:=n]> (heap (mem s))) (mem s))
                                        (tree s))
                      | None => Fail Undefined
                      end
           end.

Definition get_ptr (p : pointer) : M Z := do n <- load p ;; ret (ptr n).
Definition get_link (p : pointer) (dir : bool) : M pointer :=
  do n <- load p ;; ret (links n dir).
Definition get_parent (p : pointer) : M pointer := do n <- load p ;; ret (parent n).
Definition get_flags (p : pointer) : M Z := do n <- load p ;; ret (flags n).

Definition set_ptr (p : pointer) (v : Z) : M unit :=
  do n <- load p ;; store p (with_ptr v n).
Definition set_link (p : pointer) (dir : bool) (q : pointer) : M unit :=
  do n <- load p ;; store p (with_link dir q n).
Definition set_parent (p : pointer) (q : pointer) : M unit :=
  do n <- load p ;; store p (with_parent q n).
Definition set_flags (p : pointer) (f : Z) : M unit :=
  do n <- load p ;; store p (with_flags f n).

Definition get_root : M pointer := do t <- get_tree ;; ret (root t).
Definition set_root (p : pointer) : M unit :=
  do t <- get_tree ;; put_tree (with_root p t).

(** [tree->nodes[i]], read and written; outside the table is undefined. *)
Definition get_slot (i : Z) : M pointer :=
  do t <- get_tree ;;
  if (0 <=? i) && (i <? Z.of_nat (length (nodes t))) then
    match nodes t !! Z.to_nat i with
    | Some p => ret p
    | None => fail Undefined
    end
  else fail Undefined.

Definition set_slot (i : Z) (p : pointer) : M unit :=
  do t <- get_tree ;;
  if (0 <=? i) && (i <? Z.of_nat (length (nodes t))) then
    put_tree (with_nodes (<[Z.to_nat i := p]> (nodes t)) t)
  else fail Undefined.

(** The allocator.  [malloc_node] is [malloc(sizeof(ptree_node))]: the null
    pointer when the oracle refuses, else a fresh object of unspecified
    content (modelled as zero; the caller overwrites it). *)
Definition malloc_node : M pointer :=
  do w <- get_mem ;;
  if alloc_ok w (allocs w) then
    do _ <- put_mem (with_allocs (S (allocs w))
               (with_heap (<[allocs w := zero_node]> (heap w)) w)) ;;
    ret (Ptr (allocs w))
  else
    do _ <- put_mem (with_allocs (S (allocs w)) w) ;; ret Null.

(** The size of a pointer in bytes, and the conversion of an integer to
    [size_t] (64 bits wide). *)
Definition sizeof_ptr : Z := 8.

Definition to_size_t (z : Z) : Z := z mod 2 ^ 64.

(** The number of slots of the table that [realloc] returns when it is asked
    for [n * sizeof_ptr] bytes: the product is taken in [size_t]. *)
Definition table_slots (n : Z) : Z := to_size_t (n * sizeof_ptr) / sizeof_ptr.

(** [realloc] of [tree->nodes] to the size in bytes of [n] pointers, followed
    by the assignment of its result when it is not null: [true] and a table
    of [table_slots n] slots that keeps the old contents (new slots hold no
    valid pointer), or [false] and the table as it was. *)
Definition realloc_nodes (n : Z) : M bool :=
  do w <- get_mem ;;
  do _ <- put_mem (with_allocs (S (allocs w)) w) ;;
  if alloc_ok w (allocs w) then
    do t <- get_tree ;;
    let slots := Z.to_nat (table_slots n) in
    do _ <- put_tree (with_nodes (take slots (nodes t)
                            ++ replicate (slots - length (nodes t))%nat Null) t) ;;
    ret true
  else ret false.

(** [free(p)] of a node object. *)
Definition free_node (p : pointer) : M unit :=
  match p with
  | Null => ret tt
  | Leaf => fail Undefined
  | Ptr a =>
      do w <- get_mem ;;
      match heap w !! a with
      | Some _ => put_mem (with_heap (delete a (heap w)) w)
      | None => fail Undefined
      end
  end.

(** ** The functions of ptree.c *)

Section Code.

Variable storage64 : bool.

(** *** Node flags *)

Definition is_red (p : pointer) : M bool :=
  do f <- get_flags p ;; ret (flags_is_red storage64 f).
Definition is_black (p : pointer) : M bool :=
  do f <- get_flags p ;; ret (negb (flags_is_red storage64 f)).
Definition paint_red (p : pointer) : M unit :=
  do f <- get_flags p ;; set_flags p (flags_paint_red storage64 f).
Definition paint_black (p : pointer) : M unit :=
  do f <- get_flags p ;; set_flags p (flags_paint_black storage64 f).

Definition has_child (p : pointer) (dir : bool) : M bool :=
  do c <- get_link p dir ;; ret (negb (ptr_eqb c Leaf)).
Definition is_child (p : pointer) (dir : bool) : M bool :=
  do pp <- get_parent p ;; do c <- get_link pp dir ;; ret (ptr_eqb c p).

Definition get_node_index (p : pointer) : M Z :=
  do f <- get_flags p ;; ret (flags_get_index storage64 f).
Definition set_node_index (p : pointer) (index : Z) : M unit :=
  do f <- get_flags p ;; set_flags p (flags_set_index storage64 f index).

Definition copy_color (dst src : pointer) : M unit :=
  do r <- is_red src ;; if r then paint_red dst else paint_black dst.

(** *** Iteration *)

(** [while (node->links[dir] != leaf) node = node->links[dir];] *)
Fixpoint descend (fuel : nat) (dir : bool) (node : pointer) : M pointer :=
  match fuel with
  | O => fail Timeout
  | S k =>
      do c <- get_link node dir ;;
      if negb (ptr_eqb c Leaf) then descend k dir c else ret node
  end.

(** [while (it != leaf && node == it->links[dir]) { node = it; it = it->parent; }] *)
Fixpoint ascend (fuel : nat) (dir : bool) (node it : pointer) : M pointer :=
  match fuel with
  | O => fail Timeout
  | S k =>
      if negb (ptr_eqb it Leaf) then
        do c <- get_link it dir ;;
        if ptr_eqb node c then
          do p <- get_parent it ;; ascend k dir it p
        else ret it
      else ret it
  end.

(** [get_next_node] is [step_node true], [get_prev_node] is [step_node false]:
    the two functions differ only in the two link indices. *)
Definition step_node (fuel : nat) (dir : bool) (node : pointer) : M pointer :=
  do _ <- assert (negb (ptr_eqb node Null) && negb (ptr_eqb node Leaf)) ;;
  do c <- get_link node dir ;;
  if negb (ptr_eqb c Leaf) then descend fuel (negb dir) c
  else
    do p <- get_parent node ;;
    do it <- ascend fuel dir node p ;;
    ret (if negb (ptr_eqb it Leaf) then it else Null).

Definition get_next_node (fuel : nat) (node : pointer) : M pointer :=
  step_node fuel true node.
Definition get_prev_node (fuel : nat) (node : pointer) : M pointer :=
  step_node fuel false node.

Definition ptree_it_next (fuel : nat) (it : pointer) : M pointer :=
  get_next_node fuel it.
Definition ptree_it_prev (fuel : nat) (it : pointer) : M pointer :=
  get_prev_node fuel it.

(** The number of iterations the loops of one call are given: two more than
    the number of elements.  The theorems show that no loop of a call on a
    tree built by the interface needs more. *)
Definition loop_bound : M nat :=
  do t <- get_tree ;; ret (S (S (Z.to_nat (nodes_num t)))).

(** *** Nodes management *)

Definition ptree_get_max_nodes_to_auto_allocate : M Z :=
  do w <- get_mem ;; ret (max_nodes_to_auto_allocate w).

(** [num] is a [size_t] (64 bits wide). *)
Definition ptree_set_max_nodes_to_auto_allocate (num : Z) : M unit :=
  do w <- get_mem ;; put_mem (with_max_auto (num mod 2 ^ 64) w).

(** The body of the [for] loop of [ptree_allocate_nodes], [count] times from
    index [i]. *)
Fixpoint allocate_loop (count : nat) (i : Z) : M unit :=
  match count with
  | O => ret tt
  | S k =>
      do p <- malloc_node ;;
      do _ <- set_slot i p ;;
      if ptr_eqb p Null then fail Oom
      else
        do _ <- store p zero_node ;;
        do _ <- set_node_index p i ;;
        do _ <- paint_black p ;;
        allocate_loop k (i + 1)
  end.

(** [num_nodes] is a [size_t]; the sum is converted to [ptree_size_int]. *)
Definition ptree_allocate_nodes (num_nodes : Z) : M unit :=
  do t <- get_tree ;;
  let nodes_to_reallocate := wrap storage64 (allocated_nodes_num t + num_nodes) in
  if max_nodes storage64 <? nodes_to_reallocate then fail Oom
  else
    do ok <- realloc_nodes nodes_to_reallocate ;;
    if negb ok then fail Oom
    else
      do _ <- allocate_loop
                (Z.to_nat (nodes_to_reallocate - allocated_nodes_num t))
                (allocated_nodes_num t) ;;
      do t' <- get_tree ;;
      put_tree (with_allocated nodes_to_reallocate t').

(** [add_node], in two parts: the [if] that grows the arena when no slot is
    free, and the rest, which takes the first free slot. *)
Definition grow_if_full : M unit :=
  do t <- get_tree ;;
  if allocated_nodes_num t <=? nodes_num t then
    do w <- get_mem ;;
    let nodes_to_allocate :=
      if 1 <? allocated_nodes_num t then allocated_nodes_num t else 1 in
    let nodes_to_allocate :=
      if negb (max_nodes_to_auto_allocate w =? 0)
         && (max_nodes_to_auto_allocate w <? allocated_nodes_num t)
      then wrap storage64 (max_nodes_to_auto_allocate w)
      else nodes_to_allocate in
    ptree_allocate_nodes nodes_to_allocate
  else ret tt.

Definition take_free_slot (p : Z) : M pointer :=
  do t <- get_tree ;;
  do node <- get_slot (nodes_num t) ;;
  do _ <- put_tree (with_nodes_num (wrap storage64 (nodes_num t + 1)) t) ;;
  do _ <- set_ptr node p ;;
  do _ <- paint_black node ;;
  do _ <- paint_red node ;;
  do _ <- set_parent node Leaf ;;
  do _ <- set_link node false Leaf ;;
  do _ <- set_link node true Leaf ;;
  ret node.

Definition add_node (p : Z) : M pointer :=
  do _ <- grow_if_full ;; take_free_slot p.

(** [node_index] is an [int32_t] in both builds. *)
Definition release_node (node : pointer) : M unit :=
  do t <- get_tree ;;
  do _ <- put_tree (with_nodes_num (wrap storage64 (nodes_num t - 1)) t) ;;
  do t <- get_tree ;;
  do i <- get_node_index node ;;
  let node_index := to_int32 i in
  do last <- get_slot (nodes_num t) ;;
  do _ <- set_node_index last node_index ;;
  do _ <- set_node_index node (nodes_num t) ;;
  do last <- get_slot (nodes_num t) ;;
  do _ <- set_slot node_index last ;;
  set_slot (nodes_num t) node.

Fixpoint free_loop (count : nat) (i : Z) : M unit :=
  match count with
  | O => ret tt
  | S k =>
      do p <- get_slot i ;;
      do _ <- free_node p ;;
      free_loop k (i + 1)
  end.

Definition ptree_shrink : M unit :=
  do t <- get_tree ;;
  do _ <- free_loop (Z.to_nat (allocated_nodes_num t - nodes_num t)) (nodes_num t) ;;
  do ok <- realloc_nodes (nodes_num t) ;;
  if negb ok then fail Oom else ret tt.

(** *** Tree management *)

(** [ptree_new] in the process [w]: the tree object is obtained from
    [malloc], zeroed, and given its first slots; [preallocated_nodes], an
    [int32_t], is converted to [size_t]. *)
Definition ptree_new (cmp_elem cmp_key : Z -> Z -> Z) (preallocated_nodes : Z)
    (w : world) : res state :=
  if alloc_ok w (allocs w) then
    match ptree_allocate_nodes (to_size_t preallocated_nodes)
            (State (with_allocs (S (allocs w)) w)
                   (Ptree Leaf 0 0 [] cmp_elem cmp_key)) with
    | Ok (_, s) => Ok s
    | Fail f => Fail f
    end
  else Fail Oom.

Definition ptree_free : M unit :=
  do t <- get_tree ;;
  do _ <- free_loop (Z.to_nat (allocated_nodes_num t)) 0 ;;
  put_tree (with_nodes [] t).

Definition ptree_empty : M unit :=
  do _ <- set_root Leaf ;;
  do t <- get_tree ;; put_tree (with_nodes_num 0 t).

(** *** Getters *)

Fixpoint get_it_loop (fuel : nat) (key : Z) (it : pointer) : M pointer :=
  match fuel with
  | O => fail Timeout
  | S k =>
      if negb (ptr_eqb it Leaf) then
        do t <- get_tree ;;
        do v <- get_ptr it ;;
        let diff := cmp_key t key v in
        if diff =? 0 then ret it
        else
          let dir := 0 <? diff in
          do h <- has_child it dir ;;
          if h then do c <- get_link it dir ;; get_it_loop k key c
          else ret Null
      else ret Null
  end.

Definition ptree_get_it (key : Z) : M pointer :=
  do fuel <- loop_bound ;;
  do r <- get_root ;;
  get_it_loop fuel key r.

(** The result is a handle; [0] is [NULL]. *)
Definition ptree_get (key : Z) : M Z :=
  do it <- ptree_get_it key ;;
  if negb (ptr_eqb it Null) then get_ptr it else ret 0.

Fixpoint search_loop (fuel : nat) (p : Z) (z : pointer) : M pointer :=
  match fuel with
  | O => fail Timeout
  | S k =>
      if negb (ptr_eqb z Leaf) then
        do t <- get_tree ;;
        do v <- get_ptr z ;;
        let diff := cmp t p v in
        if diff =? 0 then ret z
        else
          let dir := 0 <? diff in
          do h <- has_child z dir ;;
          if h then do c <- get_link z dir ;; search_loop k p c
          else ret Null
      else ret z
  end.

Definition ptree_search (p : Z) : M pointer :=
  do fuel <- loop_bound ;;
  do r <- get_root ;;
  if ptr_eqb r Leaf then ret Null
  else search_loop fuel p r.

Definition ptree_has (p : Z) : M pointer :=
  do n <- ptree_search p ;;
  if ptr_eqb n Null then ret Null else ret n.

(** [ptree_min] is [ptree_extreme false], [ptree_max] is [ptree_extreme true]. *)
Definition ptree_extreme (dir : bool) : M pointer :=
  do fuel <- loop_bound ;;
  do r <- get_root ;;
  if ptr_eqb r Leaf then ret Null
  else descend fuel dir r.

Definition ptree_min : M pointer := ptree_extreme false.
Definition ptree_max : M pointer := ptree_extreme true.

Definition ptree_size : M Z :=
  do t <- get_tree ;; ret (to_int32 (nodes_num t)).

(** *** Insertion and removal *)

Definition rotate (x : pointer) (dir : bool) : M unit :=
  do h <- has_child x (negb dir) ;;
  do _ <- assert h ;;
  do y <- get_link x (negb dir) ;;
  do yd <- get_link y dir ;;
  do _ <- set_link x (negb dir) yd ;;
  do yd <- get_link y dir ;;
  do _ <- (if negb (ptr_eqb yd Leaf) then set_parent yd x else ret tt) ;;
  do xp <- get_parent x ;;
  do _ <- set_parent y xp ;;
  do xp <- get_parent x ;;
  do _ <- (if ptr_eqb xp Leaf then set_root y
           else
             do xp0 <- get_link xp false ;;
             if ptr_eqb x xp0 then set_link xp false y
             else set_link xp true y) ;;
  do _ <- set_link y dir x ;;
  set_parent x y.

(** The [while (true)] loop of [ptree_insert]: [None] when an equal element
    is met, else the node added. *)
Fixpoint insert_descend (fuel : nat) (p : Z) (x : pointer) : M (option pointer) :=
  match fuel with
  | O => fail Timeout
  | S k =>
      do t <- get_tree ;;
      do v <- get_ptr x ;;
      let c := cmp t p v in
      if c =? 0 then ret None
      else
        let dir := 0 <? c in
        do h <- has_child x dir ;;
        if h then do x' <- get_link x dir ;; insert_descend k p x'
        else
          do n <- add_node p ;;
          do _ <- set_link x dir n ;;
          do c <- get_link x dir ;;
          do _ <- set_parent c x ;;
          do x' <- get_link x dir ;;
          ret (Some x')
  end.

(** The rebalancing loop of [ptree_insert]. *)
Fixpoint insert_fixup (fuel : nat) (x : pointer) : M unit :=
  match fuel with
  | O => fail Timeout
  | S k =>
      do r <- get_root ;;
      if ptr_eqb x r then ret tt
      else
        do xp <- get_parent x ;;
        do red <- is_red xp ;;
        if negb red then ret tt
        else
          do lefty <- is_child xp false ;;
          do g <- get_parent xp ;;
          do y <- get_link g lefty ;;
          do yred <- is_red y ;;
          if yred then
            do _ <- paint_black xp ;;
            do _ <- paint_black y ;;
            do xp <- get_parent x ;;
            do g <- get_parent xp ;;
            do _ <- paint_red g ;;
            insert_fixup k g
          else
            do inner <- is_child x lefty ;;
            do x <- (if inner then
                       do xp <- get_parent x ;;
                       do _ <- rotate xp (negb lefty) ;;
                       ret xp
                     else ret x) ;;
            do xp <- get_parent x ;;
            do _ <- paint_black xp ;;
            do xp <- get_parent x ;;
            do g <- get_parent xp ;;
            do _ <- paint_red g ;;
            do xp <- get_parent x ;;
            do g <- get_parent xp ;;
            do _ <- rotate g lefty ;;
            insert_fixup k x
  end.

(** Returns 1 ([true]) or 0 ([false]). *)
Definition ptree_insert (p : Z) : M bool :=
  do r <- get_root ;;
  if ptr_eqb r Leaf then
    do n <- add_node p ;;
    do _ <- set_root n ;;
    do r <- get_root ;;
    do _ <- paint_black r ;;
    ret true
  else
    do fuel <- loop_bound ;;
    do r <- get_root ;;
    do found <- insert_descend fuel p r ;;
    match found with
    | None => ret false
    | Some x =>
        do fuel <- loop_bound ;;
        do _ <- insert_fixup fuel x ;;
        do r <- get_root ;;
        do _ <- paint_black r ;;
        ret true
    end.

(** The rebalancing loop of [ptree_remove_node]; the result is the final [x]. *)
Fixpoint remove_fixup (fuel : nat) (x : pointer) : M pointer :=
  match fuel with
  | O => fail Timeout
  | S k =>
      do r <- get_root ;;
      if ptr_eqb x r then ret x
      else
        do xb <- is_black x ;;
        if negb xb then ret x
        else
          do XL <- is_child x false ;;
          do xp <- get_parent x ;;
          do w <- get_link xp XL ;;
          do _ <- assert (negb (ptr_eqb w Leaf)) ;;
          do wred <- is_red w ;;
          do w <- (if wred then
                     do _ <- paint_black w ;;
                     do xp <- get_parent x ;;
                     do _ <- paint_red xp ;;
                     do xp <- get_parent x ;;
                     do _ <- rotate xp (negb XL) ;;
                     do xp <- get_parent x ;;
                     do w <- get_link xp XL ;;
                     do _ <- assert (negb (ptr_eqb w Leaf)) ;;
                     ret w
                   else ret w) ;;
          do w0 <- get_link w false ;;
          do b0 <- is_black w0 ;;
          do both <- (if b0 then do w1 <- get_link w true ;; is_black w1
                      else ret false) ;;
          if both then
            do _ <- paint_red w ;;
            do xp <- get_parent x ;;
            remove_fixup k xp
          else
            do wfar <- get_link w XL ;;
            do bfar <- is_black wfar ;;
            do w <- (if bfar then
                       do wnear <- get_link w (negb XL) ;;
                       do _ <- paint_black wnear ;;
                       do _ <- paint_red w ;;
                       do _ <- rotate w XL ;;
                       do xp <- get_parent x ;;
                       do w <- get_link xp XL ;;
                       do _ <- assert (negb (ptr_eqb w Leaf)) ;;
                       ret w
                     else ret w) ;;
            do xp <- get_parent x ;;
            do _ <- copy_color w xp ;;
            do xp <- get_parent x ;;
            do _ <- paint_black xp ;;
            do wfar <- get_link w XL ;;
            do _ <- paint_black wfar ;;
            do xp <- get_parent x ;;
            do _ <- rotate xp (negb XL) ;;
            ret x
  end.

(** [ptree_remove_node], in two parts: the choice of the node [y] to unlink,
    and the rest. *)
Definition choose_unlinked (fuel : nat) (z : pointer) : M pointer :=
  do h0 <- has_child z false ;;
  do two <- (if h0 then has_child z true else ret false) ;;
  if negb two then ret z else get_next_node fuel z.

Definition unlink_node (fuel : nat) (y z : pointer) : M bool :=
  do hy <- has_child y false ;;
  do x <- get_link y (negb hy) ;;
  do yp <- get_parent y ;;
  do _ <- set_parent x yp ;;
  do yp <- get_parent y ;;
  do _ <- (if ptr_eqb yp Leaf then set_root x
           else
             do side <- is_child y true ;;
             do yp <- get_parent y ;;
             set_link yp side x) ;;
  do _ <- (if negb (ptr_eqb y z) then
             do v <- get_ptr y ;; set_ptr z v
           else ret tt) ;;
  do yb <- is_black y ;;
  do x <- (if yb then remove_fixup fuel x else ret x) ;;
  do _ <- paint_black x ;;
  do _ <- release_node y ;;
  ret true.

Definition ptree_remove_node (z : pointer) : M bool :=
  do fuel <- loop_bound ;;
  do y <- choose_unlinked fuel z ;;
  unlink_node fuel y z.

Definition ptree_remove (p : Z) : M bool :=
  do r <- get_root ;;
  if ptr_eqb r Leaf then ret false
  else
    do z <- ptree_search p ;;
    if ptr_eqb z Null then ret false
    else ptree_remove_node z.

Definition ptree_remove_by_it (it : pointer) : M unit :=
  do _ <- ptree_remove_node it ;; ret tt.

Definition ptree_remove_by_key (key : Z) : M bool :=
  do it <- ptree_get_it key ;;
  if negb (ptr_eqb it Null) then
    do _ <- ptree_remove_node it ;; ret true
  else ret false.

End Code.

(** ** Running the interface *)

(** The process before any call: no node object, the sentinel as its
    initializer gives it, the growth cap 0. *)
Definition initial_world (oracle : nat -> bool) : world :=
  World ∅ (Node 0 Null Null Null 0) 0 0%nat oracle.

(** In-order traversal as a caller writes it: [ptree_min], then
    [ptree_it_next] until it returns [NULL], collecting [it->ptr]. *)
Fixpoint traverse_from (fuel : nat) (it : pointer) : M (list Z) :=
  match fuel with
  | O => fail Timeout
  | S k =>
      if ptr_eqb it Null then ret []
      else
        do v <- get_ptr it ;;
        do b <- loop_bound ;;
        do next <- ptree_it_next b it ;;
        do rest <- traverse_from k next ;;
        ret (v :: rest)
  end.

Definition traverse : M (list Z) :=
  do b <- loop_bound ;;
  do it <- ptree_min ;;
  traverse_from b it.

(** A caller: [ptree_new], then insertions and removals; the results of the
    calls are collected. *)
Inductive op : Type := Insert (v : Z) | Remove (v : Z).

Definition run_op (storage64 : bool) (o : op) : M bool :=
  match o with
  | Insert v => ptree_insert storage64 v
  | Remove v => ptree_remove storage64 v
  end.

Fixpoint run_ops (storage64 : bool) (ops : list op) : M (list bool) :=
  match ops with
  | [] => ret []
  | o :: ops' =>
      do r <- run_op storage64 o ;;
      do rs <- run_ops storage64 ops' ;;
      ret (r :: rs)
  end.

Definition session (storage64 : bool) (cmp_elem cmp_key : Z -> Z -> Z)
    (preallocated_nodes : Z) (w : world) (ops : list op) : res (list bool * state) :=
  match ptree_new storage64 cmp_elem cmp_key preallocated_nodes w with
  | Ok s => run_ops storage64 ops s
  | Fail f => Fail f
  end.

(** * Verification *)

(** ** The flags word: colour bit and index *)

Section Flags.

Variable storage64 : bool.

Definition index_bits : Z := word_bits storage64 - 1.

Lemma red_flag_pow : red_flag storage64 = 2 ^ index_bits.
Proof. unfold index_bits, red_flag, word_bits. by destruct storage64. Qed.

Lemma index_bits_pos : 0 < index_bits.
Proof. unfold index_bits, word_bits. destruct storage64; lia. Qed.

Lemma red_flag_pos : 0 < red_flag storage64.
Proof. unfold red_flag. destruct storage64; lia. Qed.

Lemma max_nodes_red : max_nodes storage64 = red_flag storage64 - 1.
Proof. unfold max_nodes, red_flag. by destruct storage64. Qed.

Lemma word_red : 2 ^ word_bits storage64 = 2 * red_flag storage64.
Proof. unfold word_bits, red_flag. by destruct storage64. Qed.

Lemma wnot_red_flag : wnot storage64 (red_flag storage64) = Z.ones index_bits.
Proof.
  unfold wnot, wrap, index_bits, word_bits, red_flag.
  by destruct storage64.
Qed.

Lemma wrap_small z : 0 <= z < 2 * red_flag storage64 -> wrap storage64 z = z.
Proof. intros H. unfold wrap. rewrite word_red. by apply Z.mod_small. Qed.

(** The flags word of a node of colour [c] (red is [true]) and index [i]. *)
Definition mkflags (c : bool) (i : Z) : Z :=
  i + (if c then red_flag storage64 else 0).

Lemma land_pow2_small i k : 0 <= k -> 0 <= i < 2 ^ k -> Z.land i (2 ^ k) = 0.
Proof.
  intros Hk Hi. apply Z.bits_inj'. intros n Hn.
  rewrite Z.land_spec, Z.bits_0, Z.pow2_bits_eqb by lia.
  destruct (Z.eqb_spec k n) as [->|]; [|by rewrite andb_false_r].
  rewrite andb_true_r. apply Z.testbit_false; [lia|].
  by rewrite Z.div_small.
Qed.

Lemma lor_pow2_small i k : 0 <= k -> 0 <= i < 2 ^ k -> Z.lor i (2 ^ k) = i + 2 ^ k.
Proof.
  intros Hk Hi. pose proof (land_pow2_small i k Hk Hi) as H.
  rewrite (Z.add_nocarry_lxor _ _ H). symmetry. by apply Z.lxor_lor.
Qed.

Lemma land_pow2_set i k : 0 <= k -> 0 <= i < 2 ^ k -> Z.land (i + 2 ^ k) (2 ^ k) = 2 ^ k.
Proof.
  intros Hk Hi. rewrite <- lor_pow2_small by done.
  rewrite Z.land_lor_distr_l, Z.land_diag, land_pow2_small by done.
  apply Z.lor_0_l.
Qed.

Section InRange.

Variables (c : bool) (i : Z).
Hypothesis Hi : 0 <= i < red_flag storage64.

Lemma mkflags_land_red :
  Z.land (mkflags c i) (red_flag storage64) = if c then red_flag storage64 else 0.
Proof using Hi.
  pose proof index_bits_pos. unfold mkflags. rewrite red_flag_pow in *.
  destruct c; [apply land_pow2_set | rewrite Z.add_0_r; apply land_pow2_small]; lia.
Qed.

Lemma mkflags_is_red : flags_is_red storage64 (mkflags c i) = c.
Proof using Hi.
  unfold flags_is_red. rewrite mkflags_land_red. pose proof red_flag_pos.
  destruct c; [|done]. destruct (Z.eqb_spec (red_flag storage64) 0); [lia|done].
Qed.

Lemma mkflags_get_index : flags_get_index storage64 (mkflags c i) = i.
Proof using Hi.
  unfold flags_get_index. rewrite wnot_red_flag, Z.land_ones by (pose proof index_bits_pos; lia).
  unfold mkflags. rewrite red_flag_pow in *. destruct c.
  - rewrite <- (Z.mul_1_l (2 ^ index_bits)) at 1. rewrite Z.mod_add by lia.
    by apply Z.mod_small.
  - rewrite Z.add_0_r. by apply Z.mod_small.
Qed.

Lemma mkflags_paint_black :
  flags_paint_black storage64 (mkflags c i) = mkflags false i.
Proof using Hi.
  change (flags_paint_black storage64 (mkflags c i))
    with (flags_get_index storage64 (mkflags c i)).
  rewrite mkflags_get_index. unfold mkflags. lia.
Qed.

Lemma mkflags_paint_red :
  flags_paint_red storage64 (mkflags c i) = mkflags true i.
Proof using Hi.
  pose proof index_bits_pos.
  unfold flags_paint_red, mkflags. rewrite red_flag_pow in *. destruct c.
  - rewrite <- lor_pow2_small by lia. rewrite <- Z.lor_assoc, Z.lor_diag. done.
  - rewrite Z.add_0_r. apply lor_pow2_small; lia.
Qed.

Lemma mkflags_set_index j :
  0 <= j < red_flag storage64 ->
  flags_set_index storage64 (mkflags c i) j = mkflags c j.
Proof using Hi.
  intros Hj. pose proof index_bits_pos.
  unfold flags_set_index. rewrite mkflags_land_red, wrap_small by lia.
  unfold mkflags. destruct c.
  - rewrite red_flag_pow in *. apply lor_pow2_small; lia.
  - rewrite Z.lor_0_r. lia.
Qed.

End InRange.

Lemma flags_zero_black : flags_is_red storage64 0 = false.
Proof. unfold flags_is_red. by rewrite Z.land_0_l. Qed.

Lemma flags_zero_paint_black : flags_paint_black storage64 0 = 0.
Proof. unfold flags_paint_black. by rewrite Z.land_0_l. Qed.

End Flags.

(** ** The tree a heap represents *)

(** A binary tree whose nodes carry what the node object holds: colour (red is
    [true]), address, index, and handle. *)
Inductive rbt : Type :=
  | E
  | T (c : bool) (a : nat) (i : Z) (l : rbt) (v : Z) (r : rbt).

Definition rootp (t : rbt) : pointer :=
  match t with E => Leaf | T _ a _ _ _ _ => Ptr a end.

Fixpoint addrs (t : rbt) : list nat :=
  match t with E => [] | T _ a _ l _ r => a :: addrs l ++ addrs r end.

Fixpoint labels (t : rbt) : list (nat * Z) :=
  match t with E => [] | T _ a i l _ r => (a, i) :: labels l ++ labels r end.

Fixpoint inorder (t : rbt) : list Z :=
  match t with E => [] | T _ _ _ l v r => inorder l ++ v :: inorder r end.

Fixpoint height (t : rbt) : nat :=
  match t with E => O | T _ _ _ l _ r => S (Nat.max (height l) (height r)) end.

(** One step of a path from the root: the node passed, the side taken
    ([fdir] is the index of the link followed) and the subtree left aside. *)
Record frame : Type := Frame {
  fdir : bool;
  fcol : bool;
  faddr : nat;
  fidx : Z;
  fval : Z;
  fsib : rbt
}.

Definition fill (f : frame) (s : rbt) : rbt :=
  if fdir f then T (fcol f) (faddr f) (fidx f) (fsib f) (fval f) s
  else T (fcol f) (faddr f) (fidx f) s (fval f) (fsib f).

(** A context lists the frames from the hole up to the root. *)
Fixpoint plug (ctx : list frame) (s : rbt) : rbt :=
  match ctx with [] => s | f :: ctx' => plug ctx' (fill f s) end.

Definition ctx_par (ctx : list frame) : pointer :=
  match ctx with [] => Leaf | f :: _ => Ptr (faddr f) end.

Fixpoint addrs_ctx (ctx : list frame) : list nat :=
  match ctx with
  | [] => []
  | f :: ctx' => faddr f :: addrs (fsib f) ++ addrs_ctx ctx'
  end.

Fixpoint labels_ctx (ctx : list frame) : list (nat * Z) :=
  match ctx with
  | [] => []
  | f :: ctx' => (faddr f, fidx f) :: labels (fsib f) ++ labels_ctx ctx'
  end.

(** The handles before and after the hole, in order. *)
Fixpoint before (ctx : list frame) : list Z :=
  match ctx with
  | [] => []
  | f :: ctx' =>
      before ctx' ++ (if fdir f then inorder (fsib f) ++ [fval f] else [])
  end.

Fixpoint after (ctx : list frame) : list Z :=
  match ctx with
  | [] => []
  | f :: ctx' =>
      (if fdir f then [] else fval f :: inorder (fsib f)) ++ after ctx'
  end.

Lemma addrs_labels t : addrs t = (labels t).*1.
Proof. induction t; simpl; [done|]. rewrite fmap_app. congruence. Qed.

Lemma addrs_plug ctx s : addrs (plug ctx s) ≡ₚ addrs s ++ addrs_ctx ctx.
Proof.
  revert s. induction ctx as [|[[] c a i v sib] ctx IH]; intros s; simpl.
  - by rewrite app_nil_r.
  - rewrite IH. simpl. solve_Permutation.
  - rewrite IH. simpl. solve_Permutation.
Qed.

Lemma labels_plug ctx s : labels (plug ctx s) ≡ₚ labels s ++ labels_ctx ctx.
Proof.
  revert s. induction ctx as [|[[] c a i v sib] ctx IH]; intros s; simpl.
  - by rewrite app_nil_r.
  - rewrite IH. simpl. solve_Permutation.
  - rewrite IH. simpl. solve_Permutation.
Qed.

Lemma inorder_plug ctx s :
  inorder (plug ctx s) = before ctx ++ inorder s ++ after ctx.
Proof.
  revert s. induction ctx as [|[[] c a i v sib] ctx IH]; intros s; simpl.
  - by rewrite app_nil_r.
  - rewrite IH. simpl. by rewrite <- ?app_assoc.
  - rewrite IH. simpl. by rewrite <- ?app_assoc, ?app_nil_r.
Qed.

Lemma length_addrs_plug ctx s :
  length (addrs (plug ctx s)) = (length (addrs s) + length (addrs_ctx ctx))%nat.
Proof. by rewrite addrs_plug, length_app. Qed.

Lemma length_addrs_ctx ctx : (length ctx <= length (addrs_ctx ctx))%nat.
Proof. induction ctx; simpl; [lia|]. rewrite length_app. lia. Qed.

Lemma rootp_not_in t a : a ∉ addrs t -> rootp t <> Ptr a.
Proof. destruct t; simpl; [done|]. intros H [= ->]. set_solver. Qed.

Lemma rootp_leaf t : rootp t = Leaf -> t = E.
Proof. by destruct t. Qed.

(** ** Weakest preconditions *)

Definition wp {A} (m : M A) (s : state) (Q : A -> state -> Prop) : Prop :=
  match m s with
  | Ok (a, s') => Q a s'
  | Fail _ => False
  end.

Lemma wp_ret {A} (a : A) s Q : Q a s -> wp (ret a) s Q.
Proof. done. Qed.

Lemma wp_bind {A B} (m : M A) (k : A -> M B) s Q :
  wp m s (fun a s' => wp (k a) s' Q) -> wp (bind m k) s Q.
Proof. unfold wp, bind. by destruct (m s) as [[a s']|]. Qed.

Lemma wp_mono {A} (m : M A) s (Q Q' : A -> state -> Prop) :
  wp m s Q -> (forall a s', Q a s' -> Q' a s') -> wp m s Q'.
Proof. unfold wp. destruct (m s) as [[a s']|]; auto. Qed.

Lemma wp_eq {A} (m : M A) s a s' (Q : A -> state -> Prop) :
  m s = Ok (a, s') -> Q a s' -> wp m s Q.
Proof. unfold wp. by intros ->. Qed.

Lemma wp_inv {A} (m : M A) s Q :
  wp m s Q -> exists a s', m s = Ok (a, s') /\ Q a s'.
Proof. unfold wp. destruct (m s) as [[a s']|]; [eauto|done]. Qed.

Lemma wp_assert b s Q : b = true -> Q tt s -> wp (assert b) s Q.
Proof. by intros ->. Qed.

Lemma wp_get_tree s Q : Q (tree s) s -> wp get_tree s Q.
Proof. done. Qed.

Lemma wp_get_mem s Q : Q (mem s) s -> wp get_mem s Q.
Proof. done. Qed.

Lemma wp_put_tree t s Q : Q tt (State (mem s) t) -> wp (put_tree t) s Q.
Proof. done. Qed.

Lemma wp_put_mem w s Q : Q tt (State w (tree s)) -> wp (put_mem w) s Q.
Proof. done. Qed.

Lemma wp_get_root s Q : Q (root (tree s)) s -> wp get_root s Q.
Proof. done. Qed.

Lemma wp_set_root p s Q :
  Q tt (State (mem s) (with_root p (tree s))) -> wp (set_root p) s Q.
Proof. done. Qed.

Lemma wp_loop_bound s Q :
  Q (S (S (Z.to_nat (nodes_num (tree s))))) s -> wp loop_bound s Q.
Proof. done. Qed.

Section Load.

Variables (p : pointer) (s : state) (n : node).
Hypothesis Hload : load p s = Ok (n, s).

Lemma wp_load Q : Q n s -> wp (load p) s Q.
Proof using Hload. by apply wp_eq. Qed.

Lemma wp_get_ptr Q : Q (ptr n) s -> wp (get_ptr p) s Q.
Proof using Hload. intros. unfold get_ptr. apply wp_bind. by apply wp_load. Qed.

Lemma wp_get_link dir Q : Q (links n dir) s -> wp (get_link p dir) s Q.
Proof using Hload. intros. unfold get_link. apply wp_bind. by apply wp_load. Qed.

Lemma wp_get_parent Q : Q (parent n) s -> wp (get_parent p) s Q.
Proof using Hload. intros. unfold get_parent. apply wp_bind. by apply wp_load. Qed.

Lemma wp_get_flags Q : Q (flags n) s -> wp (get_flags p) s Q.
Proof using Hload. intros. unfold get_flags. apply wp_bind. by apply wp_load. Qed.

Lemma wp_has_child dir Q :
  Q (negb (ptr_eqb (links n dir) Leaf)) s -> wp (has_child p dir) s Q.
Proof using Hload. intros. unfold has_child. apply wp_bind. by apply wp_get_link. Qed.

Lemma wp_is_red b64 Q : Q (flags_is_red b64 (flags n)) s -> wp (is_red b64 p) s Q.
Proof using Hload. intros. unfold is_red. apply wp_bind. by apply wp_get_flags. Qed.

Lemma wp_is_black b64 Q :
  Q (negb (flags_is_red b64 (flags n))) s -> wp (is_black b64 p) s Q.
Proof using Hload. intros. unfold is_black. apply wp_bind. by apply wp_get_flags. Qed.

End Load.

Lemma load_leaf s : load Leaf s = Ok (leaf_node (mem s), s).
Proof. done. Qed.

Lemma ptr_eqb_refl p : ptr_eqb p p = true.
Proof. unfold ptr_eqb. by apply bool_decide_eq_true. Qed.

Lemma ptr_eqb_ne p q : p <> q -> ptr_eqb p q = false.
Proof. unfold ptr_eqb. by apply bool_decide_eq_false. Qed.

Lemma ptr_eqb_true p q : ptr_eqb p q = true -> p = q.
Proof. unfold ptr_eqb. by intros ?%bool_decide_eq_true. Qed.

Lemma ptr_eqb_false p q : ptr_eqb p q = false -> p <> q.
Proof. unfold ptr_eqb. by intros ?%bool_decide_eq_false. Qed.

Lemma ptr_eqb_rootp_leaf t : ptr_eqb (rootp t) Leaf = match t with E => true | _ => false end.
Proof. by destruct t. Qed.

(** ** Heaps that represent a tree *)

Section Rep.

Variable storage64 : bool.

Notation "'in_range' i" := (0 <= i < red_flag storage64) (at level 10, i at level 9, only parsing).

(** [rep h par t]: the node objects of [t] are in [h] as [t] describes them,
    the root's parent field being [par]. *)
Fixpoint rep (h : gmap nat node) (par : pointer) (t : rbt) : Prop :=
  match t with
  | E => True
  | T c a i l v r =>
      in_range i
      /\ h !! a = Some (Node v (rootp l) (rootp r) par (mkflags storage64 c i))
      /\ rep h (Ptr a) l /\ rep h (Ptr a) r
  end.

Fixpoint rep_ctx (h : gmap nat node) (ctx : list frame) (q : pointer) : Prop :=
  match ctx with
  | [] => True
  | f :: ctx' =>
      in_range (fidx f)
      /\ h !! faddr f =
           Some (Node (fval f)
                   (if fdir f then rootp (fsib f) else q)
                   (if fdir f then q else rootp (fsib f))
                   (ctx_par ctx') (mkflags storage64 (fcol f) (fidx f)))
      /\ rep h (Ptr (faddr f)) (fsib f)
      /\ rep_ctx h ctx' (Ptr (faddr f))
  end.

Lemma rep_plug h ctx s :
  rep h Leaf (plug ctx s) <-> rep h (ctx_par ctx) s /\ rep_ctx h ctx (rootp s).
Proof.
  revert s. induction ctx as [|[d c a i v sib] ctx IH]; intros s; simpl.
  - tauto.
  - rewrite IH. unfold fill. simpl. destruct d; simpl; tauto.
Qed.

Lemma rep_frame h h' par t :
  (forall a, a ∈ addrs t -> h' !! a = h !! a) -> rep h par t -> rep h' par t.
Proof.
  revert par. induction t as [|c a i l IHl v r IHr]; intros par Hag; simpl; [done|].
  intros (Hrg & Ha & Hl & Hr). simpl in Hag. split_and!; try lia.
  - rewrite Hag; [done|set_solver].
  - apply IHl; [|done]. intros; apply Hag; set_solver.
  - apply IHr; [|done]. intros; apply Hag; set_solver.
Qed.

Lemma rep_ctx_frame h h' ctx q :
  (forall a, a ∈ addrs_ctx ctx -> h' !! a = h !! a) ->
  rep_ctx h ctx q -> rep_ctx h' ctx q.
Proof.
  revert q. induction ctx as [|f ctx IH]; intros q Hag; simpl; [done|].
  intros (Hrg & Ha & Hs & Hc). simpl in Hag. split_and!; try lia.
  - rewrite Hag; [done|set_solver].
  - eapply rep_frame; [|done]. intros; apply Hag; set_solver.
  - apply IH; [|done]. intros; apply Hag; set_solver.
Qed.

(** The parent field of the root of a represented tree can be rewritten. *)
Lemma rep_reparent h par par' t n :
  rep h par t -> NoDup (addrs t) ->
  match t with
  | E => True
  | T c a i l v r =>
      n = Node v (rootp l) (rootp r) par' (mkflags storage64 c i)
  end ->
  rep (match t with E => h | T _ a _ _ _ _ => <[a:=n]> h end) par' t.
Proof.
  destruct t as [|c a i l v r]; simpl; [done|].
  intros (Hrg & Ha & Hl & Hr) Hnd ->. apply NoDup_cons in Hnd as [Hnin Hnd].
  split_and!; try lia; [by rewrite lookup_insert_eq| |].
  - eapply rep_frame; [|done]. intros b Hb. rewrite lookup_insert_ne; [done|set_solver].
  - eapply rep_frame; [|done]. intros b Hb. rewrite lookup_insert_ne; [done|set_solver].
Qed.

Lemma rep_is_Some h par t a : rep h par t -> a ∈ addrs t -> is_Some (h !! a).
Proof.
  revert par. induction t as [|c b i l IHl v r IHr]; intros par; simpl; [set_solver|].
  intros (Hrg & Ha & Hl & Hr) Hin.
  apply elem_of_cons in Hin as [->|Hin]; [eauto|].
  apply elem_of_app in Hin as [?|?]; eauto.
Qed.

End Rep.

(** [wpo] is [wp] for a call that may stop the process with [oom()]. *)
Definition wpo {A} (m : M A) (s : state) (Q : A -> state -> Prop) : Prop :=
  match m s with
  | Ok (a, s') => Q a s'
  | Fail Oom => True
  | Fail _ => False
  end.

Lemma wp_wpo {A} (m : M A) s Q : wp m s Q -> wpo m s Q.
Proof. unfold wp, wpo. by destruct (m s) as [[a s']|[]]. Qed.

Lemma wpo_bind {A B} (m : M A) (k : A -> M B) s Q :
  wpo m s (fun a s' => wpo (k a) s' Q) -> wpo (bind m k) s Q.
Proof. unfold wpo, bind. by destruct (m s) as [[a s']|[]]. Qed.

Lemma wpo_mono {A} (m : M A) s (Q Q' : A -> state -> Prop) :
  wpo m s Q -> (forall a s', Q a s' -> Q' a s') -> wpo m s Q'.
Proof. unfold wpo. destruct (m s) as [[a s']|[]]; auto. Qed.

Lemma wpo_oom {A} s (Q : A -> state -> Prop) : wpo (fail Oom) s Q.
Proof. done. Qed.

Lemma wpo_inv {A} (m : M A) s Q :
  wpo m s Q -> m s = Fail Oom \/ exists a s', m s = Ok (a, s') /\ Q a s'.
Proof. unfold wpo. destruct (m s) as [[a s']|[]]; eauto; done. Qed.

(** ** A state that represents a tree *)

Lemma wp_load_ptr a n s Q :
  heap (mem s) !! a = Some n -> Q n s -> wp (load (Ptr a)) s Q.
Proof. intros H HQ. unfold wp, load. by rewrite H. Qed.

Lemma wp_store_ptr a n s Q :
  is_Some (heap (mem s) !! a) ->
  Q tt (State (with_heap (<[a:=n]> (heap (mem s))) (mem s)) (tree s)) ->
  wp (store (Ptr a) n) s Q.
Proof. intros [n0 H] HQ. unfold wp, store. by rewrite H. Qed.

Lemma load_ptr a n s : heap (mem s) !! a = Some n -> load (Ptr a) s = Ok (n, s).
Proof. intros H. unfold load. by rewrite H. Qed.

Lemma rootp_plug ctx s s' : rootp s = rootp s' -> rootp (plug ctx s) = rootp (plug ctx s').
Proof.
  revert s s'. induction ctx as [|f ctx IH]; intros s s' H; simpl; [done|].
  apply IH. unfold fill. by destruct (fdir f).
Qed.

Section Rel.

Variable storage64 : bool.

Notation "'in_range' i" := (0 <= i < red_flag storage64)
  (at level 10, i at level 9, only parsing).

(** [Rel s0 A s t]: the state [s] represents the tree [t], whose nodes have
    distinct addresses among [A], and differs from [s0] only in the root
    pointer and in the node objects at the addresses [A]. *)
Record Rel (s0 : state) (A : list nat) (s : state) (t : rbt) : Prop := {
  rel_rep : rep storage64 (heap (mem s)) Leaf t;
  rel_root : root (tree s) = rootp t;
  rel_nodup : NoDup (addrs t);
  rel_sub : forall a, a ∈ addrs t -> a ∈ A;
  rel_tree : with_root Leaf (tree s) = with_root Leaf (tree s0);
  rel_mem : with_heap ∅ (mem s) = with_heap ∅ (mem s0);
  rel_heap : forall a, a ∉ A -> heap (mem s) !! a = heap (mem s0) !! a;
  rel_dom : forall a, is_Some (heap (mem s) !! a) <-> is_Some (heap (mem s0) !! a)
}.

Lemma Rel_leaf s0 A s t : Rel s0 A s t -> leaf_node (mem s) = leaf_node (mem s0).
Proof. intros H. apply rel_mem in H. by injection H. Qed.

Lemma Rel_nodes_num s0 A s t : Rel s0 A s t -> nodes_num (tree s) = nodes_num (tree s0).
Proof. intros H. apply rel_tree in H. by injection H. Qed.

Lemma Rel_cmp s0 A s t : Rel s0 A s t -> cmp (tree s) = cmp (tree s0).
Proof. intros H. apply rel_tree in H. by injection H. Qed.

Lemma Rel_cmp_key s0 A s t : Rel s0 A s t -> cmp_key (tree s) = cmp_key (tree s0).
Proof. intros H. apply rel_tree in H. by injection H. Qed.

Lemma load_focus s0 A s ctx c a i l v r :
  Rel s0 A s (plug ctx (T c a i l v r)) ->
  load (Ptr a) s
  = Ok (Node v (rootp l) (rootp r) (ctx_par ctx) (mkflags storage64 c i), s).
Proof.
  intros H. apply load_ptr. apply rel_rep in H. apply rep_plug in H as [H _].
  simpl in H. tauto.
Qed.

Lemma Rel_root_focus s0 A s ctx c a i l v r :
  Rel s0 A s (plug ctx (T c a i l v r)) ->
  root (tree s) = rootp (plug ctx (T c a i l v r)).
Proof. apply rel_root. Qed.

(** Rewriting colour, index and handle of the node in focus. *)
Lemma store_focus s0 A s ctx c a i l v r c' i' v' Q :
  Rel s0 A s (plug ctx (T c a i l v r)) ->
  in_range i' ->
  (forall s', Rel s0 A s' (plug ctx (T c' a i' l v' r)) -> Q tt s') ->
  wp (store (Ptr a)
        (Node v' (rootp l) (rootp r) (ctx_par ctx) (mkflags storage64 c' i'))) s Q.
Proof.
  intros H Hi' HQ.
  pose proof (rel_rep _ _ _ _ H) as Hrep. apply rep_plug in Hrep as [Hs Hc].
  simpl in Hs. destruct Hs as (Hi & Ha & Hl & Hr).
  pose proof (rel_nodup _ _ _ _ H) as Hnd. rewrite addrs_plug in Hnd. simpl in Hnd.
  apply NoDup_cons in Hnd as [Hnin Hnd].
  assert (a ∈ A) as HaA.
  { apply (rel_sub _ _ _ _ H). rewrite addrs_plug. simpl. set_solver. }
  apply wp_store_ptr; [by rewrite Ha|]. apply HQ.
  constructor; simpl.
  - apply rep_plug. simpl. split_and!; try lia.
    + by rewrite lookup_insert_eq.
    + eapply rep_frame; [|done]. intros b Hb. rewrite lookup_insert_ne; [done|set_solver].
    + eapply rep_frame; [|done]. intros b Hb. rewrite lookup_insert_ne; [done|set_solver].
    + eapply rep_ctx_frame; [|done]. intros b Hb. rewrite lookup_insert_ne; [done|set_solver].
  - rewrite (rel_root _ _ _ _ H). by apply rootp_plug.
  - rewrite addrs_plug. simpl. apply NoDup_cons. done.
  - intros b Hb. apply (rel_sub _ _ _ _ H). rewrite addrs_plug in *. done.
  - apply (rel_tree _ _ _ _ H).
  - apply (rel_mem _ _ _ _ H).
  - intros b Hb. rewrite lookup_insert_ne by set_solver. by apply (rel_heap _ _ _ _ H).
  - intros b. rewrite <- (rel_dom _ _ _ _ H). destruct (decide (a = b)) as [->|].
    + rewrite lookup_insert_eq, Ha. split; eauto.
    + by rewrite lookup_insert_ne.
Qed.

Section Focus.

Variables (s0 : state) (A : list nat) (s : state).
Variables (ctx : list frame) (c : bool) (a : nat) (i : Z) (l : rbt) (v : Z) (r : rbt).
Hypothesis HR : Rel s0 A s (plug ctx (T c a i l v r)).

Lemma focus_range : in_range i.
Proof using HR.
  apply rel_rep in HR. apply rep_plug in HR as [H _]. simpl in H. tauto.
Qed.

Lemma wp_paint_red_focus Q :
  (forall s', Rel s0 A s' (plug ctx (T true a i l v r)) -> Q tt s') ->
  wp (paint_red storage64 (Ptr a)) s Q.
Proof using HR.
  intros HQ. unfold paint_red, set_flags.
  apply wp_bind. eapply wp_get_flags; [by eapply load_focus|]. simpl.
  apply wp_bind. eapply wp_load; [by eapply load_focus|].
  unfold with_flags. simpl.
  rewrite mkflags_paint_red by apply focus_range.
  eapply store_focus; [done|apply focus_range|done].
Qed.

Lemma wp_paint_black_focus Q :
  (forall s', Rel s0 A s' (plug ctx (T false a i l v r)) -> Q tt s') ->
  wp (paint_black storage64 (Ptr a)) s Q.
Proof using HR.
  intros HQ. unfold paint_black, set_flags.
  apply wp_bind. eapply wp_get_flags; [by eapply load_focus|]. simpl.
  apply wp_bind. eapply wp_load; [by eapply load_focus|].
  unfold with_flags. simpl.
  rewrite mkflags_paint_black by apply focus_range.
  eapply store_focus; [done|apply focus_range|done].
Qed.

Lemma wp_set_ptr_focus v' Q :
  (forall s', Rel s0 A s' (plug ctx (T c a i l v' r)) -> Q tt s') ->
  wp (set_ptr (Ptr a) v') s Q.
Proof using HR.
  intros HQ. unfold set_ptr.
  apply wp_bind. eapply wp_load; [by eapply load_focus|].
  unfold with_ptr. simpl.
  eapply store_focus; [done|apply focus_range|done].
Qed.

Lemma wp_set_node_index_focus j Q :
  in_range j ->
  (forall s', Rel s0 A s' (plug ctx (T c a j l v r)) -> Q tt s') ->
  wp (set_node_index storage64 (Ptr a) j) s Q.
Proof using HR.
  intros Hj HQ. unfold set_node_index, set_flags.
  apply wp_bind. eapply wp_get_flags; [by eapply load_focus|]. simpl.
  apply wp_bind. eapply wp_load; [by eapply load_focus|].
  unfold with_flags. simpl.
  rewrite mkflags_set_index by (apply focus_range || done).
  eapply store_focus; [done|done|done].
Qed.

Lemma wp_is_red_focus Q : Q c s -> wp (is_red storage64 (Ptr a)) s Q.
Proof using HR.
  intros HQ. eapply wp_is_red; [by eapply load_focus|]. simpl.
  by rewrite mkflags_is_red by apply focus_range.
Qed.

Lemma wp_is_black_focus Q : Q (negb c) s -> wp (is_black storage64 (Ptr a)) s Q.
Proof using HR.
  intros HQ. eapply wp_is_black; [by eapply load_focus|]. simpl.
  by rewrite mkflags_is_red by apply focus_range.
Qed.

Lemma wp_get_parent_focus Q : Q (ctx_par ctx) s -> wp (get_parent (Ptr a)) s Q.
Proof using HR. intros HQ. eapply wp_get_parent; [by eapply load_focus|]. done. Qed.

Lemma wp_get_link_focus (dir : bool) Q :
  Q (if dir then rootp r else rootp l) s -> wp (get_link (Ptr a) dir) s Q.
Proof using HR.
  intros HQ. eapply wp_get_link; [by eapply load_focus|]. by destruct dir.
Qed.

Lemma wp_get_ptr_focus Q : Q v s -> wp (get_ptr (Ptr a)) s Q.
Proof using HR. intros HQ. eapply wp_get_ptr; [by eapply load_focus|]. done. Qed.

Lemma wp_has_child_focus (dir : bool) Q :
  Q (negb (ptr_eqb (if dir then rootp r else rootp l) Leaf)) s ->
  wp (has_child (Ptr a) dir) s Q.
Proof using HR.
  intros HQ. eapply wp_has_child; [by eapply load_focus|]. by destruct dir.
Qed.

End Focus.

End Rel.

(** ** Symbolic execution *)

Arguments with_heap h !w /.
Arguments with_leaf n !w /.
Arguments with_max_auto m !w /.
Arguments with_allocs k !w /.
Arguments with_root p !t /.
Arguments with_nodes_num n !t /.
Arguments with_allocated n !t /.
Arguments with_nodes l !t /.
Arguments with_ptr v !n /.
Arguments with_parent q !n /.
Arguments with_flags f !n /.
Arguments with_link !dir q !n /.

(** Lookups in a heap written as a chain of updates. *)
Ltac solve_lookup :=
  cbn [heap mem with_heap with_leaf tree];
  repeat first
    [ rewrite lookup_insert_eq
    | rewrite lookup_insert_ne by (done || congruence) ];
  first [ reflexivity | eassumption | eauto ].

Ltac wp_bind_head :=
  repeat lazymatch goal with
  | |- wp (bind _ _) _ _ => apply wp_bind
  end.

(** One step on an explicit heap: the node objects are found by lookup. *)
Ltac raw_step :=
  wp_bind_head;
  lazymatch goal with
  | |- wp (ret _) _ _ => apply wp_ret
  | |- wp (assert _) _ _ => apply wp_assert; [try done|]
  | |- wp get_root _ _ => apply wp_get_root
  | |- wp (set_root _) _ _ => apply wp_set_root
  | |- wp get_tree _ _ => apply wp_get_tree
  | |- wp (put_tree _) _ _ => apply wp_put_tree
  | |- wp (load (Ptr _)) _ _ => eapply wp_load; [apply load_ptr; solve_lookup|]
  | |- wp (get_link (Ptr _) _) _ _ => eapply wp_get_link; [apply load_ptr; solve_lookup|]
  | |- wp (get_parent (Ptr _)) _ _ => eapply wp_get_parent; [apply load_ptr; solve_lookup|]
  | |- wp (get_ptr (Ptr _)) _ _ => eapply wp_get_ptr; [apply load_ptr; solve_lookup|]
  | |- wp (get_flags (Ptr _)) _ _ => eapply wp_get_flags; [apply load_ptr; solve_lookup|]
  | |- wp (has_child (Ptr _) _) _ _ => eapply wp_has_child; [apply load_ptr; solve_lookup|]
  | |- wp (store (Ptr _) _) _ _ => apply wp_store_ptr; [solve_lookup|]
  | |- wp (set_link (Ptr _) _ _) _ _ => unfold set_link at 1
  | |- wp (set_parent (Ptr _) _) _ _ => unfold set_parent at 1
  | |- wp (set_ptr (Ptr _) _) _ _ => unfold set_ptr at 1
  | |- wp (set_flags (Ptr _) _) _ _ => unfold set_flags at 1
  end;
  cbv beta;
  cbn [links link0 link1 parent ptr flags with_link with_parent with_ptr with_flags
       negb rootp ctx_par faddr fdir fsib fcol fidx fval
       heap mem tree root leaf_node max_nodes_to_auto_allocate allocs alloc_ok
       nodes_num allocated_nodes_num nodes cmp cmp_key
       with_heap with_root with_leaf].

(** Pointer comparisons decided by what is known. *)
Ltac simp_ptr :=
  repeat match goal with
  | |- context [ptr_eqb ?p ?p] => rewrite (ptr_eqb_refl p)
  | |- context [ptr_eqb ?p ?q] =>
      rewrite (ptr_eqb_ne p q) by (done || congruence)
  end;
  cbn [negb andb orb].

(** [upd K h h']: [h'] is [h] with the objects at the addresses [K]
    rewritten. *)
Definition upd (K : list nat) (h h' : gmap nat node) : Prop :=
  (forall a, a ∉ K -> h' !! a = h !! a)
  /\ (forall a, is_Some (h' !! a) <-> is_Some (h !! a)).

Lemma upd_refl K h : upd K h h.
Proof. by split. Qed.

Lemma upd_insert K h h' k n :
  upd K h h' -> k ∈ K -> is_Some (h !! k) -> upd K h (<[k:=n]> h').
Proof.
  intros [H1 H2] Hk Hs. split; intros a.
  - intros Ha. rewrite lookup_insert_ne by set_solver. by apply H1.
  - destruct (decide (k = a)) as [->|].
    + rewrite lookup_insert_eq. split; eauto.
    + rewrite lookup_insert_ne by done. apply H2.
Qed.

Lemma upd_lookup K h h' a : upd K h h' -> a ∉ K -> h' !! a = h !! a.
Proof. intros [H _]. apply H. Qed.

(** Membership in a list written with [::] and [++]. *)
Ltac elem_tac :=
  solve
    [ apply list_elem_of_here
    | assumption
    | apply list_elem_of_further; elem_tac
    | apply elem_of_app; left; elem_tac
    | apply elem_of_app; right; elem_tac ].

Ltac solve_upd :=
  repeat (apply upd_insert; [| elem_tac | eauto]); apply upd_refl.

Lemma plug_perm_sub ctx s s' a :
  addrs s' ≡ₚ addrs s -> a ∈ addrs (plug ctx s') -> a ∈ addrs (plug ctx s).
Proof. rewrite !addrs_plug. intros ->. done. Qed.

Lemma plug_perm_nodup ctx s s' :
  addrs s' ≡ₚ addrs s -> NoDup (addrs (plug ctx s)) -> NoDup (addrs (plug ctx s')).
Proof. rewrite !addrs_plug. intros ->. done. Qed.

Lemma with_root_id t : with_root (root t) t = t.
Proof. by destruct t. Qed.

(** Distinctness of addresses, read off one [NoDup] fact. *)
Lemma submseteq_NoDup (l1 l2 : list nat) : l1 ⊆+ l2 -> NoDup l2 -> NoDup l1.
Proof.
  intros [k Hk]%submseteq_Permutation. rewrite Hk, NoDup_app. tauto.
Qed.

Lemma NoDup_sub_neq (l : list nat) a b : NoDup l -> [a; b] ⊆+ l -> a <> b.
Proof.
  intros Hnd Hsub. apply (submseteq_NoDup _ _ Hsub) in Hnd.
  apply NoDup_cons in Hnd as [Hnin _]. set_solver.
Qed.

Lemma NoDup_sub_notin (l L : list nat) a : NoDup l -> a :: L ⊆+ l -> a ∉ L.
Proof.
  intros Hnd Hsub. apply (submseteq_NoDup _ _ Hsub) in Hnd.
  by apply NoDup_cons in Hnd as [Hnin _].
Qed.

Lemma NoDup_sub_disjoint (l K L : list nat) :
  NoDup l -> K ++ L ⊆+ l -> forall k, k ∈ K -> k ∉ L.
Proof.
  intros Hnd Hsub. apply (submseteq_NoDup _ _ Hsub) in Hnd.
  apply NoDup_app in Hnd as (_ & Hd & _). done.
Qed.

Ltac neq_by H := apply (NoDup_sub_neq _ _ _ H); solve_submseteq.
Ltac notin_by H := apply (NoDup_sub_notin _ _ _ H); solve_submseteq.
Ltac disjoint_by H := apply (NoDup_sub_disjoint _ _ _ H); solve_submseteq.

(** The keys of a chain of updates, without repetition. *)
Ltac add_key k l :=
  lazymatch l with
  | context [k] => l
  | _ => constr:(k :: l)
  end.
Ltac keys_of h :=
  lazymatch h with
  | <[?k:=_]> ?h' => let l := keys_of h' in add_key k l
  | _ => constr:(@nil nat)
  end.

Section Rotate.

Variable storage64 : bool.

Lemma NoDup_plug_inv ctx s :
  NoDup (addrs (plug ctx s)) ->
  NoDup (addrs s) /\ NoDup (addrs_ctx ctx)
  /\ (forall a, a ∈ addrs s -> a ∉ addrs_ctx ctx).
Proof. rewrite addrs_plug. rewrite NoDup_app. tauto. Qed.

Lemma rep_upd K h h' par t :
  upd K h h' -> (forall k, k ∈ K -> k ∉ addrs t) ->
  rep storage64 h par t -> rep storage64 h' par t.
Proof.
  intros [Hup _] Hd. apply rep_frame. intros a Ha. apply Hup.
  intros Hk. by apply (Hd _ Hk).
Qed.

Lemma rep_ctx_upd K h h' ctx q :
  upd K h h' -> (forall k, k ∈ K -> k ∉ addrs_ctx ctx) ->
  rep_ctx storage64 h ctx q -> rep_ctx storage64 h' ctx q.
Proof.
  intros [Hup _] Hd. apply rep_ctx_frame. intros a Ha. apply Hup.
  intros Hk. by apply (Hd _ Hk).
Qed.

(** The state after the objects of the subtree in focus, and the link to it,
    have been rewritten; [extra] are addresses of [A] new to the tree. *)
Lemma Rel_update s0 A s ctx sub sub' extra K hF rootF sF :
  Rel storage64 s0 A s (plug ctx sub) ->
  mem sF = with_heap hF (mem s) ->
  tree sF = with_root rootF (tree s) ->
  addrs sub' ⊆+ extra ++ addrs sub ->
  NoDup (extra ++ addrs sub ++ addrs_ctx ctx) ->
  Forall (fun k => k ∈ A) extra ->
  upd K (heap (mem s)) hF ->
  Forall (fun k => k ∈ extra ++ addrs sub ++ addrs_ctx ctx) K ->
  rep storage64 hF (ctx_par ctx) sub' ->
  rep_ctx storage64 hF ctx (rootp sub') ->
  rootF = rootp (plug ctx sub') ->
  Rel storage64 s0 A sF (plug ctx sub').
Proof.
  intros H Hmem Htree Hsub Hnd Hex [Hup1 Hup2] HK Hrep Hctx Hroot.
  destruct sF as [mF tF]. simpl in *. subst mF tF.
  assert (forall a, a ∈ extra ++ addrs sub ++ addrs_ctx ctx -> a ∈ A) as HA.
  { intros a [Ha|Ha]%elem_of_app.
    - by apply (proj1 (Forall_forall _ _) Hex).
    - apply (rel_sub _ _ _ _ _ H). by rewrite addrs_plug. }
  constructor; simpl.
  - by apply rep_plug.
  - done.
  - rewrite addrs_plug. eapply submseteq_NoDup; [|exact Hnd].
    rewrite app_assoc. by apply submseteq_app.
  - intros a Ha. apply HA. rewrite addrs_plug in Ha.
    rewrite app_assoc. apply elem_of_app in Ha as [Ha|Ha]; apply elem_of_app; [left|by right].
    by eapply elem_of_submseteq.
  - apply (rel_tree _ _ _ _ _ H).
  - apply (rel_mem _ _ _ _ _ H).
  - intros a Ha. rewrite Hup1; [by apply (rel_heap _ _ _ _ _ H)|].
    intros Hin. apply Ha, HA. by apply (proj1 (Forall_forall _ _) HK).
  - intros a. rewrite Hup2. apply (rel_dom _ _ _ _ _ H).
Qed.

End Rotate.

Ltac solve_rep Hupd Hnd :=
  cbn [rep rep_ctx rootp ctx_par faddr fdir fsib fcol fidx fval];
  repeat match goal with |- _ /\ _ => split end;
  try lia; try done;
  try solve_lookup;
  try (eapply rep_upd; [exact Hupd | disjoint_by Hnd | eassumption]);
  try (eapply rep_ctx_upd; [exact Hupd | disjoint_by Hnd | eassumption]).

(** Closing a run on an explicit heap: the final state represents the tree
    of the goal.  [ex] lists the addresses new to the tree. *)
Ltac close_rel_with H Hnd ex :=
  lazymatch goal with
  | |- Rel _ _ _ (State (World ?hf _ _ _ _) _) _ =>
      let ks := keys_of hf in
      let Hupd := fresh "Hupd" in
      lazymatch type of H with
      | Rel _ _ _ (State (World ?h _ _ _ _) _) _ =>
          assert (upd ks h hf) as Hupd by solve_upd
      end;
      eapply Rel_update with (K := ks) (extra := ex);
      [ exact H | reflexivity | reflexivity
      | simpl; solve_submseteq
      | eapply submseteq_NoDup; [|exact Hnd]; simpl; solve_submseteq
      | repeat constructor; try done
      | exact Hupd
      | repeat constructor; simpl; elem_tac
      | solve_rep Hupd Hnd
      | solve_rep Hupd Hnd
      | try (simpl; done) ]
  end.

Ltac close_rel H Hnd := close_rel_with H Hnd (@nil nat).

Ltac rotate_script H HQ b :=
  let Hs := fresh "Hs" in
  let Hc := fresh "Hc" in
  let Hnd := fresh "Hnd" in
  let Hroot := fresh "Hroot" in
  pose proof (rel_rep _ _ _ _ _ H) as Hrep; apply rep_plug in Hrep as [Hs Hc];
  pose proof (rel_nodup _ _ _ _ _ H) as Hnd; rewrite addrs_plug in Hnd;
  pose proof (rel_root _ _ _ _ _ H) as Hroot;
  lazymatch type of H with
  | Rel _ _ _ ?s (plug ?ctx (T _ ?x _ _ _ _)) =>
      destruct s as [[h lf ma al ok] [rt nn an tbl cm ck]];
      destruct b as [|cb b0 ib bl bv br];
      destruct ctx as [|[[] cg g ig vg sib] ctx'];
      simpl in Hs, Hc, Hnd, Hroot; destruct_and?;
      lazymatch type of H with
      | Rel _ _ _ _ (plug _ (T _ _ _ (T _ ?y _ _ _ _) _ _)) =>
          assert (x <> y) by neq_by Hnd;
          try assert (y <> b0) by neq_by Hnd;
          try assert (g <> y) by neq_by Hnd
      | Rel _ _ _ _ (plug _ (T _ _ _ _ _ (T _ ?y _ _ _ _))) =>
          assert (x <> y) by neq_by Hnd;
          try assert (y <> b0) by neq_by Hnd;
          try assert (g <> y) by neq_by Hnd
      end;
      try assert (x <> b0) by neq_by Hnd;
      try assert (g <> x) by neq_by Hnd;
      try assert (g <> b0) by neq_by Hnd;
      try assert (rootp sib <> Ptr x) by (apply rootp_not_in; notin_by Hnd);
      unfold rotate;
      repeat (raw_step; simp_ptr);
      apply HQ;
      close_rel H Hnd;
      simpl; rewrite Hroot; by apply rootp_plug
  end.

Section RotateSpec.

Variable storage64 : bool.

(** [rotate(tree, x, 0)]: the right child [y] of [x] takes the place of [x]. *)
Lemma wp_rotate_left s0 A s ctx cx x ix a vx cy y iy b vy c Q :
  Rel storage64 s0 A s (plug ctx (T cx x ix a vx (T cy y iy b vy c))) ->
  (forall s', Rel storage64 s0 A s' (plug ctx (T cy y iy (T cx x ix a vx b) vy c)) ->
              Q tt s') ->
  wp (rotate (Ptr x) false) s Q.
Proof. intros H HQ. rotate_script H HQ b. Qed.

(** [rotate(tree, x, 1)]: the left child [y] of [x] takes the place of [x]. *)
Lemma wp_rotate_right s0 A s ctx cx x ix c vx cy y iy a vy b Q :
  Rel storage64 s0 A s (plug ctx (T cx x ix (T cy y iy a vy b) vx c)) ->
  (forall s', Rel storage64 s0 A s' (plug ctx (T cy y iy a vy (T cx x ix b vx c))) ->
              Q tt s') ->
  wp (rotate (Ptr x) true) s Q.
Proof. intros H HQ. rotate_script H HQ b. Qed.

End RotateSpec.

(** ** Symbolic execution on a represented tree *)

(** Finding the node of address [a] in a tree term: the result is a context
    and a subtree whose root is that node. *)
Ltac focus_in a ctx t :=
  match t with
  | T _ a _ _ _ _ => constr:((ctx, t))
  | T ?c ?b ?i ?l ?v ?r => focus_in a constr:(Frame false c b i v r :: ctx) l
  | T ?c ?b ?i ?l ?v ?r => focus_in a constr:(Frame true c b i v l :: ctx) r
  end.

Ltac focus_plug a ctx sub :=
  match constr:(Set) with
  | _ => focus_in a ctx sub
  | _ =>
      lazymatch ctx with
      | ?f :: ?ctx' =>
          let t := eval cbn [fill fdir fcol faddr fidx fval fsib] in (fill f sub) in
          focus_plug a ctx' t
      end
  end.

Ltac focus_hyp H a :=
  lazymatch type of H with
  | Rel ?b ?s0 ?A ?s (plug ?ctx ?sub) =>
      let r := focus_plug a ctx sub in
      lazymatch r with
      | (?ctx', ?sub') => change (Rel b s0 A s (plug ctx' sub')) in H
      end
  | Rel ?b ?s0 ?A ?s ?t =>
      let r := focus_plug a (@nil frame) t in
      lazymatch r with
      | (?ctx', ?sub') => change (Rel b s0 A s (plug ctx' sub')) in H
      end
  end.

Ltac rel_cbn :=
  cbv beta;
  cbn [links link0 link1 parent ptr flags negb andb orb rootp ctx_par
       faddr fdir fsib fcol fidx fval fst snd plug fill].

(** One step of a computation in a state [s] for which a hypothesis
    [Rel _ _ _ s t] is at hand: a read is answered by [t], a write replaces
    the state and the hypothesis. *)
Ltac rel_read a lem :=
  lazymatch goal with
  | H : Rel _ _ _ ?s _ |- wp _ ?s _ =>
      focus_hyp H a; eapply lem; [exact H|]
  end.

Ltac rel_write a lem :=
  lazymatch goal with
  | H : Rel _ _ _ ?s _ |- wp _ ?s _ =>
      focus_hyp H a; eapply lem; [exact H|];
      let s' := fresh "s" in clear H; intros s' H
  end.

Ltac rel_step :=
  wp_bind_head;
  lazymatch goal with
  | |- wp (ret _) _ _ => apply wp_ret
  | |- wp (assert _) _ _ => apply wp_assert; [try done|]
  | |- wp get_root ?s _ =>
      apply wp_get_root;
      lazymatch goal with
      | H : Rel _ _ _ s _ |- _ => rewrite (rel_root _ _ _ _ _ H)
      end
  | |- wp loop_bound ?s _ => apply wp_loop_bound
  | |- wp get_tree ?s _ => apply wp_get_tree
  | |- wp (get_parent (Ptr ?a)) _ _ => rel_read a wp_get_parent_focus
  | |- wp (get_link (Ptr ?a) _) _ _ => rel_read a wp_get_link_focus
  | |- wp (get_ptr (Ptr ?a)) _ _ => rel_read a wp_get_ptr_focus
  | |- wp (has_child (Ptr ?a) _) _ _ => rel_read a wp_has_child_focus
  | |- wp (is_red _ (Ptr ?a)) _ _ => rel_read a wp_is_red_focus
  | |- wp (is_black _ (Ptr ?a)) _ _ => rel_read a wp_is_black_focus
  | |- wp (is_child _ _) _ _ => unfold is_child at 1
  | |- wp (copy_color _ _ _) _ _ => unfold copy_color at 1
  | |- wp (paint_red _ (Ptr ?a)) _ _ => rel_write a wp_paint_red_focus
  | |- wp (paint_black _ (Ptr ?a)) _ _ => rel_write a wp_paint_black_focus
  | |- wp (set_ptr (Ptr ?a) _) _ _ => rel_write a wp_set_ptr_focus
  | |- wp (rotate (Ptr ?a) false) _ _ => rel_write a wp_rotate_left
  | |- wp (rotate (Ptr ?a) true) _ _ => rel_write a wp_rotate_right
  end;
  rel_cbn; simp_ptr.

(** ** Red-black trees *)

Definition is_redT (t : rbt) : bool :=
  match t with T true _ _ _ _ _ => true | _ => false end.

(** The number of black nodes on the leftmost path. *)
Fixpoint bh (t : rbt) : nat :=
  match t with
  | E => O
  | T c _ _ l _ _ => (bh l + (if c then 0 else 1))%nat
  end.

(** No red node has a red child, and below every node the two sides have
    the same number of black nodes. *)
Fixpoint wf (t : rbt) : Prop :=
  match t with
  | E => True
  | T c _ _ l _ r =>
      bh l = bh r
      /\ (c = true -> is_redT l = false /\ is_redT r = false)
      /\ wf l /\ wf r
  end.

Definition blacken (t : rbt) : rbt :=
  match t with E => E | T _ a i l v r => T false a i l v r end.

(** A red-black tree: well-formed with a black root. *)
Definition rbtree (t : rbt) : Prop := wf t /\ is_redT t = false.

Definition parent_black (ctx : list frame) : Prop :=
  match ctx with [] => False | g :: _ => fcol g = false end.

(** [cwf n ctx]: filling the hole with a well-formed tree of black height [n],
    black at the root if the frame above is red, gives a red-black tree. *)
Fixpoint cwf (n : nat) (ctx : list frame) : Prop :=
  match ctx with
  | [] => True
  | f :: ctx' =>
      wf (fsib f) /\ bh (fsib f) = n
      /\ (fcol f = true -> is_redT (fsib f) = false /\ parent_black ctx')
      /\ cwf (n + (if fcol f then 0 else 1)) ctx'
  end.

Lemma wf_blacken t : wf t -> wf (blacken t).
Proof. destruct t; simpl; [done|]. intros (?&?&?&?). split_and!; done. Qed.

Lemma bh_plug_cwf n ctx s :
  cwf n ctx -> wf s -> bh s = n ->
  (is_redT s = true -> match ctx with [] => True | f :: _ => fcol f = false end) ->
  wf (plug ctx s) /\ (ctx <> [] -> is_redT (plug ctx s) = false).
Proof.
  revert n s. induction ctx as [|[d c a i v sib] ctx IH]; intros n s Hc Hs Hb Hr.
  - simpl. split; [done|]. congruence.
  - simpl in Hc. destruct Hc as (Hsw & Hsb & Hcol & Hc).
    simpl. destruct (IH _ (fill (Frame d c a i v sib) s) Hc) as [IH1 IH2].
    + unfold fill. simpl in *. destruct d; simpl; split_and!; try done; try lia.
      * intros ->. destruct Hcol as [? ?]; [done|]. split; [done|].
        destruct (is_redT s); [|done]. by specialize (Hr eq_refl).
      * intros ->. destruct Hcol as [? ?]; [done|]. split; [|done].
        destruct (is_redT s); [|done]. by specialize (Hr eq_refl).
    + unfold fill. simpl. destruct d, c; simpl; lia.
    + unfold fill. simpl. intros Hred. destruct ctx as [|g ctx]; [done|].
      destruct d, c; simpl in Hred; try done; simpl in Hcol; destruct Hcol as [_ ?]; done.
    + split; [done|]. intros _. destruct ctx as [|g ctx].
      * simpl. unfold fill. simpl. destruct c; [|by destruct d].
        simpl in Hcol. destruct Hcol as [_ []]; done.
      * apply IH2. done.
Qed.

Lemma wf_plug n ctx s :
  cwf n ctx -> wf s -> bh s = n ->
  (is_redT s = true -> match ctx with [] => True | f :: _ => fcol f = false end) ->
  wf (plug ctx s).
Proof. intros. by eapply bh_plug_cwf. Qed.

(** Facts about [wf], [bh] and [cwf] of trees written out. *)
Ltac wf_prep :=
  cbn [wf cwf bh is_redT fsib fcol parent_black] in *;
  repeat match goal with
  | H : _ /\ _ |- _ => destruct H
  | H : true = true -> _ |- _ => specialize (H eq_refl)
  | H : false = true -> _ |- _ => clear H
  end.

Ltac wf_solve :=
  wf_prep;
  repeat match goal with
  | |- _ /\ _ => split
  | |- _ -> _ => intros ?
  end;
  first
    [ done | lia | congruence
    | match goal with
      | H : cwf ?b ?c |- cwf ?a ?c => replace a with b by lia; exact H
      end ].

Ltac same_tree Hin Hlab :=
  split;
  [ rewrite Hin, !inorder_plug;
    repeat (progress (simpl; rewrite <- ?app_assoc)); done
  | rewrite Hlab, !labels_plug; simpl; solve_Permutation ].

(** Distinctness facts for every pair of addresses named in a [NoDup] fact. *)
Ltac atoms_of l :=
  lazymatch l with
  | ?a :: ?l' => let r := atoms_of l' in constr:(a :: r)
  | ?l1 ++ ?l2 =>
      let r1 := atoms_of l1 in
      let r2 := atoms_of l2 in
      let r := eval cbn [app] in (r1 ++ r2) in r
  | _ => constr:(@nil nat)
  end.

Ltac pieces_of l :=
  lazymatch l with
  | _ :: ?l' => pieces_of l'
  | ?l1 ++ ?l2 =>
      let r1 := pieces_of l1 in
      let r2 := pieces_of l2 in
      let r := eval cbn [app] in (r1 ++ r2) in r
  | addrs ?t => constr:([t])
  | _ => constr:(@nil rbt)
  end.

Ltac neq_with Hnd a l :=
  lazymatch l with
  | ?b :: ?l' => (try assert (a <> b) by neq_by Hnd); neq_with Hnd a l'
  | _ => idtac
  end.

Ltac neq_pairs Hnd l :=
  lazymatch l with
  | ?a :: ?l' => neq_with Hnd a l'; neq_pairs Hnd l'
  | _ => idtac
  end.

Ltac neq_piece Hnd t l :=
  lazymatch l with
  | ?a :: ?l' =>
      (try assert (rootp t <> Ptr a) by (apply rootp_not_in; notin_by Hnd));
      neq_piece Hnd t l'
  | _ => idtac
  end.

Ltac neq_pieces Hnd ts l :=
  lazymatch ts with
  | ?t :: ?ts' => neq_piece Hnd t l; neq_pieces Hnd ts' l
  | _ => idtac
  end.

Ltac all_neq Hnd :=
  lazymatch type of Hnd with
  | NoDup ?l =>
      let ats := atoms_of l in
      let ts := pieces_of l in
      neq_pairs Hnd ats; neq_pieces Hnd ts ats
  end.

Lemma rootp_plug_cons f ctx s :
  exists a, rootp (plug (f :: ctx) s) = Ptr a /\ a ∈ addrs_ctx (f :: ctx).
Proof.
  revert f s. induction ctx as [|g ctx IH]; intros f s.
  - exists (faddr f). simpl. split; [unfold fill; by destruct (fdir f)|].
    apply list_elem_of_here.
  - destruct (IH g (fill f s)) as (a & Ha & Hin). exists a. split; [done|].
    simpl in *. rewrite elem_of_cons, elem_of_app. tauto.
Qed.

Lemma rootp_plug_ne f ctx s a :
  NoDup (addrs (plug (f :: ctx) s)) -> a ∈ addrs s ->
  rootp (plug (f :: ctx) s) <> Ptr a.
Proof.
  intros Hnd Ha. destruct (rootp_plug_cons f ctx s) as (b & -> & Hb).
  apply NoDup_plug_inv in Hnd as (_ & _ & Hd). intros [= ->].
  by apply (Hd _ Ha).
Qed.

Section InsertFixup.

Variable storage64 : bool.
Variables (s0 : state) (A : list nat).
Hypothesis Hleaf : flags (leaf_node (mem s0)) = 0.

Lemma wp_is_red_leaf s t Q :
  Rel storage64 s0 A s t -> Q false s -> wp (is_red storage64 Leaf) s Q.
Proof using Hleaf.
  intros H HQ. eapply wp_is_red; [apply load_leaf|].
  by rewrite (Rel_leaf _ _ _ _ _ H), Hleaf, flags_zero_black.
Qed.

Lemma wp_is_black_leaf s t Q :
  Rel storage64 s0 A s t -> Q true s -> wp (is_black storage64 Leaf) s Q.
Proof using Hleaf.
  intros H HQ. eapply wp_is_black; [apply load_leaf|].
  by rewrite (Rel_leaf _ _ _ _ _ H), Hleaf, flags_zero_black.
Qed.

Ltac step :=
  first
    [ rel_step
    | wp_bind_head;
      lazymatch goal with
      | H : Rel _ _ _ ?s _ |- wp (is_red _ Leaf) ?s _ =>
          eapply wp_is_red_leaf; [exact H|]
      | H : Rel _ _ _ ?s _ |- wp (is_black _ Leaf) ?s _ =>
          eapply wp_is_black_leaf; [exact H|]
      end; rel_cbn; simp_ptr ].

Lemma insert_fixup_spec fuel : forall s ctx x ix l v r n,
  Rel storage64 s0 A s (plug ctx (T true x ix l v r)) ->
  wf (T true x ix l v r) -> bh (T true x ix l v r) = n -> cwf n ctx ->
  (length ctx < fuel)%nat ->
  wp (insert_fixup storage64 fuel (Ptr x)) s (fun _ s' =>
    exists t', Rel storage64 s0 A s' t' /\ wf (blacken t')
      /\ inorder t' = inorder (plug ctx (T true x ix l v r))
      /\ labels t' ≡ₚ labels (plug ctx (T true x ix l v r))).
Proof using Hleaf.
  induction fuel as [|k IH]; intros s ctx x ix l v r n H Hwf Hbh Hc Hfuel; [lia|].
  cbn [insert_fixup].
  pose proof (rel_nodup _ _ _ _ _ H) as Hnd.
  destruct ctx as [|[dp cp p ip vp sp] ctx1].
  { (* x is the root *)
    step. step. eexists. split; [exact H|]. split_and!; try done.
    by apply (wf_blacken (T true x ix l v r)). }
  step.
  rewrite (ptr_eqb_ne (Ptr x)) by
    (apply not_eq_sym, (rootp_plug_ne _ _ _ _ Hnd); apply list_elem_of_here).
  destruct cp.
  2: { (* the parent is black *)
    pose proof (wf_plug n (Frame dp false p ip vp sp :: ctx1)
                  (T true x ix l v r) Hc Hwf Hbh (fun _ => eq_refl)) as Hw.
    destruct dp; repeat step.
    all: eexists; split; [exact H|]; split_and!; try done.
    all: by apply wf_blacken. }
  (* the parent is red: it has a black parent *)
  simpl in Hc. destruct Hc as (Hsw & Hsb & Hcol & Hc).
  destruct Hcol as [Hsr Hpb]; [done|].
  destruct ctx1 as [|[dg cg g ig vg sg] ctx2]; [done|]. simpl in Hpb. subst cg.
  simpl in Hc. destruct Hc as (Hgw & Hgb & _ & Hc).
  rewrite addrs_plug in Hnd. simpl in Hnd.
  destruct dp, dg, sg as [|[] u iu ul uv ur].
  all: all_neq Hnd.
  all: repeat step.
  all: lazymatch goal with
       | H : Rel _ _ _ ?s _ |- wp (insert_fixup _ _ (Ptr ?a)) ?s _ =>
           focus_hyp H a;
           eapply wp_mono;
           [ eapply (IH _ _ _ _ _ _ _ _ H);
             [ try wf_solve | reflexivity | try wf_solve | try (simpl in *; lia) ]
           | intros _ s' (t' & HR & Hw & Hin & Hlab); exists t';
             split; [done|]; split; [done|]; try same_tree Hin Hlab ]
       end.
Qed.

End InsertFixup.

(** ** The arena *)

Lemma wp_get_slot (k : nat) p s Q :
  nodes (tree s) !! k = Some p -> Q p s -> wp (get_slot (Z.of_nat k)) s Q.
Proof.
  intros Hk HQ. unfold get_slot. apply wp_bind, wp_get_tree.
  pose proof (lookup_lt_Some _ _ _ Hk) as Hlt.
  rewrite (proj2 (Z.leb_le _ _)) by lia.
  rewrite (proj2 (Z.ltb_lt _ _)) by lia.
  simpl. rewrite Nat2Z.id, Hk. done.
Qed.

Lemma wp_set_slot (k : nat) p s Q :
  (k < length (nodes (tree s)))%nat ->
  Q tt (State (mem s) (with_nodes (<[k:=p]> (nodes (tree s))) (tree s))) ->
  wp (set_slot (Z.of_nat k) p) s Q.
Proof.
  intros Hk HQ. unfold set_slot. apply wp_bind, wp_get_tree.
  rewrite (proj2 (Z.leb_le _ _)) by lia.
  rewrite (proj2 (Z.ltb_lt _ _)) by lia.
  simpl. rewrite Nat2Z.id. done.
Qed.

(** A table of fewer than [2 ^ 61] slots has a size in bytes that fits
    [size_t]. *)
Lemma table_slots_small n : 0 <= n < 2 ^ 61 -> table_slots n = n.
Proof.
  intros Hn. unfold table_slots, to_size_t, sizeof_ptr.
  rewrite Z.mod_small by lia. by apply Z.div_mul.
Qed.

Section Arena.

Variable storage64 : bool.

Definition fresh_ok (s : state) : Prop :=
  forall a, is_Some (heap (mem s) !! a) -> (a < allocs (mem s))%nat.

Lemma flags_fresh (i : Z) :
  0 <= i < red_flag storage64 ->
  flags_paint_black storage64 (flags_set_index storage64 0 i)
  = mkflags storage64 false i.
Proof.
  intros Hi. change 0 with (mkflags storage64 false 0) at 1.
  pose proof (red_flag_pos storage64).
  rewrite mkflags_set_index by lia. by rewrite mkflags_paint_black.
Qed.

(** What the loop of [ptree_allocate_nodes] does to the slots [i], ...,
    [i + count - 1]. *)
Record alloc_rel (s s' : state) (i count : nat) : Prop := {
  al_tree : with_nodes [] (tree s') = with_nodes [] (tree s);
  al_mem : with_allocs 0 (with_heap ∅ (mem s')) = with_allocs 0 (with_heap ∅ (mem s));
  al_allocs : (allocs (mem s) <= allocs (mem s'))%nat;
  al_len : length (nodes (tree s')) = length (nodes (tree s));
  al_old : forall k, (k < i \/ i + count <= k)%nat ->
           nodes (tree s') !! k = nodes (tree s) !! k;
  al_heap : forall a, (a < allocs (mem s))%nat ->
            heap (mem s') !! a = heap (mem s) !! a;
  al_fresh : fresh_ok s';
  al_new : forall k, (i <= k < i + count)%nat ->
           exists a, nodes (tree s') !! k = Some (Ptr a)
             /\ (allocs (mem s) <= a)%nat
             /\ heap (mem s') !! a
                = Some (Node 0 Null Null Null (mkflags storage64 false (Z.of_nat k)));
  al_inj : forall k k' a, (i <= k < i + count)%nat -> (i <= k' < i + count)%nat ->
           nodes (tree s') !! k = Some (Ptr a) ->
           nodes (tree s') !! k' = Some (Ptr a) -> k = k'
}.

Lemma allocate_loop_spec count : forall s i,
  fresh_ok s ->
  (i + count <= length (nodes (tree s)))%nat ->
  Z.of_nat (i + count) <= red_flag storage64 ->
  wpo (allocate_loop storage64 count (Z.of_nat i)) s
    (fun _ s' => alloc_rel s s' i count).
Proof.
  induction count as [|count IH]; intros s i Hfresh Hlen Hmax.
  { simpl. constructor; try done; try lia. }
  destruct s as [[h lf ma al ok] [rt nn an tbl cm ck]]. simpl in Hlen.
  cbn [allocate_loop]. unfold malloc_node.
  apply wpo_bind. unfold wpo, bind, get_mem, put_mem, ret. simpl.
  destruct (ok al) eqn:Hok; simpl.
  2: { eapply (wpo_bind (set_slot _ _)), wp_wpo, wp_set_slot; [simpl; lia|]. done. }
  eapply (wpo_bind (set_slot _ _)), wp_wpo, wp_set_slot; [simpl; lia|]. simpl.
  assert (h !! al = None) as Hnone.
  { destruct (h !! al) eqn:Hal; [|done]. specialize (Hfresh al). simpl in Hfresh.
    rewrite Hal in Hfresh. specialize (Hfresh (mk_is_Some _ _ eq_refl)). lia. }
  apply wpo_bind, wp_wpo. apply wp_store_ptr; [solve_lookup|]. simpl.
  apply wpo_bind, wp_wpo. unfold set_node_index.
  repeat raw_step. simpl.
  apply wpo_bind, wp_wpo. unfold paint_black.
  repeat raw_step. simpl.
  rewrite flags_fresh by lia.
  rewrite !insert_insert_eq.
  replace (Z.of_nat i + 1) with (Z.of_nat (S i)) by lia.
  eapply wpo_mono.
  { apply IH.
    - intros a. simpl. destruct (decide (al = a)) as [<-|Hne]; [lia|].
      rewrite lookup_insert_ne by done. intros Ha. specialize (Hfresh a Ha). simpl in *. lia.
    - simpl. rewrite length_insert. lia.
    - lia. }
  intros [] s' Hrel. destruct Hrel. simpl in *.
  rewrite length_insert in *.
  constructor; simpl; try done; try lia.
  - intros k Hk. rewrite al_old0 by lia. apply list_lookup_insert_ne. lia.
  - intros a Ha. rewrite al_heap0 by lia. apply lookup_insert_ne. lia.
  - intros k Hk. destruct (decide (k = i)) as [->|Hne].
    + exists al. rewrite al_old0 by lia. rewrite list_lookup_insert_eq by lia.
      split; [done|]. split; [lia|]. rewrite al_heap0 by lia.
      by rewrite lookup_insert_eq.
    + destruct (al_new0 k) as (a & ? & ? & ?); [lia|]. exists a. split_and!; try done. lia.
  - intros k k' a Hk Hk' Ha Ha'.
    destruct (decide (k = i)) as [->|Hne], (decide (k' = i)) as [->|Hne']; try done.
    + rewrite al_old0 in Ha by lia. rewrite list_lookup_insert_eq in Ha by lia.
      destruct (al_new0 k') as (a' & Hl & ? & ?); [lia|]. simplify_eq. lia.
    + rewrite al_old0 in Ha' by lia. rewrite list_lookup_insert_eq in Ha' by lia.
      destruct (al_new0 k) as (a' & Hl & ? & ?); [lia|]. simplify_eq. lia.
    + apply (al_inj0 k k' a); (lia || done).
Qed.

(** The arena of a tree whose nodes have the addresses and indices [L]. *)
Record arena (s : state) (L : list (nat * Z)) : Prop := {
  ar_len : allocated_nodes_num (tree s) = Z.of_nat (length (nodes (tree s)));
  ar_num : 0 <= nodes_num (tree s) <= allocated_nodes_num (tree s);
  ar_max : allocated_nodes_num (tree s) <= max_nodes storage64;
  ar_cap : 0 <= max_nodes_to_auto_allocate (mem s);
  ar_count : Z.of_nat (length L) = nodes_num (tree s);
  ar_nodup : NoDup (nodes (tree s));
  ar_table : forall p, p ∈ nodes (tree s) ->
             exists a, p = Ptr a /\ is_Some (heap (mem s) !! a);
  ar_active : forall a i, (a, i) ∈ L ->
              exists k, i = Z.of_nat k /\ Z.of_nat k < nodes_num (tree s)
                /\ nodes (tree s) !! k = Some (Ptr a);
  ar_onto : forall k, Z.of_nat k < nodes_num (tree s) ->
            exists a, (a, Z.of_nat k) ∈ L;
  ar_free : forall k, nodes_num (tree s) <= Z.of_nat k ->
            (k < length (nodes (tree s)))%nat ->
            exists a n c, nodes (tree s) !! k = Some (Ptr a)
              /\ heap (mem s) !! a = Some n
              /\ flags n = mkflags storage64 c (Z.of_nat k);
  ar_fresh : fresh_ok s
}.

(** [s'] is [s] with more slots: nothing of the tree changed. *)
Record extends (s s' : state) : Prop := {
  ex_tree : with_nodes [] (with_allocated 0 (tree s'))
            = with_nodes [] (with_allocated 0 (tree s));
  ex_mem : with_allocs 0 (with_heap ∅ (mem s')) = with_allocs 0 (with_heap ∅ (mem s));
  ex_heap : forall a, is_Some (heap (mem s) !! a) ->
            heap (mem s') !! a = heap (mem s) !! a
}.

Lemma extends_refl s : extends s s.
Proof. by constructor. Qed.

Lemma max_nodes_word : max_nodes storage64 < 2 ^ word_bits storage64.
Proof. unfold max_nodes, word_bits. destruct storage64; lia. Qed.

Lemma allocate_nodes_spec s L n :
  arena s L -> 0 <= n ->
  allocated_nodes_num (tree s) + n < 2 ^ word_bits storage64 ->
  allocated_nodes_num (tree s) + n < 2 ^ 61 ->
  wpo (ptree_allocate_nodes storage64 n) s (fun _ s' =>
    arena s' L /\ extends s s'
    /\ allocated_nodes_num (tree s') = allocated_nodes_num (tree s) + n).
Proof.
  intros Har Hn Hw Hfit. unfold ptree_allocate_nodes.
  destruct Har. destruct s as [[h lf ma al ok] [rt nn an tbl cm ck]]. simpl in *.
  subst an.
  apply wpo_bind, wp_wpo, wp_get_tree. simpl.
  unfold wrap. rewrite Z.mod_small by lia.
  destruct (Z.ltb_spec (max_nodes storage64) (Z.of_nat (length tbl) + n)) as [Hbig|Hsmall]; [done|].
  apply wpo_bind. unfold realloc_nodes.
  unfold wpo, bind, get_mem, put_mem, get_tree, put_tree, ret. simpl.
  destruct (ok al) eqn:Hok; simpl; [|done].
  rewrite table_slots_small by lia.
  rewrite take_ge by lia.
  set (tbl' := tbl ++ replicate (Z.to_nat (Z.of_nat (length tbl) + n) - length tbl) Null).
  assert (length tbl' = Z.to_nat (Z.of_nat (length tbl) + n)) as Hlen'.
  { unfold tbl'. rewrite length_app, length_replicate. lia. }
  pose proof (max_nodes_red storage64) as Hmr.
  apply wpo_bind.
  eapply wpo_mono.
  { apply allocate_loop_spec.
    - intros a Ha. specialize (ar_fresh0 a Ha). simpl in *. lia.
    - simpl. lia.
    - lia. }
  intros [] s' Hrel. destruct Hrel.
  destruct s' as [[h' lf' ma' al' ok'] [rt' nn' an' tbl'' cm' ck']]. simpl in *.
  simplify_eq. unfold wpo. simpl.
  assert (forall k, (k < length tbl)%nat -> tbl'' !! k = tbl !! k) as Hold.
  { intros k Hk. rewrite al_old0 by lia. unfold tbl'. by rewrite lookup_app_l. }
  assert (forall a, is_Some (h !! a) -> h' !! a = h !! a) as Hheap.
  { intros a Ha. apply al_heap0. specialize (ar_fresh0 a Ha). simpl in *. lia. }
  split_and!.
  - constructor; simpl; try done; try lia.
    + apply NoDup_alt. intros i j p Hi Hj.
      destruct (decide (i < length tbl)%nat), (decide (j < length tbl)%nat).
      * rewrite Hold in Hi, Hj by done. eapply NoDup_lookup; done.
      * rewrite Hold in Hi by done.
        destruct (ar_table0 p) as (a & -> & Ha); [by eapply list_elem_of_lookup_2|].
        destruct (al_new0 j) as (a' & Hl & Hge & _).
        { apply lookup_lt_Some in Hj. lia. }
        specialize (ar_fresh0 a Ha). simpl in *. simplify_eq. lia.
      * rewrite Hold in Hj by done.
        destruct (ar_table0 p) as (a & -> & Ha); [by eapply list_elem_of_lookup_2|].
        destruct (al_new0 i) as (a' & Hl & Hge & _).
        { apply lookup_lt_Some in Hi. lia. }
        specialize (ar_fresh0 a Ha). simpl in *. simplify_eq. lia.
      * apply lookup_lt_Some in Hi as Hi', Hj as Hj'.
        destruct (al_new0 i) as (a' & Hl & _ & _); [lia|].
        rewrite Hl in Hi. simplify_eq. eapply al_inj0; [| |done|done]; lia.
    + intros p [k Hk]%list_elem_of_lookup_1.
      destruct (decide (k < length tbl)%nat).
      * rewrite Hold in Hk by done.
        destruct (ar_table0 p) as (a & -> & Ha); [by eapply list_elem_of_lookup_2|].
        exists a. split; [done|]. by rewrite Hheap.
      * apply lookup_lt_Some in Hk as Hk'.
        destruct (al_new0 k) as (a' & Hl & _ & Hh); [lia|].
        rewrite Hl in Hk. simplify_eq. eauto.
    + intros a i Hin. destruct (ar_active0 a i Hin) as (k & -> & Hk & Hl).
      exists k. split_and!; try done. rewrite Hold; [done|]. by eapply lookup_lt_Some.
    + intros k Hk Hlt. destruct (decide (k < length tbl)%nat).
      * destruct (ar_free0 k Hk) as (a & nd & c & Hl & Hh & Hf); [done|].
        exists a, nd, c. rewrite Hold by done. split_and!; try done.
        rewrite Hheap; [done|]. by rewrite Hh.
      * destruct (al_new0 k) as (a' & Hl & _ & Hh); [lia|].
        eexists a', _, false. split_and!; done.
  - constructor; simpl; try done.
  - done.
Qed.

Lemma extends_nodes_num s s' : extends s s' -> nodes_num (tree s') = nodes_num (tree s).
Proof. intros H. apply ex_tree in H. by injection H. Qed.

Definition add_node_post (s : state) (L : list (nat * Z)) (v : Z)
    (p : pointer) (s' : state) : Prop :=
  exists a, p = Ptr a /\ (a ∉ L.*1)
    /\ heap (mem s') !! a
       = Some (Node v Leaf Leaf Leaf (mkflags storage64 true (nodes_num (tree s))))
    /\ arena s' ((a, nodes_num (tree s)) :: L)
    /\ with_nodes [] (with_allocated 0 (with_nodes_num 0 (tree s')))
       = with_nodes [] (with_allocated 0 (with_nodes_num 0 (tree s)))
    /\ with_allocs 0 (with_heap ∅ (mem s')) = with_allocs 0 (with_heap ∅ (mem s))
    /\ (forall b, is_Some (heap (mem s) !! b) -> b <> a ->
        heap (mem s') !! b = heap (mem s) !! b).

Lemma take_slot_spec s L v :
  arena s L -> nodes_num (tree s) < allocated_nodes_num (tree s) ->
  wp (take_free_slot storage64 v) s (add_node_post s L v).
Proof.
  intros Har Hlt. destruct Har. unfold take_free_slot.
  destruct s as [[h lf ma al ok] [rt nn an tbl cm ck]]. simpl in *.
  pose proof (max_nodes_red storage64) as Hmr.
  pose proof max_nodes_word as Hmw.
  destruct (ar_free0 (Z.to_nat nn)) as (a & n & c & Hl & Hh & Hf); [lia..|].
  rewrite Z2Nat.id in Hf by lia.
  destruct n as [pv l0 l1 par fl]. simpl in Hf. subst fl.
  apply wp_bind, wp_get_tree. simpl.
  apply wp_bind. rewrite <- (Z2Nat.id nn) at 1 by lia.
  eapply wp_get_slot; [done|]. simpl.
  apply wp_bind, wp_put_tree. simpl.
  unfold wrap. rewrite Z.mod_small by lia.
  unfold paint_black, paint_red.
  repeat raw_step.
  rewrite mkflags_paint_black, mkflags_paint_red by lia.
  rewrite !insert_insert_eq.
  assert (a ∉ L.*1) as Hnin.
  { intros [[a' i] [Heq Hin]]%list_elem_of_fmap. simpl in Heq. subst a'.
    destruct (ar_active0 a i Hin) as (k & -> & Hk & Hlk).
    assert (k = Z.to_nat nn) by (eapply NoDup_lookup; done). lia. }
  exists a. split_and!; try done.
  - simpl. by rewrite lookup_insert_eq.
  - constructor; simpl; try done; try lia.
    + intros p Hp. destruct (ar_table0 p Hp) as (b & -> & Hb). exists b. split; [done|].
      destruct (decide (a = b)) as [->|]; [by rewrite lookup_insert_eq|].
      by rewrite lookup_insert_ne.
    + intros b i [Heq|Hin]%elem_of_cons.
      * injection Heq as -> ->. exists (Z.to_nat nn). split_and!; try lia. done.
      * destruct (ar_active0 b i Hin) as (k & -> & Hk & Hlk).
        exists k. split_and!; try done. lia.
    + intros k Hk. destruct (decide (Z.of_nat k = nn)) as [<-|Hne].
      * exists a. apply list_elem_of_here.
      * destruct (ar_onto0 k) as [b Hb]; [lia|]. exists b. by apply list_elem_of_further.
    + intros k Hk Hkl. destruct (ar_free0 k) as (b & nb & cb & Hlb & Hhb & Hfb); [lia|done|].
      exists b, nb, cb. split_and!; try done.
      rewrite lookup_insert_ne; [done|]. intros ->.
      assert (k = Z.to_nat nn) by (eapply NoDup_lookup; done). lia.
    + intros b Hb. simpl in *. apply ar_fresh0. simpl.
      destruct (decide (a = b)) as [->|]; [by rewrite Hh|].
      by rewrite lookup_insert_ne in Hb.
  - simpl. intros b Hb Hne. by rewrite lookup_insert_ne.
Qed.

Lemma add_node_spec s L v :
  arena s L -> storage64 = false \/ nodes_num (tree s) < 2 ^ 60 ->
  wpo (add_node storage64 v) s (add_node_post s L v).
Proof.
  intros Har Hfit. unfold add_node, grow_if_full.
  apply wpo_bind, wpo_bind, wp_wpo, wp_get_tree.
  pose proof max_nodes_word as Hmw.
  pose proof (ar_num _ _ Har) as Hnum. pose proof (ar_max _ _ Har) as Hmax.
  pose proof (ar_cap _ _ Har) as Hcap.
  destruct (Z.leb_spec (allocated_nodes_num (tree s)) (nodes_num (tree s))) as [Hfull|Hroom].
  2: { apply wp_wpo, wp_ret, wp_wpo. by apply take_slot_spec. }
  apply wpo_bind, wp_wpo, wp_get_mem.
  set (n := if negb (max_nodes_to_auto_allocate (mem s) =? 0)
               && (max_nodes_to_auto_allocate (mem s) <? allocated_nodes_num (tree s))
            then wrap storage64 (max_nodes_to_auto_allocate (mem s))
            else if 1 <? allocated_nodes_num (tree s)
                 then allocated_nodes_num (tree s) else 1).
  assert (1 <= n /\ n <= Z.max 1 (allocated_nodes_num (tree s))) as Hn.
  { unfold n.
    destruct (Z.eqb_spec (max_nodes_to_auto_allocate (mem s)) 0); simpl;
    [|destruct (Z.ltb_spec (max_nodes_to_auto_allocate (mem s))
                 (allocated_nodes_num (tree s))); simpl;
      [unfold wrap; rewrite Z.mod_small by lia; lia|]];
    destruct (Z.ltb_spec 1 (allocated_nodes_num (tree s))); lia. }
  eapply wpo_mono.
  { apply (allocate_nodes_spec s L n Har); [lia| |].
    - unfold max_nodes, word_bits in *. destruct storage64; lia.
    - destruct Hfit as [->|Hfit]; [unfold max_nodes in Hmax|]; lia. }
  intros [] s1 (Har1 & Hext & Hal). apply wp_wpo.
  pose proof (extends_nodes_num _ _ Hext) as Hnn.
  eapply wp_mono.
  { apply (take_slot_spec s1 L v Har1). lia. }
  intros p s' (a & -> & Hnin & Hh & Har' & Ht & Hm & Hheap).
  destruct Hext. exists a. rewrite <- Hnn. split_and!; try done.
  - rewrite Ht. destruct (tree s1), (tree s). simpl in *. congruence.
  - congruence.
  - intros b Hb Hne. rewrite Hheap; [by apply ex_heap0| |done].
    by rewrite ex_heap0.
Qed.

End Arena.

(** The facts of an arena, under the names of its fields. *)
Ltac arena_inv H :=
  destruct H as [ar_len ar_num ar_max ar_cap ar_count ar_nodup ar_table ar_active
                 ar_onto ar_free ar_fresh].

(** ** The invariant of the interface *)

Definition leaf_ok (s : state) : Prop :=
  exists p, leaf_node (mem s) = Node 0 Null Null p 0.

Lemma leaf_ok_flags s : leaf_ok s -> flags (leaf_node (mem s)) = 0.
Proof. by intros [p ->]. Qed.

(** Where a handle goes: the context of the hole that receives it, or [None]
    when an element of the tree compares equal to it. *)
Fixpoint ins_path (cmpf : Z -> Z -> Z) (v : Z) (sub : rbt) (ctx : list frame)
    : option (list frame) :=
  match sub with
  | E => Some ctx
  | T c a i l vx r =>
      let d := cmpf v vx in
      if d =? 0 then None
      else if 0 <? d then ins_path cmpf v r (Frame true c a i vx l :: ctx)
      else ins_path cmpf v l (Frame false c a i vx r :: ctx)
  end.

Lemma cwf_of_plug ctx : forall s,
  wf (plug ctx s) -> is_redT (plug ctx s) = false ->
  cwf (bh s) ctx /\ wf s /\ (is_redT s = true -> parent_black ctx).
Proof.
  induction ctx as [|[d c a i v sib] ctx IH]; intros s Hwf Hred; simpl in *.
  - split_and!; try done. congruence.
  - destruct (IH _ Hwf Hred) as (Hc & Hw & Hr). unfold fill in *. simpl in *.
    destruct d; simpl in *; destruct Hw as (Hb & Hcol & Hw1 & Hw2).
    + split_and!; try done.
      * intros ->. destruct Hcol as [? ?]; [done|]. split; [done|]. by apply Hr.
      * by rewrite <- Hb.
      * intros Hs. destruct c; [|done]. destruct Hcol as [? ?]; [done|]. congruence.
    + split_and!; try done.
      * intros ->. destruct Hcol as [? ?]; [done|]. split; [done|]. by apply Hr.
      * intros Hs. destruct c; [|done]. destruct Hcol as [? ?]; [done|]. congruence.
Qed.

Section Insert.

Variable storage64 : bool.

Notation "'in_range' i" := (0 <= i < red_flag storage64)
  (at level 10, i at level 9, only parsing).

Definition heap_rep (s : state) (t : rbt) : Prop :=
  rep storage64 (heap (mem s)) Leaf t /\ root (tree s) = rootp t /\ NoDup (addrs t).

Lemma Rel_refl s A t :
  heap_rep s t -> (forall a, a ∈ addrs t -> a ∈ A) -> Rel storage64 s A s t.
Proof. intros (?&?&?) ?. by constructor. Qed.

Lemma Rel_heap_rep s0 A s t : Rel storage64 s0 A s t -> heap_rep s t.
Proof. intros []. by split_and!. Qed.

(** The invariant: the state represents a red-black tree [t], the arena holds
    exactly its nodes, and the sentinel is as it was initialised (but for its
    parent field). *)
Record Inv (s : state) (t : rbt) : Prop := {
  inv_rep : heap_rep s t;
  inv_arena : arena storage64 s (labels t);
  inv_leaf : leaf_ok s;
  inv_rb : rbtree t
}.

(** Hanging the node [a], already initialised by [add_node], under [x]. *)
Lemma wp_attach s0 A s ctx c x ix l vx r (dir : bool) a i v Q :
  Rel storage64 s0 A s (plug ctx (T c x ix l vx r)) ->
  (if dir then r else l) = E ->
  heap (mem s) !! a = Some (Node v Leaf Leaf Leaf (mkflags storage64 true i)) ->
  in_range i -> a ∈ A -> a ∉ addrs (plug ctx (T c x ix l vx r)) ->
  (forall s',
     Rel storage64 s0 A s'
       (plug (Frame dir c x ix vx (if dir then l else r) :: ctx) (T true a i E v E)) ->
     Q (Some (Ptr a)) s') ->
  wp (do _ <- set_link (Ptr x) dir (Ptr a) ;;
      do c <- get_link (Ptr x) dir ;;
      do _ <- set_parent c (Ptr x) ;;
      do x' <- get_link (Ptr x) dir ;;
      ret (Some x')) s Q.
Proof.
  intros H Hch Ha Hi HaA Hnin HQ.
  pose proof (rel_rep _ _ _ _ _ H) as Hrep. apply rep_plug in Hrep as [Hs Hc].
  pose proof (rel_nodup _ _ _ _ _ H) as Hnd. rewrite addrs_plug in Hnd.
  pose proof (rel_root _ _ _ _ _ H) as Hroot.
  rewrite addrs_plug in Hnin.
  assert (NoDup ([a] ++ addrs (T c x ix l vx r) ++ addrs_ctx ctx)) as Hnd'.
  { simpl. apply NoDup_cons. done. }
  clear Hnd Hnin.
  destruct s as [[h lf ma al ok] [rt nn an tbl cm ck]].
  simpl in Hs, Hc, Hnd', Hroot, Ha; destruct_and?.
  assert (a <> x) by neq_by Hnd'.
  destruct dir; subst.
  all: repeat (raw_step; simp_ptr).
  all: apply HQ.
  all: close_rel_with H Hnd' [a].
  all: simpl; by apply (rootp_plug ctx).
Qed.

Lemma arena_perm s L L' : arena storage64 s L -> L ≡ₚ L' -> arena storage64 s L'.
Proof.
  intros Har HP. arena_inv Har. constructor; try done.
  - by rewrite <- HP.
  - intros a i Hin. apply ar_active. by rewrite HP.
  - intros k Hk. destruct (ar_onto k Hk) as [a Ha]. exists a. by rewrite <- HP.
Qed.

(** The arena is not affected by rewriting objects of the tree. *)
Lemma arena_Rel s0 A s t L :
  arena storage64 s0 L -> Rel storage64 s0 A s t ->
  (forall a, a ∈ A -> a ∈ L.*1) -> arena storage64 s L.
Proof.
  intros Har HR HA. arena_inv Har.
  pose proof (rel_tree _ _ _ _ _ HR) as Ht. pose proof (rel_mem _ _ _ _ _ HR) as Hm.
  destruct s as [[h lf ma al ok] [rt nn an tbl cm ck]].
  destruct s0 as [[h0 lf0 ma0 al0 ok0] [rt0 nn0 an0 tbl0 cm0 ck0]].
  simpl in *. simplify_eq. constructor; simpl; try done.
  - intros p Hp. destruct (ar_table p Hp) as (a & -> & Ha). exists a. split; [done|].
    by apply (rel_dom _ _ _ _ _ HR).
  - intros k Hk Hkl. destruct (ar_free k Hk Hkl) as (a & n & c & Hl & Hh & Hf).
    exists a, n, c. split_and!; try done.
    rewrite (rel_heap _ _ _ _ _ HR); [done|]. simpl.
    intros [[a' i] [Heq Hin]]%HA%list_elem_of_fmap. simpl in Heq. subst a'.
    destruct (ar_active a i Hin) as (k' & -> & Hk' & Hl').
    assert (k = k') by (eapply NoDup_lookup; done). lia.
  - intros a Ha. apply (rel_dom _ _ _ _ _ HR) in Ha. by apply ar_fresh.
Qed.

Lemma height_le_size t : (height t <= length (addrs t))%nat.
Proof. induction t; simpl; [lia|]. rewrite length_app. lia. Qed.

Definition descend_post (s : state) (sub : rbt) (ctx : list frame) (v : Z)
    (r : option pointer) (s' : state) : Prop :=
  match ins_path (cmp (tree s)) v sub ctx with
  | None => r = None /\ s' = s
  | Some ctx' =>
      exists a, r = Some (Ptr a) /\ (a ∉ addrs (plug ctx sub))
        /\ Rel storage64 s' (a :: addrs (plug ctx sub)) s'
             (plug ctx' (T true a (nodes_num (tree s)) E v E))
        /\ arena storage64 s' ((a, nodes_num (tree s)) :: labels (plug ctx sub))
        /\ leaf_node (mem s') = leaf_node (mem s)
        /\ max_nodes_to_auto_allocate (mem s') = max_nodes_to_auto_allocate (mem s)
        /\ alloc_ok (mem s') = alloc_ok (mem s)
        /\ cmp (tree s') = cmp (tree s) /\ cmp_key (tree s') = cmp_key (tree s)
  end.

Lemma insert_descend_spec v sub : forall ctx fuel s,
  sub <> E ->
  Rel storage64 s (addrs (plug ctx sub)) s (plug ctx sub) ->
  arena storage64 s (labels (plug ctx sub)) ->
  storage64 = false \/ nodes_num (tree s) < 2 ^ 60 ->
  (height sub <= fuel)%nat ->
  wpo (insert_descend storage64 fuel v (rootp sub)) s (descend_post s sub ctx v).
Proof.
  induction sub as [|c x ix l IHl vx r IHr]; intros ctx fuel s Hne H Har Hfit Hfuel;
    [done|].
  destruct fuel as [|k]; [simpl in Hfuel; lia|]. simpl in Hfuel.
  cbn [insert_descend rootp]. unfold descend_post. cbn [ins_path].
  apply wpo_bind, wp_wpo, wp_get_tree.
  apply wpo_bind, wp_wpo. rel_step.
  destruct (Z.eqb_spec (cmp (tree s) v vx) 0) as [Heq|Hneq]; [done|].
  apply wpo_bind, wp_wpo. rel_step.
  destruct (0 <? cmp (tree s) v vx) eqn:Hdir.
  - (* right *)
    destruct r as [|cr xr ir rl rv rr]; cbn [rootp].
    + simp_ptr. apply wpo_bind.
      assert (heap_rep s (plug ctx (T c x ix l vx E))) as Hrep by by eapply Rel_heap_rep.
      eapply wpo_mono; [by apply (add_node_spec storage64 s _ v Har Hfit)|].
      intros p s1 (a & -> & Hnin & Hh & Har1 & Ht & Hm & Hheap). apply wp_wpo.
      rewrite <- addrs_labels in Hnin.
      assert (Rel storage64 s1 (a :: addrs (plug ctx (T c x ix l vx E))) s1
                (plug ctx (T c x ix l vx E))) as H1.
      { apply Rel_refl; [|intros; by apply list_elem_of_further].
        destruct Hrep as (Hr1 & Hr2 & Hr3). split_and!; try done.
        - eapply rep_frame; [|done]. intros b Hb. apply Hheap; [|by intros ->].
          by eapply rep_is_Some.
        - rewrite <- Hr2. destruct (tree s1), (tree s). simpl in *. congruence. }
      pose proof (ar_num _ _ _ Har) as Hnum. pose proof (ar_max _ _ _ Har) as Hmax.
      pose proof (max_nodes_red storage64) as Hmr.
      eapply (wp_attach s1 _ s1 ctx c x ix l vx E true a _ v);
        [exact H1|done|exact Hh|lia|apply list_elem_of_here|done|].
      intros s' H'. exists a. split_and!; try done.
      * apply Rel_refl; [by eapply Rel_heap_rep|]. apply (rel_sub _ _ _ _ _ H').
      * eapply arena_Rel; [exact Har1|exact H'|].
        intros b Hb. rewrite fmap_cons, <- addrs_labels. done.
      * rewrite (Rel_leaf _ _ _ _ _ H'). by injection Hm.
      * pose proof (rel_mem _ _ _ _ _ H') as Hm'.
        destruct (mem s'), (mem s1), (mem s). simpl in *. congruence.
      * pose proof (rel_mem _ _ _ _ _ H') as Hm'.
        destruct (mem s'), (mem s1), (mem s). simpl in *. congruence.
      * rewrite (Rel_cmp _ _ _ _ _ H'). destruct (tree s1), (tree s). simpl in *. congruence.
      * rewrite (Rel_cmp_key _ _ _ _ _ H'). destruct (tree s1), (tree s). simpl in *. congruence.
    + simp_ptr. apply wpo_bind, wp_wpo. rel_step.
      apply (IHr (Frame true c x ix vx l :: ctx) k s); try done. simpl in *. lia.
  - (* left *)
    destruct l as [|cl xl il ll lv lr]; cbn [rootp].
    + simp_ptr. apply wpo_bind.
      assert (heap_rep s (plug ctx (T c x ix E vx r))) as Hrep by by eapply Rel_heap_rep.
      eapply wpo_mono; [by apply (add_node_spec storage64 s _ v Har Hfit)|].
      intros p s1 (a & -> & Hnin & Hh & Har1 & Ht & Hm & Hheap). apply wp_wpo.
      rewrite <- addrs_labels in Hnin.
      assert (Rel storage64 s1 (a :: addrs (plug ctx (T c x ix E vx r))) s1
                (plug ctx (T c x ix E vx r))) as H1.
      { apply Rel_refl; [|intros; by apply list_elem_of_further].
        destruct Hrep as (Hr1 & Hr2 & Hr3). split_and!; try done.
        - eapply rep_frame; [|done]. intros b Hb. apply Hheap; [|by intros ->].
          by eapply rep_is_Some.
        - rewrite <- Hr2. destruct (tree s1), (tree s). simpl in *. congruence. }
      pose proof (ar_num _ _ _ Har) as Hnum. pose proof (ar_max _ _ _ Har) as Hmax.
      pose proof (max_nodes_red storage64) as Hmr.
      eapply (wp_attach s1 _ s1 ctx c x ix E vx r false a _ v);
        [exact H1|done|exact Hh|lia|apply list_elem_of_here|done|].
      intros s' H'. exists a. split_and!; try done.
      * apply Rel_refl; [by eapply Rel_heap_rep|]. apply (rel_sub _ _ _ _ _ H').
      * eapply arena_Rel; [exact Har1|exact H'|].
        intros b Hb. rewrite fmap_cons, <- addrs_labels. done.
      * rewrite (Rel_leaf _ _ _ _ _ H'). by injection Hm.
      * pose proof (rel_mem _ _ _ _ _ H') as Hm'.
        destruct (mem s'), (mem s1), (mem s). simpl in *. congruence.
      * pose proof (rel_mem _ _ _ _ _ H') as Hm'.
        destruct (mem s'), (mem s1), (mem s). simpl in *. congruence.
      * rewrite (Rel_cmp _ _ _ _ _ H'). destruct (tree s1), (tree s). simpl in *. congruence.
      * rewrite (Rel_cmp_key _ _ _ _ _ H'). destruct (tree s1), (tree s). simpl in *. congruence.
    + simp_ptr. apply wpo_bind, wp_wpo. rel_step.
      apply (IHl (Frame false c x ix vx r :: ctx) k s); try done. simpl in *. lia.
Qed.

Lemma ins_path_plug cmpf v sub : forall ctx ctx',
  ins_path cmpf v sub ctx = Some ctx' -> plug ctx' E = plug ctx sub.
Proof.
  induction sub as [|c x ix l IHl vx r IHr]; intros ctx ctx' Hp; simpl in Hp.
  - by injection Hp as ->.
  - destruct (cmpf v vx =? 0); [done|]. destruct (0 <? cmpf v vx).
    + by rewrite (IHr _ _ Hp).
    + by rewrite (IHl _ _ Hp).
Qed.

Lemma labels_blacken t : labels (blacken t) = labels t.
Proof. by destruct t. Qed.

Lemma inorder_blacken t : inorder (blacken t) = inorder t.
Proof. by destruct t. Qed.

Lemma length_labels t : length (labels t) = length (addrs t).
Proof. by rewrite addrs_labels, length_fmap. Qed.

Definition insert_post (s : state) (t : rbt) (v : Z) (r : bool) (s' : state) : Prop :=
  match ins_path (cmp (tree s)) v t [] with
  | None => r = false /\ s' = s
  | Some ctx' =>
      r = true /\ exists t', Inv s' t'
        /\ inorder t' = before ctx' ++ v :: after ctx'
        /\ nodes_num (tree s') = nodes_num (tree s) + 1
        /\ max_nodes_to_auto_allocate (mem s') = max_nodes_to_auto_allocate (mem s)
        /\ alloc_ok (mem s') = alloc_ok (mem s)
        /\ cmp (tree s') = cmp (tree s) /\ cmp_key (tree s') = cmp_key (tree s)
  end.

Lemma ptree_insert_spec s t v :
  Inv s t -> storage64 = false \/ nodes_num (tree s) < 2 ^ 60 ->
  wpo (ptree_insert storage64 v) s (insert_post s t v).
Proof.
  intros [Hrep Har Hleaf Hrb] Hfit. unfold ptree_insert, insert_post.
  pose proof Hrep as (Hr1 & Hr2 & Hr3).
  pose proof (max_nodes_red storage64) as Hmr.
  apply wpo_bind, wp_wpo, wp_get_root. rewrite Hr2.
  destruct t as [|c x ix l vx r]; cbn [rootp]; simp_ptr.
  - (* the empty tree *)
    cbn [ins_path]. apply wpo_bind.
    eapply wpo_mono; [by apply (add_node_spec storage64 s _ v Har Hfit)|].
    intros p s1 (a & -> & Hnin & Hh & Har1 & Ht & Hm & Hheap). apply wp_wpo.
    pose proof (ar_num _ _ _ Har) as Hnum. pose proof (ar_max _ _ _ Har) as Hmax.
    destruct s1 as [[h lf ma al ok] [rt nn an tbl cm ck]]. simpl in Hh.
    unfold paint_black. repeat (raw_step; simp_ptr).
    rewrite mkflags_paint_black by lia.
    split; [done|]. exists (T false a (nodes_num (tree s)) E v E).
    assert (with_heap ∅ (mem s)
            = with_heap ∅ (World h lf ma al ok) -> True) as _ by done.
    split_and!.
    + constructor.
      * split_and!; simpl; try done; try lia.
        -- split_and!; try lia; try done. by rewrite lookup_insert_eq.
        -- apply NoDup_singleton.
      * arena_inv Har1. constructor; simpl in *; try done.
        -- intros p Hp. destruct (ar_table p Hp) as (b & -> & Hb). exists b.
           split; [done|]. destruct (decide (a = b)) as [->|];
             [by rewrite lookup_insert_eq|by rewrite lookup_insert_ne].
        -- intros k Hk Hkl. destruct (ar_free k Hk Hkl) as (b & n & c & Hl & Hb & Hf).
           exists b, n, c. split_and!; try done.
           rewrite lookup_insert_ne; [done|]. intros ->.
           destruct (ar_active b (nodes_num (tree s))) as (k' & Hk1 & Hk2 & Hk3);
             [apply list_elem_of_here|].
           assert (k = k') by (eapply NoDup_lookup; done). lia.
        -- intros b Hb. simpl in Hb. apply ar_fresh. simpl.
           destruct (decide (a = b)) as [->|]; [by rewrite Hh|].
           by rewrite lookup_insert_ne in Hb.
      * destruct Hleaf as [p Hp]. exists p. simpl. rewrite <- Hp. by injection Hm.
      * split; simpl; done.
    + done.
    + destruct Har1. simpl in *. destruct Har. simpl in *. lia.
    + simpl. by injection Hm.
    + simpl. by injection Hm.
    + simpl. destruct (tree s). simpl in *. congruence.
    + simpl. destruct (tree s). simpl in *. congruence.
  - (* descent from the root *)
    apply wpo_bind, wp_wpo, wp_loop_bound.
    apply wpo_bind, wp_wpo, wp_get_root. rewrite Hr2. apply wpo_bind.
    pose proof (ar_count _ _ _ Har) as Hcount. rewrite length_labels in Hcount.
    eapply wpo_mono.
    { apply (insert_descend_spec v (T c x ix l vx r) [] _ s);
        [done|by apply Rel_refl|done|done|].
      pose proof (height_le_size (T c x ix l vx r)). lia. }
    intros found s1. unfold descend_post.
    destruct (ins_path (cmp (tree s)) v (T c x ix l vx r) []) as [ctx'|] eqn:Hpath.
    2: { intros [-> ->]. apply wp_wpo. by apply wp_ret. }
    intros (a & -> & Hnin & H1 & Har1 & Hlf1 & Hma1 & Hok1 & Hcmp1 & Hck1). apply wp_wpo.
    pose proof (ins_path_plug _ _ _ _ _ Hpath) as Hplug. simpl in Hplug.
    destruct Hrb as [Hwf Hblack].
    destruct (cwf_of_plug ctx' E) as (Hcwf & _ & _); [by rewrite Hplug..|].
    apply wp_bind, wp_loop_bound.
    pose proof (ar_count _ _ _ Har1) as Hcount1.
    rewrite length_cons, length_labels in Hcount1.
    apply wp_bind. eapply wp_mono.
    { eapply (insert_fixup_spec storage64 s1 _); [|exact H1|done|reflexivity|exact Hcwf|].
      - rewrite Hlf1. by apply leaf_ok_flags.
      - pose proof (length_addrs_ctx ctx') as Hl1.
        pose proof (length_addrs_plug ctx' E) as Hl2. rewrite Hplug in Hl2.
        change (length (addrs E)) with 0%nat in Hl2. cbn [plug] in *. lia. }
    intros [] s2 (t2 & H2 & Hwf2 & Hin2 & Hlab2).
    assert (t2 <> E) as Hne.
    { intros ->. rewrite labels_plug in Hlab2. simpl in Hlab2.
      by apply Permutation_nil_cons in Hlab2. }
    destruct t2 as [|c2 x2 i2 l2 v2 r2]; [done|].
    rel_step. rel_step.
    split; [done|]. exists (T false x2 i2 l2 v2 r2). split_and!.
    + constructor.
      * by eapply Rel_heap_rep.
      * eapply arena_perm.
        -- eapply arena_Rel; [exact Har1|exact H2|].
           intros b Hb. rewrite fmap_cons, <- addrs_labels. done.
        -- change (labels (T false x2 i2 l2 v2 r2)) with (labels (T c2 x2 i2 l2 v2 r2)).
           cbn [plug]. rewrite <- Hplug, Hlab2, !labels_plug. simpl. solve_Permutation.
      * destruct Hleaf as [p Hp]. exists p.
        by rewrite (Rel_leaf _ _ _ _ _ H2), Hlf1.
      * split; [exact Hwf2|done].
    + change (inorder (T false x2 i2 l2 v2 r2)) with (inorder (T c2 x2 i2 l2 v2 r2)).
      rewrite Hin2, inorder_plug. done.
    + rewrite (Rel_nodes_num _ _ _ _ _ H2). cbn [plug] in Hcount1. lia.
    + pose proof (rel_mem _ _ _ _ _ H2) as Hm'.
      destruct (mem s0), (mem s1). simpl in *. congruence.
    + pose proof (rel_mem _ _ _ _ _ H2) as Hm'.
      destruct (mem s0), (mem s1). simpl in *. congruence.
    + by rewrite (Rel_cmp _ _ _ _ _ H2).
    + by rewrite (Rel_cmp_key _ _ _ _ _ H2).
Qed.

End Insert.

(** ** Rebalancing after a removal *)

(** Finding a subtree, given as a term, in a tree term. *)
Ltac focus_sub_in tx ctx t :=
  match t with
  | tx => constr:(ctx)
  | T ?c ?b ?i ?l ?v ?r => focus_sub_in tx constr:(Frame false c b i v r :: ctx) l
  | T ?c ?b ?i ?l ?v ?r => focus_sub_in tx constr:(Frame true c b i v l :: ctx) r
  end.

Ltac focus_sub_plug tx ctx sub :=
  match constr:(Set) with
  | _ => focus_sub_in tx ctx sub
  | _ =>
      lazymatch ctx with
      | ?f :: ?ctx' =>
          let t := eval cbn [fill fdir fcol faddr fidx fval fsib] in (fill f sub) in
          focus_sub_plug tx ctx' t
      end
  end.

Ltac focus_sub H tx :=
  lazymatch type of H with
  | Rel ?b ?s0 ?A ?s (plug ?ctx ?sub) =>
      let ctx' := focus_sub_plug tx ctx sub in
      change (Rel b s0 A s (plug ctx' tx)) in H
  | Rel ?b ?s0 ?A ?s ?t =>
      let ctx' := focus_sub_plug tx (@nil frame) t in
      change (Rel b s0 A s (plug ctx' tx)) in H
  end.

(** The handle held at every address. *)
Fixpoint handles (t : rbt) : list (nat * Z) :=
  match t with E => [] | T _ a _ l v r => (a, v) :: handles l ++ handles r end.

Fixpoint handles_ctx (ctx : list frame) : list (nat * Z) :=
  match ctx with
  | [] => []
  | f :: ctx' => (faddr f, fval f) :: handles (fsib f) ++ handles_ctx ctx'
  end.

Lemma handles_plug ctx s : handles (plug ctx s) ≡ₚ handles s ++ handles_ctx ctx.
Proof.
  revert s. induction ctx as [|[[] c a i v sib] ctx IH]; intros s; simpl.
  - by rewrite app_nil_r.
  - rewrite IH. simpl. solve_Permutation.
  - rewrite IH. simpl. solve_Permutation.
Qed.

Lemma addrs_handles t : addrs t = (handles t).*1.
Proof. induction t; simpl; [done|]. rewrite fmap_app. congruence. Qed.

Lemma handles_blacken t : handles (blacken t) = handles t.
Proof. by destruct t. Qed.

Lemma blacken_black t : is_redT t = false -> blacken t = t.
Proof. by destruct t as [|[] ? ? ? ? ?]. Qed.

Lemma bh_blacken_red t : is_redT t = true -> bh (blacken t) = S (bh t).
Proof. destruct t as [|[] ? ? ? ? ?]; try done. simpl. lia. Qed.

Lemma rootp_plug_ne_sub f ctx s :
  NoDup (addrs (plug (f :: ctx) s)) -> rootp s <> rootp (plug (f :: ctx) s).
Proof.
  intros Hnd. destruct s as [|c a i l v r].
  - destruct (rootp_plug_cons f ctx E) as (b & -> & _). done.
  - apply not_eq_sym. apply rootp_plug_ne; [done|]. apply list_elem_of_here.
Qed.

Section RemoveFixup.

Variable storage64 : bool.
Variables (s0 : state) (A : list nat).
Hypothesis Hleaf : flags (leaf_node (mem s0)) = 0.

Lemma wp_get_parent_sub s cx tx Q :
  Rel storage64 s0 A s (plug cx tx) ->
  (tx = E -> parent (leaf_node (mem s0)) = ctx_par cx) ->
  Q (ctx_par cx) s -> wp (get_parent (rootp tx)) s Q.
Proof.
  intros H Hp HQ. destruct tx as [|c a i l v r]; simpl.
  - eapply wp_get_parent; [apply load_leaf|].
    by rewrite (Rel_leaf _ _ _ _ _ H), Hp.
  - by eapply wp_get_parent_focus.
Qed.

Lemma wp_is_black_sub s cx tx Q :
  Rel storage64 s0 A s (plug cx tx) ->
  Q (negb (is_redT tx)) s -> wp (is_black storage64 (rootp tx)) s Q.
Proof using Hleaf.
  intros H HQ. destruct tx as [|c a i l v r]; simpl.
  - by eapply wp_is_black_leaf.
  - eapply wp_is_black_focus; [done|]. by destruct c.
Qed.

Lemma wp_paint_black_sub s cx tx Q :
  Rel storage64 s0 A s (plug cx tx) ->
  (forall s', Rel storage64 s0 A s' (plug cx (blacken tx)) -> Q tt s') ->
  wp (paint_black storage64 (rootp tx)) s Q.
Proof using Hleaf.
  intros H HQ. destruct tx as [|c a i l v r]; simpl.
  - unfold paint_black, set_flags.
    apply wp_bind. eapply wp_get_flags; [apply load_leaf|].
    apply wp_bind. eapply wp_load; [apply load_leaf|].
    pose proof (Rel_leaf _ _ _ _ _ H) as Hl. rewrite <- Hl in Hleaf.
    specialize (HQ s H). destruct s as [[h lf ma al ok] tr]. simpl in *.
    destruct lf as [pv l0 l1 par fl]. simpl in *. subst fl.
    unfold wp. simpl. by rewrite flags_zero_paint_black.
  - by eapply wp_paint_black_focus.
Qed.

(** [copy_color] after its test: the node in focus takes the colour [c']. *)
Lemma wp_paint_if_focus s ctx c a i l v r (c' : bool) Q :
  Rel storage64 s0 A s (plug ctx (T c a i l v r)) ->
  (forall s', Rel storage64 s0 A s' (plug ctx (T c' a i l v r)) -> Q tt s') ->
  wp (if c' then paint_red storage64 (Ptr a) else paint_black storage64 (Ptr a)) s Q.
Proof.
  intros H HQ. destruct c'.
  - by eapply wp_paint_red_focus.
  - by eapply wp_paint_black_focus.
Qed.

End RemoveFixup.

Ltac del_step Hleaf Hlp :=
  first
    [ rel_step
    | wp_bind_head;
      lazymatch goal with
      | H : Rel _ _ _ ?s _ |- wp (is_red _ Leaf) ?s _ =>
          eapply wp_is_red_leaf; [exact Hleaf|exact H|]
      | H : Rel _ _ _ ?s _ |- wp (is_black _ Leaf) ?s _ =>
          eapply wp_is_black_leaf; [exact Hleaf|exact H|]
      | H : Rel _ _ _ ?s _ |- wp (get_parent (rootp ?tx)) ?s _ =>
          focus_sub H tx; eapply wp_get_parent_sub; [exact H|exact Hlp|]
      | H : Rel _ _ _ ?s _ |- wp (is_black _ (rootp ?tx)) ?s _ =>
          focus_sub H tx; eapply wp_is_black_sub; [exact Hleaf|exact H|]
      | H : Rel _ _ _ ?s _
        |- wp (if _ then paint_red _ (Ptr ?a) else paint_black _ (Ptr ?a)) ?s _ =>
          focus_hyp H a; eapply wp_paint_if_focus; [exact H|];
          let s' := fresh "s" in clear H; intros s' H
      end; rel_cbn; simp_ptr ].

Ltac tree_eqs :=
  split;
  [ rewrite ?inorder_plug; repeat (progress (simpl; rewrite <- ?app_assoc)); done
  | split;
    [ rewrite ?labels_plug; simpl; solve_Permutation
    | rewrite ?handles_plug; simpl; solve_Permutation ] ].

(** The two ways an iteration of the loop of [remove_fixup] ends: with the
    loop run again from a node in focus, or with [x] returned. *)
Ltac fixup_close IH Hred :=
  lazymatch goal with
  | H : Rel _ _ _ ?s _ |- wp (remove_fixup _ _ (Ptr ?a)) ?s _ =>
      focus_hyp H a;
      eapply wp_mono;
      [ eapply (IH _ _ _ _ H);
        [ simpl; wf_solve | reflexivity | wf_solve | done
        | simpl in *; lia | simpl in *; intros; lia ]
      | let Hin := fresh "Hin" in
        let Hlab := fresh "Hlab" in
        let Hhan := fresh "Hhan" in
        intros ? ? (cx' & tx' & ? & ? & ? & ? & Hin & Hlab & Hhan); exists cx', tx';
        split; [done|]; split; [done|]; split; [done|]; split; [done|];
        rewrite Hin, Hlab, Hhan; tree_eqs ]
  | H : Rel _ _ _ ?s _ |- exists cx' tx', rootp ?tx = rootp tx' /\ _ =>
      focus_sub H tx; eexists _, tx;
      split; [reflexivity|]; split; [exact H|];
      rewrite (blacken_black tx Hred);
      split; [done|];
      split;
      [ repeat match goal with
               | Hc : ?c = true -> _ |- _ => is_var c; destruct c
               end;
        wf_solve
      | tree_eqs ]
  end.

Section RemoveFixupSpec.

Variable storage64 : bool.
Variables (s0 : state) (A : list nat).
Hypothesis Hleaf : flags (leaf_node (mem s0)) = 0.

Definition fixup_post (cx : list frame) (tx : rbt) (x' : pointer) (s' : state) : Prop :=
  exists cx' tx', x' = rootp tx' /\ Rel storage64 s0 A s' (plug cx' tx')
    /\ wf (blacken tx') /\ cwf (bh (blacken tx')) cx'
    /\ inorder (plug cx' tx') = inorder (plug cx tx)
    /\ labels (plug cx' tx') ≡ₚ labels (plug cx tx)
    /\ handles (plug cx' tx') ≡ₚ handles (plug cx tx).

Lemma remove_fixup_spec fuel : forall s cx tx n,
  Rel storage64 s0 A s (plug cx tx) ->
  wf (blacken tx) -> bh tx = n -> cwf (S n) cx ->
  (tx = E -> parent (leaf_node (mem s0)) = ctx_par cx) ->
  (0 < fuel)%nat -> (is_redT tx = false -> length cx < fuel)%nat ->
  wp (remove_fixup storage64 fuel (rootp tx)) s (fixup_post cx tx).
Proof using Hleaf.
  induction fuel as [|k IH]; intros s cx tx n H Hwf Hbh Hc Hlp Hpos Hfuel; [lia|].
  cbn [remove_fixup]. unfold fixup_post.
  pose proof (rel_nodup _ _ _ _ _ H) as Hnd.
  destruct cx as [|[dp cp p ip vp sp] ctx1].
  { (* x is the root *)
    rel_step. rel_step. exists [], tx. split_and!; try done. }
  rel_step.
  rewrite (ptr_eqb_ne (rootp tx)) by (by apply rootp_plug_ne_sub).
  del_step Hleaf Hlp.
  destruct (is_redT tx) eqn:Hred; cbn [negb].
  { (* x is red *)
    rel_step. eexists _, tx. split_and!; try done.
    rewrite bh_blacken_red by done. by subst n. }
  specialize (Hfuel eq_refl). simpl in Hfuel.
  rewrite (blacken_black tx Hred) in Hwf.
  subst n. simpl in Hc. destruct Hc as (Hsw & Hsb & Hcol & Hc).
  destruct sp as [|cw w iw wl vw wr]; [simpl in Hsb; lia|].
  rewrite addrs_plug in Hnd.
  destruct cw.
  - (* the sibling is red: its children and the parent are black *)
    destruct cp; [by destruct Hcol|]. clear Hcol.
    destruct dp.
    + destruct wr as [|[] w' iw' c1 vw' c2];
        [exfalso; simpl in *; lia|exfalso; wf_prep; done|].
      destruct c1 as [|[] a1 i1 l1 v1 r1], c2 as [|[] a2 i2 l2 v2 r2].
      all: simpl in Hnd; all_neq Hnd.
      all: repeat (del_step Hleaf Hlp).
      all: fixup_close IH Hred.
    + destruct wl as [|[] w' iw' c1 vw' c2];
        [exfalso; simpl in *; lia|exfalso; wf_prep; done|].
      destruct c1 as [|[] a1 i1 l1 v1 r1], c2 as [|[] a2 i2 l2 v2 r2].
      all: simpl in Hnd; all_neq Hnd.
      all: repeat (del_step Hleaf Hlp).
      all: fixup_close IH Hred.
  - (* the sibling is black *)
    destruct dp.
    + destruct wl as [|[] a1 i1 l1 v1 r1], wr as [|[] a2 i2 l2 v2 r2].
      all: simpl in Hnd; all_neq Hnd.
      all: repeat (del_step Hleaf Hlp).
      all: fixup_close IH Hred.
    + destruct wl as [|[] a1 i1 l1 v1 r1], wr as [|[] a2 i2 l2 v2 r2].
      all: simpl in Hnd; all_neq Hnd.
      all: repeat (del_step Hleaf Hlp).
      all: fixup_close IH Hred.
Qed.

End RemoveFixupSpec.

(** ** Removal *)

(** The leftmost node of a subtree, with its context. *)
Fixpoint leftmost (sub : rbt) (ctx : list frame) : list frame * rbt :=
  match sub with
  | E => (ctx, E)
  | T c a i l v r =>
      match l with
      | E => (ctx, sub)
      | T _ _ _ _ _ _ => leftmost l (Frame false c a i v r :: ctx)
      end
  end.

Lemma leftmost_plug sub : forall ctx,
  plug (leftmost sub ctx).1 (leftmost sub ctx).2 = plug ctx sub.
Proof.
  induction sub as [|c a i l IHl v r _]; intros ctx; [done|].
  destruct l as [|cl al il ll vl rl]; [done|].
  change (leftmost (T c a i (T cl al il ll vl rl) v r) ctx)
    with (leftmost (T cl al il ll vl rl) (Frame false c a i v r :: ctx)).
  by rewrite IHl.
Qed.

Lemma leftmost_shape sub : forall ctx,
  sub <> E -> exists c y i v r, (leftmost sub ctx).2 = T c y i E v r.
Proof.
  induction sub as [|c a i l IHl v r _]; intros ctx Hne; [done|].
  destruct l as [|cl al il ll vl rl]; [by eexists _, _, _, _, _|].
  by apply IHl.
Qed.

Lemma leftmost_ctx sub : forall ctx,
  exists cl, (leftmost sub ctx).1 = cl ++ ctx /\ Forall (fun f => fdir f = false) cl.
Proof.
  induction sub as [|c a i l IHl v r _]; intros ctx; [by exists []|].
  destruct l as [|cl al il ll vl rl]; [by exists []|].
  destruct (IHl (Frame false c a i v r :: ctx)) as (cl' & Heq & Hall).
  exists (cl' ++ [Frame false c a i v r]). split.
  - rewrite <- app_assoc. exact Heq.
  - apply Forall_app. split; [done|]. by constructor.
Qed.

Lemma descend_spec storage64 s0 A sub : forall ctx fuel s,
  sub <> E -> Rel storage64 s0 A s (plug ctx sub) -> (height sub <= fuel)%nat ->
  wp (descend fuel false (rootp sub)) s
    (fun p s' => s' = s /\ p = rootp (leftmost sub ctx).2).
Proof.
  induction sub as [|c a i l IHl v r _]; intros ctx fuel s Hne H Hfuel; [done|].
  destruct fuel as [|k]; [simpl in Hfuel; lia|]. simpl in Hfuel.
  cbn [descend rootp]. rel_step.
  destruct l as [|cl al il ll vl rl]; cbn [rootp]; simp_ptr.
  - by apply wp_ret.
  - apply (IHl (Frame false c a i v r :: ctx) k s); [done|done|]. lia.
Qed.

Lemma wp_set_parent_leaf q s Q :
  Q tt (State (with_leaf (with_parent q (leaf_node (mem s))) (mem s)) (tree s)) ->
  wp (set_parent Leaf q) s Q.
Proof. done. Qed.

Section Transplant.

Variable storage64 : bool.

(** The state after the child [tx] of the node [y] has taken the place of
    [y] below the context [cy]. *)
Record transplanted (s s' : state) (cy : list frame) (tx : rbt) : Prop := {
  tp_rep : heap_rep storage64 s' (plug cy tx);
  tp_tree : with_root Leaf (tree s') = with_root Leaf (tree s);
  tp_mem : with_leaf zero_node (with_heap ∅ (mem s'))
           = with_leaf zero_node (with_heap ∅ (mem s));
  tp_leaf : leaf_node (mem s')
            = match tx with
              | E => with_parent (ctx_par cy) (leaf_node (mem s))
              | _ => leaf_node (mem s)
              end;
  tp_heap : forall a, a ∉ addrs (plug cy tx) ->
            heap (mem s') !! a = heap (mem s) !! a;
  tp_dom : forall a, is_Some (heap (mem s') !! a) <-> is_Some (heap (mem s) !! a)
}.

Lemma wp_transplant {B} s cy c y iy ly vy ry tx (K : M B) Q :
  heap_rep storage64 s (plug cy (T c y iy ly vy ry)) ->
  (ly = E /\ tx = ry) \/ (ry = E /\ tx = ly) ->
  (forall s', transplanted s s' cy tx -> wp K s' Q) ->
  wp (do _ <- set_parent (rootp tx) (ctx_par cy) ;;
      do yp <- get_parent (Ptr y) ;;
      do _ <- (if ptr_eqb yp Leaf then set_root (rootp tx)
               else
                 do side <- is_child (Ptr y) true ;;
                 do yp <- get_parent (Ptr y) ;;
                 set_link yp side (rootp tx)) ;;
      K) s Q.
Proof.
  intros (Hrep & Hroot & Hnd) Hor HQ.
  apply rep_plug in Hrep as [Hs Hc]. rewrite addrs_plug in Hnd.
  destruct s as [[h lf ma al ok] [rt nn an tbl cm ck]].
  destruct cy as [|[[] cp p ip vp sp] cy'], tx as [|cx x ix xl vx xr].
  all: destruct Hor as [[-> He]|[-> He]]; try subst ly; try subst ry.
  all: simpl in Hs, Hc, Hnd, Hroot; destruct_and?.
  all: all_neq Hnd.
  all: cbn [rootp ctx_par faddr].
  all: try (apply wp_bind, wp_set_parent_leaf).
  all: repeat (first
         [ raw_step
         | wp_bind_head;
           lazymatch goal with
           | |- wp (is_child _ _) _ _ => unfold is_child at 1
           end ]; simp_ptr).
  all: apply HQ.
  all: lazymatch goal with
       | |- transplanted (State (World ?h _ _ _ _) _) (State (World ?hf _ _ _ _) _) _ _ =>
           let ks := keys_of hf in
           assert (upd ks h hf) as Hupd by solve_upd
       end.
  all: constructor;
         [split_and!|reflexivity|reflexivity|reflexivity| |apply Hupd];
         cbn [mem heap tree root].
  all: try (apply rep_plug; split; solve_rep Hupd Hnd).
  all: try (rewrite addrs_plug; eapply submseteq_NoDup; [|exact Hnd];
            simpl; solve_submseteq).
  all: try (simpl; subst rt; by apply (rootp_plug cy')).
  all: try (intros a Ha; rewrite addrs_plug in Ha; simpl in Ha;
            rewrite ?lookup_insert_ne by (intros ->; apply Ha; elem_tac); reflexivity).
  all: reflexivity.
Qed.

End Transplant.

(** ** Releasing a node *)

(** The tree with the index of the node at [b] set to [j]. *)
Fixpoint set_idx (b : nat) (j : Z) (t : rbt) : rbt :=
  match t with
  | E => E
  | T c a i l v r =>
      T c a (if decide (a = b) then j else i) (set_idx b j l) v (set_idx b j r)
  end.

Lemma rootp_set_idx b j t : rootp (set_idx b j t) = rootp t.
Proof. by destruct t. Qed.

Lemma inorder_set_idx b j t : inorder (set_idx b j t) = inorder t.
Proof. induction t; simpl; congruence. Qed.

Lemma addrs_set_idx b j t : addrs (set_idx b j t) = addrs t.
Proof. induction t; simpl; congruence. Qed.

Lemma bh_set_idx b j t : bh (set_idx b j t) = bh t.
Proof. induction t; simpl; congruence. Qed.

Lemma is_redT_set_idx b j t : is_redT (set_idx b j t) = is_redT t.
Proof. by destruct t. Qed.

Lemma wf_set_idx b j t : wf t -> wf (set_idx b j t).
Proof.
  induction t as [|c a i l IHl v r IHr]; simpl; [done|].
  rewrite !bh_set_idx, !is_redT_set_idx. tauto.
Qed.

Lemma labels_set_idx b j t :
  labels (set_idx b j t)
  = (fun p => (p.1, if decide (p.1 = b) then j else p.2)) <$> labels t.
Proof.
  induction t as [|c a i l IHl v r IHr]; simpl; [done|].
  rewrite fmap_app. congruence.
Qed.

Lemma swap_lookup {X} (l : list X) i j x y k :
  l !! i = Some x -> l !! j = Some y ->
  <[j:=x]> (<[i:=y]> l) !! k
  = if decide (k = j) then Some x else if decide (k = i) then Some y else l !! k.
Proof.
  intros Hi Hj. apply lookup_lt_Some in Hi as Hi', Hj as Hj'.
  destruct (decide (k = j)) as [->|Hkj].
  - rewrite list_lookup_insert_eq; [done|]. by rewrite length_insert.
  - rewrite list_lookup_insert_ne by done.
    destruct (decide (k = i)) as [->|Hki].
    + by rewrite list_lookup_insert_eq.
    + by rewrite list_lookup_insert_ne.
Qed.

Lemma swap_NoDup {X} (l : list X) i j x y :
  NoDup l -> l !! i = Some x -> l !! j = Some y -> NoDup (<[j:=x]> (<[i:=y]> l)).
Proof.
  intros Hnd Hi Hj. apply NoDup_alt. intros k1 k2 z.
  rewrite !(swap_lookup l i j x y) by done. rewrite <- Hi, <- Hj.
  repeat case_decide; intros Hk1 Hk2;
    pose proof (NoDup_lookup _ _ _ _ Hnd Hk1 Hk2); congruence.
Qed.

Section Release.

Variable storage64 : bool.

Notation "'in_range' i" := (0 <= i < red_flag storage64)
  (at level 10, i at level 9, only parsing).

Lemma rep_set_idx h b j nb par t :
  in_range j -> h !! b = Some nb -> rep storage64 h par t ->
  rep storage64 (<[b:=with_flags (flags_set_index storage64 (flags nb) j) nb]> h)
    par (set_idx b j t).
Proof.
  intros Hj Hb. revert par.
  induction t as [|c a i l IHl v r IHr]; intros par; simpl; [done|].
  intros (Hrg & Ha & Hl & Hr). rewrite !rootp_set_idx.
  destruct (decide (a = b)) as [->|Hne].
  - rewrite lookup_insert_eq. rewrite Ha in Hb. injection Hb as <-.
    split_and!; [lia|lia| |by apply IHl|by apply IHr].
    simpl. by rewrite mkflags_set_index.
  - rewrite lookup_insert_ne by done. split_and!; try lia; auto.
Qed.

(** The arena depends on the table, the counters, and the objects that are
    not nodes of the tree. *)
Lemma arena_frame s0 s L :
  arena storage64 s0 L ->
  with_root Leaf (tree s) = with_root Leaf (tree s0) ->
  with_leaf zero_node (with_heap ∅ (mem s))
  = with_leaf zero_node (with_heap ∅ (mem s0)) ->
  (forall a, a ∉ L.*1 -> heap (mem s) !! a = heap (mem s0) !! a) ->
  (forall a, is_Some (heap (mem s) !! a) <-> is_Some (heap (mem s0) !! a)) ->
  arena storage64 s L.
Proof.
  intros Har Ht Hm Hheap Hdom. arena_inv Har.
  destruct s as [[h lf ma al ok] [rt nn an tbl cm ck]].
  destruct s0 as [[h0 lf0 ma0 al0 ok0] [rt0 nn0 an0 tbl0 cm0 ck0]].
  simpl in *. simplify_eq. constructor; simpl; try done.
  - intros p Hp. destruct (ar_table p Hp) as (a & -> & Ha). exists a. split; [done|].
    by apply Hdom.
  - intros k Hk Hkl. destruct (ar_free k Hk Hkl) as (a & n & c & Hl & Hh & Hf).
    exists a, n, c. split_and!; try done.
    rewrite Hheap; [done|].
    intros [[a' i] [Heq Hin]]%list_elem_of_fmap. simpl in Heq. subst a'.
    destruct (ar_active a i Hin) as (k' & -> & Hk' & Hl').
    assert (k = k') by (eapply NoDup_lookup; done). lia.
  - intros a Ha. apply Hdom in Ha. by apply ar_fresh.
Qed.

Definition release_post (s : state) (t : rbt) (y : nat) (iy : Z)
    (_ : unit) (s' : state) : Prop :=
  exists b, heap_rep storage64 s' (set_idx b iy t)
    /\ arena storage64 s' (labels (set_idx b iy t))
    /\ with_nodes [] (with_nodes_num 0 (tree s'))
       = with_nodes [] (with_nodes_num 0 (tree s))
    /\ nodes_num (tree s') = nodes_num (tree s) - 1
    /\ with_heap ∅ (mem s') = with_heap ∅ (mem s)
    /\ nodes (tree s') !! Z.to_nat (nodes_num (tree s')) = Some (Ptr y).

Lemma release_final h h2 lf ma al ok rt nn an tbl cm ck t y b ky kl c ny2 :
  let s := State (World h lf ma al ok) (Ptree rt nn an tbl cm ck) in
  rt = rootp t -> NoDup (addrs t) -> y ∉ addrs t ->
  arena storage64 s ((y, Z.of_nat ky) :: labels t) ->
  Z.of_nat kl = nn - 1 ->
  tbl !! ky = Some (Ptr y) -> tbl !! kl = Some (Ptr b) ->
  (b, Z.of_nat kl) ∈ (y, Z.of_nat ky) :: labels t ->
  rep storage64 h2 Leaf (set_idx b (Z.of_nat ky) t) ->
  h2 !! y = Some ny2 -> flags ny2 = mkflags storage64 c (Z.of_nat kl) ->
  (forall a, a <> y -> a <> b -> h2 !! a = h !! a) ->
  (forall a, is_Some (h2 !! a) <-> is_Some (h !! a)) ->
  release_post s t y (Z.of_nat ky) tt
    (State (World h2 lf ma al ok)
       (Ptree rt (Z.of_nat kl) an (<[kl:=Ptr y]> (<[ky:=Ptr b]> tbl)) cm ck)).
Proof.
  intros s Hroot Hnd Hnin Har Hkl Hty Htb Hb Hrep Hy2 Hfl2 Hh2 Hdom.
  assert (forall a i, (a, i) ∈ labels t -> a ∈ addrs t) as Hlab.
  { intros a i Hin. rewrite addrs_labels. apply list_elem_of_fmap. by exists (a, i). }
  assert (forall k, <[kl:=Ptr y]> (<[ky:=Ptr b]> tbl) !! k
            = if decide (k = kl) then Some (Ptr y)
              else if decide (k = ky) then Some (Ptr b) else tbl !! k) as Hsw.
  { intros k. by apply swap_lookup. }
  arena_inv Har. subst s. simpl in *.
  assert (forall k1 k2 p, tbl !! k1 = Some p -> tbl !! k2 = Some p -> k1 = k2) as Hinj.
  { intros k1 k2 p. by apply NoDup_lookup. }
  assert (Z.of_nat ky < nn) as Hkyn.
  { destruct (ar_active y (Z.of_nat ky)) as (k' & Heq & Hk & _);
      [apply list_elem_of_here|]. lia. }
  exists b. split_and!; simpl.
  - split_and!; simpl; [done|by rewrite rootp_set_idx|by rewrite addrs_set_idx].
  - constructor; simpl.
    + by rewrite !length_insert.
    + lia.
    + done.
    + done.
    + rewrite labels_set_idx, length_fmap. simpl in ar_count. lia.
    + by apply swap_NoDup.
    + intros p [k Hk]%list_elem_of_lookup_1. rewrite Hsw in Hk.
      assert (p ∈ tbl) as Hp.
      { repeat case_decide; simplify_eq; by eapply list_elem_of_lookup_2. }
      destruct (ar_table p Hp) as (a & -> & Ha). exists a. split; [done|]. by apply Hdom.
    + intros a i'. rewrite labels_set_idx.
      intros [[a0 i0] [[= -> ->] Hin]]%list_elem_of_fmap. simpl.
      destruct (ar_active a0 i0) as (k & -> & Hk & Htk); [by apply list_elem_of_further|].
      assert (a0 <> y) as Hay by (intros ->; by apply Hnin, (Hlab _ _ Hin)).
      destruct (decide (a0 = b)) as [->|Hab].
      * assert (k = kl) by by eapply Hinj. subst k.
        assert (ky <> kl) by (intros ->; congruence).
        exists ky. split_and!; [done|lia|]. rewrite Hsw. by repeat case_decide.
      * assert (k <> kl) by (intros ->; congruence).
        assert (k <> ky) by (intros ->; congruence).
        exists k. split_and!; [done|lia|]. rewrite Hsw. by repeat case_decide.
    + intros k Hk. rewrite labels_set_idx.
      destruct (ar_onto k) as [a Ha]; [lia|].
      apply elem_of_cons in Ha as [[= -> Heq]|Ha].
      * apply Nat2Z.inj in Heq. subst k.
        apply elem_of_cons in Hb as [[= -> Heq]|Hb]; [lia|].
        exists b. apply list_elem_of_fmap. exists (b, Z.of_nat kl). simpl.
        split; [|done]. by rewrite decide_True.
      * exists a. apply list_elem_of_fmap. exists (a, Z.of_nat k). simpl.
        split; [|done]. rewrite decide_False; [done|]. intros ->.
        destruct (ar_active b (Z.of_nat k)) as (k' & Heq & _ & Htk);
          [by apply list_elem_of_further|].
        apply Nat2Z.inj in Heq. subst k'.
        assert (k = kl) by by eapply Hinj. lia.
    + intros k Hk. rewrite !length_insert. intros Hlen. rewrite Hsw.
      destruct (decide (k = kl)) as [->|Hne]; [by exists y, ny2, c|].
      destruct (ar_free k) as (a & n & c' & Htk & Ha & Hf); [lia|done|].
      apply lookup_lt_Some in Hty as Hlt.
      destruct (ar_active y (Z.of_nat ky)) as (k' & Heq & Hky & _);
        [apply list_elem_of_here|].
      apply Nat2Z.inj in Heq. subst k'.
      rewrite decide_False by lia.
      exists a, n, c'. split_and!; [done| |done].
      rewrite Hh2; [done| |].
      -- intros ->. assert (k = ky) by by eapply Hinj. lia.
      -- intros ->. assert (k = kl) by by eapply Hinj. lia.
    + intros a Ha. apply Hdom in Ha. by apply ar_fresh.
  - done.
  - lia.
  - done.
  - rewrite Nat2Z.id, Hsw. by rewrite decide_True.
Qed.

Lemma release_node_spec s t y iy c ny :
  heap_rep storage64 s t ->
  arena storage64 s ((y, iy) :: labels t) ->
  heap (mem s) !! y = Some ny -> flags ny = mkflags storage64 c iy ->
  y ∉ addrs t -> to_int32 iy = iy ->
  wp (release_node storage64 (Ptr y)) s (release_post s t y iy).
Proof.
  intros (Hrep & Hroot & Hnd) Har Hy Hfl Hnin H32.
  pose proof (max_nodes_red storage64) as Hmr.
  pose proof (max_nodes_word storage64) as Hmw.
  destruct (ar_active _ _ _ Har y iy) as (ky & -> & Hky & Hty); [apply list_elem_of_here|].
  pose proof (ar_num _ _ _ Har) as Hnum. pose proof (ar_max _ _ _ Har) as Hmax.
  set (kl := Z.to_nat (nodes_num (tree s) - 1)).
  assert (Z.of_nat kl = nodes_num (tree s) - 1) as Hkl by (unfold kl; lia).
  destruct (ar_onto _ _ _ Har kl) as [b Hb]; [lia|].
  destruct (ar_active _ _ _ Har b _ Hb) as (kl' & Heq & _ & Htb).
  apply Nat2Z.inj in Heq. subst kl'.
  assert (is_Some (heap (mem s) !! b)) as [nb Hnb].
  { destruct (ar_table _ _ _ Har (Ptr b)) as (b' & [= <-] & Hs); [|done].
    by eapply list_elem_of_lookup_2. }
  unfold release_node.
  destruct s as [[h lf ma al ok] [rt nn an tbl cm ck]]. simpl in *.
  apply wp_bind, wp_get_tree. apply wp_bind, wp_put_tree. apply wp_bind, wp_get_tree.
  cbn [tree mem nodes_num with_nodes_num].
  unfold wrap. rewrite Z.mod_small by lia.
  unfold get_node_index. repeat raw_step. rewrite Hfl, mkflags_get_index by lia.
  rewrite H32, <- Hkl.
  apply wp_bind. eapply wp_get_slot; [exact Htb|]. cbn [tree mem].
  unfold set_node_index.
  assert (ky < length tbl)%nat as Hkyl by (by eapply lookup_lt_Some).
  assert (kl < length tbl)%nat as Hkll by (by eapply lookup_lt_Some).
  assert (rep storage64
            (<[b:=with_flags (flags_set_index storage64 (flags nb) (Z.of_nat ky)) nb]> h)
            Leaf (set_idx b (Z.of_nat ky) t)) as Hrep1.
  { apply rep_set_idx; [lia|done|done]. }
  destruct (decide (b = y)) as [->|Hby].
  - (* the node released is the last one *)
    rewrite Hy in Hnb. injection Hnb as <-.
    repeat raw_step.
    apply wp_bind. eapply wp_get_slot; [exact Htb|]. cbn [tree mem].
    apply wp_bind. apply wp_set_slot; [done|]. cbn [tree mem nodes with_nodes].
    apply wp_set_slot; [simpl; by rewrite length_insert|]. simpl.
    eapply (release_final h _ lf ma al ok rt nn an tbl cm ck t y y ky kl c);
      try done.
    + eapply rep_frame; [|exact Hrep1]. intros a Ha. rewrite addrs_set_idx in Ha.
      rewrite lookup_insert_ne; [done|]. by intros ->.
    + by rewrite lookup_insert_eq.
    + simpl. rewrite Hfl, !mkflags_set_index by lia. done.
    + intros a Hay _. by rewrite !lookup_insert_ne.
    + intros a. destruct (decide (a = y)) as [->|].
      * rewrite lookup_insert_eq, Hy. split; eauto.
      * by rewrite !lookup_insert_ne.
  - repeat raw_step.
    apply wp_bind. eapply wp_get_slot; [exact Htb|]. cbn [tree mem].
    apply wp_bind. apply wp_set_slot; [done|]. cbn [tree mem nodes with_nodes].
    apply wp_set_slot; [simpl; by rewrite length_insert|]. simpl.
    eapply (release_final h _ lf ma al ok rt nn an tbl cm ck t y b ky kl c);
      try done.
    + eapply rep_frame; [|exact Hrep1]. intros a Ha. rewrite addrs_set_idx in Ha.
      rewrite lookup_insert_ne; [done|]. by intros ->.
    + by rewrite lookup_insert_eq.
    + simpl. rewrite Hfl, !mkflags_set_index by lia. done.
    + intros a Hay Hab. by rewrite !lookup_insert_ne.
    + intros a. destruct (decide (a = y)) as [->|]; [|destruct (decide (a = b)) as [->|]].
      * rewrite lookup_insert_eq, Hy. split; eauto.
      * rewrite lookup_insert_ne, lookup_insert_eq, Hnb by done. split; eauto.
      * by rewrite !lookup_insert_ne.
Qed.

End Release.

(** ** Contexts in two parts *)

Lemma plug_app c1 c2 s : plug (c1 ++ c2) s = plug c2 (plug c1 s).
Proof. revert s. induction c1 as [|f c1 IH]; intros s; simpl; [done|]. apply IH. Qed.

Lemma labels_ctx_app c1 c2 : labels_ctx (c1 ++ c2) = labels_ctx c1 ++ labels_ctx c2.
Proof. induction c1 as [|f c1 IH]; simpl; [done|]. by rewrite IH, <- app_assoc. Qed.

Lemma addrs_ctx_app c1 c2 : addrs_ctx (c1 ++ c2) = addrs_ctx c1 ++ addrs_ctx c2.
Proof. induction c1 as [|f c1 IH]; simpl; [done|]. by rewrite IH, <- app_assoc. Qed.

Lemma handles_ctx_app c1 c2 : handles_ctx (c1 ++ c2) = handles_ctx c1 ++ handles_ctx c2.
Proof. induction c1 as [|f c1 IH]; simpl; [done|]. by rewrite IH, <- app_assoc. Qed.

Lemma before_app c1 c2 : before (c1 ++ c2) = before c2 ++ before c1.
Proof. induction c1 as [|f c1 IH]; simpl; [by rewrite app_nil_r|]. by rewrite IH, <- app_assoc. Qed.

Lemma after_app c1 c2 : after (c1 ++ c2) = after c1 ++ after c2.
Proof. induction c1 as [|f c1 IH]; simpl; [done|]. by rewrite IH, <- app_assoc. Qed.

Lemma before_left cl : Forall (fun f => fdir f = false) cl -> before cl = [].
Proof.
  induction 1 as [|f cl Hf _ IH]; simpl; [done|]. by rewrite IH, Hf.
Qed.

Lemma fill_inj f a b : fill f a = fill f b -> a = b.
Proof. unfold fill. destruct (fdir f); congruence. Qed.

Lemma plug_inj ctx : forall a b, plug ctx a = plug ctx b -> a = b.
Proof.
  induction ctx as [|f ctx IH]; intros a b; simpl; [done|].
  intros H%IH. by apply fill_inj in H.
Qed.

(** A frame with another handle. *)
Definition reval (v : Z) (f : frame) : frame :=
  Frame (fdir f) (fcol f) (faddr f) (fidx f) v (fsib f).

Lemma parent_black_reval cl f cz v :
  parent_black (cl ++ reval v f :: cz) <-> parent_black (cl ++ f :: cz).
Proof. by destruct cl. Qed.

Lemma cwf_reval cl f cz v : forall n,
  cwf n (cl ++ f :: cz) -> cwf n (cl ++ reval v f :: cz).
Proof.
  induction cl as [|g cl IH]; intros n; simpl; [done|].
  intros (? & ? & Hcol & ?). split_and!; try done; [|by apply IH].
  intros Hg. destruct (Hcol Hg). split; [done|]. by apply parent_black_reval.
Qed.

Lemma ctx_par_reval cl f cz v : ctx_par (cl ++ reval v f :: cz) = ctx_par (cl ++ f :: cz).
Proof. by destruct cl. Qed.

Lemma labels_ctx_reval cl f cz v :
  labels_ctx (cl ++ reval v f :: cz) = labels_ctx (cl ++ f :: cz).
Proof. by rewrite !labels_ctx_app. Qed.

Lemma addrs_ctx_reval cl f cz v :
  addrs_ctx (cl ++ reval v f :: cz) = addrs_ctx (cl ++ f :: cz).
Proof. by rewrite !addrs_ctx_app. Qed.

Lemma addrs_plug_reval cl f cz v s :
  addrs (plug (cl ++ reval v f :: cz) s) ≡ₚ addrs (plug (cl ++ f :: cz) s).
Proof. by rewrite !addrs_plug, addrs_ctx_reval. Qed.

Lemma labels_plug_reval cl f cz v s :
  labels (plug (cl ++ reval v f :: cz) s) ≡ₚ labels (plug (cl ++ f :: cz) s).
Proof. by rewrite !labels_plug, labels_ctx_reval. Qed.

Lemma fill_reval v f s : fill (reval v f) s
  = match fill f s with E => E | T c a i l _ r => T c a i l v r end.
Proof. unfold fill, reval. simpl. by destruct (fdir f). Qed.

Section RemoveNode.

Variable storage64 : bool.

Notation "'in_range' i" := (0 <= i < red_flag storage64)
  (at level 10, i at level 9, only parsing).

(** Writing the handle of the node of a frame. *)
Lemma wp_set_ptr_frame s0 A s cl f cz tx v Q :
  Rel storage64 s0 A s (plug (cl ++ f :: cz) tx) ->
  (forall s', Rel storage64 s0 A s' (plug (cl ++ reval v f :: cz) tx) -> Q tt s') ->
  wp (set_ptr (Ptr (faddr f)) v) s Q.
Proof.
  intros H HQ. rewrite plug_app in H. destruct f as [[] c a i w sib]; simpl in *.
  - eapply wp_set_ptr_focus; [exact H|]. intros s' H'. apply HQ.
    by rewrite plug_app.
  - eapply wp_set_ptr_focus; [exact H|]. intros s' H'. apply HQ.
    by rewrite plug_app.
Qed.

Lemma is_redT_blacken t : is_redT (blacken t) = false.
Proof. by destruct t. Qed.

Lemma labels_plug_blacken cx t : labels (plug cx (blacken t)) ≡ₚ labels (plug cx t).
Proof. by rewrite !labels_plug, labels_blacken. Qed.

Lemma handles_plug_blacken cx t : handles (plug cx (blacken t)) ≡ₚ handles (plug cx t).
Proof. by rewrite !handles_plug, handles_blacken. Qed.

Lemma inorder_plug_blacken cx t : inorder (plug cx (blacken t)) = inorder (plug cx t).
Proof. by rewrite !inorder_plug, inorder_blacken. Qed.

Lemma handles_set_idx b j t : handles (set_idx b j t) = handles t.
Proof. induction t; simpl; congruence. Qed.

Lemma rbtree_plug_blacken m cx t :
  cwf m cx -> wf (blacken t) -> bh (blacken t) = m -> rbtree (plug cx (blacken t)).
Proof.
  intros Hc Hw Hb.
  destruct (bh_plug_cwf m cx (blacken t) Hc Hw Hb) as [Hwf Hblack].
  { by rewrite is_redT_blacken. }
  split; [done|]. destruct cx as [|f cx]; [apply is_redT_blacken|]. by apply Hblack.
Qed.

Definition unlink_post (s : state) (y : nat) (cy' : list frame) (tx : rbt)
    (r : bool) (s' : state) : Prop :=
  r = true /\ exists t', Inv storage64 s' t'
    /\ inorder t' = inorder (plug cy' tx)
    /\ handles t' ≡ₚ handles (plug cy' tx)
    /\ nodes_num (tree s') = nodes_num (tree s) - 1
    /\ nodes (tree s') !! Z.to_nat (nodes_num (tree s')) = Some (Ptr y)
    /\ with_nodes [] (with_nodes_num 0 (with_root Leaf (tree s')))
       = with_nodes [] (with_nodes_num 0 (with_root Leaf (tree s)))
    /\ with_leaf zero_node (with_heap ∅ (mem s'))
       = with_leaf zero_node (with_heap ∅ (mem s)).

Lemma unlink_node_spec s fuel cy c y iy ly vy ry tx z cy' :
  Inv storage64 s (plug cy (T c y iy ly vy ry)) ->
  (ly = E /\ tx = ry) \/ (ly <> E /\ ry = E /\ tx = ly) ->
  (z = y /\ cy' = cy) \/
  (exists cl f cz, z <> y /\ faddr f = z /\ cy = cl ++ f :: cz
                   /\ cy' = cl ++ reval vy f :: cz) ->
  nodes_num (tree s) <= 2 ^ 31 ->
  (length cy + 1 < fuel)%nat ->
  wp (unlink_node storage64 fuel (Ptr y) (Ptr z)) s (unlink_post s y cy' tx).
Proof.
  intros [Hrep Har Hleaf Hrb] Hor Hz H31 Hfuel.
  assert (Rel storage64 s (addrs (plug cy (T c y iy ly vy ry))) s
            (plug cy (T c y iy ly vy ry))) as H by (by apply Rel_refl).
  pose proof (load_focus _ _ _ _ _ _ _ _ _ _ _ H) as Hy.
  unfold load in Hy.
  destruct (heap (mem s) !! y) as [ny|] eqn:Hhy; [|done].
  injection Hy as ->.
  pose proof (focus_range _ _ _ _ _ _ _ _ _ _ _ H) as Hiy.
  assert (labels (plug cy (T c y iy ly vy ry)) ≡ₚ (y, iy) :: labels (plug cy tx)) as Hperm.
  { rewrite !labels_plug. simpl.
    destruct Hor as [[-> ->]|(_ & -> & ->)]; simpl; rewrite ?app_nil_r; done. }
  assert (addrs (plug cy (T c y iy ly vy ry)) ≡ₚ y :: addrs (plug cy tx)) as Hperm'.
  { rewrite !addrs_labels, Hperm. done. }
  destruct Hrep as (Hr1 & Hr2 & Hnd).
  pose proof Hnd as Hnd'. rewrite Hperm' in Hnd'. apply NoDup_cons in Hnd' as [Hynin Hnd1].
  destruct Hrb as [Hwf Hblack].
  destruct (cwf_of_plug cy (T c y iy ly vy ry) Hwf Hblack) as (Hcwf & Hwy & Hpb).
  unfold unlink_node.
  lazymatch goal with
  | |- wp (bind _ (fun hy => bind _ (fun x => bind _ (fun yp => @?R x yp)))) _ ?Q =>
      enough (wp (R (rootp tx) (ctx_par cy)) s Q) as Hrest
  end.
  { destruct Hor as [[-> ->]|(Hne & -> & ->)].
    - by repeat rel_step.
    - assert (rootp ly <> Leaf) by (by destruct ly). by repeat rel_step. }
  cbv beta.
  eapply (wp_transplant storage64 s cy c y iy ly vy ry tx); [done| |].
  { destruct Hor as [?|(_ & ? & ?)]; [by left|by right]. }
  intros s1 [Hrep1 Htree1 Hmem1 Hleaf1 Hheap1 Hdom1].
  assert (Rel storage64 s1 (addrs (plug cy tx)) s1 (plug cy tx)) as H1
    by (by apply Rel_refl).
  assert (heap (mem s1) !! y
          = Some (Node vy (rootp ly) (rootp ry) (ctx_par cy) (mkflags storage64 c iy)))
    as Hy1 by (by rewrite Hheap1).
  assert (flags (leaf_node (mem s1)) = 0) as Hlf1.
  { rewrite Hleaf1. destruct Hleaf as [p ->]. by destruct tx. }
  (* the handle of [y] goes to [z] *)
  apply wp_bind.
  apply (wp_mono _ _ (fun _ s2 => Rel storage64 s1 (addrs (plug cy tx)) s2 (plug cy' tx))).
  { destruct Hz as [[-> ->]|(cl & f & cz & Hne & <- & -> & ->)]; simp_ptr.
    - by apply wp_ret.
    - apply wp_bind. eapply wp_get_ptr; [apply load_ptr; exact Hy1|]. simpl.
      eapply wp_set_ptr_frame; [exact H1|]. done. }
  intros [] s2 H2.
  assert (length cy' = length cy /\ ctx_par cy' = ctx_par cy
          /\ (forall n, cwf n cy -> cwf n cy')
          /\ labels (plug cy' tx) ≡ₚ labels (plug cy tx)) as (Hlen & Hpar & Hcwf' & Hlab').
  { destruct Hz as [[-> ->]|(cl & f & cz & Hne & <- & -> & ->)]; [done|].
    split_and!.
    - rewrite !length_app. done.
    - apply ctx_par_reval.
    - intros n. apply cwf_reval.
    - apply labels_plug_reval. }
  assert (heap (mem s2) !! y
          = Some (Node vy (rootp ly) (rootp ry) (ctx_par cy) (mkflags storage64 c iy)))
    as Hy2 by (by rewrite (rel_heap _ _ _ _ _ H2)).
  apply wp_bind. eapply wp_is_black; [apply load_ptr; exact Hy2|]. simpl.
  rewrite mkflags_is_red by done.
  assert (bh ly = bh tx /\ wf tx /\ (c = true -> is_redT tx = false)) as (Hbh & Hwtx & Hctx).
  { simpl in Hwy. destruct Hwy as (Hb & Hcol & Hwl & Hwr).
    destruct Hor as [[-> ->]|(_ & -> & ->)]; split_and!; try done; try lia.
    all: intros Hc; by destruct (Hcol Hc). }
  (* rebalancing *)
  apply wp_bind.
  apply (wp_mono _ _ (fixup_post storage64 s1 (addrs (plug cy tx)) cy' tx)).
  { destruct c; cbn [negb].
    - apply wp_ret. exists cy', tx. split_and!; try done.
      + by apply wf_blacken.
      + rewrite blacken_black by auto. apply Hcwf'. simpl in Hcwf.
        rewrite <- Hbh. by rewrite Nat.add_0_r in Hcwf.
    - eapply (remove_fixup_spec storage64 s1 _ Hlf1 fuel s2 cy' tx (bh tx)); try done.
      + by apply wf_blacken.
      + apply Hcwf'. simpl in Hcwf.
        rewrite <- Hbh. by rewrite Nat.add_1_r in Hcwf.
      + intros ->. rewrite Hleaf1, Hpar. done.
      + lia.
      + intros _. lia. }
  intros x s3 (cx' & tx' & -> & H3 & Hw3 & Hc3 & Hin3 & Hlab3 & Hhan3).
  apply wp_bind. eapply wp_paint_black_sub; [exact Hlf1|exact H3|].
  intros s4 H4.
  assert (labels (plug cx' (blacken tx')) ≡ₚ labels (plug cy tx)) as Hlab4.
  { by rewrite labels_plug_blacken, Hlab3. }
  assert (heap (mem s4) !! y
          = Some (Node vy (rootp ly) (rootp ry) (ctx_par cy) (mkflags storage64 c iy)))
    as Hy4 by (by rewrite (rel_heap _ _ _ _ _ H4)).
  assert (arena storage64 s4 ((y, iy) :: labels (plug cx' (blacken tx')))) as Har4.
  { apply (arena_perm _ _ (labels (plug cy (T c y iy ly vy ry))));
      [|by rewrite Hlab4, <- Hperm].
    eapply arena_frame; [exact Har| | | |].
    - by rewrite (rel_tree _ _ _ _ _ H4).
    - pose proof (rel_mem _ _ _ _ _ H4) as Hm4.
      destruct (mem s4), (mem s1), (mem s). simpl in *. congruence.
    - intros a Ha. rewrite <- addrs_labels, Hperm' in Ha.
      rewrite (rel_heap _ _ _ _ _ H4); [apply Hheap1|]; set_solver.
    - intros a. rewrite (rel_dom _ _ _ _ _ H4). apply Hdom1. }
  assert (Z.of_nat 0 <= iy < nodes_num (tree s)) as Hiy'.
  { destruct (ar_active _ _ _ Har y iy) as (k & -> & Hk & _); [|lia].
    rewrite Hperm. apply list_elem_of_here. }
  apply wp_bind. eapply wp_mono.
  { eapply (release_node_spec storage64 s4 _ y iy c); [|exact Har4|exact Hy4|done| |].
    - by eapply Rel_heap_rep.
    - rewrite addrs_labels, Hlab4, <- addrs_labels. done.
    - unfold to_int32. rewrite Z.mod_small by lia. lia. }
  intros [] s5 (b & Hrep5 & Har5 & Htree5 & Hnn5 & Hmem5 & Hslot5).
  apply wp_ret. split; [done|]. exists (set_idx b iy (plug cx' (blacken tx'))).
  split_and!.
  - constructor; try done.
    + destruct Hleaf as [p Hp]. unfold leaf_ok.
      assert (leaf_node (mem s5) = leaf_node (mem s1)) as ->.
      { rewrite <- (Rel_leaf _ _ _ _ _ H4). by injection Hmem5. }
      rewrite Hleaf1, Hp. destruct tx; eexists; reflexivity.
    + destruct (rbtree_plug_blacken _ cx' tx' Hc3 Hw3 eq_refl) as [Hw Hb].
      split; [by apply wf_set_idx|by rewrite is_redT_set_idx].
  - by rewrite inorder_set_idx, inorder_plug_blacken.
  - by rewrite handles_set_idx, handles_plug_blacken.
  - rewrite Hnn5, (Rel_nodes_num _ _ _ _ _ H4).
    destruct (tree s1), (tree s). simpl in *. congruence.
  - done.
  - pose proof (rel_tree _ _ _ _ _ H4) as Ht4.
    destruct (tree s5), (tree s4), (tree s1), (tree s). simpl in *. congruence.
  - pose proof (rel_mem _ _ _ _ _ H4) as Hm4.
    destruct (mem s5), (mem s4), (mem s1), (mem s). simpl in *. congruence.
Qed.

(** The node that a removal of the node in focus unlinks: that node, or its
    successor when it has two children. *)
Definition victim (cz : list frame) (c : bool) (z : nat) (iz : Z) (l : rbt) (vz : Z)
    (r : rbt) : list frame * rbt :=
  match l, r with
  | T _ _ _ _ _ _, T _ _ _ _ _ _ => leftmost r (Frame true c z iz vz l :: cz)
  | _, _ => (cz, T c z iz l vz r)
  end.

Lemma choose_unlinked_spec s0 A s fuel cz c z iz l vz r :
  Rel storage64 s0 A s (plug cz (T c z iz l vz r)) ->
  (height r <= fuel)%nat ->
  wp (choose_unlinked fuel (Ptr z)) s
    (fun p s' => s' = s /\ p = rootp (victim cz c z iz l vz r).2).
Proof.
  intros H Hfuel. unfold choose_unlinked.
  destruct l as [|cl al il ll vl rl], r as [|cr ar ir lr vr rr].
  1-3: by repeat rel_step.
  rel_step. rel_step. cbn [negb].
  unfold get_next_node, step_node. rel_step. rel_step. cbn [negb].
  apply (descend_spec storage64 s0 A (T cr ar ir lr vr rr)
           (Frame true c z iz vz (T cl al il ll vl rl) :: cz) fuel s); done.
Qed.

Definition remove_post (s : state) (cz : list frame) (c : bool) (z : nat) (iz : Z)
    (l : rbt) (vz : Z) (r : rbt) (res : bool) (s' : state) : Prop :=
  res = true /\ exists t' cy c' y iy ly vy ry,
    victim cz c z iz l vz r = (cy, T c' y iy ly vy ry)
    /\ (ly = E \/ ry = E)
    /\ Inv storage64 s' t'
    /\ inorder t' = before cz ++ inorder l ++ inorder r ++ after cz
    /\ y :: addrs t' ≡ₚ addrs (plug cz (T c z iz l vz r))
    /\ (z <> y -> (z, vy) ∈ handles t')
    /\ nodes (tree s') !! Z.to_nat (nodes_num (tree s')) = Some (Ptr y)
    /\ nodes_num (tree s') = nodes_num (tree s) - 1
    /\ with_nodes [] (with_nodes_num 0 (with_root Leaf (tree s')))
       = with_nodes [] (with_nodes_num 0 (with_root Leaf (tree s)))
    /\ with_leaf zero_node (with_heap ∅ (mem s'))
       = with_leaf zero_node (with_heap ∅ (mem s)).

Lemma ptree_remove_node_spec s cz c z iz l vz r :
  Inv storage64 s (plug cz (T c z iz l vz r)) ->
  nodes_num (tree s) <= 2 ^ 31 ->
  wp (ptree_remove_node storage64 (Ptr z)) s (remove_post s cz c z iz l vz r).
Proof.
  intros HI H31. pose proof HI as [Hrep Har Hleaf Hrb].
  assert (Rel storage64 s (addrs (plug cz (T c z iz l vz r))) s
            (plug cz (T c z iz l vz r))) as H by (by apply Rel_refl).
  pose proof (ar_count _ _ _ Har) as Hcount. rewrite length_labels in Hcount.
  unfold ptree_remove_node.
  apply wp_bind, wp_loop_bound.
  apply wp_bind. eapply wp_mono.
  { apply (choose_unlinked_spec _ _ _ _ _ _ _ _ _ _ _ H).
    pose proof (height_le_size r) as Hh.
    rewrite length_addrs_plug in Hcount. simpl in Hcount. rewrite length_app in Hcount.
    lia. }
  intros p s' [-> ->].
  assert (forall cy sub, sub <> E -> plug cy sub = plug cz (T c z iz l vz r) ->
            (length cy + 1 < S (S (Z.to_nat (nodes_num (tree s)))))%nat) as Hfuel.
  { intros cy sub Hne Heq. rewrite <- Heq, length_addrs_plug in Hcount.
    pose proof (length_addrs_ctx cy). destruct sub; [done|]. simpl in Hcount. lia. }
  assert (forall t1 t2, handles t1 ≡ₚ handles t2 -> addrs t1 ≡ₚ addrs t2) as Hah.
  { intros t1 t2 Hp. by rewrite !addrs_handles, Hp. }
  destruct l as [|cl al il ll vl rl], r as [|cr ar ir lr vr rr].
  1-3: cbn [victim snd rootp].
  1-3: lazymatch goal with
       | |- wp (unlink_node _ _ _ _) _ (remove_post _ _ _ _ _ ?l _ ?r) =>
           let tx := lazymatch l with E => r | _ => l end in
           eapply wp_mono;
           [ eapply (unlink_node_spec s _ cz c z iz l vz r tx z cz);
             [ exact HI
             | first [ left; split; [reflexivity|reflexivity]
                     | right; split; [done|split; reflexivity] ]
             | by left | done | by apply (Hfuel _ (T c z iz l vz r)) ]
           | intros res s' (-> & t' & HI' & Hin & Hhan & Hnn & Hslot & Htree & Hmem);
             split; [done|];
             exists t', cz, c, z, iz, l, vz, r;
             split_and!; try done; try (by left); try (by right) ]
       end.
  1,3,5: rewrite Hin, inorder_plug; simpl; by rewrite ?app_nil_r.
  1-3: rewrite (Hah _ _ Hhan), !addrs_plug; simpl; by rewrite ?app_nil_r.
  (* two children *)
  set (f := Frame true c z iz vz (T cl al il ll vl rl)).
  set (r := T cr ar ir lr vr rr) in *.
  change (victim cz c z iz (T cl al il ll vl rl) vz r) with (leftmost r (f :: cz)).
  destruct (leftmost_shape r (f :: cz)) as (c' & y & iy & vy & ry & Hsh); [done|].
  destruct (leftmost_ctx r (f :: cz)) as (cl' & Hcl & Hleft).
  pose proof (leftmost_plug r (f :: cz)) as Hplug.
  destruct (leftmost r (f :: cz)) as [cy sub] eqn:Hlm. simpl in Hsh, Hcl, Hplug.
  subst sub cy.
  change (plug cz (fill f r)) with (plug cz (T c z iz (T cl al il ll vl rl) vz r)) in Hplug.
  assert (plug cl' (T c' y iy E vy ry) = r) as Hr.
  { rewrite plug_app in Hplug. by apply (plug_inj (f :: cz)) in Hplug. }
  assert (z <> y) as Hzy.
  { destruct Hrep as (_ & _ & Hnd). rewrite <- Hplug, addrs_plug, addrs_ctx_app in Hnd.
    simpl in Hnd. intros ->.
    apply NoDup_cons in Hnd as [Hnin _]. apply Hnin.
    rewrite !elem_of_app, elem_of_cons. right. right. by left. }
  cbn [snd rootp].
  eapply wp_mono.
  { eapply (unlink_node_spec s _ (cl' ++ f :: cz) c' y iy E vy ry ry z
              (cl' ++ reval vy f :: cz)).
    - by rewrite Hplug.
    - by left.
    - right. by exists cl', f, cz.
    - done.
    - by apply (Hfuel _ (T c' y iy E vy ry)). }
  intros res s' (-> & t' & HI' & Hin & Hhan & Hnn & Hslot & Htree & Hmem).
  split; [done|].
  exists t', (cl' ++ f :: cz), c', y, iy, E, vy, ry.
  split_and!; try done; try (by left).
  - rewrite Hin, inorder_plug, before_app, after_app, (before_left cl') by done.
    rewrite <- Hr, (inorder_plug cl'), (before_left cl') by done.
    simpl. by rewrite <- !app_assoc.
  - rewrite (Hah _ _ Hhan), addrs_plug_reval, <- Hplug, !addrs_plug. done.
  - intros _. rewrite Hhan, handles_plug, handles_ctx_app. simpl.
    rewrite !elem_of_app, elem_of_cons. right. right. by left.
Qed.

End RemoveNode.

(** ** Searching *)

(** The node that compares equal to [v], with its context, if there is one
    on the path that the comparisons select. *)
Fixpoint find_path (cmpf : Z -> Z -> Z) (v : Z) (sub : rbt) (ctx : list frame)
    : option (list frame * rbt) :=
  match sub with
  | E => None
  | T c a i l vx r =>
      let d := cmpf v vx in
      if d =? 0 then Some (ctx, sub)
      else if 0 <? d then find_path cmpf v r (Frame true c a i vx l :: ctx)
      else find_path cmpf v l (Frame false c a i vx r :: ctx)
  end.

Lemma find_path_Some cmpf v sub : forall ctx cz sub',
  find_path cmpf v sub ctx = Some (cz, sub') ->
  exists c z iz l vz r, sub' = T c z iz l vz r /\ cmpf v vz = 0
    /\ plug cz sub' = plug ctx sub.
Proof.
  induction sub as [|c a i l IHl vx r IHr]; intros ctx cz sub' Hf; simpl in Hf; [done|].
  destruct (Z.eqb_spec (cmpf v vx) 0) as [Heq|Hne].
  - injection Hf as <- <-. by exists c, a, i, l, vx, r.
  - destruct (0 <? cmpf v vx).
    + destruct (IHr _ _ _ Hf) as (c' & z & iz & l' & vz & r' & -> & ? & ?).
      by exists c', z, iz, l', vz, r'.
    + destruct (IHl _ _ _ Hf) as (c' & z & iz & l' & vz & r' & -> & ? & ?).
      by exists c', z, iz, l', vz, r'.
Qed.

Lemma find_path_ext f g v sub : forall ctx,
  (forall x, f v x = g v x) -> find_path f v sub ctx = find_path g v sub ctx.
Proof.
  induction sub as [|c a i l IHl vx r IHr]; intros ctx Hfg; simpl; [done|].
  rewrite Hfg, IHl, IHr by done. done.
Qed.

Definition found (o : option (list frame * rbt)) : pointer :=
  match o with Some (_, sub') => rootp sub' | None => Null end.

Section Search.

Variable storage64 : bool.

Lemma search_loop_spec s0 A v sub : forall ctx fuel s,
  sub <> E -> Rel storage64 s0 A s (plug ctx sub) -> (height sub <= fuel)%nat ->
  wp (search_loop fuel v (rootp sub)) s
    (fun p s' => s' = s /\ p = found (find_path (cmp (tree s)) v sub ctx)).
Proof.
  induction sub as [|c a i l IHl vx r IHr]; intros ctx fuel s Hne H Hfuel; [done|].
  destruct fuel as [|k]; [simpl in Hfuel; lia|]. simpl in Hfuel.
  cbn [search_loop rootp find_path]. simp_ptr.
  rel_step. rel_step.
  destruct (Z.eqb_spec (cmp (tree s) v vx) 0) as [Heq|Hneq]; [by apply wp_ret|].
  destruct (0 <? cmp (tree s) v vx).
  - rel_step. destruct r as [|cr ar ir lr vr rr]; cbn [rootp]; simp_ptr.
    + by apply wp_ret.
    + rel_step. apply (IHr (Frame true c a i vx l :: ctx) k s); [done|done|lia].
  - rel_step. destruct l as [|cl al il ll vl rl]; cbn [rootp]; simp_ptr.
    + by apply wp_ret.
    + rel_step. apply (IHl (Frame false c a i vx r :: ctx) k s); [done|done|lia].
Qed.

Lemma get_it_loop_spec s0 A v sub : forall ctx fuel s,
  Rel storage64 s0 A s (plug ctx sub) -> (height sub < fuel)%nat ->
  wp (get_it_loop fuel v (rootp sub)) s
    (fun p s' => s' = s /\ p = found (find_path (cmp_key (tree s)) v sub ctx)).
Proof.
  induction sub as [|c a i l IHl vx r IHr]; intros ctx fuel s H Hfuel.
  { destruct fuel; [lia|]. by apply wp_ret. }
  destruct fuel as [|k]; [simpl in Hfuel; lia|]. simpl in Hfuel.
  cbn [get_it_loop rootp find_path]. simp_ptr.
  rel_step. rel_step.
  destruct (Z.eqb_spec (cmp_key (tree s) v vx) 0) as [Heq|Hneq]; [by apply wp_ret|].
  destruct (0 <? cmp_key (tree s) v vx).
  - rel_step. destruct r as [|cr ar ir lr vr rr]; cbn [rootp]; simp_ptr.
    + by apply wp_ret.
    + rel_step. apply (IHr (Frame true c a i vx l :: ctx) k s); [done|lia].
  - rel_step. destruct l as [|cl al il ll vl rl]; cbn [rootp]; simp_ptr.
    + by apply wp_ret.
    + rel_step. apply (IHl (Frame false c a i vx r :: ctx) k s); [done|lia].
Qed.

Lemma fuel_enough s t :
  Inv storage64 s t -> (height t < S (S (Z.to_nat (nodes_num (tree s)))))%nat.
Proof.
  intros [_ Har _ _]. pose proof (ar_count _ _ _ Har) as Hc.
  rewrite length_labels in Hc. pose proof (height_le_size t). lia.
Qed.

Lemma ptree_search_spec s t v :
  Inv storage64 s t ->
  wp (ptree_search v) s
    (fun p s' => s' = s /\ p = found (find_path (cmp (tree s)) v t [])).
Proof.
  intros HI. pose proof (fuel_enough _ _ HI) as Hfuel. destruct HI as [Hrep _ _ _].
  assert (Rel storage64 s (addrs t) s t) as H by (by apply Rel_refl).
  unfold ptree_search. apply wp_bind, wp_loop_bound. rel_step.
  destruct t as [|c a i l vx r]; cbn [rootp]; simp_ptr; [by apply wp_ret|].
  apply (search_loop_spec s (addrs (T c a i l vx r)) v (T c a i l vx r) [] _ s);
    [done|done|lia].
Qed.

Lemma ptree_get_it_spec s t k :
  Inv storage64 s t ->
  wp (ptree_get_it k) s
    (fun p s' => s' = s /\ p = found (find_path (cmp_key (tree s)) k t [])).
Proof.
  intros HI. pose proof (fuel_enough _ _ HI) as Hfuel. destruct HI as [Hrep _ _ _].
  assert (Rel storage64 s (addrs t) s t) as H by (by apply Rel_refl).
  unfold ptree_get_it. apply wp_bind, wp_loop_bound. rel_step.
  by apply (get_it_loop_spec s (addrs t) k t [] _ s).
Qed.

(** The handle that [ptree_get] returns; [0] is [NULL]. *)
Definition got (o : option (list frame * rbt)) : Z :=
  match o with Some (_, T _ _ _ _ vz _) => vz | _ => 0 end.

Lemma ptree_get_spec s t k :
  Inv storage64 s t ->
  wp (ptree_get k) s
    (fun v s' => s' = s /\ v = got (find_path (cmp_key (tree s)) k t [])).
Proof.
  intros HI. unfold ptree_get. apply wp_bind.
  eapply wp_mono; [by apply ptree_get_it_spec|].
  intros p s' [-> ->].
  destruct HI as [Hrep _ _ _].
  assert (Rel storage64 s (addrs t) s t) as H by (by apply Rel_refl).
  destruct (find_path (cmp_key (tree s)) k t []) as [[cz sub']|] eqn:Hf; simpl.
  - destruct (find_path_Some _ _ _ _ _ _ Hf) as (c & z & iz & l & vz & r & -> & _ & Heq).
    simpl in *. rewrite <- Heq in H. by rel_step.
  - by apply wp_ret.
Qed.

Definition remove_spec_post (s : state) (t : rbt) (v : Z) (res : bool) (s' : state)
    : Prop :=
  match find_path (cmp (tree s)) v t [] with
  | Some (cz, T c z iz l vz r) => remove_post storage64 s cz c z iz l vz r res s'
  | Some (_, E) => False
  | None => res = false /\ s' = s
  end.

Lemma ptree_remove_spec s t v :
  Inv storage64 s t -> nodes_num (tree s) <= 2 ^ 31 ->
  wp (ptree_remove storage64 v) s (remove_spec_post s t v).
Proof.
  intros HI H31. unfold ptree_remove, remove_spec_post.
  pose proof HI as [Hrep _ _ _].
  apply wp_bind, wp_get_root. destruct Hrep as (_ & -> & _).
  destruct t as [|c a i l vx r]; cbn [rootp]; simp_ptr; [by apply wp_ret|].
  apply wp_bind. eapply wp_mono; [by apply ptree_search_spec|].
  intros p s' [-> ->].
  destruct (find_path (cmp (tree s)) v (T c a i l vx r) []) as [[cz sub']|] eqn:Hf;
    simpl; [|by apply wp_ret].
  destruct (find_path_Some _ _ _ _ _ _ Hf) as (c' & z & iz & l' & vz & r' & -> & _ & Heq).
  simpl in *. apply ptree_remove_node_spec; [|done]. by rewrite Heq.
Qed.

End Search.

(** ** The order of the elements *)

(** A comparator of a total order (up to the elements it declares equal):
    the sign of [f b a] is the opposite of the sign of [f a b], and the
    order is transitive. *)
Record cmp_ok (f : Z -> Z -> Z) : Prop := {
  cmp_sym : forall a b, Z.sgn (f b a) = - Z.sgn (f a b);
  cmp_le_lt : forall a b c, f a b <= 0 -> f b c < 0 -> f a c < 0;
  cmp_lt_le : forall a b c, f a b < 0 -> f b c <= 0 -> f a c < 0
}.

(** The reference: an ordered set as a strictly increasing list. *)
Fixpoint ref_insert (f : Z -> Z -> Z) (v : Z) (l : list Z) : list Z :=
  match l with
  | [] => [v]
  | x :: l' =>
      let d := f v x in
      if d =? 0 then l
      else if 0 <? d then x :: ref_insert f v l'
      else v :: l
  end.

Fixpoint ref_remove (f : Z -> Z -> Z) (v : Z) (l : list Z) : list Z :=
  match l with
  | [] => []
  | x :: l' =>
      let d := f v x in
      if d =? 0 then l'
      else if 0 <? d then x :: ref_remove f v l'
      else l
  end.

Definition lt_of (f : Z -> Z -> Z) (a b : Z) : Prop := f a b < 0.

Definition sorted (f : Z -> Z -> Z) (l : list Z) : Prop := StronglySorted (lt_of f) l.

(** [v] lies after the elements of [l1] and before those of [l2]. *)
Definition bounds (f : Z -> Z -> Z) (v : Z) (l1 l2 : list Z) : Prop :=
  Forall (fun x => 0 < f v x) l1 /\ Forall (fun x => f v x < 0) l2.

Section Reference.

Variables (f : Z -> Z -> Z) (v : Z).

Lemma ref_insert_before l1 l : Forall (fun x => 0 < f v x) l1 ->
  ref_insert f v (l1 ++ l) = l1 ++ ref_insert f v l.
Proof.
  induction 1 as [|x l1 Hx _ IH]; simpl; [done|].
  destruct (Z.eqb_spec (f v x) 0); [lia|].
  destruct (Z.ltb_spec 0 (f v x)); [|lia]. by rewrite IH.
Qed.

Lemma ref_remove_before l1 l : Forall (fun x => 0 < f v x) l1 ->
  ref_remove f v (l1 ++ l) = l1 ++ ref_remove f v l.
Proof.
  induction 1 as [|x l1 Hx _ IH]; simpl; [done|].
  destruct (Z.eqb_spec (f v x) 0); [lia|].
  destruct (Z.ltb_spec 0 (f v x)); [|lia]. by rewrite IH.
Qed.

Lemma ref_insert_after l2 : Forall (fun x => f v x < 0) l2 ->
  ref_insert f v l2 = v :: l2.
Proof.
  destruct 1 as [|x l2 Hx _]; simpl; [done|].
  destruct (Z.eqb_spec (f v x) 0); [lia|].
  destruct (Z.ltb_spec 0 (f v x)); [lia|]. done.
Qed.

Lemma ref_remove_after l2 : Forall (fun x => f v x < 0) l2 ->
  ref_remove f v l2 = l2.
Proof.
  destruct 1 as [|x l2 Hx _]; simpl; [done|].
  destruct (Z.eqb_spec (f v x) 0); [lia|].
  destruct (Z.ltb_spec 0 (f v x)); [lia|]. done.
Qed.

Lemma ref_insert_new l1 l2 : bounds f v l1 l2 ->
  ref_insert f v (l1 ++ l2) = l1 ++ v :: l2.
Proof. intros [H1 H2]. by rewrite ref_insert_before, ref_insert_after. Qed.

Lemma ref_remove_absent l1 l2 : bounds f v l1 l2 ->
  ref_remove f v (l1 ++ l2) = l1 ++ l2.
Proof. intros [H1 H2]. by rewrite ref_remove_before, ref_remove_after. Qed.

Lemma ref_insert_present l1 x l2 :
  Forall (fun x => 0 < f v x) l1 -> f v x = 0 ->
  ref_insert f v (l1 ++ x :: l2) = l1 ++ x :: l2.
Proof.
  intros H1 Hx. rewrite ref_insert_before by done. simpl.
  by rewrite (proj2 (Z.eqb_eq _ _) Hx).
Qed.

Lemma ref_remove_present l1 x l2 :
  Forall (fun x => 0 < f v x) l1 -> f v x = 0 ->
  ref_remove f v (l1 ++ x :: l2) = l1 ++ l2.
Proof.
  intros H1 Hx. rewrite ref_remove_before by done. simpl.
  by rewrite (proj2 (Z.eqb_eq _ _) Hx).
Qed.

End Reference.

Section Order.

Variable f : Z -> Z -> Z.
Hypothesis Hf : cmp_ok f.

Lemma cmp_gt_lt a b : 0 < f a b <-> f b a < 0.
Proof using Hf.
  pose proof (cmp_sym f Hf a b) as H.
  destruct (f a b), (f b a); simpl in H; try discriminate; split; lia.
Qed.

Lemma cmp_eq_sym a b : f a b = 0 -> f b a = 0.
Proof using Hf.
  pose proof (cmp_sym f Hf a b) as H. intros Heq. rewrite Heq in H.
  destruct (f b a); simpl in H; try discriminate; done.
Qed.

Lemma cmp_refl a : f a a = 0.
Proof using Hf.
  pose proof (cmp_sym f Hf a a) as H. destruct (f a a); simpl in H; try discriminate; done.
Qed.

Lemma sorted_insert v l1 l2 :
  sorted f (l1 ++ l2) -> bounds f v l1 l2 -> sorted f (l1 ++ v :: l2).
Proof using Hf.
  intros Hs [H1 H2]. apply StronglySorted_app in Hs as (H12 & Hs1 & Hs2).
  apply StronglySorted_app_2; [|done|].
  - intros x1 x2 Hx1 [->|Hx2]%elem_of_cons.
    + apply cmp_gt_lt. by apply (proj1 (Forall_forall _ _) H1).
    + by apply H12.
  - apply StronglySorted_cons. split; [done|done].
Qed.

Lemma sorted_remove x l1 l2 : sorted f (l1 ++ x :: l2) -> sorted f (l1 ++ l2).
Proof.
  intros Hs. apply StronglySorted_app in Hs as (H12 & Hs1 & Hs2).
  apply StronglySorted_cons in Hs2 as [_ Hs2].
  apply StronglySorted_app_2; [|done|done].
  intros x1 x2 Hx1 Hx2. apply H12; [done|]. by apply list_elem_of_further.
Qed.

(** In a strictly increasing list an element occurs once, and no other
    element compares equal to it. *)
Lemma sorted_unique_eq l1 x l2 e :
  sorted f (l1 ++ x :: l2) -> e ∈ l1 ++ x :: l2 -> f e x = 0 -> e = x.
Proof using Hf.
  intros Hs Hin He. apply StronglySorted_app in Hs as (H12 & Hs1 & Hs2).
  apply StronglySorted_cons in Hs2 as [Hx2 Hs2].
  apply elem_of_app in Hin as [Hin|Hin].
  - specialize (H12 e x Hin (list_elem_of_here _ _)). unfold lt_of in H12. lia.
  - apply elem_of_cons in Hin as [->|Hin]; [done|].
    pose proof (proj1 (Forall_forall _ _) Hx2 e Hin) as Hlt. unfold lt_of in Hlt.
    apply cmp_eq_sym in He. lia.
Qed.

(** What the descent by comparisons finds in a tree whose elements are in
    increasing order. *)
Lemma path_bounds v sub : forall ctx,
  sorted f (inorder (plug ctx sub)) ->
  bounds f v (before ctx) (after ctx) ->
  match find_path f v sub ctx with
  | Some (cz, sub') =>
      ins_path f v sub ctx = None
      /\ exists c z iz l vz r, sub' = T c z iz l vz r /\ f v vz = 0
           /\ plug cz sub' = plug ctx sub
           /\ Forall (fun x => 0 < f v x) (before cz ++ inorder l)
  | None =>
      exists ctx', ins_path f v sub ctx = Some ctx'
        /\ plug ctx' E = plug ctx sub /\ bounds f v (before ctx') (after ctx')
  end.
Proof using Hf.
  induction sub as [|c a i l IHl vx r IHr]; intros ctx Hs [Hb1 Hb2]; simpl.
  { by exists ctx. }
  assert (Forall (fun x => f x vx < 0) (inorder l)
          /\ Forall (fun x => f vx x < 0) (inorder r)) as [Hl Hr].
  { rewrite inorder_plug in Hs. simpl in Hs.
    apply StronglySorted_app_1_r, StronglySorted_app_1_l in Hs.
    apply StronglySorted_app in Hs as (H12 & _ & Hs2).
    apply StronglySorted_cons in Hs2 as [Hx2 _]. split; [|done].
    apply Forall_forall. intros x Hx. apply H12; [done|apply list_elem_of_here]. }
  destruct (Z.eqb_spec (f v vx) 0) as [Heq|Hne].
  - split; [done|]. exists c, a, i, l, vx, r. split_and!; try done.
    apply Forall_app. split; [done|].
    eapply Forall_impl; [exact Hl|]. intros x Hx. simpl in Hx.
    apply cmp_gt_lt. apply (cmp_lt_le f Hf x vx v); [done|].
    apply cmp_eq_sym in Heq. lia.
  - destruct (Z.ltb_spec 0 (f v vx)) as [Hgt|Hle].
    + apply (IHr (Frame true c a i vx l :: ctx)); [done|]. split; simpl; [|done].
      rewrite !Forall_app. split_and!; [done| |by repeat constructor].
      eapply Forall_impl; [exact Hl|]. intros x Hx. simpl in Hx.
      apply cmp_gt_lt. apply (cmp_lt_le f Hf x vx v); [done|].
      apply cmp_gt_lt in Hgt. lia.
    + apply (IHl (Frame false c a i vx r :: ctx)); [done|]. split; simpl;
        [by rewrite app_nil_r|].
      assert (f v vx < 0) as Hlt by lia.
      constructor; [done|]. rewrite Forall_app. split; [|done].
      eapply Forall_impl; [exact Hr|]. intros x Hx. simpl in Hx.
      apply (cmp_lt_le f Hf v vx x); [done|lia].
Qed.

End Order.

(** ** Iteration *)

(** The first ancestor reached from its left subtree. *)
Fixpoint climb (ctx : list frame) (sub : rbt) : option (list frame * rbt) :=
  match ctx with
  | [] => None
  | f :: ctx' => if fdir f then climb ctx' (fill f sub) else Some (ctx', fill f sub)
  end.

Definition successor (ctx : list frame) (sub : rbt) : option (list frame * rbt) :=
  match sub with
  | E => None
  | T c a i l v r =>
      match r with
      | E => climb ctx sub
      | T _ _ _ _ _ _ => Some (leftmost r (Frame true c a i v l :: ctx))
      end
  end.

(** The handles from a node on, in order. *)
Definition remaining (ctx : list frame) (sub : rbt) : list Z :=
  match sub with
  | E => []
  | T _ _ _ _ v r => v :: inorder r ++ after ctx
  end.

Lemma climb_remaining ctx : forall sub,
  match climb ctx sub with
  | Some (ctx', sub') =>
      sub' <> E /\ plug ctx' sub' = plug ctx sub /\ remaining ctx' sub' = after ctx
  | None => after ctx = []
  end.
Proof.
  induction ctx as [|[[] c a i v sib] ctx IH]; intros sub; simpl; [done| |].
  - specialize (IH (fill (Frame true c a i v sib) sub)).
    destruct (climb ctx _) as [[ctx' sub']|]; done.
  - done.
Qed.

Lemma leftmost_remaining sub : forall ctx,
  sub <> E ->
  remaining (leftmost sub ctx).1 (leftmost sub ctx).2 = inorder sub ++ after ctx.
Proof.
  induction sub as [|c a i l IHl v r _]; intros ctx Hne; [done|].
  destruct l as [|cl al il ll vl rl]; [done|].
  change (leftmost (T c a i (T cl al il ll vl rl) v r) ctx)
    with (leftmost (T cl al il ll vl rl) (Frame false c a i v r :: ctx)).
  rewrite IHl by done. simpl. by rewrite <- !app_assoc.
Qed.

Lemma leftmost_ne sub ctx : sub <> E -> (leftmost sub ctx).2 <> E.
Proof.
  intros Hne. destruct (leftmost_shape sub ctx Hne) as (c & y & i & v & r & ->). done.
Qed.

Lemma successor_remaining ctx c a i l v r :
  match successor ctx (T c a i l v r) with
  | Some (ctx', sub') =>
      sub' <> E /\ plug ctx' sub' = plug ctx (T c a i l v r)
      /\ remaining ctx' sub' = inorder r ++ after ctx
  | None => inorder r ++ after ctx = []
  end.
Proof.
  destruct r as [|cr ar ir lr vr rr].
  - apply (climb_remaining ctx (T c a i l v E)).
  - cbn [successor].
    pose proof (leftmost_plug (T cr ar ir lr vr rr) (Frame true c a i v l :: ctx)) as Hp.
    pose proof (leftmost_remaining (T cr ar ir lr vr rr) (Frame true c a i v l :: ctx)) as Hr.
    pose proof (leftmost_ne (T cr ar ir lr vr rr) (Frame true c a i v l :: ctx)) as Hn.
    destruct (leftmost _ _) as [ctx' sub']. simpl in *. split_and!; auto.
Qed.

Section Traverse.

Variable storage64 : bool.
Variables (s0 : state) (A : list nat).

Lemma ascend_spec ctx : forall sub fuel s,
  sub <> E -> Rel storage64 s0 A s (plug ctx sub) -> (length ctx < fuel)%nat ->
  wp (ascend fuel true (rootp sub) (ctx_par ctx)) s
    (fun p s' => s' = s
       /\ p = match climb ctx sub with Some (_, sub') => rootp sub' | None => Leaf end).
Proof.
  induction ctx as [|[[] cf af jf vf sf] ctx IH]; intros sub fuel s Hne H Hfuel.
  - destruct fuel; [simpl in Hfuel; lia|]. by apply wp_ret.
  - destruct fuel as [|k]; [simpl in Hfuel; lia|]. simpl in Hfuel.
    destruct sub as [|c x i l v r]; [done|].
    cbn [ascend ctx_par faddr rootp climb fdir]. simp_ptr.
    rel_step. rel_step.
    apply (IH (fill (Frame true cf af jf vf sf) (T c x i l v r)) k s); [done|done|lia].
  - destruct fuel as [|k]; [simpl in Hfuel; lia|]. simpl in Hfuel.
    destruct sub as [|c x i l v r]; [done|].
    pose proof (rel_nodup _ _ _ _ _ H) as Hnd. rewrite addrs_plug in Hnd.
    simpl in Hnd. all_neq Hnd.
    cbn [ascend ctx_par faddr rootp climb fdir]. simp_ptr.
    rel_step.
    try rewrite (ptr_eqb_ne (Ptr x)) by (apply not_eq_sym, rootp_not_in; notin_by Hnd).
    by apply wp_ret.
Qed.

Lemma next_spec ctx c a i l v r fuel s :
  Rel storage64 s0 A s (plug ctx (T c a i l v r)) ->
  (height r <= fuel)%nat -> (length ctx < fuel)%nat ->
  wp (get_next_node fuel (Ptr a)) s
    (fun p s' => s' = s /\ p = found (successor ctx (T c a i l v r))).
Proof.
  intros H Hh Hl. unfold get_next_node, step_node. rel_step. rel_step.
  destruct r as [|cr ar ir lr vr rr]; cbn [rootp]; simp_ptr.
  - rel_step. apply wp_bind. eapply wp_mono.
    { apply (ascend_spec ctx (T c a i l v E) fuel s); done. }
    intros p s' [-> ->]. apply wp_ret. split; [done|]. cbn [successor].
    pose proof (climb_remaining ctx (T c a i l v E)) as Hc.
    destruct (climb ctx (T c a i l v E)) as [[ctx' sub']|]; simpl; [|done].
    destruct Hc as [Hne _]. by destruct sub'.
  - cbn [negb successor found].
    eapply wp_mono.
    { apply (descend_spec storage64 s0 A (T cr ar ir lr vr rr)
               (Frame true c a i v l :: ctx) fuel s); done. }
    intros p s' [-> ->]. split; [done|]. by destruct (leftmost _ _).
Qed.

Lemma traverse_from_spec fuel : forall ctx sub s,
  sub <> E -> Rel storage64 s0 A s (plug ctx sub) ->
  Z.of_nat (length (addrs (plug ctx sub))) = nodes_num (tree s) ->
  (length (remaining ctx sub) < fuel)%nat ->
  wp (traverse_from fuel (rootp sub)) s
    (fun l s' => s' = s /\ l = remaining ctx sub).
Proof.
  induction fuel as [|k IH]; intros ctx sub s Hne H Hnn Hfuel; [lia|].
  destruct sub as [|c a i l v r]; [done|].
  cbn [traverse_from rootp remaining] in *. simp_ptr.
  rel_step. rel_step.
  assert (height r <= length (addrs (plug ctx (T c a i l v r)))
          /\ length ctx <= length (addrs (plug ctx (T c a i l v r))))%nat as [Hh Hl].
  { rewrite length_addrs_plug. simpl. rewrite length_app.
    pose proof (height_le_size r). pose proof (length_addrs_ctx ctx). lia. }
  apply wp_bind. eapply wp_mono.
  { unfold ptree_it_next. apply (next_spec ctx c a i l v r _ s); [done|lia|lia]. }
  intros p s' [-> ->].
  pose proof (successor_remaining ctx c a i l v r) as Hs.
  destruct (successor ctx (T c a i l v r)) as [[ctx' sub']|]; simpl.
  - destruct Hs as (Hne' & Hplug & Hrem).
    apply wp_bind. eapply wp_mono.
    { apply (IH ctx' sub' s); [done|by rewrite Hplug|by rewrite Hplug|].
      rewrite Hrem. simpl in Hfuel. lia. }
    intros rest s' [-> ->]. apply wp_ret. by rewrite Hrem.
  - destruct k; [simpl in Hfuel; lia|]. simpl. apply wp_ret. by rewrite Hs.
Qed.

End Traverse.

Lemma length_inorder t : length (inorder t) = length (addrs t).
Proof.
  induction t as [|c a i l IHl v r IHr]; simpl; [done|].
  rewrite !length_app. simpl. lia.
Qed.

Lemma ptree_min_spec storage64 s t :
  Inv storage64 s t ->
  wp ptree_min s (fun p s' => s' = s
    /\ p = match t with E => Null | _ => rootp (leftmost t []).2 end).
Proof.
  intros HI. pose proof (fuel_enough _ _ _ HI) as Hfuel. destruct HI as [Hrep _ _ _].
  assert (Rel storage64 s (addrs t) s t) as H by (by apply Rel_refl).
  unfold ptree_min, ptree_extreme. apply wp_bind, wp_loop_bound. rel_step.
  destruct t as [|c a i l v r]; cbn [rootp]; simp_ptr; [by apply wp_ret|].
  apply (descend_spec storage64 s (addrs (T c a i l v r)) (T c a i l v r) [] _ s);
    [done|done|lia].
Qed.

(** A traversal yields the handles in order. *)
Lemma traverse_spec storage64 s t :
  Inv storage64 s t -> wp traverse s (fun l s' => s' = s /\ l = inorder t).
Proof.
  intros HI. pose proof HI as [Hrep Har _ _].
  pose proof (ar_count _ _ _ Har) as Hc. rewrite length_labels in Hc.
  assert (Rel storage64 s (addrs t) s t) as H by (by apply Rel_refl).
  unfold traverse. apply wp_bind, wp_loop_bound.
  apply wp_bind. eapply wp_mono; [by apply (ptree_min_spec storage64 s t)|].
  intros p s' [-> ->].
  destruct t as [|c a i l v r]; [by apply wp_ret|].
  set (t := T c a i l v r) in *.
  pose proof (leftmost_plug t []) as Hp.
  pose proof (leftmost_remaining t []) as Hr.
  pose proof (leftmost_ne t []) as Hn.
  destruct (leftmost t []) as [ctx' sub']. simpl in Hp, Hr, Hn. simpl snd.
  rewrite app_nil_r in Hr by done.
  eapply wp_mono.
  { apply (traverse_from_spec storage64 s (addrs t) _ ctx' sub' s).
    - by apply Hn.
    - by rewrite Hp.
    - by rewrite Hp.
    - rewrite Hr by done. pose proof (length_inorder t) as Hli.
      unfold t in *. simpl in Hli, Hc |- *. lia. }
  intros rest s' [-> ->]. by rewrite Hr.
Qed.

(** ** Sessions *)

(** The process after [ptree_set_max_nodes_to_auto_allocate(cap)]. *)
Definition configured (oracle : nat -> bool) (cap : Z) : world :=
  with_max_auto (cap mod 2 ^ 64) (initial_world oracle).

Definition ref_op (f : Z -> Z -> Z) (o : op) (l : list Z) : list Z :=
  match o with
  | Insert v => ref_insert f v l
  | Remove v => ref_remove f v l
  end.

Fixpoint ref_run (f : Z -> Z -> Z) (ops : list op) (l : list Z) : list Z :=
  match ops with
  | [] => l
  | o :: ops' => ref_run f ops' (ref_op f o l)
  end.

(** What a call adds to the number of elements. *)
Definition delta (o : op) (r : bool) : Z :=
  if r then match o with Insert _ => 1 | Remove _ => -1 end else 0.

Fixpoint net (ops : list op) (rs : list bool) : Z :=
  match ops, rs with
  | o :: ops', r :: rs' => delta o r + net ops' rs'
  | _, _ => 0
  end.

(** An element that compares equal to [v]. *)
Definition present (f : Z -> Z -> Z) (v : Z) (l : list Z) : Prop :=
  exists x, x ∈ l /\ f v x = 0.

Section Run.

Variable storage64 : bool.

Notation "'in_range' i" := (0 <= i < red_flag storage64)
  (at level 10, i at level 9, only parsing).

Lemma mkflags_inj c i c' i' :
  in_range i -> in_range i' ->
  mkflags storage64 c i = mkflags storage64 c' i' -> c = c' /\ i = i'.
Proof.
  intros Hi Hi' Heq. split.
  - by rewrite <- (mkflags_is_red storage64 c i Hi), Heq, mkflags_is_red.
  - by rewrite <- (mkflags_get_index storage64 c i Hi), Heq, mkflags_get_index.
Qed.

(** A heap represents at most one tree. *)
Lemma rep_unique h t : forall par t' par',
  rep storage64 h par t -> rep storage64 h par' t' -> rootp t = rootp t' -> t = t'.
Proof.
  induction t as [|c a i l IHl v r IHr]; intros par [|c' a' i' l' v' r'] par';
    simpl; try done.
  intros (Hi & Ha & Hl & Hr) (Hi' & Ha' & Hl' & Hr') [= <-].
  rewrite Ha in Ha'. injection Ha' as -> Hl0 Hr0 _ Hfl.
  destruct (mkflags_inj _ _ _ _ Hi Hi' Hfl) as [-> ->].
  f_equal; [by eapply IHl|by eapply IHr].
Qed.

Lemma heap_rep_unique s t t' :
  heap_rep storage64 s t -> heap_rep storage64 s t' -> t = t'.
Proof.
  intros (H1 & H2 & _) (H1' & H2' & _). eapply rep_unique; [done|done|congruence].
Qed.

Lemma Inv_small s t :
  Inv storage64 s t -> storage64 = false -> nodes_num (tree s) <= 2 ^ 31.
Proof.
  intros [_ Har _ _] ->. pose proof (ar_num _ _ _ Har). pose proof (ar_max _ _ _ Har) as Hm.
  unfold max_nodes in Hm. lia.
Qed.

Lemma ptree_new_spec cmpf ck pre oracle cap :
  0 <= pre < 2 ^ 31 ->
  match ptree_new storage64 cmpf ck pre (configured oracle cap) with
  | Ok s => Inv storage64 s E /\ nodes_num (tree s) = 0
            /\ cmp (tree s) = cmpf /\ cmp_key (tree s) = ck
            /\ allocated_nodes_num (tree s) = pre
  | Fail Oom => True
  | Fail _ => False
  end.
Proof.
  intros Hpre. unfold ptree_new, configured. simpl.
  destruct (oracle 0%nat); [|done].
  set (s1 := State _ _).
  assert (arena storage64 s1 []) as Har.
  { constructor; simpl; try done; try lia.
    - unfold max_nodes. destruct storage64; lia.
    - apply Z.mod_pos_bound. lia.
    - apply NoDup_nil_2.
    - intros p Hp. by apply elem_of_nil in Hp.
    - intros a i Hin. by apply elem_of_nil in Hin.
    - intros a [n Hn]. simpl in Hn. by rewrite lookup_empty in Hn. }
  pose proof (allocate_nodes_spec storage64 s1 [] (to_size_t pre) Har) as Hsp.
  unfold to_size_t in *. rewrite Z.mod_small in * by lia.
  assert (allocated_nodes_num (tree s1) + pre < 2 ^ word_bits storage64) as Hw.
  { simpl. unfold word_bits. destruct storage64; lia. }
  specialize (Hsp ltac:(lia) Hw ltac:(simpl; lia)). unfold wpo in Hsp.
  destruct (ptree_allocate_nodes storage64 pre s1) as [[[] s]|[]]; try done.
  destruct Hsp as (Har' & [Ht Hm _] & Hal).
  destruct s as [[h lf ma al ok] [rt nn an tbl cm ck']].
  simpl in *. simplify_eq. split_and!; try done.
  constructor; try done.
  - split_and!; simpl; [done|done|apply NoDup_nil_2].
  - by eexists.
Qed.

(** One call. *)
Record step_ok (s : state) (t : rbt) (o : op) (r : bool) (s' : state) (t' : rbt)
    : Prop := {
  so_inv : Inv storage64 s' t';
  so_num : nodes_num (tree s') = nodes_num (tree s) + delta o r;
  so_cmp : cmp (tree s') = cmp (tree s);
  so_key : cmp_key (tree s') = cmp_key (tree s);
  so_same : r = false -> s' = s /\ t' = t;
  so_ref : cmp_ok (cmp (tree s)) -> sorted (cmp (tree s)) (inorder t) ->
           sorted (cmp (tree s)) (inorder t')
           /\ inorder t' = ref_op (cmp (tree s)) o (inorder t)
}.

Lemma insert_ref s t v :
  cmp_ok (cmp (tree s)) -> sorted (cmp (tree s)) (inorder t) ->
  match ins_path (cmp (tree s)) v t [] with
  | None => present (cmp (tree s)) v (inorder t)
            /\ ref_insert (cmp (tree s)) v (inorder t) = inorder t
  | Some ctx' =>
      ~ present (cmp (tree s)) v (inorder t)
      /\ ref_insert (cmp (tree s)) v (inorder t) = before ctx' ++ v :: after ctx'
      /\ sorted (cmp (tree s)) (before ctx' ++ v :: after ctx')
  end.
Proof.
  intros Hf Hs. set (f := cmp (tree s)) in *.
  pose proof (path_bounds f Hf v t [] Hs) as Hp.
  specialize (Hp ltac:(by split)).
  destruct (find_path f v t []) as [[cz sub']|].
  - destruct Hp as (-> & c & z & iz & l & vz & r & -> & Hz & Hplug & Hb).
    simpl in Hplug. rewrite <- Hplug, inorder_plug. simpl.
    rewrite !app_assoc, <- (app_assoc _ _ (after cz)). simpl.
    split; [|by apply ref_insert_present].
    exists vz. split; [|done]. rewrite !elem_of_app, elem_of_cons. tauto.
  - destruct Hp as (ctx' & -> & Hplug & Hb). simpl in Hplug.
    rewrite <- Hplug, inorder_plug in *. simpl in *.
    split_and!; [|by apply ref_insert_new|by apply sorted_insert].
    intros (x & Hx & Hx0). destruct Hb as [Hb1 Hb2].
    apply elem_of_app in Hx as [Hx|Hx].
    + pose proof (proj1 (Forall_forall _ _) Hb1 x Hx). simpl in *. lia.
    + pose proof (proj1 (Forall_forall _ _) Hb2 x Hx). simpl in *. lia.
Qed.

Lemma remove_ref s t v :
  cmp_ok (cmp (tree s)) -> sorted (cmp (tree s)) (inorder t) ->
  match find_path (cmp (tree s)) v t [] with
  | Some (cz, T c z iz l vz r) =>
      ref_remove (cmp (tree s)) v (inorder t)
      = before cz ++ inorder l ++ inorder r ++ after cz
      /\ sorted (cmp (tree s)) (before cz ++ inorder l ++ inorder r ++ after cz)
  | Some (_, E) => False
  | None => ref_remove (cmp (tree s)) v (inorder t) = inorder t
  end.
Proof.
  intros Hf Hs. set (f := cmp (tree s)) in *.
  pose proof (path_bounds f Hf v t [] Hs) as Hp.
  specialize (Hp ltac:(by split)).
  destruct (find_path f v t []) as [[cz sub']|].
  - destruct Hp as (_ & c & z & iz & l & vz & r & -> & Hz & Hplug & Hb).
    simpl in Hplug.
    assert (inorder t = (before cz ++ inorder l) ++ vz :: (inorder r ++ after cz)) as Ht.
    { rewrite <- Hplug, inorder_plug. simpl. by rewrite <- !app_assoc. }
    rewrite Ht in *. rewrite (app_assoc (before cz)).
    split; [by apply ref_remove_present|by apply sorted_remove in Hs].
  - destruct Hp as (ctx' & _ & Hplug & Hb). simpl in Hplug.
    rewrite <- Hplug, inorder_plug. simpl. by apply ref_remove_absent.
Qed.

Lemma run_op_spec s t o :
  Inv storage64 s t -> nodes_num (tree s) <= 2 ^ 31 ->
  wpo (run_op storage64 o) s (fun r s' => exists t', step_ok s t o r s' t').
Proof.
  intros HI H31. destruct o as [v|v]; simpl.
  - eapply wpo_mono; [apply (ptree_insert_spec storage64 s t v HI); right; lia|].
    intros r s'. unfold insert_post.
    pose proof (insert_ref s t v) as Href.
    destruct (ins_path (cmp (tree s)) v t []) as [ctx'|].
    + intros (-> & t' & HI' & Hin & Hnn & _ & _ & Hc & Hk). exists t'.
      constructor; try done.
      intros Hf Hs. destruct (Href Hf Hs) as (_ & Hr & Hs'). simpl.
      rewrite Hin, Hr. by split.
    + intros [-> ->]. exists t. constructor; try done; [simpl; lia|].
      intros Hf Hs. destruct (Href Hf Hs) as [_ Hr]. simpl. by rewrite Hr.
  - apply wp_wpo. eapply wp_mono; [by apply (ptree_remove_spec storage64 s t v)|].
    intros r s'. unfold remove_spec_post.
    pose proof (remove_ref s t v) as Href.
    destruct (find_path (cmp (tree s)) v t []) as [[cz [|c z iz l vz r']]|]; [done| |].
    + intros (-> & t' & cy & c' & y & iy & ly & vy & ry & _ & _ & HI' & Hin & _ & _ & _
              & Hnn & Htree & _).
      exists t'. constructor; [done| | | |done|].
      * simpl. lia.
      * destruct (tree s'), (tree s). simpl in *. congruence.
      * destruct (tree s'), (tree s). simpl in *. congruence.
      * intros Hf Hs. destruct (Href Hf Hs) as [Hr Hs']. simpl.
        rewrite Hin, Hr. by split.
    + intros [-> ->]. exists t. constructor; try done; [simpl; lia|].
      intros Hf Hs. simpl. by rewrite (Href Hf Hs).
Qed.

(** A sequence of calls. *)
Record run_ok (s : state) (t : rbt) (ops : list op) (rs : list bool) (s' : state)
    (t' : rbt) : Prop := {
  ro_inv : Inv storage64 s' t';
  ro_num : nodes_num (tree s') = nodes_num (tree s) + net ops rs;
  ro_len : length rs = length ops;
  ro_cmp : cmp (tree s') = cmp (tree s);
  ro_key : cmp_key (tree s') = cmp_key (tree s);
  ro_ref : cmp_ok (cmp (tree s)) -> sorted (cmp (tree s)) (inorder t) ->
           sorted (cmp (tree s)) (inorder t')
           /\ inorder t' = ref_run (cmp (tree s)) ops (inorder t)
}.

Lemma run_ops_spec ops : forall s t,
  Inv storage64 s t ->
  storage64 = false \/ nodes_num (tree s) + Z.of_nat (length ops) <= 2 ^ 31 ->
  wpo (run_ops storage64 ops) s (fun rs s' => exists t', run_ok s t ops rs s' t').
Proof.
  induction ops as [|o ops IH]; intros s t HI Hb.
  { exists t. constructor; try done. simpl. lia. }
  cbn [run_ops]. apply wpo_bind.
  assert (nodes_num (tree s) <= 2 ^ 31) as H31.
  { destruct Hb as [Hb|Hb]; [by eapply Inv_small|]. simpl in Hb. lia. }
  eapply wpo_mono; [by apply (run_op_spec s t o)|].
  intros r s1 (t1 & [HI1 Hn1 Hc1 Hk1 _ Hr1]). apply wpo_bind.
  eapply wpo_mono.
  { apply (IH s1 t1 HI1). destruct Hb as [Hb|Hb]; [by left|right].
    rewrite Hn1. simpl in Hb. destruct r, o; simpl; lia. }
  intros rs s2 (t2 & [HI2 Hn2 Hl2 Hc2 Hk2 Hr2]). exists t2.
  constructor; try done; simpl; try congruence; try lia.
  intros Hf Hs. destruct (Hr1 Hf Hs) as [Hs1 He1].
  rewrite Hc1 in Hr2. destruct (Hr2 Hf Hs1) as [Hs2 He2]. split; [done|].
  by rewrite He2, He1.
Qed.

(** A session: what holds of the state that it leaves. *)
Record session_ok (cmpf ck : Z -> Z -> Z) (ops : list op) (rs : list bool)
    (s : state) (t : rbt) : Prop := {
  se_inv : Inv storage64 s t;
  se_num : nodes_num (tree s) = net ops rs;
  se_len : length rs = length ops;
  se_cmp : cmp (tree s) = cmpf;
  se_key : cmp_key (tree s) = ck;
  se_ref : cmp_ok cmpf -> sorted cmpf (inorder t) /\ inorder t = ref_run cmpf ops []
}.

Lemma session_spec cmpf ck pre oracle cap ops :
  0 <= pre < 2 ^ 31 ->
  storage64 = false \/ Z.of_nat (length ops) <= 2 ^ 31 ->
  match session storage64 cmpf ck pre (configured oracle cap) ops with
  | Ok (rs, s) => exists t, session_ok cmpf ck ops rs s t
  | Fail Oom => True
  | Fail _ => False
  end.
Proof.
  intros Hpre Hb. unfold session.
  pose proof (ptree_new_spec cmpf ck pre oracle cap Hpre) as Hnew.
  destruct (ptree_new _ _ _ _ _) as [s0|[]]; try done.
  destruct Hnew as (HI & Hn & Hc & Hk & _).
  pose proof (run_ops_spec ops s0 E HI) as Hrun.
  specialize (Hrun ltac:(destruct Hb; [by left|right; lia])). unfold wpo in Hrun.
  destruct (run_ops storage64 ops s0) as [[rs s]|[]]; try done.
  destruct Hrun as (t & [HI' Hn' Hl' Hc' Hk' Hr']). exists t.
  constructor; try done; try congruence; try lia.
  intros Hf. rewrite Hc in Hr'. apply Hr'; [done|]. constructor.
Qed.

End Run.

(** ** The properties of the interface *)

(** A session either is stopped by [oom()], or runs to its end, and then [P]
    holds of the results of its calls and of the state that it leaves. *)
Definition after_session (r : res (list bool * state))
    (P : list bool -> state -> Prop) : Prop :=
  match r with
  | Ok (rs, s) => P rs s
  | Fail f => f = Oom
  end.

Lemma after_session_intro storage64 cmpf ck pre oracle cap ops
    (P : list bool -> state -> Prop) :
  0 <= pre < 2 ^ 31 ->
  storage64 = false \/ Z.of_nat (length ops) <= 2 ^ 31 ->
  (forall rs s t, session_ok storage64 cmpf ck ops rs s t -> P rs s) ->
  after_session (session storage64 cmpf ck pre (configured oracle cap) ops) P.
Proof.
  intros Hpre Hb HP.
  pose proof (session_spec storage64 cmpf ck pre oracle cap ops Hpre Hb) as H.
  unfold after_session. destruct (session _ _ _ _ _ _) as [[rs s]|[]]; try done.
  destruct H as [t Ht]. by eapply HP.
Qed.

Lemma wp_run {A} (m : M A) s a :
  wp m s (fun x s' => s' = s /\ x = a) -> m s = Ok (a, s).
Proof. unfold wp. destruct (m s) as [[x s']|]; [|done]. by intros [-> ->]. Qed.

(** *** The shape of a red-black tree *)

Fixpoint subtrees (t : rbt) : list rbt :=
  match t with E => [] | T _ _ _ l _ r => t :: subtrees l ++ subtrees r end.

(** The numbers of black nodes on the paths from the root of [t] down to an
    absent child. *)
Fixpoint black_counts (t : rbt) : list nat :=
  match t with
  | E => [O]
  | T c _ _ l _ r =>
      (fun n => (n + (if c then 0 else 1))%nat) <$> (black_counts l ++ black_counts r)
  end.

Definition no_red_red (t : rbt) : Prop :=
  forall c a i l v r, T c a i l v r ∈ subtrees t -> c = true ->
    is_redT l = false /\ is_redT r = false.

Definition black_balanced (t : rbt) : Prop :=
  forall u, u ∈ subtrees t -> exists n, forall m, m ∈ black_counts u -> m = n.

Lemma wf_subtree t : forall u, wf t -> u ∈ subtrees t -> wf u.
Proof.
  induction t as [|c a i l IHl v r IHr]; intros u Hw Hu; simpl in Hu.
  - by apply elem_of_nil in Hu.
  - apply elem_of_cons in Hu as [->|Hu]; [done|].
    simpl in Hw. destruct Hw as (_ & _ & Hwl & Hwr).
    apply elem_of_app in Hu as [Hu|Hu]; auto.
Qed.

Lemma wf_black_counts t : wf t -> forall m, m ∈ black_counts t -> m = bh t.
Proof.
  induction t as [|c a i l IHl v r IHr]; intros Hw m Hm; simpl in *.
  - by apply list_elem_of_singleton in Hm.
  - destruct Hw as (Hb & _ & Hwl & Hwr).
    apply list_elem_of_fmap in Hm as (n & -> & Hn).
    apply elem_of_app in Hn as [Hn|Hn].
    + by rewrite (IHl Hwl n Hn).
    + by rewrite (IHr Hwr n Hn), Hb.
Qed.

Lemma wf_no_red_red t : wf t -> no_red_red t.
Proof.
  intros Hw c a i l v r Hu Hc. apply (wf_subtree t _ Hw) in Hu.
  simpl in Hu. destruct Hu as (_ & Hcol & _). auto.
Qed.

Lemma wf_black_balanced t : wf t -> black_balanced t.
Proof.
  intros Hw u Hu. exists (bh u). apply wf_black_counts. by eapply wf_subtree.
Qed.

(** *** Counting *)



Lemma net_le ops : forall rs, net ops rs <= Z.of_nat (length ops).
Proof.
  induction ops as [|o ops IH]; intros [|r rs]; simpl; try lia.
  specialize (IH rs). destruct r, o; simpl; lia.
Qed.

(** *** Calls that change nothing, and lookups *)

Lemma insert_descend_dup storage64 s0 A v sub : forall ctx fuel s,
  sub <> E -> Rel storage64 s0 A s (plug ctx sub) -> (height sub <= fuel)%nat ->
  ins_path (cmp (tree s)) v sub ctx = None ->
  wp (insert_descend storage64 fuel v (rootp sub)) s (fun r s' => s' = s /\ r = None).
Proof.
  induction sub as [|c a i l IHl vx r IHr]; intros ctx fuel s Hne H Hfuel Hp; [done|].
  destruct fuel as [|k]; [simpl in Hfuel; lia|]. simpl in Hfuel.
  cbn [insert_descend rootp]. cbn [ins_path] in Hp.
  rel_step. rel_step.
  destruct (Z.eqb_spec (cmp (tree s) v vx) 0) as [Heq|Hneq]; [by apply wp_ret|].
  destruct (0 <? cmp (tree s) v vx).
  - rel_step. destruct r as [|cr ar ir lr vr rr]; [done|]. cbn [rootp]. simp_ptr.
    rel_step. apply (IHr (Frame true c a i vx l :: ctx) k s); [done|done|lia|done].
  - rel_step. destruct l as [|cl al il ll vl rl]; [done|]. cbn [rootp]. simp_ptr.
    rel_step. apply (IHl (Frame false c a i vx r :: ctx) k s); [done|done|lia|done].
Qed.

Lemma ptree_insert_dup storage64 s t v :
  Inv storage64 s t -> ins_path (cmp (tree s)) v t [] = None ->
  ptree_insert storage64 v s = Ok (false, s).
Proof.
  intros HI Hp. pose proof (fuel_enough _ _ _ HI) as Hfuel. destruct HI as [Hrep _ _ _].
  assert (Rel storage64 s (addrs t) s t) as H by (by apply Rel_refl).
  apply wp_run. unfold ptree_insert.
  destruct t as [|c a i l vx r]; [done|].
  rel_step. apply wp_bind, wp_loop_bound. rel_step.
  apply wp_bind. eapply wp_mono.
  { apply (insert_descend_dup storage64 s (addrs (T c a i l vx r)) v (T c a i l vx r) [] _ s);
      [done|done|lia|done]. }
  intros r' s' [-> ->]. by apply wp_ret.
Qed.

Lemma find_path_agree f g v w sub : forall ctx,
  (forall x, f v x = g w x) -> find_path f v sub ctx = find_path g w sub ctx.
Proof.
  induction sub as [|c a i l IHl vx r IHr]; intros ctx Hfg; simpl; [done|].
  rewrite Hfg, IHl, IHr by done. done.
Qed.

Lemma handles_lookup storage64 h t : forall par a v,
  rep storage64 h par t -> (a, v) ∈ handles t -> exists n, h !! a = Some n /\ ptr n = v.
Proof.
  induction t as [|c b i l IHl w r IHr]; intros par a v; simpl.
  - intros _ Hin. by apply elem_of_nil in Hin.
  - intros (_ & Hb & Hl & Hr) Hin. apply elem_of_cons in Hin as [[= -> ->]|Hin].
    + by eexists.
    + apply elem_of_app in Hin as [Hin|Hin]; eauto.
Qed.

Lemma leftmost_snd sub : forall ctx, (leftmost sub ctx).2 = (leftmost sub []).2.
Proof.
  induction sub as [|c a i l IHl v r _]; intros ctx; [done|].
  destruct l as [|cl al il ll vl rl]; [done|].
  change (leftmost (T c a i (T cl al il ll vl rl) v r) ctx)
    with (leftmost (T cl al il ll vl rl) (Frame false c a i v r :: ctx)).
  change (leftmost (T c a i (T cl al il ll vl rl) v r) [])
    with (leftmost (T cl al il ll vl rl) [Frame false c a i v r]).
  by rewrite IHl, (IHl [_]).
Qed.

Lemma leftmost_first sub c y iy ly vy ry :
  (leftmost sub []).2 = T c y iy ly vy ry ->
  hd 0 (inorder sub) = vy /\ y ∈ addrs sub /\ ly = E.
Proof.
  intros Hsh. assert (sub <> E) as Hne by (intros ->; done).
  destruct (leftmost_shape sub [] Hne) as (c' & y' & i' & v' & r' & Hsh').
  rewrite Hsh in Hsh'. injection Hsh' as -> -> -> -> -> ->.
  destruct (leftmost_ctx sub []) as (cl & Hcl & Hleft). rewrite app_nil_r in Hcl.
  pose proof (leftmost_plug sub []) as Hp. rewrite Hcl, Hsh in Hp. simpl in Hp.
  rewrite <- Hp. split_and!; [|by rewrite addrs_plug; apply list_elem_of_here|done].
  by rewrite inorder_plug, (before_left cl).
Qed.

Lemma cmp_ok_sub : cmp_ok Z.sub.
Proof.
  constructor; intros; lia.
Qed.

(** C1: after every sequence of insertions and removals on a tree made by
    [ptree_new], the node objects form a tree, and only one: its root is
    black, no red node of it has a red child, and from every node the paths
    down to an absent child pass the same number of black nodes. *)
Theorem rb_invariants_preserved storage64 cmpf ck pre oracle cap ops :
  0 <= pre < 2 ^ 31 ->
  storage64 = false \/ Z.of_nat (length ops) <= 2 ^ 31 ->
  after_session (session storage64 cmpf ck pre (configured oracle cap) ops)
    (fun _ s => exists t,
       heap_rep storage64 s t
       /\ (forall t', heap_rep storage64 s t' -> t' = t)
       /\ is_redT t = false /\ no_red_red t /\ black_balanced t).
Proof.
  intros Hpre Hb. apply after_session_intro; [done|done|].
  intros rs s t [[Hrep _ _ [Hw Hblack]] _ _ _ _ _]. exists t. split_and!; try done.
  - intros t' Ht'. by apply (heap_rep_unique storage64 s).
  - by apply wf_no_red_red.
  - by apply wf_black_balanced.
Qed.

Lemma rb_invariants_witness :
  after_session
    (session false Z.sub Z.sub 0 (configured (fun _ => true) 0)
       [Insert 5; Insert 3; Insert 8; Insert 1; Remove 5; Remove 3])
    (fun _ s => exists t,
       heap_rep false s t
       /\ (forall t', heap_rep false s t' -> t' = t)
       /\ is_redT t = false /\ no_red_red t /\ black_balanced t).
Proof.
  apply (rb_invariants_preserved false Z.sub Z.sub 0 (fun _ => true) 0
           [Insert 5; Insert 3; Insert 8; Insert 1; Remove 5; Remove 3]).
  - lia.
  - left. reflexivity.
Defined.



(** C10: before and after every call of a session the sentinel is black and
    its two links are null; a removal whose node has no child leaves the
    parent field of the sentinel set. *)
Theorem sentinel_stays_black storage64 cmpf ck pre oracle cap ops :
  0 <= pre < 2 ^ 31 ->
  storage64 = false \/ Z.of_nat (length ops) <= 2 ^ 31 ->
  after_session (session storage64 cmpf ck pre (configured oracle cap) ops)
    (fun _ s =>
       is_black storage64 Leaf s = Ok (true, s)
       /\ is_red storage64 Leaf s = Ok (false, s)
       /\ get_link Leaf false s = Ok (Null, s)
       /\ get_link Leaf true s = Ok (Null, s))
  /\ after_session
       (session false Z.sub Z.sub 0 (configured (fun _ => true) 0)
          [Insert 5; Insert 3; Insert 8; Remove 5])
       (fun _ s => get_parent Leaf s = Ok (Ptr 3, s)).
Proof.
  intros Hpre Hb. split; [|vm_compute; reflexivity].
  apply after_session_intro; [done|done|].
  intros rs s t [[_ _ [p Hp] _] _ _ _ _ _].
  unfold is_black, is_red, get_link, get_flags, bind, load, ret. rewrite Hp. simpl.
  by rewrite flags_zero_black.
Qed.

Lemma sentinel_witness :
  after_session
    (session false Z.sub Z.sub 0 (configured (fun _ => true) 0)
       [Insert 5; Insert 3; Remove 3])
    (fun _ s =>
       is_black false Leaf s = Ok (true, s)
       /\ is_red false Leaf s = Ok (false, s)
       /\ get_link Leaf false s = Ok (Null, s)
       /\ get_link Leaf true s = Ok (Null, s)).
Proof.
  apply (proj1 (sentinel_stays_black false Z.sub Z.sub 0 (fun _ => true) 0
                  [Insert 5; Insert 3; Remove 3] ltac:(lia) (or_introl eq_refl))).
Defined.

(** The handles that a traversal of the state left by a session yields, and
    the value of [ptree_size] there. *)
Definition traversal (r : res (list bool * state)) : res (list Z) :=
  match r with
  | Ok (_, s) => match traverse s with Ok (l, _) => Ok l | Fail f => Fail f end
  | Fail f => Fail f
  end.

Definition size_after (r : res (list bool * state)) : res Z :=
  match r with
  | Ok (_, s) => match ptree_size s with Ok (n, _) => Ok n | Fail f => Fail f end
  | Fail f => Fail f
  end.

(** C2: after a session with the comparator of a total order, [ptree_min]
    followed by [ptree_it_next] until it returns null yields the list that
    the reference ordered set holds after the same calls; the state is left
    as it was.  In particular: inserting 5, 3, 8, 1, 4, 7, 9 gives
    1, 3, 4, 5, 7, 8, 9; removing 5 then gives 1, 3, 4, 7, 8, 9; removing
    the other six gives the size 0. *)
Theorem traversal_matches_reference storage64 cmpf ck pre oracle cap ops :
  cmp_ok cmpf ->
  0 <= pre < 2 ^ 31 ->
  storage64 = false \/ Z.of_nat (length ops) <= 2 ^ 31 ->
  after_session (session storage64 cmpf ck pre (configured oracle cap) ops)
    (fun _ s => traverse s = Ok (ref_run cmpf ops [], s))
  /\ (let run := session false Z.sub Z.sub 0 (configured (fun _ => true) 0) in
      let seven := Insert <$> [5; 3; 8; 1; 4; 7; 9] in
      traversal (run seven) = Ok [1; 3; 4; 5; 7; 8; 9]
      /\ traversal (run (seven ++ [Remove 5])) = Ok [1; 3; 4; 7; 8; 9]
      /\ size_after (run (seven ++ [Remove 5] ++ (Remove <$> [1; 3; 4; 7; 8; 9])))
         = Ok 0).
Proof.
  intros Hf Hpre Hb. split; [|by vm_compute].
  apply after_session_intro; [done|done|].
  intros rs s t [HI _ _ _ _ Href]. destruct (Href Hf) as [_ <-].
  eapply wp_run. by apply (traverse_spec storage64).
Qed.

Lemma traversal_witness :
  after_session
    (session false Z.sub Z.sub 0 (configured (fun _ => true) 0)
       [Insert 2; Insert 1; Remove 2; Insert 3])
    (fun _ s =>
       traverse s
       = Ok (ref_run Z.sub [Insert 2; Insert 1; Remove 2; Insert 3] [], s)).
Proof.
  apply (proj1 (traversal_matches_reference false Z.sub Z.sub 0 (fun _ => true) 0
                  [Insert 2; Insert 1; Remove 2; Insert 3]
                  cmp_ok_sub ltac:(lia) (or_introl eq_refl))).
Defined.

(** C8: in the state left by a session whose comparator is that of a total
    order: for an element [e] of the tree and a key [k] that the key
    comparator compares as the element comparator compares [e], [ptree_get]
    returns [e] and [ptree_get_it] returns a node that holds [e]; for a key
    that compares equal to no element, both return null. *)
Theorem get_by_key storage64 cmpf ck pre oracle cap ops :
  cmp_ok cmpf ->
  0 <= pre < 2 ^ 31 ->
  storage64 = false \/ Z.of_nat (length ops) <= 2 ^ 31 ->
  after_session (session storage64 cmpf ck pre (configured oracle cap) ops)
    (fun _ s => exists l,
       traverse s = Ok (l, s)
       /\ (forall e k, e ∈ l -> (forall x, ck k x = cmpf e x) ->
           ptree_get k s = Ok (e, s)
           /\ exists it, ptree_get_it k s = Ok (it, s) /\ get_ptr it s = Ok (e, s))
       /\ (forall k, (forall x, x ∈ l -> ck k x <> 0) ->
           ptree_get k s = Ok (0, s) /\ ptree_get_it k s = Ok (Null, s))).
Proof.
  intros Hf Hpre Hb. apply after_session_intro; [done|done|].
  intros rs s t [HI _ _ Hc Hk Href]. destruct (Href Hf) as [Hs _].
  exists (inorder t). split; [eapply wp_run; by apply (traverse_spec storage64)|].
  pose proof (ptree_get_spec storage64 s t) as Hget.
  pose proof (ptree_get_it_spec storage64 s t) as Hgit.
  rewrite Hk in Hget, Hgit.
  split.
  - intros e k He Hag.
    specialize (Hget k HI). specialize (Hgit k HI).
    rewrite (find_path_agree ck cmpf k e t [] Hag) in Hget, Hgit.
    pose proof (path_bounds cmpf Hf e t [] Hs ltac:(by split)) as Hp.
    destruct (find_path cmpf e t []) as [[cz sub']|].
    + destruct Hp as (_ & c & z & iz & l & vz & r & -> & Hz & Hplug & _).
      simpl in Hplug, Hget, Hgit.
      assert (e = vz) as <-.
      { assert (inorder t = (before cz ++ inorder l) ++ vz :: (inorder r ++ after cz))
          as Ht.
        { rewrite <- Hplug, inorder_plug. simpl. by rewrite <- !app_assoc. }
        rewrite Ht in Hs, He.
        by apply (sorted_unique_eq cmpf Hf _ _ _ _ Hs He). }
      split; [by apply wp_run|].
      exists (Ptr z). split; [by apply wp_run|].
      destruct HI as [(Hrep & _ & _) _ _ _]. rewrite <- Hplug in Hrep.
      apply rep_plug in Hrep as [Hrep _]. simpl in Hrep. destruct Hrep as (_ & Hz' & _).
      unfold get_ptr, bind, load, ret. by rewrite Hz'.
    + destruct Hp as (ctx' & _ & Hplug & Hb1 & Hb2). simpl in Hplug.
      rewrite <- Hplug, inorder_plug in He. simpl in He.
      pose proof (cmp_refl cmpf Hf e) as He0.
      apply elem_of_app in He as [He|He].
      * pose proof (proj1 (Forall_forall _ _) Hb1 e He). simpl in *. lia.
      * pose proof (proj1 (Forall_forall _ _) Hb2 e He). simpl in *. lia.
  - intros k Hno. specialize (Hget k HI). specialize (Hgit k HI).
    destruct (find_path ck k t []) as [[cz sub']|] eqn:Hfp.
    + destruct (find_path_Some _ _ _ _ _ _ Hfp) as (c & z & iz & l & vz & r & -> & Hz & Hplug).
      exfalso. apply (Hno vz); [|done]. simpl in Hplug.
      rewrite <- Hplug, inorder_plug. simpl.
      rewrite !elem_of_app, elem_of_cons. tauto.
    + split; by apply wp_run.
Qed.

Lemma get_by_key_witness :
  after_session
    (session false Z.sub Z.sub 0 (configured (fun _ => true) 0) [Insert 5; Insert 3])
    (fun _ s => exists l,
       traverse s = Ok (l, s)
       /\ (forall e k, e ∈ l -> (forall x, Z.sub k x = Z.sub e x) ->
           ptree_get k s = Ok (e, s)
           /\ exists it, ptree_get_it k s = Ok (it, s) /\ get_ptr it s = Ok (e, s))
       /\ (forall k, (forall x, x ∈ l -> Z.sub k x <> 0) ->
           ptree_get k s = Ok (0, s) /\ ptree_get_it k s = Ok (Null, s))).
Proof.
  apply (get_by_key false Z.sub Z.sub 0 (fun _ => true) 0 [Insert 5; Insert 3]
           cmp_ok_sub).
  - lia.
  - left. reflexivity.
Defined.

(** A state with a node that has two children, for the example of C9:
    5 at the root, 3 and 8 below it. *)
Definition demo_state : state :=
  match session false Z.sub Z.sub 0 (configured (fun _ => true) 0)
          [Insert 5; Insert 3; Insert 8] with
  | Ok (_, s) => s
  | Fail _ => State (initial_world (fun _ => true)) (Ptree Leaf 0 0 [] Z.sub Z.sub)
  end.

Definition demo_tree : rbt :=
  T false 3%nat 0 (T true 5%nat 1 E 3 E) 5 (T true 7%nat 2 E 8 E).

(** C9: in the state left by a session, [ptree_remove_node] of a node [z]
    unlinks one node [y] with at most one child, and moves it to the first
    free slot of the arena; when [z] has two children, [y] is the leftmost
    node of its right subtree, the node object of [z] stays in the tree, and
    it holds from then on the handle of [y], its in-order successor. *)
Theorem remove_splices_successor storage64 cmpf ck pre oracle cap ops rs s
    cz c z iz l vz r :
  0 <= pre < 2 ^ 31 ->
  storage64 = false \/ Z.of_nat (length ops) <= 2 ^ 31 ->
  session storage64 cmpf ck pre (configured oracle cap) ops = Ok (rs, s) ->
  heap_rep storage64 s (plug cz (T c z iz l vz r)) ->
  exists s' t' cy c' y iy ly vy ry,
    ptree_remove_node storage64 (Ptr z) s = Ok (true, s')
    /\ heap_rep storage64 s' t'
    /\ victim cz c z iz l vz r = (cy, T c' y iy ly vy ry)
    /\ (ly = E \/ ry = E)
    /\ (y ∉ addrs t')
    /\ nodes (tree s') !! Z.to_nat (nodes_num (tree s')) = Some (Ptr y)
    /\ (l <> E -> r <> E ->
        (leftmost r []).2 = T c' y iy ly vy ry /\ hd 0 (inorder r) = vy
        /\ z <> y /\ z ∈ addrs t' /\ get_ptr (Ptr z) s' = Ok (vy, s')).
Proof.
  intros Hpre Hb Hses Hrep.
  pose proof (session_spec storage64 cmpf ck pre oracle cap ops Hpre Hb) as Hsp.
  rewrite Hses in Hsp. destruct Hsp as [t [HI Hn _ _ _ _]].
  assert (t = plug cz (T c z iz l vz r)) as ->.
  { apply (heap_rep_unique storage64 s); [by destruct HI|done]. }
  assert (nodes_num (tree s) <= 2 ^ 31) as H31.
  { destruct Hb as [Hb|Hb]; [by eapply Inv_small|].
    rewrite Hn. pose proof (net_le ops rs). lia. }
  pose proof (ptree_remove_node_spec storage64 s cz c z iz l vz r HI H31) as Hrm.
  apply wp_inv in Hrm as (res & s' & Hrun & Hpost).
  destruct Hpost as (-> & t' & cy & c' & y & iy & ly & vy & ry & Hv & Hor & HI' & Hin
                     & Hperm & Hz & Hslot & _).
  destruct Hrep as (_ & _ & Hnd).
  exists s', t', cy, c', y, iy, ly, vy, ry. split_and!; try done.
  - by destruct HI'.
  - rewrite <- Hperm in Hnd. by apply NoDup_cons in Hnd as [? _].
  - intros Hl Hr. unfold victim in Hv.
    destruct l as [|cl al il ll vl rl]; [done|]. destruct r as [|cr ar ir lr vr rr]; [done|].
    set (r := T cr ar ir lr vr rr) in *.
    assert ((leftmost r []).2 = T c' y iy ly vy ry) as Hsh.
    { by rewrite <- (leftmost_snd r (Frame true c z iz vz (T cl al il ll vl rl) :: cz)), Hv. }
    destruct (leftmost_first r _ _ _ _ _ _ Hsh) as (Hhd & Hy & ->).
    assert (z <> y) as Hzy.
    { rewrite addrs_plug in Hnd. apply NoDup_app in Hnd as [Hnd _].
      change (NoDup (z :: addrs (T cl al il ll vl rl) ++ addrs r)) in Hnd.
      apply NoDup_cons in Hnd as [Hnin _].
      intros ->. apply Hnin. apply elem_of_app. by right. }
    specialize (Hz Hzy). split_and!; try done.
    + rewrite addrs_handles. apply list_elem_of_fmap. by exists (z, vy).
    + destruct HI' as [(Hrep' & _ & _) _ _ _].
      destruct (handles_lookup _ _ _ _ _ _ Hrep' Hz) as (n & Hn' & Hp).
      unfold get_ptr, bind, load, ret. by rewrite Hn', Hp.
Qed.

Lemma remove_splices_witness :
  exists s' t' cy c' y iy ly vy ry,
    ptree_remove_node false (Ptr 3) demo_state = Ok (true, s')
    /\ heap_rep false s' t'
    /\ victim [] false 3%nat 0 (T true 5%nat 1 E 3 E) 5 (T true 7%nat 2 E 8 E)
       = (cy, T c' y iy ly vy ry)
    /\ (ly = E \/ ry = E)
    /\ (y ∉ addrs t')
    /\ nodes (tree s') !! Z.to_nat (nodes_num (tree s')) = Some (Ptr y)
    /\ (T true 5%nat 1 E 3 E <> E -> T true 7%nat 2 E 8 E <> E ->
        (leftmost (T true 7%nat 2 E 8 E) []).2 = T c' y iy ly vy ry
        /\ hd 0 (inorder (T true 7%nat 2 E 8 E)) = vy
        /\ 3%nat <> y /\ 3%nat ∈ addrs t' /\ get_ptr (Ptr 3) s' = Ok (vy, s')).
Proof.
  apply (remove_splices_successor false Z.sub Z.sub 0 (fun _ => true) 0
           [Insert 5; Insert 3; Insert 8] [true; true; true] demo_state
           [] false 3%nat 0 (T true 5%nat 1 E 3 E) 5 (T true 7%nat 2 E 8 E)).
  - lia.
  - left. reflexivity.
  - vm_compute. reflexivity.
  - split; [|split].
    + cbn [rep plug]. repeat split; try (unfold red_flag; lia); vm_compute; reflexivity.
    + vm_compute. reflexivity.
    + simpl. apply (bool_decide_unpack _). vm_compute. exact I.
Defined.

(** *** Where the code departs from its description *)

(** The call [m] in the state left by a session. *)
Definition then_call {A} (r : res (list bool * state)) (m : M A) : res (A * state) :=
  match r with
  | Ok (_, s) => m s
  | Fail f => Fail f
  end.

(** C3: [ptree_shrink] frees the unused node objects and the table slots
    that held them, but leaves [allocated_nodes_num] as it was: after
    [ptree_new] with one slot, an insertion, the removal of the element and
    [ptree_shrink], the capacity is still 1, the table is empty, and the next
    insertion reads the slot 0 that is no longer there. *)
Theorem shrink_keeps_stale_capacity :
  match then_call
          (session false Z.sub Z.sub 1 (configured (fun _ => true) 0)
             [Insert 7; Remove 7])
          ptree_shrink with
  | Ok (_, s') =>
      allocated_nodes_num (tree s') = 1
      /\ nodes_num (tree s') = 0
      /\ nodes (tree s') = []
      /\ heap (mem s') = ∅
      /\ ptree_insert false 8 s' = Fail Undefined
  | Fail _ => False
  end.
Proof. vm_compute. repeat split; reflexivity. Qed.

(** C7: the sum of the capacity and of the number of slots asked for is
    reduced to the width of [ptree_size_int] before it is compared with
    [max_nodes]: with the capacity 2, asking for [2^32 - 1] more slots (for
    [2^64 - 1] in the 64-bit build) does not stop the process; the call
    returns, and the capacity is 1. *)
Theorem allocate_nodes_wraps :
  match then_call (session false Z.sub Z.sub 2 (configured (fun _ => true) 0) [])
          (ptree_allocate_nodes false (2 ^ 32 - 1)) with
  | Ok (_, s') =>
      allocated_nodes_num (tree s') = 1 /\ length (nodes (tree s')) = 1%nat
  | Fail _ => False
  end
  /\ match then_call (session true Z.sub Z.sub 2 (configured (fun _ => true) 0) [])
             (ptree_allocate_nodes true (2 ^ 64 - 1)) with
     | Ok (_, s') =>
         allocated_nodes_num (tree s') = 1 /\ length (nodes (tree s')) = 1%nat
     | Fail _ => False
     end.
Proof. vm_compute. repeat split; reflexivity. Qed.

(** C4: with two elements in a tree of capacity 2, [ptree_allocate_nodes] of
    [2^32 - 1] slots returns with a table of one slot: the number of
    elements is 2, the node of index 1 is in the tree, and the slot 1 does
    not exist.  The conversion of an index to [int32_t] in [release_node]
    changes an index from [2^31] on, which the 64-bit build allows. *)
Theorem reserve_breaks_density :
  match then_call
          (session false Z.sub Z.sub 2 (configured (fun _ => true) 0)
             [Insert 7; Insert 9])
          (ptree_allocate_nodes false (2 ^ 32 - 1)) with
  | Ok (_, s') =>
      nodes_num (tree s') = 2
      /\ allocated_nodes_num (tree s') = 1
      /\ heap_rep false s' (T false 2%nat 0 E 7 (T true 3%nat 1 E 9 E))
      /\ get_node_index false (Ptr 3) s' = Ok (1, s')
      /\ get_slot 1 s' = Fail Undefined
  | Fail _ => False
  end
  /\ 2 ^ 31 <= max_nodes true
  /\ to_int32 (flags_get_index true (mkflags true false (2 ^ 31))) = - 2 ^ 31.
Proof.
  split; [|split; vm_compute; [discriminate|reflexivity]].
  vm_compute. repeat split; try reflexivity; try discriminate.
  apply (bool_decide_unpack _). vm_compute. exact I.
Qed.

(** *** The arena under insertions and removals *)

Lemma labels_lookup storage64 h t : forall par a i,
  rep storage64 h par t -> (a, i) ∈ labels t ->
  exists n c, h !! a = Some n /\ flags n = mkflags storage64 c i
    /\ 0 <= i < red_flag storage64.
Proof.
  induction t as [|c b j l IHl w r IHr]; intros par a i; simpl.
  - intros _ Hin. by apply elem_of_nil in Hin.
  - intros (Hj & Hb & Hl & Hr) Hin. apply elem_of_cons in Hin as [[= -> ->]|Hin].
    + by eexists _, c.
    + apply elem_of_app in Hin as [Hin|Hin]; eauto.
Qed.

Lemma get_node_index_run storage64 s a n c i :
  heap (mem s) !! a = Some n -> flags n = mkflags storage64 c i ->
  0 <= i < red_flag storage64 ->
  get_node_index storage64 (Ptr a) s = Ok (i, s).
Proof.
  intros Ha Hf Hi. unfold get_node_index, get_flags, bind, load, ret.
  rewrite Ha, Hf. by rewrite mkflags_get_index.
Qed.

(** X1: in the state left by a session of insertions and removals the arena
    is dense: the index that a node of the tree stores is the position of its
    slot, below the number of elements, and every slot from that number on
    holds a node that is not in the tree and that stores its position. *)
Theorem arena_dense_after_session storage64 cmpf ck pre oracle cap ops :
  0 <= pre < 2 ^ 31 ->
  storage64 = false \/ Z.of_nat (length ops) <= 2 ^ 31 ->
  after_session (session storage64 cmpf ck pre (configured oracle cap) ops)
    (fun _ s => exists t,
       heap_rep storage64 s t
       /\ Z.of_nat (length (addrs t)) = nodes_num (tree s)
       /\ (forall a i, (a, i) ∈ labels t ->
           0 <= i < nodes_num (tree s)
           /\ get_node_index storage64 (Ptr a) s = Ok (i, s)
           /\ get_slot i s = Ok (Ptr a, s))
       /\ (forall k, nodes_num (tree s) <= k < allocated_nodes_num (tree s) ->
           exists a, get_slot k s = Ok (Ptr a, s) /\ (a ∉ addrs t)
             /\ get_node_index storage64 (Ptr a) s = Ok (k, s))).
Proof.
  intros Hpre Hb. apply after_session_intro; [done|done|].
  intros rs s t [[Hrep Har _ _] _ _ _ _ _]. exists t.
  pose proof (max_nodes_red storage64) as Hmr.
  pose proof (ar_max _ _ _ Har) as Hmax. pose proof (ar_len _ _ _ Har) as Hlen.
  pose proof (ar_num _ _ _ Har) as Hnum.
  split_and!; [done|by rewrite <- (ar_count _ _ _ Har), length_labels| |].
  - intros a i Hin.
    destruct (ar_active _ _ _ Har a i Hin) as (k & -> & Hk & Htk).
    destruct Hrep as (Hr & _ & _).
    destruct (labels_lookup _ _ _ _ _ _ Hr Hin) as (n & c & Hn & Hf & Hi).
    split_and!; [lia|done|by eapply get_node_index_run|].
    apply wp_run. by eapply wp_get_slot.
  - intros k Hk.
    destruct (ar_free _ _ _ Har (Z.to_nat k)) as (a & n & c & Htk & Hn & Hf); [lia..|].
    rewrite Z2Nat.id in Hf by lia.
    exists a. split_and!.
    + apply wp_run. rewrite <- (Z2Nat.id k) by lia. by eapply wp_get_slot.
    + rewrite addrs_labels. intros [[a' i] [Heq Hin]]%list_elem_of_fmap.
      simpl in Heq. subst a'.
      destruct (ar_active _ _ _ Har a i Hin) as (k' & -> & Hk' & Htk').
      assert (Z.to_nat k = k') by (eapply NoDup_lookup; [apply (ar_nodup _ _ _ Har)|done..]).
      lia.
    + eapply get_node_index_run; [done|done|lia].
Qed.

Lemma arena_dense_witness :
  after_session
    (session false Z.sub Z.sub 3 (configured (fun _ => true) 0)
       [Insert 5; Insert 3; Insert 8; Remove 5])
    (fun _ s => exists t,
       heap_rep false s t
       /\ Z.of_nat (length (addrs t)) = nodes_num (tree s)
       /\ (forall a i, (a, i) ∈ labels t ->
           0 <= i < nodes_num (tree s)
           /\ get_node_index false (Ptr a) s = Ok (i, s)
           /\ get_slot i s = Ok (Ptr a, s))
       /\ (forall k, nodes_num (tree s) <= k < allocated_nodes_num (tree s) ->
           exists a, get_slot k s = Ok (Ptr a, s) /\ (a ∉ addrs t)
             /\ get_node_index false (Ptr a) s = Ok (k, s))).
Proof.
  apply (arena_dense_after_session false Z.sub Z.sub 3 (fun _ => true) 0
           [Insert 5; Insert 3; Insert 8; Remove 5]).
  - lia.
  - left. reflexivity.
Defined.

(** ** Calls that do not use the allocator *)

(** What such a call keeps: the allocator and its count of requests, the
    growth cap, the set of the node objects, the capacity, the number of
    slots of the table and the two comparators. *)
Record kept (s s' : state) : Prop := {
  kp_allocs : allocs (mem s') = allocs (mem s);
  kp_oracle : alloc_ok (mem s') = alloc_ok (mem s);
  kp_auto : max_nodes_to_auto_allocate (mem s') = max_nodes_to_auto_allocate (mem s);
  kp_dom : forall a, is_Some (heap (mem s') !! a) <-> is_Some (heap (mem s) !! a);
  kp_cap : allocated_nodes_num (tree s') = allocated_nodes_num (tree s);
  kp_len : length (nodes (tree s')) = length (nodes (tree s));
  kp_cmp : cmp (tree s') = cmp (tree s);
  kp_key : cmp_key (tree s') = cmp_key (tree s)
}.

Lemma kept_refl s : kept s s.
Proof. by constructor. Qed.

Lemma kept_trans s1 s2 s3 : kept s1 s2 -> kept s2 s3 -> kept s1 s3.
Proof.
  intros [H1 H2 H3 H4 H5 H6 H7 H8] [G1 G2 G3 G4 G5 G6 G7 G8].
  constructor; try congruence. intros a. by rewrite G4.
Qed.

(** [m], run in [s], keeps what [s0] has, and does not stop by [oom()]. *)
Definition quiet_rel {A} (s0 : state) (m : M A) (s : state) : Prop :=
  match m s with
  | Ok (_, s') => kept s0 s'
  | Fail f => f <> Oom
  end.

Definition quiet {A} (m : M A) : Prop := forall s, quiet_rel s m s.

Lemma qr_of_quiet {A} (m : M A) s0 s : quiet m -> kept s0 s -> quiet_rel s0 m s.
Proof.
  intros Hq Hk. specialize (Hq s). unfold quiet_rel in *.
  destruct (m s) as [[a s']|f]; [|done]. by eapply kept_trans.
Qed.

Lemma qr_bind {A B} (m : M A) (k : A -> M B) s0 s :
  quiet_rel s0 m s -> (forall a s', kept s0 s' -> quiet_rel s0 (k a) s') ->
  quiet_rel s0 (bind m k) s.
Proof.
  unfold quiet_rel, bind. destruct (m s) as [[a s']|f]; [|done]. intros Hk Hr.
  by apply Hr.
Qed.

Lemma qr_ret {A} (a : A) s0 s : kept s0 s -> quiet_rel s0 (ret a) s.
Proof. done. Qed.

Lemma qr_fail {A} f s0 s : f <> Oom -> quiet_rel s0 (@fail A f) s.
Proof. done. Qed.

Lemma qr_get_tree {B} (k : ptree -> M B) s0 s :
  quiet_rel s0 (k (tree s)) s -> quiet_rel s0 (bind get_tree k) s.
Proof. done. Qed.

Lemma qr_get_mem {B} (k : world -> M B) s0 s :
  quiet_rel s0 (k (mem s)) s -> quiet_rel s0 (bind get_mem k) s.
Proof. done. Qed.

Lemma qr_put_tree t s0 s : kept s0 (State (mem s) t) -> quiet_rel s0 (put_tree t) s.
Proof. done. Qed.

Lemma qr_put_mem w s0 s : kept s0 (State w (tree s)) -> quiet_rel s0 (put_mem w) s.
Proof. done. Qed.

Lemma quiet_intro {A} (m : M A) : (forall s, quiet_rel s m s) -> quiet m.
Proof. done. Qed.

Lemma kept_tree_fields s0 s t :
  kept s0 s ->
  allocated_nodes_num t = allocated_nodes_num (tree s) ->
  length (nodes t) = length (nodes (tree s)) ->
  cmp t = cmp (tree s) -> cmp_key t = cmp_key (tree s) ->
  kept s0 (State (mem s) t).
Proof.
  intros [H1 H2 H3 H4 H5 H6 H7 H8] G1 G2 G3 G4. constructor; simpl; congruence || done.
Qed.

Lemma kept_mem_fields s0 s w :
  kept s0 s ->
  allocs w = allocs (mem s) -> alloc_ok w = alloc_ok (mem s) ->
  max_nodes_to_auto_allocate w = max_nodes_to_auto_allocate (mem s) ->
  (forall a, is_Some (heap w !! a) <-> is_Some (heap (mem s) !! a)) ->
  kept s0 (State w (tree s)).
Proof.
  intros [H1 H2 H3 H4 H5 H6 H7 H8] G1 G2 G3 G4. constructor; simpl; try congruence.
  intros a. by rewrite G4.
Qed.

Lemma quiet_load p : quiet (load p).
Proof.
  intros s. unfold quiet_rel, load. destruct p as [| |a]; [done|apply kept_refl|].
  destruct (heap (mem s) !! a); [apply kept_refl|done].
Qed.

Lemma quiet_store p n : quiet (store p n).
Proof.
  intros s. unfold quiet_rel, store. destruct p as [| |a]; [done| |].
  - by constructor.
  - destruct (heap (mem s) !! a) as [n0|] eqn:Ha; [|done].
    constructor; simpl; try done. intros b.
    destruct (decide (a = b)) as [<-|Hne].
    + rewrite lookup_insert_eq, Ha. split; eauto.
    + by rewrite lookup_insert_ne.
Qed.

Lemma quiet_get_tree : quiet get_tree.
Proof. intros s. apply kept_refl. Qed.

Lemma quiet_get_mem : quiet get_mem.
Proof. intros s. apply kept_refl. Qed.

Lemma quiet_ret {A} (a : A) : quiet (ret a).
Proof. intros s. apply kept_refl. Qed.

Lemma quiet_assert b : quiet (assert b).
Proof. intros s. unfold quiet_rel, assert. destruct b; [apply kept_refl|done]. Qed.

Lemma quiet_bind {A B} (m : M A) (k : A -> M B) :
  quiet m -> (forall a, quiet (k a)) -> quiet (bind m k).
Proof.
  intros Hm Hk s. apply qr_bind; [apply Hm|].
  intros a s' Hs'. by apply qr_of_quiet.
Qed.

Create HintDb quiet.

#[export] Hint Resolve quiet_load quiet_store quiet_get_tree quiet_get_mem quiet_ret
  quiet_assert : quiet.

(** One step of the proof that a computation is quiet. *)
Ltac kept_tac :=
  first
    [ assumption
    | apply kept_refl
    | match goal with
      | H : kept ?s0 ?s |- kept ?s0 (State (mem ?s) ?t) =>
          apply (kept_tree_fields s0 s t H); simpl; try rewrite !length_insert;
          first [done | destruct H; congruence]
      end ].

Ltac quiet_step :=
  lazymatch goal with
  | |- quiet_rel _ (bind get_tree _) _ => apply qr_get_tree
  | |- quiet_rel _ (bind get_mem _) _ => apply qr_get_mem
  | |- quiet_rel _ (bind _ _) _ =>
      apply qr_bind; [|let a := fresh "a" in let s := fresh "s" in
                       let H := fresh "Hk" in intros a s H]
  | |- quiet_rel _ (ret _) _ => apply qr_ret; kept_tac
  | |- quiet_rel _ (fail _) _ => apply qr_fail; discriminate
  | |- quiet_rel _ (put_tree _) _ => apply qr_put_tree; kept_tac
  | |- quiet_rel _ (if ?b then _ else _) _ => destruct b
  | |- quiet_rel _ (match ?o with _ => _ end) _ => destruct o
  | |- quiet_rel _ _ _ => apply qr_of_quiet; [solve [eauto with quiet]|kept_tac]
  end.

Ltac quiet_tac :=
  intros; apply quiet_intro;
  let s := fresh "s" in intros s; pose proof (kept_refl s);
  repeat quiet_step.

Section Quiet.

Variable storage64 : bool.

Lemma quiet_get_ptr p : quiet (get_ptr p).
Proof. unfold get_ptr. quiet_tac. Qed.
Lemma quiet_get_link p dir : quiet (get_link p dir).
Proof. unfold get_link. quiet_tac. Qed.
Lemma quiet_get_parent p : quiet (get_parent p).
Proof. unfold get_parent. quiet_tac. Qed.
Lemma quiet_get_flags p : quiet (get_flags p).
Proof. unfold get_flags. quiet_tac. Qed.
Lemma quiet_set_ptr p v : quiet (set_ptr p v).
Proof. unfold set_ptr. quiet_tac. Qed.
Lemma quiet_set_link p dir q : quiet (set_link p dir q).
Proof. unfold set_link. quiet_tac. Qed.
Lemma quiet_set_parent p q : quiet (set_parent p q).
Proof. unfold set_parent. quiet_tac. Qed.
Lemma quiet_set_flags p f : quiet (set_flags p f).
Proof. unfold set_flags. quiet_tac. Qed.
Lemma quiet_get_root : quiet get_root.
Proof. unfold get_root. quiet_tac. Qed.
Lemma quiet_set_root p : quiet (set_root p).
Proof. unfold set_root. quiet_tac. Qed.
Lemma quiet_loop_bound : quiet loop_bound.
Proof. unfold loop_bound. quiet_tac. Qed.

Hint Resolve quiet_get_ptr quiet_get_link quiet_get_parent quiet_get_flags
  quiet_set_ptr quiet_set_link quiet_set_parent quiet_set_flags quiet_get_root
  quiet_set_root quiet_loop_bound : quiet.

Lemma quiet_get_slot i : quiet (get_slot i).
Proof. unfold get_slot. quiet_tac. Qed.
Lemma quiet_set_slot i p : quiet (set_slot i p).
Proof. unfold set_slot. quiet_tac. Qed.

Lemma quiet_is_red p : quiet (is_red storage64 p).
Proof. unfold is_red. quiet_tac. Qed.
Lemma quiet_is_black p : quiet (is_black storage64 p).
Proof. unfold is_black. quiet_tac. Qed.
Lemma quiet_paint_red p : quiet (paint_red storage64 p).
Proof. unfold paint_red. quiet_tac. Qed.
Lemma quiet_paint_black p : quiet (paint_black storage64 p).
Proof. unfold paint_black. quiet_tac. Qed.
Lemma quiet_has_child p dir : quiet (has_child p dir).
Proof. unfold has_child. quiet_tac. Qed.
Lemma quiet_is_child p dir : quiet (is_child p dir).
Proof. unfold is_child. quiet_tac. Qed.
Lemma quiet_get_node_index p : quiet (get_node_index storage64 p).
Proof. unfold get_node_index. quiet_tac. Qed.
Lemma quiet_set_node_index p i : quiet (set_node_index storage64 p i).
Proof. unfold set_node_index. quiet_tac. Qed.

Hint Resolve quiet_get_slot quiet_set_slot quiet_is_red quiet_is_black quiet_paint_red
  quiet_paint_black quiet_has_child quiet_is_child quiet_get_node_index
  quiet_set_node_index : quiet.

Lemma quiet_copy_color dst src : quiet (copy_color storage64 dst src).
Proof. unfold copy_color. quiet_tac. Qed.

Lemma quiet_rotate x dir : quiet (rotate x dir).
Proof. unfold rotate. quiet_tac. Qed.

Hint Resolve quiet_copy_color quiet_rotate : quiet.

Lemma quiet_descend fuel : forall dir p, quiet (descend fuel dir p).
Proof.
  induction fuel as [|k IH]; intros dir p; cbn [descend]; quiet_tac.
Qed.

Lemma quiet_ascend fuel : forall dir node it, quiet (ascend fuel dir node it).
Proof.
  induction fuel as [|k IH]; intros dir node it; cbn [ascend]; quiet_tac.
Qed.

Hint Resolve quiet_descend quiet_ascend : quiet.

Lemma quiet_step_node fuel dir p : quiet (step_node fuel dir p).
Proof. unfold step_node. quiet_tac. Qed.

Hint Resolve quiet_step_node : quiet.

Lemma quiet_get_next_node fuel p : quiet (get_next_node fuel p).
Proof. unfold get_next_node. auto with quiet. Qed.

Lemma quiet_get_it_loop fuel : forall key it, quiet (get_it_loop fuel key it).
Proof.
  induction fuel as [|k IH]; intros key it; cbn [get_it_loop]; quiet_tac.
Qed.

Lemma quiet_search_loop fuel : forall v z, quiet (search_loop fuel v z).
Proof.
  induction fuel as [|k IH]; intros v z; cbn [search_loop]; quiet_tac.
Qed.

Hint Resolve quiet_get_next_node quiet_get_it_loop quiet_search_loop : quiet.

Lemma quiet_ptree_get_it key : quiet (ptree_get_it key).
Proof. unfold ptree_get_it. quiet_tac. Qed.

Lemma quiet_ptree_search v : quiet (ptree_search v).
Proof. unfold ptree_search. quiet_tac. Qed.

Lemma quiet_insert_fixup fuel : forall x, quiet (insert_fixup storage64 fuel x).
Proof.
  induction fuel as [|k IH]; intros x; cbn [insert_fixup]; quiet_tac.
Qed.

Lemma quiet_remove_fixup fuel : forall x, quiet (remove_fixup storage64 fuel x).
Proof.
  induction fuel as [|k IH]; intros x; cbn [remove_fixup]; quiet_tac.
Qed.

Hint Resolve quiet_ptree_get_it quiet_ptree_search quiet_insert_fixup
  quiet_remove_fixup : quiet.

Lemma quiet_release_node p : quiet (release_node storage64 p).
Proof. unfold release_node. quiet_tac. Qed.

Lemma quiet_take_free_slot v : quiet (take_free_slot storage64 v).
Proof. unfold take_free_slot. quiet_tac. Qed.

Lemma quiet_choose_unlinked fuel z : quiet (choose_unlinked fuel z).
Proof. unfold choose_unlinked. quiet_tac. Qed.

Hint Resolve quiet_release_node quiet_take_free_slot quiet_choose_unlinked : quiet.

Lemma quiet_unlink_node fuel y z : quiet (unlink_node storage64 fuel y z).
Proof. unfold unlink_node. quiet_tac. Qed.

Hint Resolve quiet_unlink_node : quiet.

Lemma quiet_ptree_remove_node z : quiet (ptree_remove_node storage64 z).
Proof. unfold ptree_remove_node. quiet_tac. Qed.

Hint Resolve quiet_ptree_remove_node : quiet.

Lemma quiet_ptree_remove v : quiet (ptree_remove storage64 v).
Proof. unfold ptree_remove. quiet_tac. Qed.

Lemma quiet_ptree_remove_by_key key : quiet (ptree_remove_by_key storage64 key).
Proof. unfold ptree_remove_by_key. quiet_tac. Qed.

Lemma quiet_ptree_remove_by_it it : quiet (ptree_remove_by_it storage64 it).
Proof. unfold ptree_remove_by_it. quiet_tac. Qed.

Lemma quiet_ptree_empty : quiet ptree_empty.
Proof. unfold ptree_empty. quiet_tac. Qed.

End Quiet.

#[export] Hint Resolve quiet_get_ptr quiet_get_link quiet_get_parent quiet_get_flags
  quiet_set_ptr quiet_set_link quiet_set_parent quiet_set_flags quiet_get_root
  quiet_set_root quiet_loop_bound quiet_get_slot quiet_set_slot quiet_is_red
  quiet_is_black quiet_paint_red quiet_paint_black quiet_has_child quiet_is_child
  quiet_get_node_index quiet_set_node_index quiet_copy_color quiet_rotate
  quiet_descend quiet_ascend quiet_step_node quiet_get_next_node quiet_get_it_loop
  quiet_search_loop quiet_ptree_get_it quiet_ptree_search quiet_insert_fixup
  quiet_remove_fixup quiet_release_node quiet_take_free_slot quiet_choose_unlinked
  quiet_unlink_node quiet_ptree_remove_node quiet_ptree_remove
  quiet_ptree_remove_by_key quiet_ptree_remove_by_it quiet_ptree_empty : quiet.

(** ** Where the allocator is used *)

(** A property of the result of [bind m k] is a property of [k] after [m]. *)
Lemma wp_then {A B} (m : M A) (k : A -> M B) s (P : res (B * state) -> Prop) :
  wp m s (fun a s' => P (k a s')) -> P (bind m k s).
Proof. unfold wp, bind. by destruct (m s) as [[a s']|]. Qed.

Lemma bind_assoc {A B C} (m : M A) (k : A -> M B) (k' : B -> M C) s :
  bind (bind m k) k' s = bind m (fun a => bind (k a) k') s.
Proof. unfold bind. by destruct (m s) as [[a s']|]. Qed.

Section Starts.

Variable storage64 : bool.

(** [r] is the result in [s] of [add_node] followed by calls that do not use
    the allocator. *)
Definition starts {B} (v : Z) (s : state) (r : res (B * state)) : Prop :=
  exists k : pointer -> M B,
    (forall n, quiet (k n)) /\ r = bind (add_node storage64 v) k s.

Lemma starts_bind {B C} v s (m : M B) (k' : B -> M C) :
  starts v s (m s) -> (forall b, quiet (k' b)) -> starts v s (bind m k' s).
Proof.
  intros (k & Hk & Heq) Hk'. exists (fun n => bind (k n) k'). split.
  - intros n. by apply quiet_bind.
  - rewrite <- bind_assoc. unfold bind at 1 3. by rewrite Heq.
Qed.

Ltac then_step :=
  lazymatch goal with
  | |- starts ?v ?s0 (bind ?m ?k ?s) => apply (wp_then m k s (starts v s0))
  end.

Lemma insert_descend_starts s0 A v sub : forall ctx fuel s,
  sub <> E -> Rel storage64 s0 A s (plug ctx sub) -> (height sub <= fuel)%nat ->
  ins_path (cmp (tree s)) v sub ctx <> None ->
  starts v s (insert_descend storage64 fuel v (rootp sub) s).
Proof.
  induction sub as [|c a i l IHl vx r IHr]; intros ctx fuel s Hne H Hfuel Hp; [done|].
  destruct fuel as [|k]; [simpl in Hfuel; lia|]. simpl in Hfuel.
  cbn [insert_descend rootp]. cbn [ins_path] in Hp.
  then_step. rel_step. then_step. rel_step.
  destruct (Z.eqb_spec (cmp (tree s) v vx) 0) as [Heq|Hneq]; [done|].
  destruct (0 <? cmp (tree s) v vx).
  - then_step. rel_step. destruct r as [|cr ar ir lr vr rr]; cbn [rootp]; simp_ptr.
    + eexists. split; [|reflexivity]. quiet_tac.
    + then_step. rel_step.
      apply (IHr (Frame true c a i vx l :: ctx) k s); [done|done|lia|done].
  - then_step. rel_step. destruct l as [|cl al il ll vl rl]; cbn [rootp]; simp_ptr.
    + eexists. split; [|reflexivity]. quiet_tac.
    + then_step. rel_step.
      apply (IHl (Frame false c a i vx r :: ctx) k s); [done|done|lia|done].
Qed.

(** The insertion of a handle that compares equal to no element starts, in
    the state of the call, with [add_node]; what follows does not use the
    allocator. *)
Lemma ptree_insert_starts s t v :
  heap_rep storage64 s t ->
  Z.of_nat (length (addrs t)) = nodes_num (tree s) ->
  ins_path (cmp (tree s)) v t [] <> None ->
  starts v s (ptree_insert storage64 v s).
Proof.
  intros Hrep Hc Hp.
  assert (Rel storage64 s (addrs t) s t) as H by (by apply Rel_refl).
  pose proof (height_le_size t) as Hh.
  unfold ptree_insert. then_step. rel_step.
  destruct t as [|c a i l vx r]; cbn [rootp]; simp_ptr.
  - eexists. split; [|reflexivity]. quiet_tac.
  - then_step. rel_step. then_step. rel_step.
    apply starts_bind.
    + apply (insert_descend_starts s (addrs (T c a i l vx r)) v (T c a i l vx r) [] _ s);
        [done|done|lia|done].
    + intros [x|]; quiet_tac.
Qed.

End Starts.

(** *** What the allocating calls do to the allocator and to the heap *)

Lemma quiet_then {A B} (m : M A) (k : A -> M B) s (P : res (B * state) -> Prop) :
  quiet m ->
  (forall f, f <> Oom -> P (Fail f)) ->
  (forall a s', kept s s' -> P (k a s')) ->
  P (bind m k s).
Proof.
  intros Hq Hf Hk. specialize (Hq s). unfold quiet_rel, bind in *.
  destruct (m s) as [[a s']|f]; auto.
Qed.

Section Effect.

Variable storage64 : bool.

(** After [count] iterations of the loop of [ptree_allocate_nodes] from [s]:
    as many requests to the allocator, and as many new node objects, at the
    addresses that the requests have returned. *)
Definition loop_effect (s : state) (count : nat) (r : res (unit * state)) : Prop :=
  match r with
  | Ok (_, s') =>
      allocs (mem s') = (allocs (mem s) + count)%nat
      /\ alloc_ok (mem s') = alloc_ok (mem s)
      /\ max_nodes_to_auto_allocate (mem s') = max_nodes_to_auto_allocate (mem s)
      /\ (forall a, is_Some (heap (mem s') !! a) <->
            is_Some (heap (mem s) !! a)
            \/ (allocs (mem s) <= a < allocs (mem s) + count)%nat)
      /\ allocated_nodes_num (tree s') = allocated_nodes_num (tree s)
      /\ length (nodes (tree s')) = length (nodes (tree s))
      /\ cmp (tree s') = cmp (tree s) /\ cmp_key (tree s') = cmp_key (tree s)
  | Fail f =>
      f = Oom ->
      exists j, (j < count)%nat /\ alloc_ok (mem s) (allocs (mem s) + j)%nat = false
  end.

Lemma allocate_loop_effect count : forall i s,
  loop_effect s count (allocate_loop storage64 count i s).
Proof.
  induction count as [|count IH]; intros i s.
  { simpl. split_and!; try done; try lia.
    intros a. split; [by left|]. intros [?|?]; [done|lia]. }
  cbn [allocate_loop]. unfold malloc_node. rewrite bind_assoc.
  unfold bind at 1, get_mem at 1. cbv beta iota.
  destruct (alloc_ok (mem s) (allocs (mem s))) eqn:Hok.
  - rewrite bind_assoc. unfold bind at 1, put_mem at 1. cbv beta iota.
    set (s1 := State _ (tree s)).
    unfold bind at 1, ret at 1. cbv beta iota.
    apply quiet_then; [auto with quiet|by intros f Hf; simpl|]. intros _ s2 H12.
    rewrite ptr_eqb_ne by done.
    apply quiet_then; [auto with quiet|by intros f Hf; simpl|]. intros _ s3 H23.
    apply quiet_then; [auto with quiet|by intros f Hf; simpl|]. intros _ s4 H34.
    apply quiet_then; [auto with quiet|by intros f Hf; simpl|]. intros _ s5 H45.
    pose proof (kept_trans _ _ _ (kept_trans _ _ _ (kept_trans _ _ _ H12 H23) H34) H45)
      as [K1 K2 K3 K4 K5 K6 K7 K8].
    specialize (IH (i + 1) s5). unfold loop_effect in *.
    destruct (allocate_loop storage64 count (i + 1) s5) as [[[] s6]|f].
    + destruct IH as (I1 & I2 & I3 & I4 & I5 & I6 & I7 & I8).
      unfold s1 in *. simpl in *. split_and!; try congruence; [lia|].
      intros a. rewrite I4, K4, K1. simpl.
      destruct (decide (a = allocs (mem s))) as [->|Hne].
      * rewrite lookup_insert_eq. split; [intros _; right; lia|intros _; left; eauto].
      * rewrite lookup_insert_ne by done. split; intros [?|?]; auto; right; lia.
    + intros Hf. destruct (IH Hf) as (j & Hj & Hoj). exists (S j). split; [lia|].
      unfold s1 in *. simpl in *. rewrite K2, K1 in Hoj. simpl in Hoj.
      by rewrite Nat.add_succ_r.
  - rewrite bind_assoc. unfold bind at 1, put_mem at 1. cbv beta iota.
    unfold bind at 1, ret at 1. cbv beta iota.
    apply quiet_then; [auto with quiet|by intros f Hf; simpl|]. intros _ s2 H12.
    rewrite ptr_eqb_refl. intros _. exists 0%nat. split; [lia|].
    by rewrite Nat.add_0_r.
Qed.

(** [ptree_allocate_nodes]: one request for the table, then one for each new
    slot; it stops by [oom()] when the converted sum exceeds [max_nodes] or
    when the allocator refuses one of these requests. *)
Definition allocate_effect (s : state) (n : Z) (r : res (unit * state)) : Prop :=
  let total := wrap storage64 (allocated_nodes_num (tree s) + n) in
  let count := Z.to_nat (total - allocated_nodes_num (tree s)) in
  match r with
  | Ok (_, s') =>
      allocs (mem s') = (allocs (mem s) + 1 + count)%nat
      /\ alloc_ok (mem s') = alloc_ok (mem s)
      /\ max_nodes_to_auto_allocate (mem s') = max_nodes_to_auto_allocate (mem s)
      /\ (forall a, is_Some (heap (mem s') !! a) <->
            is_Some (heap (mem s) !! a)
            \/ (allocs (mem s) + 1 <= a < allocs (mem s) + 1 + count)%nat)
      /\ allocated_nodes_num (tree s') = total
      /\ length (nodes (tree s')) = Z.to_nat (table_slots total)
      /\ cmp (tree s') = cmp (tree s) /\ cmp_key (tree s') = cmp_key (tree s)
  | Fail f =>
      f = Oom ->
      max_nodes storage64 < total
      \/ exists j, (j <= count)%nat /\ alloc_ok (mem s) (allocs (mem s) + j)%nat = false
  end.

Lemma ptree_allocate_nodes_effect s n :
  allocate_effect s n (ptree_allocate_nodes storage64 n s).
Proof.
  unfold allocate_effect, ptree_allocate_nodes.
  unfold bind at 1, get_tree at 1. cbv beta iota zeta.
  set (total := wrap storage64 (allocated_nodes_num (tree s) + n)).
  set (count := Z.to_nat (total - allocated_nodes_num (tree s))).
  destruct (Z.ltb_spec (max_nodes storage64) total) as [Hbig|Hsmall]; [by left|].
  unfold realloc_nodes. rewrite !bind_assoc.
  unfold bind at 1, get_mem at 1. cbv beta iota.
  rewrite bind_assoc. unfold bind at 1, put_mem at 1. cbv beta iota.
  destruct (alloc_ok (mem s) (allocs (mem s))) eqn:Hok.
  2: { unfold bind at 1, ret at 1. cbv beta iota. simpl. intros _. right.
       exists 0%nat. split; [lia|]. by rewrite Nat.add_0_r. }
  rewrite !bind_assoc. unfold bind at 1, get_tree at 1. cbv beta iota.
  rewrite bind_assoc. unfold bind at 1, put_tree at 1. cbv beta iota.
  unfold bind at 1, ret at 1. cbv beta iota. cbn [negb].
  set (s1 := State _ _).
  pose proof (allocate_loop_effect count (allocated_nodes_num (tree s)) s1) as He.
  unfold bind at 1.
  destruct (allocate_loop storage64 count (allocated_nodes_num (tree s)) s1)
    as [[[] s2]|f]; simpl in He.
  - destruct He as (I1 & I2 & I3 & I4 & I5 & I6 & I7 & I8).
    unfold s1 in *. simpl in *. split_and!; try done.
    + lia.
    + intros a. rewrite I4. split; intros [?|?]; auto; right; lia.
    + rewrite I6, length_app, length_take, length_replicate. lia.
  - intros Hf. right. destruct (He Hf) as (j & Hj & Hoj). exists (S j). split; [lia|].
    unfold s1 in *. simpl in *. by rewrite Nat.add_succ_r.
Qed.

(** [add_node] when a slot is free: no request to the allocator. *)
Lemma grow_if_full_room s :
  nodes_num (tree s) < allocated_nodes_num (tree s) ->
  grow_if_full storage64 s = Ok (tt, s).
Proof.
  intros Hlt. unfold grow_if_full, bind, get_tree.
  by rewrite (proj2 (Z.leb_gt _ _) Hlt).
Qed.

(** The number of slots that [add_node] asks for when no slot is free. *)
Definition growth (s : state) : Z :=
  let cap := max_nodes_to_auto_allocate (mem s) in
  let allocated := allocated_nodes_num (tree s) in
  if negb (cap =? 0) && (cap <? allocated) then wrap storage64 cap
  else if 1 <? allocated then allocated else 1.

Lemma grow_if_full_full s :
  allocated_nodes_num (tree s) <= nodes_num (tree s) ->
  grow_if_full storage64 s = ptree_allocate_nodes storage64 (growth s) s.
Proof.
  intros Hle. unfold grow_if_full, growth. unfold bind at 1, get_tree at 1.
  rewrite (proj2 (Z.leb_le _ _) Hle). unfold bind at 1, get_mem at 1.
  by destruct (negb _ && _).
Qed.

End Effect.

Lemma ins_path_present g v sub : forall ctx,
  ins_path g v sub ctx = None -> exists x, x ∈ inorder sub /\ g v x = 0.
Proof.
  induction sub as [|c a i l IHl vx r IHr]; intros ctx Hp; simpl in Hp; [done|].
  destruct (Z.eqb_spec (g v vx) 0) as [Heq|Hne].
  - exists vx. split; [|done]. simpl. apply elem_of_app. right. apply list_elem_of_here.
  - destruct (0 <? g v vx).
    + destruct (IHr _ Hp) as (x & Hx & Hz). exists x. split; [|done]. simpl.
      apply elem_of_app. right. by apply list_elem_of_further.
    + destruct (IHl _ Hp) as (x & Hx & Hz). exists x. split; [|done]. simpl.
      apply elem_of_app. by left.
Qed.

Section InsertAlloc.

Variable storage64 : bool.

(** An insertion of a new element is [grow_if_full] in the state of the call
    followed by calls that do not use the allocator. *)
Lemma insert_grows s t v :
  heap_rep storage64 s t ->
  Z.of_nat (length (addrs t)) = nodes_num (tree s) ->
  ins_path (cmp (tree s)) v t [] <> None ->
  match ptree_insert storage64 v s with
  | Ok (_, s') => exists s1, grow_if_full storage64 s = Ok (tt, s1) /\ kept s1 s'
  | Fail f => f = Oom -> grow_if_full storage64 s = Fail Oom
  end.
Proof.
  intros Hrep Hc Hp.
  destruct (ptree_insert_starts storage64 s t v Hrep Hc Hp) as (k & Hk & ->).
  unfold add_node. rewrite bind_assoc. unfold bind at 1.
  destruct (grow_if_full storage64 s) as [[[] s1]|f]; [|by intros ->].
  pose proof (quiet_take_free_slot storage64 v s1) as Ht. unfold quiet_rel in Ht.
  unfold bind. destruct (take_free_slot storage64 v s1) as [[n s2]|f]; [|done].
  specialize (Hk n s2). unfold quiet_rel in Hk.
  destruct (k n s2) as [[b s3]|f]; [|done].
  exists s1. split; [done|]. by eapply kept_trans.
Qed.

End InsertAlloc.

Lemma growth_bounds storage64 s L :
  arena storage64 s L ->
  growth storage64 s
  = (if negb (max_nodes_to_auto_allocate (mem s) =? 0)
        && (max_nodes_to_auto_allocate (mem s) <? allocated_nodes_num (tree s))
     then max_nodes_to_auto_allocate (mem s)
     else Z.max 1 (allocated_nodes_num (tree s)))
  /\ 1 <= growth storage64 s <= Z.max 1 (allocated_nodes_num (tree s))
  /\ wrap storage64 (allocated_nodes_num (tree s) + growth storage64 s)
     = allocated_nodes_num (tree s) + growth storage64 s.
Proof.
  intros Har.
  pose proof (ar_num _ _ _ Har) as Hnum. pose proof (ar_max _ _ _ Har) as Hmax.
  pose proof (ar_cap _ _ _ Har) as Hcap.
  pose proof (max_nodes_red storage64) as Hmr.
  assert (growth storage64 s
          = (if negb (max_nodes_to_auto_allocate (mem s) =? 0)
                && (max_nodes_to_auto_allocate (mem s) <? allocated_nodes_num (tree s))
             then max_nodes_to_auto_allocate (mem s)
             else Z.max 1 (allocated_nodes_num (tree s)))) as Hg.
  { unfold growth.
    destruct (Z.eqb_spec (max_nodes_to_auto_allocate (mem s)) 0); simpl;
    [|destruct (Z.ltb_spec (max_nodes_to_auto_allocate (mem s))
                 (allocated_nodes_num (tree s))); simpl;
      [apply wrap_small; lia|]];
    destruct (Z.ltb_spec 1 (allocated_nodes_num (tree s))); lia. }
  assert (1 <= growth storage64 s <= Z.max 1 (allocated_nodes_num (tree s))) as Hb.
  { rewrite Hg.
    destruct (Z.eqb_spec (max_nodes_to_auto_allocate (mem s)) 0); simpl; [lia|].
    destruct (Z.ltb_spec (max_nodes_to_auto_allocate (mem s))
                (allocated_nodes_num (tree s))); simpl; lia. }
  split; [done|]. split; [done|]. apply wrap_small. lia.
Qed.

(** The capacity after an insertion: as it was, or grown by [growth] from a
    full arena. *)
Lemma insert_capacity storage64 s t v r s' :
  Inv storage64 s t -> ptree_insert storage64 v s = Ok (r, s') ->
  allocated_nodes_num (tree s') = allocated_nodes_num (tree s)
  \/ (allocated_nodes_num (tree s) <= nodes_num (tree s)
      /\ allocated_nodes_num (tree s')
         = allocated_nodes_num (tree s) + growth storage64 s).
Proof.
  intros HI Hrun. pose proof HI as [Hrep Har _ _].
  destruct (ins_path (cmp (tree s)) v t []) as [ctx'|] eqn:Hp.
  2: { rewrite (ptree_insert_dup storage64 s t v HI Hp) in Hrun.
       injection Hrun as _ <-. by left. }
  pose proof (ar_count _ _ _ Har) as Hc. rewrite length_labels in Hc.
  pose proof (insert_grows storage64 s t v Hrep Hc ltac:(by rewrite Hp)) as Hg.
  rewrite Hrun in Hg. destruct Hg as (s1 & Hgrow & Hk).
  rewrite (kp_cap _ _ Hk).
  destruct (Z.leb_spec (allocated_nodes_num (tree s)) (nodes_num (tree s)))
    as [Hfull|Hroom].
  2: { rewrite (grow_if_full_room storage64 s Hroom) in Hgrow.
       injection Hgrow as <-. by left. }
  right. split; [done|].
  rewrite (grow_if_full_full storage64 s Hfull) in Hgrow.
  destruct (growth_bounds storage64 s _ Har) as (_ & _ & Hw).
  pose proof (ptree_allocate_nodes_effect storage64 s (growth storage64 s)) as He.
  unfold allocate_effect in He. rewrite Hgrow, Hw in He.
  by destruct He as (_ & _ & _ & _ & E5 & _).
Qed.

(** ** The rest of the interface *)

(** A caller of the whole interface: [ptree_new], then calls that change the
    tree.  The functions that return nothing are given the result [true]. *)
Inductive call : Type :=
  | Call_insert (v : Z)
  | Call_remove (v : Z)
  | Call_remove_by_key (k : Z)
  | Call_empty
  | Call_allocate_nodes (n : Z).

Definition run_call (storage64 : bool) (c : call) : M bool :=
  match c with
  | Call_insert v => ptree_insert storage64 v
  | Call_remove v => ptree_remove storage64 v
  | Call_remove_by_key k => ptree_remove_by_key storage64 k
  | Call_empty => do _ <- ptree_empty ;; ret true
  | Call_allocate_nodes n => do _ <- ptree_allocate_nodes storage64 n ;; ret true
  end.

Fixpoint run_calls (storage64 : bool) (calls : list call) : M (list bool) :=
  match calls with
  | [] => ret []
  | c :: calls' =>
      do r <- run_call storage64 c ;;
      do rs <- run_calls storage64 calls' ;;
      ret (r :: rs)
  end.

Definition api_session (storage64 : bool) (cmp_elem cmp_key : Z -> Z -> Z)
    (preallocated_nodes : Z) (w : world) (calls : list call) : res (list bool * state) :=
  match ptree_new storage64 cmp_elem cmp_key preallocated_nodes w with
  | Ok s => run_calls storage64 calls s
  | Fail f => Fail f
  end.

(** The largest amount that a call of [ptree_allocate_nodes] of a session
    asks for.  With indices of 32 bits it is [max_nodes].  With indices of 64
    bits it is [2 ^ 29]: with fewer than [2 ^ 31] calls the capacity then
    stays below [2 ^ 61] slots, so that the size in bytes of the table fits
    [size_t]. *)
Definition max_reserve (storage64 : bool) : Z :=
  if storage64 then 2 ^ 29 else max_nodes false.

(** The calls of [ptree_allocate_nodes] whose sum of the capacity and of the
    amount asked for is not reduced by the conversion to [ptree_size_int],
    nor the size of the table by the conversion to [size_t]. *)
Definition call_ok (storage64 : bool) (c : call) : bool :=
  match c with
  | Call_allocate_nodes n => (0 <=? n) && (n <=? max_reserve storage64)
  | _ => true
  end.

Lemma max_reserve_le storage64 : max_reserve storage64 <= max_nodes storage64.
Proof. unfold max_reserve, max_nodes. destruct storage64; lia. Qed.

Section Api.

Variable storage64 : bool.

Lemma ptree_empty_spec s t :
  Inv storage64 s t ->
  wp ptree_empty s (fun _ s' =>
    s' = State (mem s) (with_nodes_num 0 (with_root Leaf (tree s)))
    /\ Inv storage64 s' E).
Proof.
  intros [Hrep Har Hleaf Hrb]. unfold ptree_empty.
  apply wp_bind, wp_set_root, wp_bind, wp_get_tree, wp_put_tree. simpl.
  split; [done|]. destruct Hrep as (Hr & _ & _).
  pose proof (ar_num _ _ _ Har) as Hnum.
  constructor; [| |done|done].
  { split_and!; simpl; [done|done|apply NoDup_nil_2]. }
  constructor; simpl; try done.
  - apply (ar_len _ _ _ Har).
  - lia.
  - apply (ar_max _ _ _ Har).
  - apply (ar_cap _ _ _ Har).
  - apply (ar_nodup _ _ _ Har).
  - apply (ar_table _ _ _ Har).
  - intros a i Hin. by apply elem_of_nil in Hin.
  - intros k Hk. lia.
  - intros k _ Hk.
    destruct (Z.lt_ge_cases (Z.of_nat k) (nodes_num (tree s))) as [Hlt|Hge].
    + destruct (ar_onto _ _ _ Har k Hlt) as [a Ha].
      destruct (ar_active _ _ _ Har a _ Ha) as (k' & Hk' & _ & Htk).
      apply Nat2Z.inj in Hk'. subst k'.
      destruct (labels_lookup _ _ _ _ _ _ Hr Ha) as (n & c & Hn & Hf & _).
      by exists a, n, c.
    + by apply (ar_free _ _ _ Har).
  - apply (ar_fresh _ _ _ Har).
Qed.

Lemma allocate_nodes_inv s t n :
  Inv storage64 s t -> 0 <= n <= max_nodes storage64 ->
  allocated_nodes_num (tree s) + n < 2 ^ 61 ->
  wpo (ptree_allocate_nodes storage64 n) s (fun _ s' =>
    Inv storage64 s' t /\ extends s s'
    /\ allocated_nodes_num (tree s') = allocated_nodes_num (tree s) + n).
Proof.
  intros [Hrep Har Hleaf Hrb] Hn Hfit.
  pose proof (ar_max _ _ _ Har) as Hmax.
  eapply wpo_mono.
  { apply (allocate_nodes_spec storage64 s (labels t) n Har); [lia| |done].
    unfold max_nodes, word_bits in *. destruct storage64; lia. }
  intros _ s' (Har' & Hext & Hal). split_and!; [|done|done].
  destruct Hrep as (Hr & Hroot & Hnd).
  pose proof Hext as [Htree Hmem Hheap].
  constructor; [|done| |done].
  - split_and!; [|destruct (tree s'), (tree s); simpl in *; congruence|done].
    eapply rep_frame; [|done]. intros a Ha. apply Hheap. by eapply rep_is_Some.
  - destruct Hleaf as [p Hp]. exists p. rewrite <- Hp.
    destruct (mem s'), (mem s). simpl in *. congruence.
Qed.

Definition remove_by_key_post (s : state) (t : rbt) (k : Z) (res : bool) (s' : state)
    : Prop :=
  match find_path (cmp_key (tree s)) k t [] with
  | Some (cz, T c z iz l vz r) => remove_post storage64 s cz c z iz l vz r res s'
  | Some (_, E) => False
  | None => res = false /\ s' = s
  end.

Lemma ptree_remove_by_key_spec s t k :
  Inv storage64 s t -> nodes_num (tree s) <= 2 ^ 31 ->
  wp (ptree_remove_by_key storage64 k) s (remove_by_key_post s t k).
Proof.
  intros HI H31. unfold ptree_remove_by_key, remove_by_key_post.
  apply wp_bind. eapply wp_mono; [by apply (ptree_get_it_spec storage64 s t)|].
  intros p s' [-> ->].
  destruct (find_path (cmp_key (tree s)) k t []) as [[cz sub']|] eqn:Hfp;
    [|by apply wp_ret].
  destruct (find_path_Some _ _ _ _ _ _ Hfp) as (c & z & iz & l & vz & r & -> & _ & Hplug).
  simpl in Hplug. subst t. cbn [found rootp]. simp_ptr.
  apply wp_bind. eapply wp_mono; [by apply (ptree_remove_node_spec storage64)|].
  intros res s' Hpost. apply wp_ret.
  destruct Hpost as (_ & Hpost). by split.
Qed.

(** What holds between the calls of a session: [k] bounds the number of
    calls made, and with it the number of elements and the capacity. *)
Record api_ok (cmpf ck : Z -> Z -> Z) (k : nat) (s : state) (t : rbt) : Prop := {
  ao_inv : Inv storage64 s t;
  ao_num : nodes_num (tree s) <= Z.of_nat k;
  ao_cmp : cmp (tree s) = cmpf;
  ao_key : cmp_key (tree s) = ck;
  ao_sorted : cmp_ok cmpf -> sorted cmpf (inorder t);
  ao_room : storage64 = false
            \/ allocated_nodes_num (tree s) <= 2 ^ 32 + 2 ^ 29 * Z.of_nat k
}.

Lemma removed_sorted cmpf cz c z iz l vz r :
  sorted cmpf (inorder (plug cz (T c z iz l vz r))) ->
  sorted cmpf (before cz ++ inorder l ++ inorder r ++ after cz).
Proof.
  intros Hs. rewrite inorder_plug in Hs. simpl in Hs.
  assert (before cz ++ (inorder l ++ vz :: inorder r) ++ after cz
          = (before cz ++ inorder l) ++ vz :: (inorder r ++ after cz)) as Heq.
  { by rewrite <- !app_assoc. }
  rewrite Heq in Hs. apply sorted_remove in Hs. by rewrite <- app_assoc in Hs.
Qed.

Lemma run_call_spec cmpf ck k s t c :
  api_ok cmpf ck k s t -> call_ok storage64 c = true ->
  storage64 = false \/ Z.of_nat k <= 2 ^ 31 ->
  wpo (run_call storage64 c) s (fun _ s' => exists t', api_ok cmpf ck (S k) s' t').
Proof.
  intros [HI Hn Hc Hk Hs Hroom] Hok Hb.
  assert (nodes_num (tree s) <= 2 ^ 31) as H31.
  { destruct Hb as [Hb|Hb]; [by eapply Inv_small|lia]. }
  assert (forall s', allocated_nodes_num (tree s') = allocated_nodes_num (tree s) ->
            storage64 = false
            \/ allocated_nodes_num (tree s') <= 2 ^ 32 + 2 ^ 29 * Z.of_nat (S k))
    as Hsame.
  { intros s' ->. destruct Hroom; [by left|right; lia]. }
  pose proof HI as [_ Har _ _]. pose proof (ar_num _ _ _ Har) as Hnum.
  pose proof (ar_max _ _ _ Har) as Hmax.
  destruct c as [v|v|key| |n]; simpl.
  - pose proof (run_op_spec storage64 s t (Insert v) HI H31) as Hsp.
    unfold wpo in Hsp |- *. simpl in Hsp.
    destruct (ptree_insert storage64 v s) as [[r s']|f] eqn:Hrun; [|done].
    destruct Hsp as (t' & [HI' Hn' Hc' Hk' _ Hr']). exists t'.
    constructor; [done| |congruence|congruence| |].
    + rewrite Hn'. destruct r; simpl; lia.
    + intros Hf. rewrite Hc in Hr'. by apply Hr'; [|apply Hs].
    + destruct (insert_capacity storage64 s t v r s' HI Hrun) as [Heq|[Hfull Heq]];
        [by apply Hsame|].
      destruct Hb as [Hb|Hb]; [by left|right].
      destruct (growth_bounds storage64 s _ Har) as (_ & Hgb & _). rewrite Heq. lia.
  - pose proof (run_op_spec storage64 s t (Remove v) HI H31) as Hsp.
    pose proof (quiet_ptree_remove storage64 v s) as Hq.
    unfold wpo in Hsp |- *. unfold quiet_rel in Hq. simpl in Hsp.
    destruct (ptree_remove storage64 v s) as [[r s']|f]; [|done].
    destruct Hsp as (t' & [HI' Hn' Hc' Hk' _ Hr']). exists t'.
    constructor; [done| |congruence|congruence| |].
    + rewrite Hn'. destruct r; simpl; lia.
    + intros Hf. rewrite Hc in Hr'. by apply Hr'; [|apply Hs].
    + apply Hsame, (kp_cap _ _ Hq).
  - pose proof (ptree_remove_by_key_spec s t key HI H31) as Hsp.
    pose proof (quiet_ptree_remove_by_key storage64 key s) as Hq.
    unfold wp in Hsp. unfold wpo. unfold quiet_rel in Hq.
    destruct (ptree_remove_by_key storage64 key s) as [[r s']|f]; [|done].
    pose proof (Hsame s' (kp_cap _ _ Hq)) as Hroom'.
    revert Hsp. unfold remove_by_key_post.
    destruct (find_path (cmp_key (tree s)) key t []) as [[cz sub']|] eqn:Hfp.
    + destruct (find_path_Some _ _ _ _ _ _ Hfp)
        as (c & z & iz & l & vz & r' & -> & _ & Hplug).
      simpl in Hplug.
      intros (-> & t' & cy & c' & y & iy & ly & vy & ry & _ & _ & HI' & Hin & _ & _ & _
              & Hnn & Htree & _).
      exists t'. constructor; [done|lia| | | |done].
      * destruct (tree s'), (tree s). simpl in *. congruence.
      * destruct (tree s'), (tree s). simpl in *. congruence.
      * intros Hf. rewrite Hin. apply (removed_sorted cmpf cz c z iz l vz r').
        rewrite Hplug. by apply Hs.
    + intros [-> ->]. exists t. constructor; try done. lia.
  - apply wpo_bind, wp_wpo. eapply wp_mono; [by apply (ptree_empty_spec s t)|].
    intros _ s' [-> HI']. exists E.
    constructor; simpl; [done|lia|done|done|intros _; constructor|by apply Hsame].
  - apply andb_prop in Hok as [Hn0 Hn1]. apply Z.leb_le in Hn0, Hn1.
    assert (0 <= n <= max_nodes storage64
            /\ allocated_nodes_num (tree s) + n < 2 ^ 61) as [Hn2 Hfit].
    { unfold max_reserve, max_nodes in *.
      destruct Hb as [->|Hb]; [lia|]. destruct Hroom as [->|Hroom]; [lia|].
      destruct storage64; lia. }
    apply wpo_bind. eapply wpo_mono; [by apply (allocate_nodes_inv s t n)|].
    intros _ s' (HI' & Hext & Hal). exists t.
    pose proof (extends_nodes_num _ _ Hext) as Hnn.
    destruct Hext as [Htree _ _].
    constructor; [done|lia| | |done|].
    + destruct (tree s'), (tree s). simpl in *. congruence.
    + destruct (tree s'), (tree s). simpl in *. congruence.
    + destruct Hroom as [Hroom|Hroom]; [by left|right]. rewrite Hal.
      unfold max_reserve in Hn1. destruct storage64; [lia|].
      unfold max_nodes in *. lia.
Qed.

Lemma run_calls_spec cmpf ck calls : forall k s t,
  api_ok cmpf ck k s t -> forallb (call_ok storage64) calls = true ->
  storage64 = false \/ Z.of_nat (k + length calls) <= 2 ^ 31 ->
  wpo (run_calls storage64 calls) s (fun rs s' =>
    length rs = length calls /\ exists t', api_ok cmpf ck (k + length calls) s' t').
Proof.
  induction calls as [|c calls IH]; intros k s t Hok Hall Hb.
  { split; [done|]. exists t. by rewrite Nat.add_0_r. }
  simpl in Hall. apply andb_prop in Hall as [Hc Hall]. cbn [run_calls]. apply wpo_bind.
  eapply wpo_mono.
  { apply (run_call_spec cmpf ck k s t c Hok Hc).
    destruct Hb as [Hb|Hb]; [by left|right; lia]. }
  intros r s1 (t1 & Hok1). apply wpo_bind. eapply wpo_mono.
  { apply (IH (S k) s1 t1 Hok1 Hall).
    destruct Hb as [Hb|Hb]; [by left|right; simpl in Hb; lia]. }
  intros rs s2 (Hl & t2 & Hok2). split; [simpl; lia|]. exists t2.
  simpl. by rewrite <- Nat.add_succ_comm.
Qed.

Lemma api_session_spec cmpf ck pre oracle cap calls :
  0 <= pre < 2 ^ 31 -> forallb (call_ok storage64) calls = true ->
  storage64 = false \/ Z.of_nat (length calls) <= 2 ^ 31 ->
  match api_session storage64 cmpf ck pre (configured oracle cap) calls with
  | Ok (rs, s) => length rs = length calls /\ exists t, api_ok cmpf ck (length calls) s t
  | Fail Oom => True
  | Fail _ => False
  end.
Proof.
  intros Hpre Hall Hb. unfold api_session.
  pose proof (ptree_new_spec storage64 cmpf ck pre oracle cap Hpre) as Hnew.
  destruct (ptree_new _ _ _ _ _) as [s0|[]]; try done.
  destruct Hnew as (HI & Hn & Hc & Hk & Hal).
  assert (api_ok cmpf ck 0 s0 E) as Hok0.
  { constructor; try done; [lia|intros _; constructor|right; lia]. }
  pose proof (run_calls_spec cmpf ck calls 0 s0 E Hok0 Hall) as Hrun.
  specialize (Hrun ltac:(destruct Hb; [by left|right; simpl; lia])). unfold wpo in Hrun.
  destruct (run_calls storage64 calls s0) as [[rs s]|[]]; done.
Qed.

End Api.

Lemma after_api_intro storage64 cmpf ck pre oracle cap calls
    (P : list bool -> state -> Prop) :
  0 <= pre < 2 ^ 31 -> forallb (call_ok storage64) calls = true ->
  storage64 = false \/ Z.of_nat (length calls) <= 2 ^ 31 ->
  (forall rs s t, length rs = length calls ->
     api_ok storage64 cmpf ck (length calls) s t -> P rs s) ->
  after_session (api_session storage64 cmpf ck pre (configured oracle cap) calls) P.
Proof.
  intros Hpre Hall Hb HP.
  pose proof (api_session_spec storage64 cmpf ck pre oracle cap calls Hpre Hall Hb) as H.
  unfold after_session. destruct (api_session _ _ _ _ _ _) as [[rs s]|[]]; try done.
  destruct H as [Hl [t Ht]]. by eapply HP.
Qed.

(** *** Where an element is *)

Section Locate.

Variable f : Z -> Z -> Z.
Hypothesis Hf : cmp_ok f.

Lemma cmp_eq_trans a b c : f a b = 0 -> f a c = 0 -> f b c = 0.
Proof using Hf.
  intros Hab Hac. pose proof (cmp_eq_sym f Hf a b Hab) as Hba.
  destruct (Z.lt_trichotomy (f b c) 0) as [Hlt|[Heq|Hgt]]; [|done|].
  - pose proof (cmp_le_lt f Hf a b c). lia.
  - apply (cmp_gt_lt f Hf) in Hgt. pose proof (cmp_le_lt f Hf a c b). lia.
Qed.

Lemma sorted_split_unique x l1 : forall l2 l1' l2',
  sorted f (l1 ++ x :: l2) -> l1 ++ x :: l2 = l1' ++ x :: l2' ->
  l1 = l1' /\ l2 = l2'.
Proof using Hf.
  pose proof (cmp_refl f Hf x) as Hxx.
  induction l1 as [|y l1 IH]; intros l2 l1' l2' Hs Heq.
  - destruct l1' as [|y' l1']; simpl in *; [by injection Heq|].
    injection Heq as <- ->. apply StronglySorted_cons in Hs as [Hall _].
    assert (lt_of f x x) as Hlt.
    { apply (proj1 (Forall_forall _ _) Hall). apply elem_of_app. right.
      apply list_elem_of_here. }
    unfold lt_of in Hlt. lia.
  - destruct l1' as [|y' l1']; simpl in *.
    + injection Heq as -> <-. apply StronglySorted_cons in Hs as [Hall _].
      assert (lt_of f x x) as Hlt.
      { apply (proj1 (Forall_forall _ _) Hall). apply elem_of_app. right.
        apply list_elem_of_here. }
      unfold lt_of in Hlt. lia.
    + injection Heq as <- Heq. apply StronglySorted_cons in Hs as [_ Hs].
      destruct (IH _ _ _ Hs Heq) as [-> ->]. done.
Qed.

(** The descent by comparisons reaches the element that compares equal. *)
Lemma locate t v l1 e l2 :
  sorted f (inorder t) -> inorder t = l1 ++ e :: l2 -> f v e = 0 ->
  exists cz c z iz lt rt,
    find_path f v t [] = Some (cz, T c z iz lt e rt)
    /\ plug cz (T c z iz lt e rt) = t
    /\ before cz ++ inorder lt = l1 /\ inorder rt ++ after cz = l2.
Proof using Hf.
  intros Hs Hl He.
  pose proof (path_bounds f Hf v t [] Hs ltac:(by split)) as Hp.
  destruct (find_path f v t []) as [[cz sub']|].
  - destruct Hp as (_ & c & z & iz & lt & vz & rt & -> & Hz & Hplug & _).
    simpl in Hplug.
    assert (inorder t = (before cz ++ inorder lt) ++ vz :: (inorder rt ++ after cz))
      as Ht.
    { rewrite <- Hplug, inorder_plug. simpl. by rewrite <- !app_assoc. }
    assert (e = vz) as <-.
    { apply (sorted_unique_eq f Hf (before cz ++ inorder lt) vz (inorder rt ++ after cz)).
      - by rewrite <- Ht.
      - rewrite <- Ht, Hl. apply elem_of_app. right. apply list_elem_of_here.
      - apply cmp_eq_sym; [done|]. by apply (cmp_eq_trans v). }
    exists cz, c, z, iz, lt, rt. split_and!; [done|done| |].
    + symmetry. eapply (sorted_split_unique e l1 l2); [by rewrite <- Hl|].
      by rewrite <- Hl, Ht.
    + symmetry. eapply (sorted_split_unique e l1 l2); [by rewrite <- Hl|].
      by rewrite <- Hl, Ht.
  - destruct Hp as (ctx' & _ & Hplug & Hb1 & Hb2). simpl in Hplug.
    assert (e ∈ inorder t) as Hin.
    { rewrite Hl. apply elem_of_app. right. apply list_elem_of_here. }
    rewrite <- Hplug, inorder_plug in Hin. simpl in Hin.
    apply elem_of_app in Hin as [Hin|Hin].
    + pose proof (proj1 (Forall_forall _ _) Hb1 e Hin). simpl in *. lia.
    + pose proof (proj1 (Forall_forall _ _) Hb2 e Hin). simpl in *. lia.
Qed.

End Locate.

Lemma find_path_none g v t :
  (forall x, x ∈ inorder t -> g v x <> 0) -> find_path g v t [] = None.
Proof.
  intros Hno. destruct (find_path g v t []) as [[cz sub']|] eqn:Hfp; [|done].
  destruct (find_path_Some _ _ _ _ _ _ Hfp) as (c & z & iz & l & vz & r & -> & Hz & Hplug).
  exfalso. apply (Hno vz); [|done]. simpl in Hplug.
  rewrite <- Hplug, inorder_plug. simpl. rewrite !elem_of_app, elem_of_cons. tauto.
Qed.

Section ApiFacts.

Variable storage64 : bool.

Lemma api_traverse cmpf ck k s t :
  api_ok storage64 cmpf ck k s t -> traverse s = Ok (inorder t, s).
Proof.
  intros [HI _ _ _ _ _]. apply wp_run. by apply (traverse_spec storage64).
Qed.

Lemma api_size cmpf ck k s t :
  api_ok storage64 cmpf ck k s t ->
  storage64 = false \/ Z.of_nat k < 2 ^ 31 ->
  ptree_size s = Ok (Z.of_nat (length (inorder t)), s).
Proof.
  intros [[_ Har _ _] Hn _ _ _] Hb.
  pose proof (ar_num _ _ _ Har) as Hnum. pose proof (ar_max _ _ _ Har) as Hmax.
  pose proof (ar_count _ _ _ Har) as Hc. rewrite length_labels, <- length_inorder in Hc.
  unfold ptree_size, bind, get_tree, ret. simpl. rewrite Hc.
  assert (nodes_num (tree s) < 2 ^ 31) as Hlt.
  { destruct Hb as [->|Hb]; [unfold max_nodes in Hmax; lia|lia]. }
  unfold to_int32. rewrite Z.mod_small by lia. do 2 f_equal. lia.
Qed.

Lemma api_small cmpf ck k s t :
  api_ok storage64 cmpf ck k s t ->
  storage64 = false \/ Z.of_nat k < 2 ^ 31 -> nodes_num (tree s) <= 2 ^ 31.
Proof.
  intros [HI Hn _ _ _ _] [Hb|Hb]; [by eapply Inv_small|lia].
Qed.

(** What a removal leaves. *)
Lemma remove_post_api cmpf ck k s cz c z iz lt e rt res s' :
  api_ok storage64 cmpf ck k s (plug cz (T c z iz lt e rt)) ->
  remove_post storage64 s cz c z iz lt e rt res s' ->
  res = true /\ exists t',
    api_ok storage64 cmpf ck k s' t'
    /\ inorder t' = before cz ++ inorder lt ++ inorder rt ++ after cz
    /\ nodes_num (tree s') = nodes_num (tree s) - 1
    /\ allocated_nodes_num (tree s') = allocated_nodes_num (tree s)
    /\ allocs (mem s') = allocs (mem s).
Proof.
  intros [HI Hn Hc Hk Hs Hroom] Hpost.
  destruct Hpost as (-> & t' & cy & c' & y & iy & ly & vy & ry & _ & _ & HI' & Hin & _ & _
                     & _ & Hnn & Htree & Hmem).
  assert (allocated_nodes_num (tree s') = allocated_nodes_num (tree s)) as Hal.
  { destruct (tree s'), (tree s). simpl in *. congruence. }
  split; [done|]. exists t'. split_and!; try done.
  - constructor; [done|lia| | | |by rewrite Hal].
    + destruct (tree s'), (tree s). simpl in *. congruence.
    + destruct (tree s'), (tree s). simpl in *. congruence.
    + intros Hf. rewrite Hin. apply (removed_sorted cmpf cz c z iz lt e rt). by apply Hs.
  - destruct (mem s'), (mem s). simpl in *. congruence.
Qed.

(** The handle that a node of the tree holds. *)
Lemma found_ptr s cz c z iz lt e rt :
  Inv storage64 s (plug cz (T c z iz lt e rt)) -> get_ptr (Ptr z) s = Ok (e, s).
Proof.
  intros [(Hrep & _ & _) _ _ _]. apply rep_plug in Hrep as [Hrep _].
  simpl in Hrep. destruct Hrep as (_ & Hz & _).
  unfold get_ptr, bind, load, ret. by rewrite Hz.
Qed.

End ApiFacts.

(** The state left by a session of calls, seen through the interface: the
    list of the traversal and the value of [ptree_size]. *)
Definition holds (s : state) (l : list Z) : Prop :=
  traverse s = Ok (l, s) /\ ptree_size s = Ok (Z.of_nat (length l), s).

Lemma api_holds storage64 cmpf ck k s t :
  api_ok storage64 cmpf ck k s t ->
  storage64 = false \/ Z.of_nat k < 2 ^ 31 -> holds s (inorder t).
Proof.
  intros Hok Hb. split; [by eapply api_traverse|by eapply api_size].
Qed.

Lemma inv_holds storage64 s t :
  Inv storage64 s t -> nodes_num (tree s) < 2 ^ 31 -> holds s (inorder t).
Proof.
  intros HI Hlt. split; [apply wp_run; by apply (traverse_spec storage64)|].
  destruct HI as [_ Har _ _].
  pose proof (ar_num _ _ _ Har) as Hnum.
  pose proof (ar_count _ _ _ Har) as Hc. rewrite length_labels, <- length_inorder in Hc.
  unfold ptree_size, bind, get_tree, ret. simpl. rewrite Hc.
  unfold to_int32. rewrite Z.mod_small by lia. do 2 f_equal. lia.
Qed.

(** X2: after [ptree_new] and any sequence of calls of [ptree_insert],
    [ptree_remove], [ptree_remove_by_key], [ptree_empty] and
    [ptree_allocate_nodes] (each amount at most [max_reserve]), the node
    objects form a red-black tree, the traversal is its list of handles,
    strictly increasing when the comparator is that of a total order, and
    [ptree_size] is the length of that list. *)
Theorem interface_keeps_invariants storage64 cmpf ck pre oracle cap calls :
  0 <= pre < 2 ^ 31 -> forallb (call_ok storage64) calls = true ->
  storage64 = false \/ Z.of_nat (length calls) < 2 ^ 31 ->
  after_session (api_session storage64 cmpf ck pre (configured oracle cap) calls)
    (fun rs s =>
       length rs = length calls
       /\ exists t,
         heap_rep storage64 s t
         /\ is_redT t = false /\ no_red_red t /\ black_balanced t
         /\ holds s (inorder t)
         /\ (cmp_ok cmpf -> sorted cmpf (inorder t))).
Proof.
  intros Hpre Hall Hb.
  apply after_api_intro; [done|done|destruct Hb; [by left|right; lia]|].
  intros rs s t Hl Hok. split; [done|]. exists t.
  pose proof (api_holds _ _ _ _ _ _ Hok Hb) as Hh.
  destruct Hok as [[Hrep _ _ [Hw Hblack]] _ _ _ Hs].
  split_and!; try done; [by apply wf_no_red_red|by apply wf_black_balanced].
Qed.

Lemma interface_invariants_witness :
  after_session
    (api_session false Z.sub Z.sub 1 (configured (fun _ => true) 0)
       [Call_insert 5; Call_allocate_nodes 2; Call_insert 3; Call_remove_by_key 5;
        Call_empty; Call_insert 1; Call_remove 1])
    (fun rs s =>
       length rs = 7%nat
       /\ exists t,
         heap_rep false s t
         /\ is_redT t = false /\ no_red_red t /\ black_balanced t
         /\ holds s (inorder t)
         /\ (cmp_ok Z.sub -> sorted Z.sub (inorder t))).
Proof.
  apply (interface_keeps_invariants false Z.sub Z.sub 1 (fun _ => true) 0
           [Call_insert 5; Call_allocate_nodes 2; Call_insert 3; Call_remove_by_key 5;
            Call_empty; Call_insert 1; Call_remove 1]).
  - lia.
  - reflexivity.
  - left. reflexivity.
Defined.

(** X3: in the state left by a session of calls with the comparator of a
    total order, [ptree_remove] of a handle that compares equal to an element
    returns 1, and the traversal and the size are then those of the tree
    without that element; [ptree_remove] of a handle that compares equal to
    no element returns 0 and changes nothing. *)
Theorem remove_present_absent storage64 cmpf ck pre oracle cap calls v :
  cmp_ok cmpf ->
  0 <= pre < 2 ^ 31 -> forallb (call_ok storage64) calls = true ->
  storage64 = false \/ Z.of_nat (length calls) < 2 ^ 31 ->
  after_session (api_session storage64 cmpf ck pre (configured oracle cap) calls)
    (fun _ s => exists l,
       holds s l
       /\ (forall l1 e l2, l = l1 ++ e :: l2 -> cmpf v e = 0 ->
           exists s', ptree_remove storage64 v s = Ok (true, s') /\ holds s' (l1 ++ l2))
       /\ ((forall x, x ∈ l -> cmpf v x <> 0) ->
           ptree_remove storage64 v s = Ok (false, s))).
Proof.
  intros Hf Hpre Hall Hb.
  apply after_api_intro; [done|done|destruct Hb; [by left|right; lia]|].
  intros rs s t Hl Hok. exists (inorder t).
  split; [by eapply api_holds|].
  pose proof (api_small _ _ _ _ _ _ Hok Hb) as H31.
  pose proof Hok as [HI _ Hc _ Hs _].
  pose proof (ptree_remove_spec storage64 s t v HI H31) as Hsp.
  unfold remove_spec_post in Hsp. rewrite Hc in Hsp. split.
  - intros l1 e l2 Hin He.
    destruct (locate cmpf Hf t v l1 e l2 (Hs Hf) Hin He)
      as (cz & c & z & iz & lt & rt & Hfp & Hplug & <- & <-).
    rewrite Hfp in Hsp. apply wp_inv in Hsp as (res & s' & Hrun & Hpost).
    rewrite <- Hplug in Hok.
    destruct (remove_post_api _ _ _ _ _ _ _ _ _ _ _ _ _ _ Hok Hpost)
      as (-> & t' & Hok' & Hin' & _).
    exists s'. split; [done|]. rewrite <- app_assoc, <- Hin'. by eapply api_holds.
  - intros Hno. rewrite (find_path_none cmpf v t Hno) in Hsp.
    by apply wp_inv in Hsp as (r & s' & Hrun & -> & ->).
Qed.

Lemma remove_present_witness :
  after_session
    (api_session false Z.sub Z.sub 0 (configured (fun _ => true) 0)
       [Call_insert 5; Call_insert 3; Call_insert 8])
    (fun _ s => exists l,
       holds s l
       /\ (forall l1 e l2, l = l1 ++ e :: l2 -> Z.sub 5 e = 0 ->
           exists s', ptree_remove false 5 s = Ok (true, s') /\ holds s' (l1 ++ l2))
       /\ ((forall x, x ∈ l -> Z.sub 5 x <> 0) ->
           ptree_remove false 5 s = Ok (false, s))).
Proof.
  apply (remove_present_absent false Z.sub Z.sub 0 (fun _ => true) 0
           [Call_insert 5; Call_insert 3; Call_insert 8] 5 cmp_ok_sub).
  - lia.
  - reflexivity.
  - left. reflexivity.
Defined.

(** X4: in the state left by a session of calls with the comparator of a
    total order, [ptree_has] of a handle that compares equal to an element
    returns a node that holds that element, and [ptree_has] of a handle that
    compares equal to no element returns null; the state is left as it is. *)
Theorem has_finds_element storage64 cmpf ck pre oracle cap calls v :
  cmp_ok cmpf ->
  0 <= pre < 2 ^ 31 -> forallb (call_ok storage64) calls = true ->
  storage64 = false \/ Z.of_nat (length calls) < 2 ^ 31 ->
  after_session (api_session storage64 cmpf ck pre (configured oracle cap) calls)
    (fun _ s => exists l,
       holds s l
       /\ (forall e, e ∈ l -> cmpf v e = 0 ->
           exists a, ptree_has v s = Ok (Ptr a, s) /\ get_ptr (Ptr a) s = Ok (e, s))
       /\ ((forall x, x ∈ l -> cmpf v x <> 0) -> ptree_has v s = Ok (Null, s))).
Proof.
  intros Hf Hpre Hall Hb.
  apply after_api_intro; [done|done|destruct Hb; [by left|right; lia]|].
  intros rs s t Hl Hok. exists (inorder t).
  split; [by eapply api_holds|].
  pose proof Hok as [HI _ Hc _ Hs _].
  pose proof (ptree_search_spec storage64 s t v HI) as Hsp. rewrite Hc in Hsp.
  apply wp_inv in Hsp as (p & s' & Hrun & -> & ->).
  unfold ptree_has, bind. rewrite Hrun. split.
  - intros e [l1 [l2 Hin]]%list_elem_of_split He.
    destruct (locate cmpf Hf t v l1 e l2 (Hs Hf) Hin He)
      as (cz & c & z & iz & lt & rt & Hfp & Hplug & _).
    rewrite Hfp. exists z. split; [done|].
    rewrite <- Hplug in HI. by eapply found_ptr.
  - intros Hno. by rewrite (find_path_none cmpf v t Hno).
Qed.

Lemma has_finds_witness :
  after_session
    (api_session false Z.sub Z.sub 0 (configured (fun _ => true) 0)
       [Call_insert 5; Call_insert 3; Call_remove 5])
    (fun _ s => exists l,
       holds s l
       /\ (forall e, e ∈ l -> Z.sub 3 e = 0 ->
           exists a, ptree_has 3 s = Ok (Ptr a, s) /\ get_ptr (Ptr a) s = Ok (e, s))
       /\ ((forall x, x ∈ l -> Z.sub 3 x <> 0) -> ptree_has 3 s = Ok (Null, s))).
Proof.
  apply (has_finds_element false Z.sub Z.sub 0 (fun _ => true) 0
           [Call_insert 5; Call_insert 3; Call_remove 5] 3 cmp_ok_sub).
  - lia.
  - reflexivity.
  - left. reflexivity.
Defined.

(** X5: in the state left by a session of calls with the comparator of a
    total order, [ptree_remove_by_key] with a key that the key comparator
    compares as the element comparator compares an element [e] returns 1 and
    leaves the tree without [e]; with a key that compares equal to no element
    it returns 0 and changes nothing. *)
Theorem remove_by_key_removes storage64 cmpf ck pre oracle cap calls key :
  cmp_ok cmpf ->
  0 <= pre < 2 ^ 31 -> forallb (call_ok storage64) calls = true ->
  storage64 = false \/ Z.of_nat (length calls) < 2 ^ 31 ->
  after_session (api_session storage64 cmpf ck pre (configured oracle cap) calls)
    (fun _ s => exists l,
       holds s l
       /\ (forall l1 e l2, l = l1 ++ e :: l2 -> (forall x, ck key x = cmpf e x) ->
           exists s', ptree_remove_by_key storage64 key s = Ok (true, s')
             /\ holds s' (l1 ++ l2))
       /\ ((forall x, x ∈ l -> ck key x <> 0) ->
           ptree_remove_by_key storage64 key s = Ok (false, s))).
Proof.
  intros Hf Hpre Hall Hb.
  apply after_api_intro; [done|done|destruct Hb; [by left|right; lia]|].
  intros rs s t Hl Hok. exists (inorder t).
  split; [by eapply api_holds|].
  pose proof (api_small _ _ _ _ _ _ Hok Hb) as H31.
  pose proof Hok as [HI _ _ Hk Hs _].
  pose proof (ptree_remove_by_key_spec storage64 s t key HI H31) as Hsp.
  unfold remove_by_key_post in Hsp. rewrite Hk in Hsp. split.
  - intros l1 e l2 Hin Hag.
    destruct (locate cmpf Hf t e l1 e l2 (Hs Hf) Hin (cmp_refl cmpf Hf e))
      as (cz & c & z & iz & lt & rt & Hfp & Hplug & <- & <-).
    rewrite (find_path_agree ck cmpf key e t [] Hag), Hfp in Hsp.
    apply wp_inv in Hsp as (res & s' & Hrun & Hpost).
    rewrite <- Hplug in Hok.
    destruct (remove_post_api _ _ _ _ _ _ _ _ _ _ _ _ _ _ Hok Hpost)
      as (-> & t' & Hok' & Hin' & _).
    exists s'. split; [done|]. rewrite <- app_assoc, <- Hin'. by eapply api_holds.
  - intros Hno. rewrite (find_path_none ck key t Hno) in Hsp.
    by apply wp_inv in Hsp as (r & s' & Hrun & -> & ->).
Qed.

Lemma remove_by_key_witness :
  after_session
    (api_session false Z.sub Z.sub 0 (configured (fun _ => true) 0)
       [Call_insert 5; Call_insert 3; Call_insert 8])
    (fun _ s => exists l,
       holds s l
       /\ (forall l1 e l2, l = l1 ++ e :: l2 -> (forall x, Z.sub 3 x = Z.sub e x) ->
           exists s', ptree_remove_by_key false 3 s = Ok (true, s')
             /\ holds s' (l1 ++ l2))
       /\ ((forall x, x ∈ l -> Z.sub 3 x <> 0) ->
           ptree_remove_by_key false 3 s = Ok (false, s))).
Proof.
  apply (remove_by_key_removes false Z.sub Z.sub 0 (fun _ => true) 0
           [Call_insert 5; Call_insert 3; Call_insert 8] 3 cmp_ok_sub).
  - lia.
  - reflexivity.
  - left. reflexivity.
Defined.

(** X6: in the state left by a session of calls with the comparator of a
    total order, [ptree_remove_by_it] of the iterator that [ptree_has] has
    returned for an element removes that element: the traversal and the size
    are then those of the tree without it. *)
Theorem remove_by_it_removes storage64 cmpf ck pre oracle cap calls v :
  cmp_ok cmpf ->
  0 <= pre < 2 ^ 31 -> forallb (call_ok storage64) calls = true ->
  storage64 = false \/ Z.of_nat (length calls) < 2 ^ 31 ->
  after_session (api_session storage64 cmpf ck pre (configured oracle cap) calls)
    (fun _ s => exists l,
       holds s l
       /\ forall l1 e l2, l = l1 ++ e :: l2 -> cmpf v e = 0 ->
          exists it s', ptree_has v s = Ok (it, s)
            /\ ptree_remove_by_it storage64 it s = Ok (tt, s')
            /\ holds s' (l1 ++ l2)).
Proof.
  intros Hf Hpre Hall Hb.
  apply after_api_intro; [done|done|destruct Hb; [by left|right; lia]|].
  intros rs s t Hl Hok. exists (inorder t).
  split; [by eapply api_holds|].
  pose proof (api_small _ _ _ _ _ _ Hok Hb) as H31.
  pose proof Hok as [HI _ Hc _ Hs _].
  pose proof (ptree_search_spec storage64 s t v HI) as Hsp. rewrite Hc in Hsp.
  apply wp_inv in Hsp as (p & s0 & Hrun & -> & ->).
  intros l1 e l2 Hin He.
  destruct (locate cmpf Hf t v l1 e l2 (Hs Hf) Hin He)
    as (cz & c & z & iz & lt & rt & Hfp & Hplug & <- & <-).
  rewrite Hfp in Hrun. cbn [found rootp] in Hrun.
  rewrite <- Hplug in Hok, HI.
  pose proof (ptree_remove_node_spec storage64 s cz c z iz lt e rt HI H31) as Hrm.
  apply wp_inv in Hrm as (res & s' & Hrm & Hpost).
  destruct (remove_post_api _ _ _ _ _ _ _ _ _ _ _ _ _ _ Hok Hpost)
    as (-> & t' & Hok' & Hin' & _).
  exists (Ptr z), s'. split_and!.
  - unfold ptree_has, bind. by rewrite Hrun.
  - unfold ptree_remove_by_it, bind. by rewrite Hrm.
  - rewrite <- app_assoc, <- Hin'. by eapply api_holds.
Qed.

Lemma remove_by_it_witness :
  after_session
    (api_session false Z.sub Z.sub 0 (configured (fun _ => true) 0)
       [Call_insert 5; Call_insert 3; Call_insert 8])
    (fun _ s => exists l,
       holds s l
       /\ forall l1 e l2, l = l1 ++ e :: l2 -> Z.sub 8 e = 0 ->
          exists it s', ptree_has 8 s = Ok (it, s)
            /\ ptree_remove_by_it false it s = Ok (tt, s')
            /\ holds s' (l1 ++ l2)).
Proof.
  apply (remove_by_it_removes false Z.sub Z.sub 0 (fun _ => true) 0
           [Call_insert 5; Call_insert 3; Call_insert 8] 8 cmp_ok_sub).
  - lia.
  - reflexivity.
  - left. reflexivity.
Defined.

(** X7: in the state left by a session of calls, [ptree_empty] leaves a tree
    of size 0 whose traversal, minimum and maximum are empty, keeps the
    capacity, the table and every node object, and leaves a tree that further
    insertions and removals use as they use a new one. *)
Theorem empty_resets storage64 cmpf ck pre oracle cap calls :
  0 <= pre < 2 ^ 31 -> forallb (call_ok storage64) calls = true ->
  storage64 = false \/ Z.of_nat (length calls) < 2 ^ 31 ->
  after_session (api_session storage64 cmpf ck pre (configured oracle cap) calls)
    (fun _ s => exists s',
       ptree_empty s = Ok (tt, s')
       /\ holds s' []
       /\ ptree_min s' = Ok (Null, s') /\ ptree_max s' = Ok (Null, s')
       /\ mem s' = mem s
       /\ allocated_nodes_num (tree s') = allocated_nodes_num (tree s)
       /\ nodes (tree s') = nodes (tree s)
       /\ forall ops, cmp_ok cmpf ->
          storage64 = false \/ Z.of_nat (length ops) <= 2 ^ 31 ->
          after_session (run_ops storage64 ops s')
            (fun _ s2 => traverse s2 = Ok (ref_run cmpf ops [], s2))).
Proof.
  intros Hpre Hall Hb.
  apply after_api_intro; [done|done|destruct Hb; [by left|right; lia]|].
  intros rs s t Hl [HI Hn Hc Hk Hs _].
  pose proof (ptree_empty_spec storage64 s t HI) as Hsp.
  apply wp_inv in Hsp as ([] & s' & Hrun & -> & HI').
  eexists. split; [exact Hrun|]. split_and!; [done..|].
  intros ops Hf Hbo.
  pose proof (run_ops_spec storage64 ops _ E HI') as Hro.
  specialize (Hro ltac:(destruct Hbo; [by left|right; simpl; lia])).
  unfold wpo in Hro. unfold after_session.
  destruct (run_ops storage64 ops _) as [[rs' s2]|[]]; try done.
  destruct Hro as (t2 & [HI2 _ _ _ _ Hr2]). simpl in Hr2. rewrite Hc in Hr2.
  destruct (Hr2 Hf ltac:(constructor)) as [_ <-].
  apply wp_run. by apply (traverse_spec storage64).
Qed.

Lemma empty_resets_witness :
  after_session
    (api_session false Z.sub Z.sub 0 (configured (fun _ => true) 0)
       [Call_insert 5; Call_insert 3; Call_insert 8])
    (fun _ s => exists s',
       ptree_empty s = Ok (tt, s')
       /\ holds s' []
       /\ ptree_min s' = Ok (Null, s') /\ ptree_max s' = Ok (Null, s')
       /\ mem s' = mem s
       /\ allocated_nodes_num (tree s') = allocated_nodes_num (tree s)
       /\ nodes (tree s') = nodes (tree s)
       /\ forall ops, cmp_ok Z.sub ->
          false = false \/ Z.of_nat (length ops) <= 2 ^ 31 ->
          after_session (run_ops false ops s')
            (fun _ s2 => traverse s2 = Ok (ref_run Z.sub ops [], s2))).
Proof.
  apply (empty_resets false Z.sub Z.sub 0 (fun _ => true) 0
           [Call_insert 5; Call_insert 3; Call_insert 8]).
  - lia.
  - reflexivity.
  - left. reflexivity.
Defined.

(** The slots of the arena that hold no node of the tree. *)
Lemma free_slot storage64 s t k :
  Inv storage64 s t ->
  nodes_num (tree s) <= k < allocated_nodes_num (tree s) ->
  exists a, get_slot k s = Ok (Ptr a, s) /\ (a ∉ addrs t)
    /\ get_node_index storage64 (Ptr a) s = Ok (k, s).
Proof.
  intros [_ Har _ _] Hk.
  pose proof (max_nodes_red storage64) as Hmr.
  pose proof (ar_max _ _ _ Har) as Hmax. pose proof (ar_len _ _ _ Har) as Hlen.
  pose proof (ar_num _ _ _ Har) as Hnum.
  destruct (ar_free _ _ _ Har (Z.to_nat k)) as (a & n & c & Htk & Hn & Hf); [lia..|].
  rewrite Z2Nat.id in Hf by lia.
  exists a. split_and!.
  - apply wp_run. rewrite <- (Z2Nat.id k) by lia. by eapply wp_get_slot.
  - rewrite addrs_labels. intros [[a' i] [Heq Hin]]%list_elem_of_fmap.
    simpl in Heq. subst a'.
    destruct (ar_active _ _ _ Har a i Hin) as (k' & -> & Hk' & Htk').
    assert (Z.to_nat k = k') by (eapply NoDup_lookup; [apply (ar_nodup _ _ _ Har)|done..]).
    lia.
  - eapply get_node_index_run; [done|done|lia].
Qed.

(** X8: in the state left by a session of calls, [ptree_allocate_nodes] of
    an amount [n] of at most [max_nodes], when the table of the new capacity
    has fewer than [2 ^ 61] slots (its size in bytes fits [size_t]; it is
    always so with indices of 32 bits), adds exactly [n] to the capacity:
    the table has that many slots, the tree, its traversal and its size are
    unchanged, and every slot from the number of elements on holds a node
    that is not in the tree and that stores the position of its slot.  The
    call stops by [oom()] only when the new capacity would exceed
    [max_nodes] or the allocator refuses the table or one of the [n] node
    objects. *)
Theorem allocate_nodes_grows storage64 cmpf ck pre oracle cap calls n :
  0 <= pre < 2 ^ 31 -> forallb (call_ok storage64) calls = true ->
  storage64 = false \/ Z.of_nat (length calls) < 2 ^ 31 ->
  0 <= n <= max_nodes storage64 ->
  after_session (api_session storage64 cmpf ck pre (configured oracle cap) calls)
    (fun _ s => exists t,
       heap_rep storage64 s t /\ holds s (inorder t)
       /\ (allocated_nodes_num (tree s) + n < 2 ^ 61 ->
           match ptree_allocate_nodes storage64 n s with
           | Ok (_, s') =>
               allocated_nodes_num (tree s') = allocated_nodes_num (tree s) + n
               /\ Z.of_nat (length (nodes (tree s'))) = allocated_nodes_num (tree s')
               /\ heap_rep storage64 s' t /\ holds s' (inorder t)
               /\ forall k, nodes_num (tree s') <= k < allocated_nodes_num (tree s') ->
                  exists a, get_slot k s' = Ok (Ptr a, s') /\ (a ∉ addrs t)
                    /\ get_node_index storage64 (Ptr a) s' = Ok (k, s')
           | Fail f =>
               f = Oom
               /\ (max_nodes storage64 < allocated_nodes_num (tree s) + n
                   \/ exists j, (j <= Z.to_nat n)%nat
                        /\ alloc_ok (mem s) (allocs (mem s) + j)%nat = false)
           end)).
Proof.
  intros Hpre Hall Hb Hn.
  apply after_api_intro; [done|done|destruct Hb; [by left|right; lia]|].
  intros rs s t Hl Hok. exists t.
  pose proof (api_holds _ _ _ _ _ _ Hok Hb) as Hh.
  pose proof (api_small _ _ _ _ _ _ Hok Hb) as Hsmall.
  pose proof Hok as [HI Hnum Hc Hk Hs _].
  split_and!; [by destruct HI|done|]. intros Hfit.
  pose proof HI as [_ Har _ _].
  pose proof (ar_max _ _ _ Har) as Hmax. pose proof (ar_num _ _ _ Har) as Hnn0.
  assert (nodes_num (tree s) < 2 ^ 31) as Hlt.
  { destruct Hb as [->|Hb]; [unfold max_nodes in Hmax|]; lia. }
  pose proof (allocate_nodes_inv storage64 s t n HI Hn Hfit) as Hsp. unfold wpo in Hsp.
  pose proof (ptree_allocate_nodes_effect storage64 s n) as He.
  unfold allocate_effect in He.
  assert (wrap storage64 (allocated_nodes_num (tree s) + n)
          = allocated_nodes_num (tree s) + n) as Hw.
  { apply wrap_small. pose proof (max_nodes_red storage64). lia. }
  rewrite Hw in He.
  replace (allocated_nodes_num (tree s) + n - allocated_nodes_num (tree s)) with n
    in He by lia.
  destruct (ptree_allocate_nodes storage64 n s) as [[[] s']|f].
  2: { destruct f; try done. split; [done|]. by apply He. }
  destruct Hsp as (HI' & Hext & Hal).
  pose proof (extends_nodes_num _ _ Hext) as Hnn.
  split_and!; [done| |by destruct HI'|apply (inv_holds storage64 s' t HI'); lia|].
  - destruct HI' as [_ Har' _ _]. by rewrite (ar_len _ _ _ Har').
  - intros k Hk'. by apply (free_slot storage64 s' t k).
Qed.

Lemma allocate_nodes_witness :
  after_session
    (api_session false Z.sub Z.sub 1 (configured (fun _ => true) 0)
       [Call_insert 5; Call_insert 3])
    (fun _ s => exists t,
       heap_rep false s t /\ holds s (inorder t)
       /\ (allocated_nodes_num (tree s) + 3 < 2 ^ 61 ->
           match ptree_allocate_nodes false 3 s with
           | Ok (_, s') =>
               allocated_nodes_num (tree s') = allocated_nodes_num (tree s) + 3
               /\ Z.of_nat (length (nodes (tree s'))) = allocated_nodes_num (tree s')
               /\ heap_rep false s' t /\ holds s' (inorder t)
               /\ forall k, nodes_num (tree s') <= k < allocated_nodes_num (tree s') ->
                  exists a, get_slot k s' = Ok (Ptr a, s') /\ (a ∉ addrs t)
                    /\ get_node_index false (Ptr a) s' = Ok (k, s')
           | Fail f =>
               f = Oom
               /\ (max_nodes false < allocated_nodes_num (tree s) + 3
                   \/ exists j, (j <= Z.to_nat 3)%nat
                        /\ alloc_ok (mem s) (allocs (mem s) + j)%nat = false)
           end)).
Proof.
  apply (allocate_nodes_grows false Z.sub Z.sub 1 (fun _ => true) 0
           [Call_insert 5; Call_insert 3] 3).
  - lia.
  - reflexivity.
  - left. reflexivity.
  - unfold max_nodes. lia.
Defined.

(** ** Insertions and the allocator *)

Section InsertApi.

Variable storage64 : bool.

(** What the insertion of a new element leaves. *)
Lemma insert_new_api cmpf ck k s t v :
  api_ok storage64 cmpf ck k s t -> cmp_ok cmpf ->
  storage64 = false \/ Z.of_nat k <= 2 ^ 31 ->
  (forall x, x ∈ inorder t -> cmpf v x <> 0) ->
  ins_path (cmp (tree s)) v t [] <> None
  /\ match ptree_insert storage64 v s with
     | Ok (r, s') =>
         r = true /\ exists t', api_ok storage64 cmpf ck (S k) s' t'
           /\ inorder t' = ref_insert cmpf v (inorder t)
     | Fail f => f = Oom
     end.
Proof.
  intros Hok Hf Hb Hno. pose proof Hok as [HI Hn Hc Hk Hs Hroom].
  assert (ins_path (cmp (tree s)) v t [] <> None) as Hp.
  { intros Hp. destruct (ins_path_present _ _ _ _ Hp) as (x & Hx & Hz).
    rewrite Hc in Hz. by apply (Hno x). }
  split; [done|].
  assert (nodes_num (tree s) <= 2 ^ 31) as H31.
  { destruct Hb as [Hb|Hb]; [by eapply Inv_small|lia]. }
  pose proof (ptree_insert_spec storage64 s t v HI ltac:(right; lia)) as Hsp.
  unfold wpo, insert_post in Hsp.
  pose proof (insert_ref s t v) as Href. rewrite Hc in Href, Hsp, Hp.
  destruct (ins_path cmpf v t []) as [ctx'|]; [|done].
  destruct (Href Hf (Hs Hf)) as (_ & Hr & Hs').
  destruct (ptree_insert storage64 v s) as [[r s']|[]] eqn:Hrun; try done.
  destruct Hsp as (-> & t' & HI' & Hin & Hnn & _ & _ & Hc' & Hk').
  split; [done|]. exists t'. split; [|by rewrite Hin, Hr].
  constructor; [done|lia|congruence|congruence| |].
  - intros _. by rewrite Hin.
  - pose proof HI as [_ Har _ _]. pose proof (ar_num _ _ _ Har) as Hnum.
    destruct (growth_bounds storage64 s _ Har) as (_ & Hgb & _).
    destruct Hroom as [Hroom|Hroom]; [by left|right].
    destruct (insert_capacity storage64 s t v true s' HI Hrun) as [Heq|[Hfull Heq]];
      rewrite Heq; lia.
Qed.

End InsertApi.

(** X9: in the state left by a session of calls, when a slot of the arena is
    free ([nodes_num] is less than [allocated_nodes_num]), [ptree_insert] of
    a handle that compares equal to no element makes no request to the
    allocator and cannot stop by [oom()]: it returns 1, the capacity is as
    it was, and the element is in the tree. *)
Theorem insert_uses_free_slot storage64 cmpf ck pre oracle cap calls v :
  cmp_ok cmpf ->
  0 <= pre < 2 ^ 31 -> forallb (call_ok storage64) calls = true ->
  storage64 = false \/ Z.of_nat (length calls) + 1 < 2 ^ 31 ->
  after_session (api_session storage64 cmpf ck pre (configured oracle cap) calls)
    (fun _ s => exists l,
       holds s l
       /\ (nodes_num (tree s) < allocated_nodes_num (tree s) ->
           (forall x, x ∈ l -> cmpf v x <> 0) ->
           exists s', ptree_insert storage64 v s = Ok (true, s')
             /\ allocs (mem s') = allocs (mem s)
             /\ allocated_nodes_num (tree s') = allocated_nodes_num (tree s)
             /\ holds s' (ref_insert cmpf v l))).
Proof.
  intros Hf Hpre Hall Hb.
  apply after_api_intro; [done|done|destruct Hb; [by left|right; lia]|].
  intros rs s t Hl Hok. exists (inorder t).
  split; [eapply api_holds; [done|destruct Hb; [by left|right; lia]]|].
  intros Hroom Hno.
  destruct (insert_new_api storage64 cmpf ck _ s t v Hok Hf
              ltac:(destruct Hb; [by left|right; lia]) Hno) as [Hp Hins].
  destruct Hok as [[Hrep Har _ _] _ _ _ _ _].
  pose proof (ar_count _ _ _ Har) as Hc. rewrite length_labels in Hc.
  pose proof (insert_grows storage64 s t v Hrep Hc Hp) as Hg.
  rewrite (grow_if_full_room storage64 s Hroom) in Hg.
  destruct (ptree_insert storage64 v s) as [[r s']|f].
  - destruct Hins as (-> & t' & Hok' & Hin). destruct Hg as (s1 & [= <-] & Hk).
    exists s'. split_and!; [done|apply (kp_allocs _ _ Hk)|apply (kp_cap _ _ Hk)|].
    rewrite <- Hin. eapply api_holds; [done|].
    destruct Hb; [by left|right; lia].
  - subst f. by specialize (Hg eq_refl).
Qed.

Lemma insert_free_slot_witness :
  after_session
    (api_session false Z.sub Z.sub 4 (configured (fun _ => true) 0)
       [Call_insert 5; Call_insert 3])
    (fun _ s => exists l,
       holds s l
       /\ (nodes_num (tree s) < allocated_nodes_num (tree s) ->
           (forall x, x ∈ l -> Z.sub 8 x <> 0) ->
           exists s', ptree_insert false 8 s = Ok (true, s')
             /\ allocs (mem s') = allocs (mem s)
             /\ allocated_nodes_num (tree s') = allocated_nodes_num (tree s)
             /\ holds s' (ref_insert Z.sub 8 l))).
Proof.
  apply (insert_uses_free_slot false Z.sub Z.sub 4 (fun _ => true) 0
           [Call_insert 5; Call_insert 3] 8 cmp_ok_sub).
  - lia.
  - reflexivity.
  - left. reflexivity.
Defined.

(** X10: in the state left by a session of calls, when no slot of the arena
    is free, [ptree_insert] of a handle that compares equal to no element
    asks the allocator for the table and for as many node objects as the
    capacity (for 1 from the capacity 0, for [max_nodes_to_auto_allocate]
    when that is not 0 and less than the capacity): the capacity grows by
    that number, and the call stops by [oom()] only when the new capacity
    would exceed [max_nodes] or the allocator refuses one of these
    requests. *)
Theorem insert_grows_capacity storage64 cmpf ck pre oracle cap calls v :
  cmp_ok cmpf ->
  0 <= pre < 2 ^ 31 -> forallb (call_ok storage64) calls = true ->
  storage64 = false \/ Z.of_nat (length calls) + 1 < 2 ^ 31 ->
  after_session (api_session storage64 cmpf ck pre (configured oracle cap) calls)
    (fun _ s => exists l,
       holds s l
       /\ growth storage64 s
          = (if negb (max_nodes_to_auto_allocate (mem s) =? 0)
                && (max_nodes_to_auto_allocate (mem s) <? allocated_nodes_num (tree s))
             then max_nodes_to_auto_allocate (mem s)
             else Z.max 1 (allocated_nodes_num (tree s)))
       /\ (allocated_nodes_num (tree s) <= nodes_num (tree s) ->
           (forall x, x ∈ l -> cmpf v x <> 0) ->
           match ptree_insert storage64 v s with
           | Ok (r, s') =>
               r = true
               /\ allocated_nodes_num (tree s')
                  = allocated_nodes_num (tree s) + growth storage64 s
               /\ allocs (mem s')
                  = (allocs (mem s) + 1 + Z.to_nat (growth storage64 s))%nat
               /\ holds s' (ref_insert cmpf v l)
           | Fail f =>
               f = Oom
               /\ (max_nodes storage64
                   < allocated_nodes_num (tree s) + growth storage64 s
                   \/ exists j, (j <= Z.to_nat (growth storage64 s))%nat
                        /\ alloc_ok (mem s) (allocs (mem s) + j)%nat = false)
           end)).
Proof.
  intros Hf Hpre Hall Hb.
  apply after_api_intro; [done|done|destruct Hb; [by left|right; lia]|].
  intros rs s t Hl Hok. exists (inorder t).
  split; [eapply api_holds; [done|destruct Hb; [by left|right; lia]]|].
  pose proof Hok as [[Hrep Har _ _] _ _ _ _ _].
  destruct (growth_bounds storage64 s _ Har) as (Hg & Hgb & Hw).
  split; [done|]. intros Hfull Hno.
  destruct (insert_new_api storage64 cmpf ck _ s t v Hok Hf
              ltac:(destruct Hb; [by left|right; lia]) Hno) as [Hp Hins].
  pose proof (ar_count _ _ _ Har) as Hc. rewrite length_labels in Hc.
  pose proof (insert_grows storage64 s t v Hrep Hc Hp) as Hgr.
  rewrite (grow_if_full_full storage64 s Hfull) in Hgr.
  pose proof (ptree_allocate_nodes_effect storage64 s (growth storage64 s)) as He.
  unfold allocate_effect in He. rewrite Hw in He.
  replace (allocated_nodes_num (tree s) + growth storage64 s
           - allocated_nodes_num (tree s)) with (growth storage64 s) in He by lia.
  destruct (ptree_insert storage64 v s) as [[r s']|f].
  - destruct Hins as (-> & t' & Hok' & Hin). destruct Hgr as (s1 & Hrun & Hk).
    rewrite Hrun in He. destruct He as (E1 & _ & _ & _ & E5 & _).
    split_and!; [done| | |].
    + by rewrite (kp_cap _ _ Hk).
    + by rewrite (kp_allocs _ _ Hk).
    + rewrite <- Hin. eapply api_holds; [done|].
      destruct Hb; [by left|right; lia].
  - subst f. split; [done|]. rewrite (Hgr eq_refl) in He. by apply He.
Qed.

Lemma insert_grows_witness :
  after_session
    (api_session false Z.sub Z.sub 2 (configured (fun _ => true) 0)
       [Call_insert 5; Call_insert 3])
    (fun _ s => exists l,
       holds s l
       /\ growth false s
          = (if negb (max_nodes_to_auto_allocate (mem s) =? 0)
                && (max_nodes_to_auto_allocate (mem s) <? allocated_nodes_num (tree s))
             then max_nodes_to_auto_allocate (mem s)
             else Z.max 1 (allocated_nodes_num (tree s)))
       /\ (allocated_nodes_num (tree s) <= nodes_num (tree s) ->
           (forall x, x ∈ l -> Z.sub 8 x <> 0) ->
           match ptree_insert false 8 s with
           | Ok (r, s') =>
               r = true
               /\ allocated_nodes_num (tree s')
                  = allocated_nodes_num (tree s) + growth false s
               /\ allocs (mem s')
                  = (allocs (mem s) + 1 + Z.to_nat (growth false s))%nat
               /\ holds s' (ref_insert Z.sub 8 l)
           | Fail f =>
               f = Oom
               /\ (max_nodes false
                   < allocated_nodes_num (tree s) + growth false s
                   \/ exists j, (j <= Z.to_nat (growth false s))%nat
                        /\ alloc_ok (mem s) (allocs (mem s) + j)%nat = false)
           end)).
Proof.
  apply (insert_grows_capacity false Z.sub Z.sub 2 (fun _ => true) 0
           [Call_insert 5; Call_insert 3] 8 cmp_ok_sub).
  - lia.
  - reflexivity.
  - left. reflexivity.
Defined.

(** *** Sessions with an allocator that never refuses *)

Section Total.

Variable storage64 : bool.

Lemma insert_no_oom s t v :
  Inv storage64 s t -> (forall k, alloc_ok (mem s) k = true) ->
  2 * Z.max 1 (nodes_num (tree s)) <= max_nodes storage64 ->
  ptree_insert storage64 v s <> Fail Oom.
Proof.
  intros HI Hor Hb Hoom. pose proof HI as [Hrep Har _ _].
  destruct (ins_path (cmp (tree s)) v t []) as [ctx'|] eqn:Hp.
  2: { by rewrite (ptree_insert_dup storage64 s t v HI Hp) in Hoom. }
  pose proof (ar_count _ _ _ Har) as Hc. rewrite length_labels in Hc.
  pose proof (insert_grows storage64 s t v Hrep Hc ltac:(by rewrite Hp)) as Hg.
  rewrite Hoom in Hg. specialize (Hg eq_refl).
  destruct (Z.leb_spec (allocated_nodes_num (tree s)) (nodes_num (tree s)))
    as [Hfull|Hroom].
  2: { by rewrite (grow_if_full_room storage64 s Hroom) in Hg. }
  rewrite (grow_if_full_full storage64 s Hfull) in Hg.
  destruct (growth_bounds storage64 s _ Har) as (_ & Hgb & Hw).
  pose proof (ptree_allocate_nodes_effect storage64 s (growth storage64 s)) as He.
  unfold allocate_effect in He. rewrite Hw, Hg in He.
  destruct (He eq_refl) as [Hbig|(j & _ & Hj)]; [lia|]. by rewrite Hor in Hj.
Qed.

Lemma run_op_oracle s t o r s' :
  Inv storage64 s t -> nodes_num (tree s) <= 2 ^ 31 ->
  run_op storage64 o s = Ok (r, s') ->
  alloc_ok (mem s') = alloc_ok (mem s).
Proof.
  intros HI H31 Hrun. destruct o as [v|v]; simpl in Hrun.
  - pose proof (ptree_insert_spec storage64 s t v HI ltac:(right; lia)) as Hsp.
    unfold wpo, insert_post in Hsp. rewrite Hrun in Hsp.
    destruct (ins_path (cmp (tree s)) v t []) as [ctx'|].
    + by destruct Hsp as (_ & t' & _ & _ & _ & _ & Ho & _).
    + by destruct Hsp as [_ ->].
  - pose proof (quiet_ptree_remove storage64 v s) as Hq. unfold quiet_rel in Hq.
    rewrite Hrun in Hq. apply (kp_oracle _ _ Hq).
Qed.

Lemma run_ops_total ops : forall j s t,
  Inv storage64 s t -> nodes_num (tree s) <= Z.of_nat j ->
  (forall k, alloc_ok (mem s) k = true) ->
  2 * Z.of_nat (j + length ops) < 2 ^ 31 ->
  exists rs s', run_ops storage64 ops s = Ok (rs, s') /\ length rs = length ops.
Proof.
  induction ops as [|o ops IH]; intros j s t HI Hj Hor Hb.
  { by exists [], s. }
  pose proof HI as [_ Har _ _]. pose proof (ar_num _ _ _ Har) as Hnum.
  assert (nodes_num (tree s) <= 2 ^ 31) as H31 by lia.
  pose proof (run_op_spec storage64 s t o HI H31) as Hsp. unfold wpo in Hsp.
  assert (run_op storage64 o s <> Fail Oom) as Hno.
  { destruct o as [v|v]; simpl.
    - apply (insert_no_oom s t v HI Hor). simpl in Hb.
      assert (2 ^ 31 - 1 <= max_nodes storage64)
        by (unfold max_nodes; destruct storage64; lia).
      lia.
    - intros Hoom. pose proof (quiet_ptree_remove storage64 v s) as Hq.
      unfold quiet_rel in Hq. by rewrite Hoom in Hq. }
  cbn [run_ops]. unfold bind at 1.
  destruct (run_op storage64 o s) as [[r s1]|f] eqn:Hrun; [|by destruct f].
  destruct Hsp as (t1 & [HI1 Hn1 _ _ _ _]).
  destruct (IH (S j) s1 t1 HI1) as (rs & s2 & Hrs & Hl).
  - rewrite Hn1. destruct r, o; simpl; lia.
  - intros k. rewrite (run_op_oracle s t o r s1 HI H31 Hrun). apply Hor.
  - simpl in Hb. lia.
  - exists (r :: rs), s2. unfold bind. rewrite Hrs. simpl. by rewrite Hl.
Qed.

Lemma ptree_new_total cmpf ck pre oracle cap :
  (forall k, oracle k = true) -> 0 <= pre < 2 ^ 31 ->
  exists s, ptree_new storage64 cmpf ck pre (configured oracle cap) = Ok s
    /\ Inv storage64 s E /\ nodes_num (tree s) = 0
    /\ (forall k, alloc_ok (mem s) k = true).
Proof.
  intros Hor Hpre.
  pose proof (ptree_new_spec storage64 cmpf ck pre oracle cap Hpre) as Hsp.
  unfold ptree_new, configured in *. simpl in *. rewrite Hor in *.
  set (s1 := State _ _) in *.
  pose proof (ptree_allocate_nodes_effect storage64 s1 (to_size_t pre)) as He.
  unfold allocate_effect in He.
  assert (to_size_t pre = pre) as Hp by (unfold to_size_t; apply Z.mod_small; lia).
  rewrite Hp in *.
  assert (wrap storage64 (allocated_nodes_num (tree s1) + pre) = pre) as Hw.
  { simpl. unfold wrap, word_bits. apply Z.mod_small. destruct storage64; lia. }
  rewrite Hw in He.
  destruct (ptree_allocate_nodes storage64 pre s1) as [[[] s]|f].
  - destruct Hsp as (HI & Hn & _). destruct He as (_ & Ho & _).
    exists s. split_and!; try done. intros k. rewrite Ho. simpl. apply Hor.
  - destruct f; try done. exfalso.
    destruct (He eq_refl) as [Hbig|(j & _ & Hj)].
    + unfold max_nodes in Hbig. destruct storage64; lia.
    + simpl in Hj. by rewrite Hor in Hj.
Qed.

End Total.

(** X11: with an allocator that never refuses, a session of fewer than
    [2^30] insertions and removals on a tree made by [ptree_new] does not
    stop: every call returns. *)
Theorem session_returns storage64 cmpf ck pre oracle cap ops :
  (forall k, oracle k = true) ->
  0 <= pre < 2 ^ 31 -> Z.of_nat (length ops) < 2 ^ 30 ->
  exists rs s,
    session storage64 cmpf ck pre (configured oracle cap) ops = Ok (rs, s)
    /\ length rs = length ops.
Proof.
  intros Hor Hpre Hb. unfold session.
  destruct (ptree_new_total storage64 cmpf ck pre oracle cap Hor Hpre)
    as (s0 & -> & HI & Hn & Hor0).
  apply (run_ops_total storage64 ops 0 s0 E HI); [lia|done|simpl; lia].
Qed.

Lemma session_returns_witness :
  exists rs s,
    session false Z.sub Z.sub 0 (configured (fun _ => true) 0)
      [Insert 5; Insert 3; Remove 5; Insert 8] = Ok (rs, s)
    /\ length rs = 4%nat.
Proof.
  apply (session_returns false Z.sub Z.sub 0 (fun _ => true) 0
           [Insert 5; Insert 3; Remove 5; Insert 8]).
  - reflexivity.
  - lia.
  - simpl. lia.
Defined.

(** ** The insertion of a handle, present or not *)

Lemma run_ops_snoc storage64 ops o : forall s0 rs' s2,
  run_ops storage64 (ops ++ [o]) s0 = Ok (rs', s2) ->
  exists rs s r, run_ops storage64 ops s0 = Ok (rs, s)
    /\ run_op storage64 o s = Ok (r, s2).
Proof.
  induction ops as [|o' ops IH]; intros s0 rs' s2; cbn [app run_ops]; unfold bind.
  - destruct (run_op storage64 o s0) as [[r s1]|f] eqn:Hr; [|done]. simpl.
    intros [= _ <-]. by exists [], s0, r.
  - destruct (run_op storage64 o' s0) as [[r1 s1]|f]; [|done].
    destruct (run_ops storage64 (ops ++ [o]) s1) as [[rs1 s3]|f] eqn:Hrest; [|done].
    simpl. intros [= _ <-].
    destruct (IH s1 rs1 s3 Hrest) as (rs & s & r & Hrs & Hr).
    exists (r1 :: rs), s, r. by rewrite Hrs.
Qed.

Section InsertOutcome.

Variable storage64 : bool.

Lemma insert_outcome s t v :
  Inv storage64 s t -> cmp_ok (cmp (tree s)) -> sorted (cmp (tree s)) (inorder t) ->
  storage64 = false \/ nodes_num (tree s) < 2 ^ 60 ->
  (present (cmp (tree s)) v (inorder t) -> ptree_insert storage64 v s = Ok (false, s))
  /\ (~ present (cmp (tree s)) v (inorder t) ->
      match ptree_insert storage64 v s with
      | Ok (r, s') =>
          r = true /\ exists l', traverse s' = Ok (l', s') /\ v ∈ l'
      | Fail f =>
          f = Oom
          /\ allocated_nodes_num (tree s) <= nodes_num (tree s)
          /\ (max_nodes storage64 < allocated_nodes_num (tree s) + growth storage64 s
              \/ exists j, (j <= Z.to_nat (growth storage64 s))%nat
                   /\ alloc_ok (mem s) (allocs (mem s) + j)%nat = false)
      end).
Proof.
  intros HI Hf Hs Hfit. pose proof HI as [Hrep Har _ _].
  pose proof (insert_ref s t v Hf Hs) as Hr.
  pose proof (ptree_insert_spec storage64 s t v HI Hfit) as Hsp.
  unfold wpo, insert_post in Hsp.
  destruct (ins_path (cmp (tree s)) v t []) as [ctx'|] eqn:Hp.
  2: { destruct Hr as [Hpr _]. split; [|done]. intros _. by eapply ptree_insert_dup. }
  destruct Hr as (Hnp & _ & _). split; [done|]. intros _.
  pose proof (ar_count _ _ _ Har) as Hc. rewrite length_labels in Hc.
  pose proof (insert_grows storage64 s t v Hrep Hc ltac:(by rewrite Hp)) as Hgr.
  destruct (ptree_insert storage64 v s) as [[r s']|f].
  - destruct Hsp as (-> & t' & HI' & Hin & _). split; [done|].
    exists (inorder t'). split; [eapply wp_run; by apply (traverse_spec storage64)|].
    rewrite Hin, elem_of_app, elem_of_cons. tauto.
  - destruct f; try done. split; [done|]. specialize (Hgr eq_refl).
    destruct (Z.leb_spec (allocated_nodes_num (tree s)) (nodes_num (tree s)))
      as [Hfull|Hroom].
    2: { by rewrite (grow_if_full_room storage64 s Hroom) in Hgr. }
    split; [done|]. rewrite (grow_if_full_full storage64 s Hfull) in Hgr.
    destruct (growth_bounds storage64 s _ Har) as (_ & Hgb & Hw).
    pose proof (ptree_allocate_nodes_effect storage64 s (growth storage64 s)) as He.
    unfold allocate_effect in He. rewrite Hw, Hgr in He.
    replace (allocated_nodes_num (tree s) + growth storage64 s
             - allocated_nodes_num (tree s)) with (growth storage64 s) in He by lia.
    by apply He.
Qed.

End InsertOutcome.

(** C5: in the state left by a session, inserting a handle that compares
    equal to an element returns 0 and leaves the whole state (tree, colours,
    count, arena, capacity) as it was; inserting one that compares equal to
    none returns 1 and the handle is then an element, unless the process is
    stopped by [oom()], which happens only when no slot of the arena is free
    and either the capacity grown by [growth] would exceed [max_nodes] or
    the allocator refuses the table or one of the node objects.  With an
    allocator that never refuses, a session of fewer than [2^30 - 1] calls
    returns, and so does the insertion after it. *)
Theorem insert_duplicate_rejected storage64 cmpf ck pre oracle cap ops v :
  cmp_ok cmpf ->
  0 <= pre < 2 ^ 31 ->
  storage64 = false \/ Z.of_nat (length ops) <= 2 ^ 31 ->
  after_session (session storage64 cmpf ck pre (configured oracle cap) ops)
    (fun _ s => exists l,
       traverse s = Ok (l, s)
       /\ (present cmpf v l -> ptree_insert storage64 v s = Ok (false, s))
       /\ (~ present cmpf v l ->
           match ptree_insert storage64 v s with
           | Ok (r, s') => r = true /\ exists l', traverse s' = Ok (l', s') /\ v ∈ l'
           | Fail f =>
               f = Oom
               /\ allocated_nodes_num (tree s) <= nodes_num (tree s)
               /\ (max_nodes storage64
                   < allocated_nodes_num (tree s) + growth storage64 s
                   \/ exists j, (j <= Z.to_nat (growth storage64 s))%nat
                        /\ alloc_ok (mem s) (allocs (mem s) + j)%nat = false)
           end))
  /\ ((forall k, oracle k = true) -> Z.of_nat (length ops) + 1 < 2 ^ 30 ->
      exists rs s l r s',
        session storage64 cmpf ck pre (configured oracle cap) ops = Ok (rs, s)
        /\ traverse s = Ok (l, s)
        /\ ptree_insert storage64 v s = Ok (r, s')
        /\ (present cmpf v l -> r = false /\ s' = s)
        /\ (~ present cmpf v l ->
            r = true /\ exists l', traverse s' = Ok (l', s') /\ v ∈ l')).
Proof.
  intros Hf Hpre Hb.
  assert (forall rs s t, session_ok storage64 cmpf ck ops rs s t ->
            traverse s = Ok (inorder t, s)
            /\ (present cmpf v (inorder t) ->
                ptree_insert storage64 v s = Ok (false, s))
            /\ (~ present cmpf v (inorder t) ->
                match ptree_insert storage64 v s with
                | Ok (r, s') =>
                    r = true /\ exists l', traverse s' = Ok (l', s') /\ v ∈ l'
                | Fail f =>
                    f = Oom
                    /\ allocated_nodes_num (tree s) <= nodes_num (tree s)
                    /\ (max_nodes storage64
                        < allocated_nodes_num (tree s) + growth storage64 s
                        \/ exists j, (j <= Z.to_nat (growth storage64 s))%nat
                             /\ alloc_ok (mem s) (allocs (mem s) + j)%nat = false)
                end)) as Hstate.
  { intros rs s t [HI Hnum _ Hc _ Href]. destruct (Href Hf) as [Hs _]. subst cmpf.
    split; [eapply wp_run; by apply (traverse_spec storage64)|].
    apply (insert_outcome storage64 s t v HI Hf Hs).
    pose proof (net_le ops rs). destruct Hb as [Hb|Hb]; [by left|right; lia]. }
  split.
  { apply after_session_intro; [done|done|].
    intros rs s t Hok. exists (inorder t). by apply (Hstate rs s t). }
  intros Hor Hlen.
  pose proof (session_spec storage64 cmpf ck pre oracle cap ops Hpre Hb) as Hsp.
  unfold session in *.
  destruct (ptree_new_total storage64 cmpf ck pre oracle cap Hor Hpre)
    as (s0 & Hnew & HI0 & Hn0 & Hor0).
  rewrite Hnew in *.
  destruct (run_ops_total storage64 (ops ++ [Insert v]) 0 s0 E HI0) as (rs' & s2 & Hrun & _);
    [lia|done|rewrite length_app; simpl; lia|].
  destruct (run_ops_snoc storage64 ops (Insert v) s0 rs' s2 Hrun)
    as (rs & s & r & Hrs & Hins).
  simpl in Hins. rewrite Hrs in Hsp. destruct Hsp as [t Hok].
  destruct (Hstate rs s t Hok) as (Htr & Hdup & Hnew').
  exists rs, s, (inorder t), r, s2. split_and!; [done|done|done| |].
  - intros Hp. rewrite (Hdup Hp) in Hins. by injection Hins as <- <-.
  - intros Hp. specialize (Hnew' Hp). by rewrite Hins in Hnew'.
Qed.

Lemma insert_duplicate_witness :
  after_session
    (session false Z.sub Z.sub 0 (configured (fun _ => true) 0) [Insert 5; Insert 3])
    (fun _ s => exists l,
       traverse s = Ok (l, s)
       /\ (present Z.sub 3 l -> ptree_insert false 3 s = Ok (false, s))
       /\ (~ present Z.sub 3 l ->
           match ptree_insert false 3 s with
           | Ok (r, s') => r = true /\ exists l', traverse s' = Ok (l', s') /\ 3 ∈ l'
           | Fail f =>
               f = Oom
               /\ allocated_nodes_num (tree s) <= nodes_num (tree s)
               /\ (max_nodes false < allocated_nodes_num (tree s) + growth false s
                   \/ exists j, (j <= Z.to_nat (growth false s))%nat
                        /\ alloc_ok (mem s) (allocs (mem s) + j)%nat = false)
           end))
  /\ ((forall k : nat, true = true) ->
      Z.of_nat (length [Insert 5; Insert 3]) + 1 < 2 ^ 30 ->
      exists rs s l r s',
        session false Z.sub Z.sub 0 (configured (fun _ => true) 0) [Insert 5; Insert 3]
        = Ok (rs, s)
        /\ traverse s = Ok (l, s)
        /\ ptree_insert false 3 s = Ok (r, s')
        /\ (present Z.sub 3 l -> r = false /\ s' = s)
        /\ (~ present Z.sub 3 l ->
            r = true /\ exists l', traverse s' = Ok (l', s') /\ 3 ∈ l')).
Proof.
  apply (insert_duplicate_rejected false Z.sub Z.sub 0 (fun _ => true) 0
           [Insert 5; Insert 3] 3 cmp_ok_sub).
  - lia.
  - left. reflexivity.
Defined.

(** ** Giving memory back *)

Lemma wp_free_node a n s Q :
  heap (mem s) !! a = Some n ->
  Q tt (State (with_heap (delete a (heap (mem s))) (mem s)) (tree s)) ->
  wp (free_node (Ptr a)) s Q.
Proof.
  intros Ha HQ. unfold free_node. apply wp_bind, wp_get_mem. by rewrite Ha.
Qed.

(** [free_loop] on [count] slots from [i] that hold distinct node objects:
    these objects are freed, and nothing else changes. *)
Lemma free_loop_spec count : forall i s,
  NoDup (nodes (tree s)) ->
  (forall k, (i <= k < i + count)%nat ->
     exists a, nodes (tree s) !! k = Some (Ptr a) /\ is_Some (heap (mem s) !! a)) ->
  wp (free_loop count (Z.of_nat i)) s (fun _ s' =>
    tree s' = tree s
    /\ with_heap ∅ (mem s') = with_heap ∅ (mem s)
    /\ (forall k a, (i <= k < i + count)%nat ->
          nodes (tree s) !! k = Some (Ptr a) -> heap (mem s') !! a = None)
    /\ (forall a, (forall k, (i <= k < i + count)%nat ->
                     nodes (tree s) !! k <> Some (Ptr a)) ->
          heap (mem s') !! a = heap (mem s) !! a)).
Proof.
  induction count as [|count IH]; intros i s Hnd Hsl.
  { apply wp_ret. split_and!; try done. intros k a Hk. lia. }
  cbn [free_loop].
  destruct (Hsl i ltac:(lia)) as (a & Hi & [n Hn]).
  apply wp_bind. eapply wp_get_slot; [exact Hi|].
  apply wp_bind. eapply wp_free_node; [exact Hn|].
  set (s1 := State _ _).
  replace (Z.of_nat i + 1) with (Z.of_nat (S i)) by lia.
  eapply wp_mono.
  { apply (IH (S i) s1); [done|].
    intros k Hk. destruct (Hsl k ltac:(lia)) as (b & Hb & Hsb). exists b.
    split; [done|]. simpl. rewrite lookup_delete_ne; [done|].
    intros ->. assert (i = k) by (eapply NoDup_lookup; done). lia. }
  intros _ s' (Ht & Hm & Hfreed & Hrest). simpl in *.
  split_and!; [done|done| |].
  - intros k b Hk Hb. destruct (decide (k = i)) as [->|Hne].
    + rewrite Hi in Hb. injection Hb as <-. rewrite Hrest.
      * by rewrite lookup_delete_eq.
      * intros k Hk' Hka. assert (i = k) by (eapply NoDup_lookup; done). lia.
    + apply (Hfreed k b); [lia|done].
  - intros b Hb. rewrite Hrest.
    + rewrite lookup_delete_ne; [done|]. intros ->. by apply (Hb i ltac:(lia)).
    + intros k Hk. apply Hb. lia.
Qed.

Section Shrink.

Variable storage64 : bool.

(** The minimum and the traversal read the links, the root and the number
    of elements only. *)
Lemma ptree_min_rep s t :
  heap_rep storage64 s t -> Z.of_nat (length (addrs t)) = nodes_num (tree s) ->
  wp ptree_min s (fun p s' => s' = s
    /\ p = match t with E => Null | _ => rootp (leftmost t []).2 end).
Proof.
  intros Hrep Hc. pose proof (height_le_size t) as Hh.
  assert (Rel storage64 s (addrs t) s t) as H by (by apply Rel_refl).
  unfold ptree_min, ptree_extreme. apply wp_bind, wp_loop_bound. rel_step.
  destruct t as [|c a i l v r]; cbn [rootp]; simp_ptr; [by apply wp_ret|].
  apply (descend_spec storage64 s (addrs (T c a i l v r)) (T c a i l v r) [] _ s);
    [done|done|lia].
Qed.

Lemma traverse_rep s t :
  heap_rep storage64 s t -> Z.of_nat (length (addrs t)) = nodes_num (tree s) ->
  wp traverse s (fun l s' => s' = s /\ l = inorder t).
Proof.
  intros Hrep Hc.
  assert (Rel storage64 s (addrs t) s t) as H by (by apply Rel_refl).
  unfold traverse. apply wp_bind, wp_loop_bound.
  apply wp_bind. eapply wp_mono; [by apply (ptree_min_rep s t)|].
  intros p s' [-> ->].
  destruct t as [|c a i l v r]; [by apply wp_ret|].
  pose proof (leftmost_plug (T c a i l v r) []) as Hp.
  pose proof (leftmost_remaining (T c a i l v r) []) as Hr.
  pose proof (leftmost_ne (T c a i l v r) []) as Hn.
  pose proof (length_inorder (T c a i l v r)) as Hli.
  destruct (leftmost (T c a i l v r) []) as [ctx' sub']. simpl in Hp, Hr, Hn.
  simpl snd. rewrite app_nil_r in Hr by done.
  eapply wp_mono.
  { apply (traverse_from_spec storage64 s (addrs (T c a i l v r)) _ ctx' sub' s).
    - by apply Hn.
    - by rewrite Hp.
    - by rewrite Hp.
    - rewrite Hr by done. simpl in Hli, Hc |- *. lia. }
  intros rest s' [-> ->]. by rewrite Hr.
Qed.

(** What [ptree_shrink] leaves. *)
Record shrunk (s : state) (t : rbt) (s' : state) : Prop := {
  sh_rep : heap_rep storage64 s' t;
  sh_tree : tree s'
            = with_nodes (take (Z.to_nat (nodes_num (tree s))) (nodes (tree s))) (tree s);
  sh_mem : with_allocs 0 (with_heap ∅ (mem s')) = with_allocs 0 (with_heap ∅ (mem s));
  sh_allocs : allocs (mem s') = S (allocs (mem s));
  sh_freed : forall k a, (Z.to_nat (nodes_num (tree s)) <= k)%nat ->
             nodes (tree s) !! k = Some (Ptr a) -> heap (mem s') !! a = None;
  sh_rest : forall a, (forall k, (Z.to_nat (nodes_num (tree s)) <= k)%nat ->
                         nodes (tree s) !! k <> Some (Ptr a)) ->
            heap (mem s') !! a = heap (mem s) !! a
}.

Lemma ptree_shrink_spec s t :
  Inv storage64 s t -> nodes_num (tree s) < 2 ^ 61 ->
  wpo ptree_shrink s (fun _ s' => shrunk s t s').
Proof.
  intros [Hrep Har Hleaf Hrb] Hfit.
  pose proof (ar_num _ _ _ Har) as Hnum. pose proof (ar_len _ _ _ Har) as Hlen.
  unfold ptree_shrink. apply wpo_bind, wp_wpo, wp_get_tree.
  apply wpo_bind, wp_wpo.
  rewrite <- (Z2Nat.id (nodes_num (tree s))) at 2 by lia.
  eapply wp_mono.
  { apply (free_loop_spec _ (Z.to_nat (nodes_num (tree s))) s).
    - apply (ar_nodup _ _ _ Har).
    - intros k Hk.
      destruct (ar_free _ _ _ Har k) as (a & n & c & Hka & Hn & _); [lia..|].
      exists a. split; [done|]. by exists n. }
  intros _ s1 (Ht1 & Hm1 & Hfreed & Hrest).
  unfold realloc_nodes. rewrite table_slots_small by lia.
  unfold wpo, bind, get_mem, put_mem, get_tree, put_tree, ret. simpl.
  destruct (alloc_ok (mem s1) (allocs (mem s1))); simpl; [|done].
  assert (forall a, a ∈ addrs t -> heap (mem s1) !! a = heap (mem s) !! a) as Hsame.
  { intros a Ha. apply Hrest. intros k Hk Hka.
    rewrite addrs_labels in Ha. apply list_elem_of_fmap in Ha as [[a' i] [Heq Hin]].
    simpl in Heq. subst a'.
    destruct (ar_active _ _ _ Har a i Hin) as (k' & -> & Hk' & Hka').
    assert (k = k') by (eapply NoDup_lookup; [apply (ar_nodup _ _ _ Har)|done..]).
    lia. }
  assert (take (Z.to_nat (nodes_num (tree s1))) (nodes (tree s1))
          ++ replicate (Z.to_nat (nodes_num (tree s1)) - length (nodes (tree s1))) Null
          = take (Z.to_nat (nodes_num (tree s))) (nodes (tree s))) as Htbl.
  { rewrite Ht1. replace (_ - _)%nat with 0%nat by lia. simpl. by rewrite app_nil_r. }
  rewrite Ht1 in *. rewrite Htbl.
  destruct Hrep as (Hr & Hroot & Hnd).
  constructor; simpl.
  - split_and!; simpl; [|done|done]. by eapply rep_frame.
  - done.
  - destruct (mem s1), (mem s). simpl in *. congruence.
  - destruct (mem s1), (mem s). simpl in *. congruence.
  - intros k a Hk Hka. apply (Hfreed k a); [|done].
    pose proof (lookup_lt_Some _ _ _ Hka). lia.
  - intros a Ha. apply Hrest. intros k Hk. apply Ha. lia.
Qed.

End Shrink.

(** X12: in the state left by a session of calls, [ptree_shrink] either
    stops the process by [oom()] or leaves the tree as it is (same nodes,
    same traversal, same size), a table of exactly [nodes_num] slots, and
    [allocated_nodes_num] as it was; the node objects of the slots from
    [nodes_num] on are freed. *)
Theorem shrink_keeps_tree storage64 cmpf ck pre oracle cap calls :
  0 <= pre < 2 ^ 31 -> forallb (call_ok storage64) calls = true ->
  storage64 = false \/ Z.of_nat (length calls) < 2 ^ 31 ->
  after_session (api_session storage64 cmpf ck pre (configured oracle cap) calls)
    (fun _ s => exists t,
       heap_rep storage64 s t /\ holds s (inorder t)
       /\ match ptree_shrink s with
          | Ok (_, s') =>
              heap_rep storage64 s' t /\ holds s' (inorder t)
              /\ Z.of_nat (length (nodes (tree s'))) = nodes_num (tree s)
              /\ allocated_nodes_num (tree s') = allocated_nodes_num (tree s)
              /\ nodes_num (tree s') = nodes_num (tree s)
              /\ forall k, nodes_num (tree s) <= k < allocated_nodes_num (tree s) ->
                 exists a, get_slot k s = Ok (Ptr a, s)
                   /\ load (Ptr a) s' = Fail Undefined
          | Fail f => f = Oom
          end).
Proof.
  intros Hpre Hall Hb.
  apply after_api_intro; [done|done|destruct Hb; [by left|right; lia]|].
  intros rs s t Hl Hok. exists t.
  pose proof (api_holds _ _ _ _ _ _ Hok Hb) as [Htr Hsz].
  pose proof Hok as [HI _ _ _ _ _]. pose proof HI as [Hrep Har _ _].
  pose proof (ar_num _ _ _ Har) as Hnum. pose proof (ar_len _ _ _ Har) as Hlen.
  pose proof (ar_count _ _ _ Har) as Hc. rewrite length_labels in Hc.
  split_and!; [done|done|].
  pose proof (api_small _ _ _ _ _ _ Hok Hb) as Hsmall.
  pose proof (ptree_shrink_spec storage64 s t HI ltac:(lia)) as Hsp. unfold wpo in Hsp.
  destruct (ptree_shrink s) as [[[] s']|[]]; try done.
  destruct Hsp as [Hrep' Ht' Hm' Ha' Hfreed Hrest].
  assert (nodes_num (tree s') = nodes_num (tree s)) as Hnn by by rewrite Ht'.
  split_and!; try done.
  - split.
    + apply wp_run. apply (traverse_rep storage64 s' t Hrep'). by rewrite Hnn.
    + unfold ptree_size, bind, get_tree, ret in *. rewrite Hnn. by injection Hsz as ->.
  - rewrite Ht'. simpl. rewrite length_take. lia.
  - by rewrite Ht'.
  - intros k Hk.
    destruct (ar_free _ _ _ Har (Z.to_nat k)) as (a & n & c & Hka & _); [lia..|].
    exists a. split.
    + apply wp_run. rewrite <- (Z2Nat.id k) by lia. by eapply wp_get_slot.
    + unfold load. by rewrite (Hfreed (Z.to_nat k) a ltac:(lia) Hka).
Qed.

Lemma shrink_keeps_tree_witness :
  after_session
    (api_session false Z.sub Z.sub 4 (configured (fun _ => true) 0)
       [Call_insert 5; Call_insert 3])
    (fun _ s => exists t,
       heap_rep false s t /\ holds s (inorder t)
       /\ match ptree_shrink s with
          | Ok (_, s') =>
              heap_rep false s' t /\ holds s' (inorder t)
              /\ Z.of_nat (length (nodes (tree s'))) = nodes_num (tree s)
              /\ allocated_nodes_num (tree s') = allocated_nodes_num (tree s)
              /\ nodes_num (tree s') = nodes_num (tree s)
              /\ forall k, nodes_num (tree s) <= k < allocated_nodes_num (tree s) ->
                 exists a, get_slot k s = Ok (Ptr a, s)
                   /\ load (Ptr a) s' = Fail Undefined
          | Fail f => f = Oom
          end).
Proof.
  apply (shrink_keeps_tree false Z.sub Z.sub 4 (fun _ => true) 0
           [Call_insert 5; Call_insert 3]).
  - lia.
  - reflexivity.
  - left. reflexivity.
Defined.

(** X13: in the state left by a session of calls in which a slot of the
    arena is free, after [ptree_shrink] the insertion of a handle that
    compares equal to no element reads the table past its end: the capacity
    that [add_node] compares with the number of elements is the one from
    before the call of [ptree_shrink]. *)
Theorem insert_after_shrink_faults storage64 cmpf ck pre oracle cap calls v :
  0 <= pre < 2 ^ 31 -> forallb (call_ok storage64) calls = true ->
  storage64 = false \/ Z.of_nat (length calls) < 2 ^ 31 ->
  after_session (api_session storage64 cmpf ck pre (configured oracle cap) calls)
    (fun _ s => exists l,
       holds s l
       /\ forall s', ptree_shrink s = Ok (tt, s') ->
          nodes_num (tree s) < allocated_nodes_num (tree s) ->
          (forall x, x ∈ l -> cmpf v x <> 0) ->
          ptree_insert storage64 v s' = Fail Undefined).
Proof.
  intros Hpre Hall Hb.
  apply after_api_intro; [done|done|destruct Hb; [by left|right; lia]|].
  intros rs s t Hl Hok. exists (inorder t).
  split; [by eapply api_holds|]. intros s' Hrun Hroom Hno.
  pose proof Hok as [HI _ Hcm _ _ _]. pose proof HI as [Hrep Har _ _].
  pose proof (ar_num _ _ _ Har) as Hnum. pose proof (ar_len _ _ _ Har) as Hlen.
  pose proof (ar_count _ _ _ Har) as Hc. rewrite length_labels in Hc.
  pose proof (api_small _ _ _ _ _ _ Hok Hb) as Hsmall.
  pose proof (ptree_shrink_spec storage64 s t HI ltac:(lia)) as Hsp. unfold wpo in Hsp.
  rewrite Hrun in Hsp. destruct Hsp as [Hrep' Ht' Hm' Ha' Hfreed Hrest].
  assert (ins_path (cmp (tree s')) v t [] <> None) as Hp.
  { intros Hp. destruct (ins_path_present _ _ _ _ Hp) as (x & Hx & Hz).
    rewrite Ht' in Hz. simpl in Hz. rewrite Hcm in Hz. by apply (Hno x). }
  destruct (ptree_insert_starts storage64 s' t v Hrep') as (k & _ & ->);
    [by rewrite Ht'|done|].
  unfold add_node. rewrite bind_assoc. unfold bind at 1.
  rewrite (grow_if_full_room storage64 s') by (by rewrite Ht').
  unfold take_free_slot. rewrite !bind_assoc. unfold bind at 1, get_tree at 1.
  cbv beta iota. rewrite bind_assoc. unfold get_slot. rewrite bind_assoc.
  unfold bind at 1, get_tree at 1. cbv beta iota.
  rewrite Ht'. simpl. rewrite length_take.
  replace (nodes_num (tree s) <? _) with false; [by rewrite andb_false_r|].
  symmetry. apply Z.ltb_ge. lia.
Qed.

Lemma insert_after_shrink_witness :
  after_session
    (api_session false Z.sub Z.sub 4 (configured (fun _ => true) 0)
       [Call_insert 5; Call_insert 3])
    (fun _ s => exists l,
       holds s l
       /\ forall s', ptree_shrink s = Ok (tt, s') ->
          nodes_num (tree s) < allocated_nodes_num (tree s) ->
          (forall x, x ∈ l -> Z.sub 8 x <> 0) ->
          ptree_insert false 8 s' = Fail Undefined).
Proof.
  apply (insert_after_shrink_faults false Z.sub Z.sub 4 (fun _ => true) 0
           [Call_insert 5; Call_insert 3] 8).
  - lia.
  - reflexivity.
  - left. reflexivity.
Defined.

(** *** Every node object is in the table *)

(** There are as many node objects as the capacity says. *)
Definition tight (s : state) : Prop :=
  Z.of_nat (size (dom (heap (mem s)))) = allocated_nodes_num (tree s).

Lemma kept_tight s s' : kept s s' -> tight s -> tight s'.
Proof.
  intros Hk Ht. unfold tight in *. rewrite (kp_cap _ _ Hk), <- Ht.
  assert (dom (heap (mem s')) = dom (heap (mem s))) as ->; [|done].
  apply set_eq. intros a. rewrite !elem_of_dom. apply (kp_dom _ _ Hk).
Qed.

Section Tight.

Variable storage64 : bool.

Lemma allocate_tight s L n s' :
  arena storage64 s L -> 0 <= n <= max_nodes storage64 ->
  ptree_allocate_nodes storage64 n s = Ok (tt, s') -> tight s -> tight s'.
Proof.
  intros Har Hn Hrun Ht.
  pose proof (ar_num _ _ _ Har) as Hnum. pose proof (ar_max _ _ _ Har) as Hmax.
  pose proof (max_nodes_red storage64) as Hmr.
  pose proof (ptree_allocate_nodes_effect storage64 s n) as He.
  unfold allocate_effect in He. rewrite Hrun in He.
  rewrite (wrap_small storage64) in He by lia.
  replace (allocated_nodes_num (tree s) + n - allocated_nodes_num (tree s)) with n
    in He by lia.
  destruct He as (_ & _ & _ & Hdom & Hcap & _).
  unfold tight in *. rewrite Hcap, <- Ht.
  assert (dom (heap (mem s'))
          = dom (heap (mem s)) ∪ set_seq (allocs (mem s) + 1) (Z.to_nat n)) as ->.
  { apply set_eq. intros a.
    rewrite elem_of_union, !elem_of_dom, elem_of_set_seq. apply Hdom. }
  rewrite size_union, size_set_seq; [lia|].
  intros a Ha Hb. apply elem_of_dom in Ha. apply elem_of_set_seq in Hb.
  pose proof (ar_fresh _ _ _ Har a Ha). lia.
Qed.

Lemma run_call_tight cmpf ck k s t c r s' :
  api_ok storage64 cmpf ck k s t -> call_ok storage64 c = true ->
  run_call storage64 c s = Ok (r, s') -> tight s -> tight s'.
Proof.
  intros [HI _ _ _ _ _] Hc Hrun Ht. pose proof HI as [Hrep Har _ _].
  destruct c as [v|v|key| |n]; simpl in Hrun.
  - destruct (ins_path (cmp (tree s)) v t []) as [ctx'|] eqn:Hp.
    2: { rewrite (ptree_insert_dup storage64 s t v HI Hp) in Hrun. by injection Hrun as _ <-. }
    pose proof (ar_count _ _ _ Har) as Hcnt. rewrite length_labels in Hcnt.
    pose proof (insert_grows storage64 s t v Hrep Hcnt ltac:(by rewrite Hp)) as Hg.
    rewrite Hrun in Hg. destruct Hg as (s1 & Hg & Hk).
    apply (kept_tight s1 s' Hk).
    destruct (Z.leb_spec (allocated_nodes_num (tree s)) (nodes_num (tree s)))
      as [Hfull|Hroom].
    + rewrite (grow_if_full_full storage64 s Hfull) in Hg.
      destruct (growth_bounds storage64 s _ Har) as (_ & Hgb & _).
      pose proof (ar_max _ _ _ Har) as Hmax. pose proof (ar_num _ _ _ Har) as Hnum.
      assert (1 <= max_nodes storage64) as Hm1
        by (unfold max_nodes; destruct storage64; lia).
      apply (allocate_tight s _ (growth storage64 s) s1 Har); [lia|done|done].
    + rewrite (grow_if_full_room storage64 s Hroom) in Hg. by injection Hg as <-.
  - pose proof (quiet_ptree_remove storage64 v s) as Hq. unfold quiet_rel in Hq.
    rewrite Hrun in Hq. by apply (kept_tight s s').
  - pose proof (quiet_ptree_remove_by_key storage64 key s) as Hq. unfold quiet_rel in Hq.
    rewrite Hrun in Hq. by apply (kept_tight s s').
  - pose proof (quiet_ptree_empty s) as Hq. unfold quiet_rel in Hq.
    unfold bind in Hrun. destruct (ptree_empty s) as [[[] s1]|f]; [|done].
    injection Hrun as _ <-. by apply (kept_tight s s1).
  - apply andb_prop in Hc as [Hn0 Hn1]. apply Z.leb_le in Hn0, Hn1.
    unfold bind in Hrun.
    destruct (ptree_allocate_nodes storage64 n s) as [[[] s1]|f] eqn:Hal; [|done].
    injection Hrun as _ <-. pose proof (max_reserve_le storage64).
    apply (allocate_tight s _ n s1 Har); [lia|done|done].
Qed.

Lemma run_calls_tight cmpf ck calls : forall k s t rs s',
  api_ok storage64 cmpf ck k s t -> forallb (call_ok storage64) calls = true ->
  storage64 = false \/ Z.of_nat (k + length calls) <= 2 ^ 31 ->
  run_calls storage64 calls s = Ok (rs, s') -> tight s -> tight s'.
Proof.
  induction calls as [|c calls IH]; intros k s t rs s' Hok Hall Hb Hrun Ht.
  { by injection Hrun as _ <-. }
  simpl in Hall. apply andb_prop in Hall as [Hc Hall].
  cbn [run_calls] in Hrun. unfold bind at 1 in Hrun.
  pose proof (run_call_spec storage64 cmpf ck k s t c Hok Hc) as Hsp.
  specialize (Hsp ltac:(destruct Hb; [by left|right; lia])). unfold wpo in Hsp.
  destruct (run_call storage64 c s) as [[r s1]|f] eqn:Hr1; [|done].
  destruct Hsp as [t1 Hok1].
  pose proof (run_call_tight cmpf ck k s t c r s1 Hok Hc Hr1 Ht) as Ht1.
  unfold bind in Hrun.
  destruct (run_calls storage64 calls s1) as [[rs' s2]|f] eqn:Hr2; [|done].
  injection Hrun as _ <-.
  apply (IH (S k) s1 t1 rs' s2 Hok1 Hall); [|done|done].
  destruct Hb; [by left|right; simpl in *; lia].
Qed.

Lemma ptree_new_tight cmpf ck pre oracle cap s :
  0 <= pre < 2 ^ 31 ->
  ptree_new storage64 cmpf ck pre (configured oracle cap) = Ok s -> tight s.
Proof.
  intros Hpre Hnew. unfold ptree_new, configured in Hnew. simpl in Hnew.
  destruct (oracle 0%nat); [|done].
  set (s1 := State _ _) in Hnew.
  destruct (ptree_allocate_nodes storage64 (to_size_t pre) s1) as [[[] s2]|f] eqn:Hal;
    [|done].
  injection Hnew as <-.
  assert (to_size_t pre = pre) as Hp by (unfold to_size_t; apply Z.mod_small; lia).
  rewrite Hp in Hal.
  assert (arena storage64 s1 []) as Har.
  { constructor; simpl; try done; try lia.
    - unfold max_nodes. destruct storage64; lia.
    - apply Z.mod_pos_bound. lia.
    - apply NoDup_nil_2.
    - intros p Hin. by apply elem_of_nil in Hin.
    - intros a i Hin. by apply elem_of_nil in Hin.
    - intros a [n Hn]. simpl in Hn. by rewrite lookup_empty in Hn. }
  apply (allocate_tight s1 [] pre s2 Har); [|done|].
  - unfold max_nodes. destruct storage64; lia.
  - unfold tight, s1. simpl. by rewrite dom_empty_L, size_empty.
Qed.

(** [ptree_free] frees every node object, and each of them once. *)
Lemma ptree_free_spec s t :
  Inv storage64 s t -> tight s ->
  wp ptree_free s (fun _ s' => heap (mem s') = ∅ /\ nodes (tree s') = []).
Proof.
  intros [Hrep Har _ _] Ht.
  pose proof (ar_num _ _ _ Har) as Hnum. pose proof (ar_len _ _ _ Har) as Hlen.
  pose proof (ar_nodup _ _ _ Har) as Hnd.
  assert (forall k p, nodes (tree s) !! k = Some p ->
            exists a, p = Ptr a /\ is_Some (heap (mem s) !! a)) as Htbl.
  { intros k p Hk. apply (ar_table _ _ _ Har). by eapply list_elem_of_lookup_2. }
  unfold ptree_free. apply wp_bind, wp_get_tree. apply wp_bind.
  eapply wp_mono.
  { apply (free_loop_spec (Z.to_nat (allocated_nodes_num (tree s))) 0 s Hnd).
    intros k Hk. destruct (lookup_lt_is_Some_2 (nodes (tree s)) k) as [p Hp]; [lia|].
    destruct (Htbl k p Hp) as (a & -> & Ha). by exists a. }
  intros _ s1 (Ht1 & _ & Hfreed & Hrest).
  apply wp_put_tree. simpl. split; [|done].
  set (tbl := omap (fun p => match p with Ptr a => Some a | _ => None end)
                (nodes (tree s))).
  assert (Ptr <$> tbl = nodes (tree s)) as Hfm.
  { unfold tbl. clear -Htbl. revert Htbl.
    induction (nodes (tree s)) as [|p l IH]; intros Htbl; [done|].
    destruct (Htbl 0%nat p eq_refl) as (a & -> & _). simpl. f_equal.
    apply IH. intros k q Hk. apply (Htbl (S k) q Hk). }
  assert (list_to_set tbl = dom (heap (mem s))) as Heq.
  { apply set_subseteq_size_eq.
    - intros a Ha. apply elem_of_list_to_set in Ha. apply elem_of_dom.
      assert (Ptr a ∈ nodes (tree s)) as Hin.
      { rewrite <- Hfm. apply list_elem_of_fmap. by exists a. }
      destruct (ar_table _ _ _ Har _ Hin) as (b & [= <-] & Hb). done.
    - rewrite size_list_to_set.
      + assert (length tbl = length (nodes (tree s))) as Hl.
        { by rewrite <- Hfm, length_fmap. }
        unfold tight in Ht. lia.
      + apply (NoDup_fmap_1 Ptr). by rewrite Hfm. }
  apply map_empty. intros a.
  destruct (decide (a ∈ tbl)) as [Hin|Hnin].
  - assert (Ptr a ∈ nodes (tree s)) as Hp.
    { rewrite <- Hfm. apply list_elem_of_fmap. by exists a. }
    apply list_elem_of_lookup_1 in Hp as [k Hk].
    apply (Hfreed k a); [|done]. pose proof (lookup_lt_Some _ _ _ Hk). lia.
  - rewrite Hrest.
    + apply not_elem_of_dom. rewrite <- Heq. by rewrite elem_of_list_to_set.
    + intros k _ Hk. apply Hnin.
      assert (Ptr a ∈ Ptr <$> tbl) as Hp.
      { rewrite Hfm. by eapply list_elem_of_lookup_2. }
      apply list_elem_of_fmap in Hp as (b & [= <-] & Hb). done.
Qed.

End Tight.

(** X14: in the state left by a session of calls, [ptree_free] returns: it
    frees node objects that are allocated, each of them once, and when it
    returns no node object is left. *)
Theorem free_releases_all storage64 cmpf ck pre oracle cap calls :
  0 <= pre < 2 ^ 31 -> forallb (call_ok storage64) calls = true ->
  storage64 = false \/ Z.of_nat (length calls) < 2 ^ 31 ->
  after_session (api_session storage64 cmpf ck pre (configured oracle cap) calls)
    (fun _ s => exists s',
       ptree_free s = Ok (tt, s') /\ heap (mem s') = ∅ /\ nodes (tree s') = []).
Proof.
  intros Hpre Hall Hb.
  pose proof (api_session_spec storage64 cmpf ck pre oracle cap calls Hpre Hall) as Hsp.
  specialize (Hsp ltac:(destruct Hb; [by left|right; lia])).
  unfold api_session in *.
  pose proof (ptree_new_spec storage64 cmpf ck pre oracle cap Hpre) as Hnew.
  pose proof (ptree_new_tight storage64 cmpf ck pre oracle cap) as Hnt.
  destruct (ptree_new storage64 cmpf ck pre (configured oracle cap)) as [s0|f];
    [|by destruct f].
  destruct Hnew as (HI0 & Hn0 & Hc0 & Hk0 & Hal0).
  assert (api_ok storage64 cmpf ck 0 s0 E) as Hok0.
  { constructor; try done; [lia|intros _; constructor|right; lia]. }
  pose proof (run_calls_tight storage64 cmpf ck calls 0 s0 E) as Hrt.
  unfold after_session.
  destruct (run_calls storage64 calls s0) as [[rs s]|f]; [|by destruct f].
  destruct Hsp as (_ & t & [HI _ _ _ _ _]).
  assert (tight s) as Ht.
  { apply (Hrt rs s Hok0 Hall); [destruct Hb; [by left|right; simpl; lia]|done|].
    by apply Hnt. }
  pose proof (ptree_free_spec storage64 s t HI Ht) as Hf.
  apply wp_inv in Hf as ([] & s' & Hrun & Hh & Hn). by exists s'.
Qed.

Lemma free_releases_witness :
  after_session
    (api_session false Z.sub Z.sub 1 (configured (fun _ => true) 0)
       [Call_insert 5; Call_insert 3; Call_remove 5; Call_allocate_nodes 2])
    (fun _ s => exists s',
       ptree_free s = Ok (tt, s') /\ heap (mem s') = ∅ /\ nodes (tree s') = []).
Proof.
  apply (free_releases_all false Z.sub Z.sub 1 (fun _ => true) 0
           [Call_insert 5; Call_insert 3; Call_remove 5; Call_allocate_nodes 2]).
  - lia.
  - reflexivity.
  - left. reflexivity.
Defined.

(** ** Iteration backwards *)

(** A traversal from the last element: [ptree_max], then [ptree_it_prev]
    until it returns [NULL], collecting [it->ptr]. *)
Fixpoint traverse_back_from (fuel : nat) (it : pointer) : M (list Z) :=
  match fuel with
  | O => fail Timeout
  | S k =>
      if ptr_eqb it Null then ret []
      else
        do v <- get_ptr it ;;
        do b <- loop_bound ;;
        do prev <- ptree_it_prev b it ;;
        do rest <- traverse_back_from k prev ;;
        ret (v :: rest)
  end.

Definition traverse_back : M (list Z) :=
  do b <- loop_bound ;;
  do it <- ptree_max ;;
  traverse_back_from b it.

(** The last node of a subtree, with its context. *)
Fixpoint rightmost (sub : rbt) (ctx : list frame) : list frame * rbt :=
  match sub with
  | E => (ctx, E)
  | T c a i l v r =>
      match r with
      | E => (ctx, sub)
      | T _ _ _ _ _ _ => rightmost r (Frame true c a i v l :: ctx)
      end
  end.

(** The first ancestor reached from its right subtree. *)
Fixpoint climb_back (ctx : list frame) (sub : rbt) : option (list frame * rbt) :=
  match ctx with
  | [] => None
  | f :: ctx' => if fdir f then Some (ctx', fill f sub) else climb_back ctx' (fill f sub)
  end.

Definition predecessor (ctx : list frame) (sub : rbt) : option (list frame * rbt) :=
  match sub with
  | E => None
  | T c a i l v r =>
      match l with
      | E => climb_back ctx sub
      | T _ _ _ _ _ _ => Some (rightmost l (Frame false c a i v r :: ctx))
      end
  end.

(** The handles from a node back to the first, the last one first. *)
Definition preceding (ctx : list frame) (sub : rbt) : list Z :=
  match sub with
  | E => []
  | T _ _ _ l v _ => v :: rev (inorder l) ++ rev (before ctx)
  end.

Lemma rightmost_plug sub : forall ctx,
  plug (rightmost sub ctx).1 (rightmost sub ctx).2 = plug ctx sub.
Proof.
  induction sub as [|c a i l _ v r IHr]; intros ctx; [done|].
  destruct r as [|cr ar ir lr vr rr]; [done|].
  change (rightmost (T c a i l v (T cr ar ir lr vr rr)) ctx)
    with (rightmost (T cr ar ir lr vr rr) (Frame true c a i v l :: ctx)).
  by rewrite IHr.
Qed.

Lemma rightmost_shape sub : forall ctx,
  sub <> E -> exists c y i l v, (rightmost sub ctx).2 = T c y i l v E.
Proof.
  induction sub as [|c a i l _ v r IHr]; intros ctx Hne; [done|].
  destruct r as [|cr ar ir lr vr rr]; [by eexists _, _, _, _, _|].
  by apply IHr.
Qed.

Lemma rightmost_ne sub ctx : sub <> E -> (rightmost sub ctx).2 <> E.
Proof.
  intros Hne. destruct (rightmost_shape sub ctx Hne) as (c & y & i & l & v & ->). done.
Qed.

Lemma rightmost_preceding sub : forall ctx,
  sub <> E ->
  preceding (rightmost sub ctx).1 (rightmost sub ctx).2
  = rev (inorder sub) ++ rev (before ctx).
Proof.
  induction sub as [|c a i l _ v r IHr]; intros ctx Hne; [done|].
  destruct r as [|cr ar ir lr vr rr].
  - simpl. rewrite rev_app_distr. done.
  - change (rightmost (T c a i l v (T cr ar ir lr vr rr)) ctx)
      with (rightmost (T cr ar ir lr vr rr) (Frame true c a i v l :: ctx)).
    rewrite IHr by done. cbn [before fdir fsib fval inorder].
    rewrite !rev_app_distr. simpl. rewrite !rev_app_distr. simpl.
    by rewrite <- !app_assoc.
Qed.

Lemma climb_back_preceding ctx : forall sub,
  match climb_back ctx sub with
  | Some (ctx', sub') =>
      sub' <> E /\ plug ctx' sub' = plug ctx sub
      /\ preceding ctx' sub' = rev (before ctx)
  | None => before ctx = []
  end.
Proof.
  induction ctx as [|[[] c a i v sib] ctx IH]; intros sub; simpl; [done| |].
  - split_and!; [done|done|]. by rewrite !rev_app_distr.
  - specialize (IH (fill (Frame false c a i v sib) sub)).
    rewrite app_nil_r. destruct (climb_back ctx _) as [[ctx' sub']|]; done.
Qed.

Lemma predecessor_preceding ctx c a i l v r :
  match predecessor ctx (T c a i l v r) with
  | Some (ctx', sub') =>
      sub' <> E /\ plug ctx' sub' = plug ctx (T c a i l v r)
      /\ preceding ctx' sub' = rev (inorder l) ++ rev (before ctx)
  | None => rev (inorder l) ++ rev (before ctx) = []
  end.
Proof.
  destruct l as [|cl al il ll vl rl].
  - pose proof (climb_back_preceding ctx (T c a i E v r)) as Hc. cbn [predecessor].
    destruct (climb_back ctx _) as [[ctx' sub']|]; simpl; [done|]. by rewrite Hc.
  - cbn [predecessor].
    pose proof (rightmost_plug (T cl al il ll vl rl) (Frame false c a i v r :: ctx)) as Hp.
    pose proof (rightmost_preceding (T cl al il ll vl rl) (Frame false c a i v r :: ctx))
      as Hr.
    pose proof (rightmost_ne (T cl al il ll vl rl) (Frame false c a i v r :: ctx)) as Hn.
    destruct (rightmost _ _) as [ctx' sub']. simpl fst in *. simpl snd in *.
    split_and!; [by apply Hn|done|].
    rewrite Hr by done. cbn [before fdir]. by rewrite app_nil_r.
Qed.

Section Back.

Variable storage64 : bool.
Variables (s0 : state) (A : list nat).

Lemma descend_right_spec sub : forall ctx fuel s,
  sub <> E -> Rel storage64 s0 A s (plug ctx sub) -> (height sub <= fuel)%nat ->
  wp (descend fuel true (rootp sub)) s
    (fun p s' => s' = s /\ p = rootp (rightmost sub ctx).2).
Proof.
  induction sub as [|c a i l _ v r IHr]; intros ctx fuel s Hne H Hfuel; [done|].
  destruct fuel as [|k]; [simpl in Hfuel; lia|]. simpl in Hfuel.
  cbn [descend rootp]. rel_step.
  destruct r as [|cr ar ir lr vr rr]; cbn [rootp]; simp_ptr.
  - by apply wp_ret.
  - apply (IHr (Frame true c a i v l :: ctx) k s); [done|done|]. lia.
Qed.

Lemma ascend_back_spec ctx : forall sub fuel s,
  sub <> E -> Rel storage64 s0 A s (plug ctx sub) -> (length ctx < fuel)%nat ->
  wp (ascend fuel false (rootp sub) (ctx_par ctx)) s
    (fun p s' => s' = s
       /\ p = match climb_back ctx sub with
              | Some (_, sub') => rootp sub'
              | None => Leaf
              end).
Proof.
  induction ctx as [|[[] cf af jf vf sf] ctx IH]; intros sub fuel s Hne H Hfuel.
  - destruct fuel; [simpl in Hfuel; lia|]. by apply wp_ret.
  - destruct fuel as [|k]; [simpl in Hfuel; lia|]. simpl in Hfuel.
    destruct sub as [|c x i l v r]; [done|].
    pose proof (rel_nodup _ _ _ _ _ H) as Hnd. rewrite addrs_plug in Hnd.
    simpl in Hnd. all_neq Hnd.
    cbn [ascend ctx_par faddr rootp climb_back fdir]. simp_ptr.
    rel_step.
    try rewrite (ptr_eqb_ne (Ptr x)) by (apply not_eq_sym, rootp_not_in; notin_by Hnd).
    by apply wp_ret.
  - destruct fuel as [|k]; [simpl in Hfuel; lia|]. simpl in Hfuel.
    destruct sub as [|c x i l v r]; [done|].
    cbn [ascend ctx_par faddr rootp climb_back fdir]. simp_ptr.
    rel_step. rel_step.
    apply (IH (fill (Frame false cf af jf vf sf) (T c x i l v r)) k s); [done|done|lia].
Qed.

Lemma prev_spec ctx c a i l v r fuel s :
  Rel storage64 s0 A s (plug ctx (T c a i l v r)) ->
  (height l <= fuel)%nat -> (length ctx < fuel)%nat ->
  wp (get_prev_node fuel (Ptr a)) s
    (fun p s' => s' = s /\ p = found (predecessor ctx (T c a i l v r))).
Proof.
  intros H Hh Hl. unfold get_prev_node, step_node. rel_step. rel_step.
  destruct l as [|cl al il ll vl rl]; cbn [rootp]; simp_ptr.
  - rel_step. apply wp_bind. eapply wp_mono.
    { apply (ascend_back_spec ctx (T c a i E v r) fuel s); done. }
    intros p s' [-> ->]. apply wp_ret. split; [done|]. cbn [predecessor].
    pose proof (climb_back_preceding ctx (T c a i E v r)) as Hc.
    destruct (climb_back ctx (T c a i E v r)) as [[ctx' sub']|]; simpl; [|done].
    destruct Hc as [Hne _]. by destruct sub'.
  - cbn [negb predecessor found].
    eapply wp_mono.
    { apply (descend_right_spec (T cl al il ll vl rl)
               (Frame false c a i v r :: ctx) fuel s); done. }
    intros p s' [-> ->]. split; [done|]. by destruct (rightmost _ _).
Qed.

Lemma traverse_back_from_spec fuel : forall ctx sub s,
  sub <> E -> Rel storage64 s0 A s (plug ctx sub) ->
  Z.of_nat (length (addrs (plug ctx sub))) = nodes_num (tree s) ->
  (length (preceding ctx sub) < fuel)%nat ->
  wp (traverse_back_from fuel (rootp sub)) s
    (fun l s' => s' = s /\ l = preceding ctx sub).
Proof.
  induction fuel as [|k IH]; intros ctx sub s Hne H Hnn Hfuel; [lia|].
  destruct sub as [|c a i l v r]; [done|].
  cbn [traverse_back_from rootp preceding] in *. simp_ptr.
  rel_step. rel_step.
  assert (height l <= length (addrs (plug ctx (T c a i l v r)))
          /\ length ctx <= length (addrs (plug ctx (T c a i l v r))))%nat as [Hh Hl].
  { rewrite length_addrs_plug. simpl. rewrite length_app.
    pose proof (height_le_size l). pose proof (length_addrs_ctx ctx). lia. }
  apply wp_bind. eapply wp_mono.
  { unfold ptree_it_prev. apply (prev_spec ctx c a i l v r _ s); [done|lia|lia]. }
  intros p s' [-> ->].
  pose proof (predecessor_preceding ctx c a i l v r) as Hs.
  destruct (predecessor ctx (T c a i l v r)) as [[ctx' sub']|]; simpl.
  - destruct Hs as (Hne' & Hplug & Hrem).
    apply wp_bind. eapply wp_mono.
    { apply (IH ctx' sub' s); [done|by rewrite Hplug|by rewrite Hplug|].
      rewrite Hrem. simpl in Hfuel. lia. }
    intros rest s' [-> ->]. apply wp_ret. by rewrite Hrem.
  - destruct k; [simpl in Hfuel; lia|]. simpl. apply wp_ret. by rewrite Hs.
Qed.

End Back.

Lemma ptree_max_spec storage64 s t :
  Inv storage64 s t ->
  wp ptree_max s (fun p s' => s' = s
    /\ p = match t with E => Null | _ => rootp (rightmost t []).2 end).
Proof.
  intros HI. pose proof (fuel_enough _ _ _ HI) as Hfuel. destruct HI as [Hrep _ _ _].
  assert (Rel storage64 s (addrs t) s t) as H by (by apply Rel_refl).
  unfold ptree_max, ptree_extreme. apply wp_bind, wp_loop_bound. rel_step.
  destruct t as [|c a i l v r]; cbn [rootp]; simp_ptr; [by apply wp_ret|].
  apply (descend_right_spec storage64 s (addrs (T c a i l v r)) (T c a i l v r) [] _ s);
    [done|done|lia].
Qed.

(** A traversal backwards yields the handles in the reverse order. *)
Lemma traverse_back_spec storage64 s t :
  Inv storage64 s t -> wp traverse_back s (fun l s' => s' = s /\ l = rev (inorder t)).
Proof.
  intros HI. pose proof HI as [Hrep Har _ _].
  pose proof (ar_count _ _ _ Har) as Hc. rewrite length_labels in Hc.
  assert (Rel storage64 s (addrs t) s t) as H by (by apply Rel_refl).
  unfold traverse_back. apply wp_bind, wp_loop_bound.
  apply wp_bind. eapply wp_mono; [by apply (ptree_max_spec storage64 s t)|].
  intros p s' [-> ->].
  destruct t as [|c a i l v r]; [by apply wp_ret|].
  pose proof (rightmost_plug (T c a i l v r) []) as Hp.
  pose proof (rightmost_preceding (T c a i l v r) []) as Hr.
  pose proof (rightmost_ne (T c a i l v r) []) as Hn.
  pose proof (length_inorder (T c a i l v r)) as Hli.
  destruct (rightmost (T c a i l v r) []) as [ctx' sub']. simpl in Hp, Hr, Hn.
  simpl snd. rewrite app_nil_r in Hr by done.
  eapply wp_mono.
  { apply (traverse_back_from_spec storage64 s (addrs (T c a i l v r)) _ ctx' sub' s).
    - by apply Hn.
    - by rewrite Hp.
    - by rewrite Hp.
    - rewrite Hr by done. rewrite length_rev. simpl in Hli, Hc |- *. lia. }
  intros rest s' [-> ->]. by rewrite Hr.
Qed.

(** *** Which node holds an element *)

Lemma handles_values t : (handles t).*2 ≡ₚ inorder t.
Proof.
  induction t as [|c a i l IHl v r IHr]; simpl; [done|].
  rewrite fmap_app, IHl, IHr. solve_Permutation.
Qed.

Lemma NoDup_fmap_eq {X Y} (f : X -> Y) (l : list X) x y :
  NoDup (f <$> l) -> x ∈ l -> y ∈ l -> f x = f y -> x = y.
Proof.
  induction l as [|z l IH]; intros Hnd Hx Hy Hf; [by apply elem_of_nil in Hx|].
  rewrite fmap_cons in Hnd. apply NoDup_cons in Hnd as [Hz Hnd].
  apply elem_of_cons in Hx as [->|Hx]; apply elem_of_cons in Hy as [->|Hy]; auto.
  - exfalso. apply Hz. rewrite Hf. apply list_elem_of_fmap. by exists y.
  - exfalso. apply Hz. rewrite <- Hf. apply list_elem_of_fmap. by exists x.
Qed.

Lemma sorted_NoDup f l : cmp_ok f -> sorted f l -> NoDup l.
Proof.
  intros Hf. induction 1 as [|x l Hs IH Hall]; [apply NoDup_nil_2|].
  apply NoDup_cons. split; [|done]. intros Hin.
  pose proof (proj1 (Forall_forall _ _) Hall x Hin) as Hlt. unfold lt_of in Hlt.
  pose proof (cmp_refl f Hf x). lia.
Qed.

(** In a tree whose elements are in increasing order, one node holds a given
    element. *)
Lemma node_of_value f t c1 k1 a1 i1 l1 v r1 c2 k2 a2 i2 l2 r2 :
  cmp_ok f -> sorted f (inorder t) ->
  plug c1 (T k1 a1 i1 l1 v r1) = t -> plug c2 (T k2 a2 i2 l2 v r2) = t -> a1 = a2.
Proof.
  intros Hf Hs H1 H2.
  assert ((a1, v) ∈ handles t) as Hin1.
  { rewrite <- H1, handles_plug. simpl. apply list_elem_of_here. }
  assert ((a2, v) ∈ handles t) as Hin2.
  { rewrite <- H2, handles_plug. simpl. apply list_elem_of_here. }
  assert (NoDup (handles t).*2) as Hnd.
  { rewrite handles_values. by eapply sorted_NoDup. }
  by injection (NoDup_fmap_eq snd (handles t) (a1, v) (a2, v) Hnd Hin1 Hin2 eq_refl).
Qed.

Lemma rightmost_last sub c y i l v r :
  (rightmost sub []).2 = T c y i l v r -> exists l', inorder sub = l' ++ [v].
Proof.
  intros Hsh. assert (sub <> E) as Hne by (intros ->; done).
  pose proof (rightmost_preceding sub [] Hne) as Hp. rewrite Hsh in Hp.
  simpl in Hp. rewrite !app_nil_r in Hp.
  exists (before (rightmost sub []).1 ++ inorder l).
  rewrite <- (rev_involutive (inorder sub)), <- Hp. simpl.
  by rewrite rev_app_distr, !rev_involutive.
Qed.

(** X15: in the state left by a session of calls, the traversal from
    [ptree_max] by [ptree_it_prev] yields the handles of the traversal from
    [ptree_min] by [ptree_it_next], in the reverse order, and leaves the
    state as it is. *)
Theorem backward_traversal_reverses storage64 cmpf ck pre oracle cap calls :
  0 <= pre < 2 ^ 31 -> forallb (call_ok storage64) calls = true ->
  storage64 = false \/ Z.of_nat (length calls) < 2 ^ 31 ->
  after_session (api_session storage64 cmpf ck pre (configured oracle cap) calls)
    (fun _ s => exists l, holds s l /\ traverse_back s = Ok (rev l, s)).
Proof.
  intros Hpre Hall Hb.
  apply after_api_intro; [done|done|destruct Hb; [by left|right; lia]|].
  intros rs s t Hl Hok. exists (inorder t).
  split; [by eapply api_holds|]. destruct Hok as [HI _ _ _ _ _].
  apply wp_run. by apply (traverse_back_spec storage64).
Qed.

Lemma backward_traversal_witness :
  after_session
    (api_session false Z.sub Z.sub 0 (configured (fun _ => true) 0)
       [Call_insert 5; Call_insert 3; Call_insert 8; Call_remove 5; Call_insert 4])
    (fun _ s => exists l, holds s l /\ traverse_back s = Ok (rev l, s)).
Proof.
  apply (backward_traversal_reverses false Z.sub Z.sub 0 (fun _ => true) 0
           [Call_insert 5; Call_insert 3; Call_insert 8; Call_remove 5; Call_insert 4]).
  - lia.
  - reflexivity.
  - left. reflexivity.
Defined.

(** X16: in the state left by a session of calls, [ptree_min] and
    [ptree_max] return null when the tree is empty, and otherwise the nodes
    that hold the first and the last handle of the traversal. *)
Theorem min_max_are_ends storage64 cmpf ck pre oracle cap calls :
  0 <= pre < 2 ^ 31 -> forallb (call_ok storage64) calls = true ->
  storage64 = false \/ Z.of_nat (length calls) < 2 ^ 31 ->
  after_session (api_session storage64 cmpf ck pre (configured oracle cap) calls)
    (fun _ s => exists l,
       holds s l
       /\ (l = [] -> ptree_min s = Ok (Null, s) /\ ptree_max s = Ok (Null, s))
       /\ (forall e l', l = e :: l' ->
           exists a, ptree_min s = Ok (Ptr a, s) /\ get_ptr (Ptr a) s = Ok (e, s))
       /\ (forall l' e, l = l' ++ [e] ->
           exists b, ptree_max s = Ok (Ptr b, s) /\ get_ptr (Ptr b) s = Ok (e, s))).
Proof.
  intros Hpre Hall Hb.
  apply after_api_intro; [done|done|destruct Hb; [by left|right; lia]|].
  intros rs s t Hl Hok. exists (inorder t).
  split; [by eapply api_holds|]. destruct Hok as [HI _ _ _ _ _].
  pose proof (ptree_min_spec storage64 s t HI) as Hmin.
  pose proof (ptree_max_spec storage64 s t HI) as Hmax.
  apply wp_inv in Hmin as (p & s1 & Hmin & -> & ->).
  apply wp_inv in Hmax as (q & s2 & Hmax & -> & ->).
  destruct t as [|c a i l v r].
  { split_and!; [done|done|]. intros l' e Hl'. by destruct l'. }
  split; [intros Hnil; simpl in Hnil; by destruct (inorder l)|].
  assert (T c a i l v r <> E) as Hne by done.
  revert Hmin Hmax HI Hne. generalize (T c a i l v r). intros t Hmin Hmax HI Hne.
  assert (ptree_min s = Ok (rootp (leftmost t []).2, s)) as Hmin'
    by (by destruct t).
  assert (ptree_max s = Ok (rootp (rightmost t []).2, s)) as Hmax'
    by (by destruct t).
  pose proof (leftmost_plug t []) as Hlp. pose proof (rightmost_plug t []) as Hrp.
  destruct (leftmost_shape t [] Hne) as (cl & y & iy & vy & ry & Hls).
  destruct (rightmost_shape t [] Hne) as (cr & z & iz & lz & vz & Hrs).
  destruct (leftmost_first t _ _ _ _ _ _ Hls) as (Hhd & _ & _).
  destruct (rightmost_last t _ _ _ _ _ _ Hrs) as (lr & Hlast).
  rewrite Hls in Hlp, Hmin'. rewrite Hrs in Hrp, Hmax'. simpl in Hlp, Hrp.
  split.
  - intros e l' Hl'. exists y. split; [done|]. rewrite Hl' in Hhd. simpl in Hhd.
    subst e. eapply (found_ptr storage64). rewrite Hlp. exact HI.
  - intros l' e Hl'. exists z. split; [done|]. rewrite Hlast in Hl'.
    apply app_inj_tail in Hl' as [_ <-].
    eapply (found_ptr storage64). rewrite Hrp. exact HI.
Qed.

Lemma min_max_witness :
  after_session
    (api_session false Z.sub Z.sub 0 (configured (fun _ => true) 0)
       [Call_insert 5; Call_insert 3; Call_insert 8])
    (fun _ s => exists l,
       holds s l
       /\ (l = [] -> ptree_min s = Ok (Null, s) /\ ptree_max s = Ok (Null, s))
       /\ (forall e l', l = e :: l' ->
           exists a, ptree_min s = Ok (Ptr a, s) /\ get_ptr (Ptr a) s = Ok (e, s))
       /\ (forall l' e, l = l' ++ [e] ->
           exists b, ptree_max s = Ok (Ptr b, s) /\ get_ptr (Ptr b) s = Ok (e, s))).
Proof.
  apply (min_max_are_ends false Z.sub Z.sub 0 (fun _ => true) 0
           [Call_insert 5; Call_insert 3; Call_insert 8]).
  - lia.
  - reflexivity.
  - left. reflexivity.
Defined.

Section Neighbours.

Variable storage64 : bool.

(** The node that [ptree_has] returns for an element, and its place. *)
Lemma has_node cmpf ck k s t l1 e l2 :
  api_ok storage64 cmpf ck k s t -> cmp_ok cmpf -> inorder t = l1 ++ e :: l2 ->
  exists cz c z iz lt rt,
    ptree_has e s = Ok (Ptr z, s)
    /\ plug cz (T c z iz lt e rt) = t
    /\ before cz ++ inorder lt = l1 /\ inorder rt ++ after cz = l2.
Proof.
  intros [HI _ Hc _ Hs _] Hf Hin.
  destruct (locate cmpf Hf t e l1 e l2 (Hs Hf) Hin (cmp_refl cmpf Hf e))
    as (cz & c & z & iz & lt & rt & Hfp & Hplug & H1 & H2).
  exists cz, c, z, iz, lt, rt. split_and!; try done.
  pose proof (ptree_search_spec storage64 s t e HI) as Hsp. rewrite Hc, Hfp in Hsp.
  apply wp_inv in Hsp as (p & s' & Hrun & -> & ->).
  unfold ptree_has, bind. by rewrite Hrun.
Qed.

Lemma enough_fuel s cz c z iz lt e rt fuel :
  Inv storage64 s (plug cz (T c z iz lt e rt)) ->
  (Z.to_nat (nodes_num (tree s)) < fuel)%nat ->
  (height lt <= fuel /\ height rt <= fuel /\ length cz < fuel)%nat.
Proof.
  intros [_ Har _ _] Hfuel.
  pose proof (ar_count _ _ _ Har) as Hc.
  rewrite length_labels, length_addrs_plug in Hc. simpl in Hc.
  rewrite length_app in Hc.
  pose proof (height_le_size lt). pose proof (height_le_size rt).
  pose proof (length_addrs_ctx cz). lia.
Qed.

Lemma next_node s cz c z iz lt e rt fuel :
  Inv storage64 s (plug cz (T c z iz lt e rt)) ->
  (Z.to_nat (nodes_num (tree s)) < fuel)%nat ->
  ptree_it_next fuel (Ptr z) s = Ok (found (successor cz (T c z iz lt e rt)), s).
Proof.
  intros HI Hfuel. destruct (enough_fuel _ _ _ _ _ _ _ _ _ HI Hfuel) as (_ & Hr & Hc).
  destruct HI as [Hrep _ _ _].
  apply wp_run. unfold ptree_it_next.
  apply (next_spec storage64 s (addrs (plug cz (T c z iz lt e rt)))); [|done|done].
  by apply Rel_refl.
Qed.

Lemma prev_node s cz c z iz lt e rt fuel :
  Inv storage64 s (plug cz (T c z iz lt e rt)) ->
  (Z.to_nat (nodes_num (tree s)) < fuel)%nat ->
  ptree_it_prev fuel (Ptr z) s = Ok (found (predecessor cz (T c z iz lt e rt)), s).
Proof.
  intros HI Hfuel. destruct (enough_fuel _ _ _ _ _ _ _ _ _ HI Hfuel) as (Hl & _ & Hc).
  destruct HI as [Hrep _ _ _].
  apply wp_run. unfold ptree_it_prev.
  apply (prev_spec storage64 s (addrs (plug cz (T c z iz lt e rt)))); [|done|done].
  by apply Rel_refl.
Qed.

End Neighbours.

(** X17: in the state left by a session of calls with the comparator of a
    total order, [ptree_it_next] of the node of an element returns the node
    of the next element of the traversal and [ptree_it_prev] of that node
    returns the first one; [ptree_it_prev] of the node of the first element
    and [ptree_it_next] of the node of the last one return null. *)
Theorem next_prev_are_neighbours storage64 cmpf ck pre oracle cap calls :
  cmp_ok cmpf ->
  0 <= pre < 2 ^ 31 -> forallb (call_ok storage64) calls = true ->
  storage64 = false \/ Z.of_nat (length calls) < 2 ^ 31 ->
  after_session (api_session storage64 cmpf ck pre (configured oracle cap) calls)
    (fun _ s => exists l,
       holds s l
       /\ forall fuel, (Z.to_nat (nodes_num (tree s)) < fuel)%nat ->
          (forall l1 e1 e2 l2, l = l1 ++ e1 :: e2 :: l2 ->
             exists a1 a2,
               ptree_has e1 s = Ok (Ptr a1, s) /\ ptree_has e2 s = Ok (Ptr a2, s)
               /\ ptree_it_next fuel (Ptr a1) s = Ok (Ptr a2, s)
               /\ ptree_it_prev fuel (Ptr a2) s = Ok (Ptr a1, s))
          /\ (forall e l', l = e :: l' ->
              exists a, ptree_has e s = Ok (Ptr a, s)
                /\ ptree_it_prev fuel (Ptr a) s = Ok (Null, s))
          /\ (forall l' e, l = l' ++ [e] ->
              exists a, ptree_has e s = Ok (Ptr a, s)
                /\ ptree_it_next fuel (Ptr a) s = Ok (Null, s))).
Proof.
  intros Hf Hpre Hall Hb.
  apply after_api_intro; [done|done|destruct Hb; [by left|right; lia]|].
  intros rs s t Hl Hok. exists (inorder t).
  split; [by eapply api_holds|]. intros fuel Hfuel.
  pose proof Hok as [HI _ _ _ Hs _]. split_and!.
  - intros l1 e1 e2 l2 Hin.
    destruct (has_node storage64 _ _ _ _ _ l1 e1 (e2 :: l2) Hok Hf Hin)
      as (cz1 & c1 & z1 & i1 & lt1 & rt1 & Hhas1 & Hp1 & Hb1 & Ha1).
    assert (inorder t = (l1 ++ [e1]) ++ e2 :: l2) as Hin2 by (by rewrite <- app_assoc).
    destruct (has_node storage64 _ _ _ _ _ (l1 ++ [e1]) e2 l2 Hok Hf Hin2)
      as (cz2 & c2 & z2 & i2 & lt2 & rt2 & Hhas2 & Hp2 & Hb2 & Ha2).
    exists z1, z2. split_and!; [done|done| |].
    + rewrite <- Hp1 in HI. rewrite (next_node storage64 _ _ _ _ _ _ _ _ fuel HI Hfuel).
      pose proof (successor_remaining cz1 c1 z1 i1 lt1 e1 rt1) as Hsr.
      rewrite Ha1 in Hsr.
      destruct (successor cz1 _) as [[ctx' sub']|]; [|done].
      destruct Hsr as (Hne & Hplug & Hrem).
      destruct sub' as [|c' a' i' l' v' r']; [done|].
      simpl in Hrem. injection Hrem as -> _. simpl. do 3 f_equal.
      apply (node_of_value cmpf t ctx' c' a' i' l' e2 r' cz2 c2 z2 i2 lt2 rt2 Hf (Hs Hf));
        [by rewrite Hplug|done].
    + rewrite <- Hp2 in HI. rewrite (prev_node storage64 _ _ _ _ _ _ _ _ fuel HI Hfuel).
      pose proof (predecessor_preceding cz2 c2 z2 i2 lt2 e2 rt2) as Hsr.
      rewrite <- rev_app_distr, Hb2, rev_app_distr in Hsr.
      change (rev [e1] ++ rev l1) with (e1 :: rev l1) in Hsr.
      destruct (predecessor cz2 _) as [[ctx' sub']|]; [|done].
      destruct Hsr as (Hne & Hplug & Hrem).
      destruct sub' as [|c' a' i' l' v' r']; [done|].
      simpl in Hrem. injection Hrem as -> _. simpl. do 3 f_equal.
      apply (node_of_value cmpf t ctx' c' a' i' l' e1 r' cz1 c1 z1 i1 lt1 rt1 Hf (Hs Hf));
        [by rewrite Hplug|done].
  - intros e l' Hin.
    destruct (has_node storage64 _ _ _ _ _ [] e l' Hok Hf Hin)
      as (cz & c & z & i & lt & rt & Hhas & Hp & Hb1 & Ha1).
    exists z. split; [done|].
    rewrite <- Hp in HI. rewrite (prev_node storage64 _ _ _ _ _ _ _ _ fuel HI Hfuel).
    pose proof (predecessor_preceding cz c z i lt e rt) as Hsr.
    rewrite <- rev_app_distr, Hb1 in Hsr. change (rev []) with (@nil Z) in Hsr.
    destruct (predecessor cz _) as [[ctx' sub']|]; [|done].
    destruct Hsr as (Hne & _ & Hrem). by destruct sub'.
  - intros l' e Hin.
    destruct (has_node storage64 _ _ _ _ _ l' e [] Hok Hf Hin)
      as (cz & c & z & i & lt & rt & Hhas & Hp & Hb1 & Ha1).
    exists z. split; [done|].
    rewrite <- Hp in HI. rewrite (next_node storage64 _ _ _ _ _ _ _ _ fuel HI Hfuel).
    pose proof (successor_remaining cz c z i lt e rt) as Hsr.
    rewrite Ha1 in Hsr.
    destruct (successor cz _) as [[ctx' sub']|]; [|done].
    destruct Hsr as (Hne & _ & Hrem). by destruct sub'.
Qed.

Lemma next_prev_witness :
  after_session
    (api_session false Z.sub Z.sub 0 (configured (fun _ => true) 0)
       [Call_insert 5; Call_insert 3; Call_insert 8])
    (fun _ s => exists l,
       holds s l
       /\ forall fuel, (Z.to_nat (nodes_num (tree s)) < fuel)%nat ->
          (forall l1 e1 e2 l2, l = l1 ++ e1 :: e2 :: l2 ->
             exists a1 a2,
               ptree_has e1 s = Ok (Ptr a1, s) /\ ptree_has e2 s = Ok (Ptr a2, s)
               /\ ptree_it_next fuel (Ptr a1) s = Ok (Ptr a2, s)
               /\ ptree_it_prev fuel (Ptr a2) s = Ok (Ptr a1, s))
          /\ (forall e l', l = e :: l' ->
              exists a, ptree_has e s = Ok (Ptr a, s)
                /\ ptree_it_prev fuel (Ptr a) s = Ok (Null, s))
          /\ (forall l' e, l = l' ++ [e] ->
              exists a, ptree_has e s = Ok (Ptr a, s)
                /\ ptree_it_next fuel (Ptr a) s = Ok (Null, s))).
Proof.
  apply (next_prev_are_neighbours false Z.sub Z.sub 0 (fun _ => true) 0
           [Call_insert 5; Call_insert 3; Call_insert 8] cmp_ok_sub).
  - lia.
  - reflexivity.
  - left. reflexivity.
Defined.

(** ** Calls one after the other *)

Section Lookup.

Variable storage64 : bool.

Lemma has_api cmpf ck k s t v :
  api_ok storage64 cmpf ck k s t -> cmp_ok cmpf ->
  (forall e, e ∈ inorder t -> cmpf v e = 0 ->
     exists a, ptree_has v s = Ok (Ptr a, s) /\ get_ptr (Ptr a) s = Ok (e, s))
  /\ ((forall x, x ∈ inorder t -> cmpf v x <> 0) -> ptree_has v s = Ok (Null, s)).
Proof.
  intros [HI _ Hc _ Hs _] Hf.
  pose proof (ptree_search_spec storage64 s t v HI) as Hsp. rewrite Hc in Hsp.
  apply wp_inv in Hsp as (p & s' & Hrun & -> & ->).
  unfold ptree_has, bind. rewrite Hrun. split.
  - intros e [l1 [l2 Hin]]%list_elem_of_split He.
    destruct (locate cmpf Hf t v l1 e l2 (Hs Hf) Hin He)
      as (cz & c & z & iz & lt & rt & Hfp & Hplug & _).
    rewrite Hfp. exists z. split; [done|].
    rewrite <- Hplug in HI. by eapply found_ptr.
  - intros Hno. by rewrite (find_path_none cmpf v t Hno).
Qed.

End Lookup.

Lemma ref_insert_elem f v l : cmp_ok f -> v ∈ ref_insert f v l \/ exists x, x ∈ l /\ f v x = 0.
Proof.
  intros Hf. induction l as [|x l IH]; simpl; [left; apply list_elem_of_here|].
  destruct (Z.eqb_spec (f v x) 0) as [Heq|Hne].
  - right. exists x. split; [apply list_elem_of_here|done].
  - destruct (0 <? f v x).
    + destruct IH as [IH|(y & Hy & Hz)].
      * left. by apply list_elem_of_further.
      * right. exists y. split; [by apply list_elem_of_further|done].
    + left. apply list_elem_of_here.
Qed.

(** X18: in the state left by a session of calls with the comparator of a
    total order: after [ptree_insert] of a handle has returned 1,
    [ptree_has] of that handle returns a node that holds it; after it has
    returned 0, [ptree_has] returns the node of the element that compares
    equal; and after [ptree_remove] of a handle, [ptree_has] of that handle
    returns null. *)
Theorem lookup_after_update storage64 cmpf ck pre oracle cap calls v :
  cmp_ok cmpf ->
  0 <= pre < 2 ^ 31 -> forallb (call_ok storage64) calls = true ->
  storage64 = false \/ Z.of_nat (length calls) + 1 < 2 ^ 31 ->
  after_session (api_session storage64 cmpf ck pre (configured oracle cap) calls)
    (fun _ s =>
       match ptree_insert storage64 v s with
       | Ok (r, s') =>
           exists a x, ptree_has v s' = Ok (Ptr a, s')
             /\ get_ptr (Ptr a) s' = Ok (x, s') /\ cmpf v x = 0
             /\ (r = true -> x = v)
       | Fail f => f = Oom
       end
       /\ exists r s', ptree_remove storage64 v s = Ok (r, s')
            /\ ptree_has v s' = Ok (Null, s')).
Proof.
  intros Hf Hpre Hall Hb.
  apply after_api_intro; [done|done|destruct Hb; [by left|right; lia]|].
  intros rs s t Hl Hok. pose proof Hok as [HI Hn Hc Hk Hs Hroom].
  assert (nodes_num (tree s) <= 2 ^ 31) as H31.
  { destruct Hb as [Hb|Hb]; [by eapply Inv_small|lia]. }
  split.
  - destruct (ins_path cmpf v t []) as [ctx'|] eqn:Hp.
    + assert (forall x, x ∈ inorder t -> cmpf v x <> 0) as Hno.
      { intros x Hx Hz.
        pose proof (insert_ref s t v) as Href. rewrite Hc, Hp in Href.
        destruct (Href Hf (Hs Hf)) as (Hnp & _). apply Hnp. by exists x. }
      destruct (insert_new_api storage64 cmpf ck _ s t v Hok Hf
              ltac:(destruct Hb; [by left|right; lia]) Hno) as [_ Hins].
      destruct (ptree_insert storage64 v s) as [[r s']|f]; [|done].
      destruct Hins as (-> & t' & Hok' & Hin).
      assert (v ∈ inorder t') as Hv.
      { rewrite Hin. destruct (ref_insert_elem cmpf v (inorder t) Hf)
          as [?|(x & Hx & Hz)]; [done|]. by destruct (Hno x). }
      destruct (has_api storage64 cmpf ck _ s' t' v Hok' Hf) as [Hhas _].
      destruct (Hhas v Hv (cmp_refl cmpf Hf v)) as (a & Ha & Hg).
      exists a, v. split_and!; try done. by apply cmp_refl.
    + rewrite <- Hc in Hp. rewrite (ptree_insert_dup storage64 s t v HI Hp).
      rewrite Hc in Hp. destruct (ins_path_present _ _ _ _ Hp) as (x & Hx & Hz).
      destruct (has_api storage64 cmpf ck _ s t v Hok Hf) as [Hhas _].
      destruct (Hhas x Hx Hz) as (a & Ha & Hg).
      exists a, x. split_and!; try done.
  - pose proof (run_op_spec storage64 s t (Remove v) HI H31) as Hsp.
    pose proof (quiet_ptree_remove storage64 v s) as Hq.
    unfold wpo in Hsp. unfold quiet_rel in Hq. simpl in Hsp.
    destruct (ptree_remove storage64 v s) as [[r s']|f]; [|by destruct f].
    exists r, s'. split; [done|].
    destruct Hsp as (t' & [HI' Hn' Hc' Hk' _ Hr']).
    rewrite Hc in Hr'. destruct (Hr' Hf (Hs Hf)) as [Hs' Hin'].
    assert (api_ok storage64 cmpf ck (S (length calls)) s' t') as Hok'.
    { constructor; [done| |congruence|congruence|done|].
      - rewrite Hn'. destruct r; simpl; lia.
      - destruct Hroom as [Hroom|Hroom]; [by left|right].
        rewrite (kp_cap _ _ Hq). lia. }
    destruct (has_api storage64 cmpf ck _ s' t' v Hok' Hf) as [_ Hnone].
    apply Hnone. intros x Hx Hz. rewrite Hin' in Hx. simpl in Hx.
    clear -Hf Hs Hx Hz. specialize (Hs Hf). revert Hs Hx.
    induction (inorder t) as [|y l IH]; intros Hs Hx; simpl in Hx.
    { by apply elem_of_nil in Hx. }
    apply StronglySorted_cons in Hs as [Hall Hs].
    destruct (Z.eqb_spec (cmpf v y) 0) as [Heq|Hne].
    + pose proof (proj1 (Forall_forall _ _) Hall x Hx) as Hlt. unfold lt_of in Hlt.
      pose proof (cmp_eq_trans cmpf Hf v y x Heq Hz). lia.
    + destruct (Z.ltb_spec 0 (cmpf v y)) as [Hgt|Hle].
      * apply elem_of_cons in Hx as [->|Hx]; [done|]. by apply IH.
      * apply elem_of_cons in Hx as [->|Hx]; [done|].
        pose proof (proj1 (Forall_forall _ _) Hall x Hx) as Hlt. unfold lt_of in Hlt.
        pose proof (cmp_lt_le cmpf Hf v y x). lia.
Qed.

Lemma lookup_after_update_witness :
  after_session
    (api_session false Z.sub Z.sub 0 (configured (fun _ => true) 0)
       [Call_insert 5; Call_insert 3])
    (fun _ s =>
       match ptree_insert false 8 s with
       | Ok (r, s') =>
           exists a x, ptree_has 8 s' = Ok (Ptr a, s')
             /\ get_ptr (Ptr a) s' = Ok (x, s') /\ Z.sub 8 x = 0
             /\ (r = true -> x = 8)
       | Fail f => f = Oom
       end
       /\ exists r s', ptree_remove false 8 s = Ok (r, s')
            /\ ptree_has 8 s' = Ok (Null, s')).
Proof.
  apply (lookup_after_update false Z.sub Z.sub 0 (fun _ => true) 0
           [Call_insert 5; Call_insert 3] 8 cmp_ok_sub).
  - lia.
  - reflexivity.
  - left. reflexivity.
Defined.

(** ** The depth of the tree *)

Lemma bh_size t : wf t -> (2 ^ bh t <= length (addrs t) + 1)%nat.
Proof.
  induction t as [|c a i l IHl v r IHr]; simpl; [lia|].
  intros (Hb & _ & Hwl & Hwr). specialize (IHl Hwl). specialize (IHr Hwr).
  rewrite length_app, <- Hb in *. destruct c.
  - rewrite Nat.add_0_r. lia.
  - rewrite Nat.add_1_r. simpl. lia.
Qed.

Lemma height_bh t :
  wf t -> (height t <= 2 * bh t + (if is_redT t then 1 else 0))%nat.
Proof.
  induction t as [|c a i l IHl v r IHr]; simpl; [lia|].
  intros (Hb & Hcol & Hwl & Hwr). specialize (IHl Hwl). specialize (IHr Hwr).
  rewrite <- Hb in IHr. destruct c.
  - destruct (Hcol eq_refl) as [Hl Hr]. rewrite Hl in IHl. rewrite Hr in IHr. lia.
  - destruct (is_redT l), (is_redT r); lia.
Qed.

Lemma rbtree_height t :
  rbtree t -> Z.of_nat (height t) <= 2 * Z.log2 (Z.of_nat (length (addrs t)) + 1).
Proof.
  intros [Hw Hblack]. pose proof (height_bh t Hw) as Hh. rewrite Hblack in Hh.
  pose proof (bh_size t Hw) as Hs.
  assert (Z.of_nat (bh t) <= Z.log2 (Z.of_nat (length (addrs t)) + 1)) as Hlog.
  { apply Z.log2_le_pow2; [lia|].
    apply Nat2Z.inj_le in Hs. rewrite Nat2Z.inj_pow in Hs. lia. }
  lia.
Qed.

(** X19: in the state left by a session of calls, the tree of [n] elements
    has at most [2 * log2 (n + 1)] nodes on a path from the root, and the
    loops of [ptree_get_it] and [ptree_search] end within one iteration more
    than that: given that many, they return what the functions return. *)
Theorem search_is_logarithmic storage64 cmpf ck pre oracle cap calls :
  0 <= pre < 2 ^ 31 -> forallb (call_ok storage64) calls = true ->
  storage64 = false \/ Z.of_nat (length calls) < 2 ^ 31 ->
  after_session (api_session storage64 cmpf ck pre (configured oracle cap) calls)
    (fun _ s => exists t,
       heap_rep storage64 s t
       /\ Z.of_nat (height t) <= 2 * Z.log2 (nodes_num (tree s) + 1)
       /\ forall key, exists p q,
            ptree_get_it key s = Ok (p, s) /\ ptree_search key s = Ok (q, s)
            /\ forall fuel, 2 * Z.log2 (nodes_num (tree s) + 1) < Z.of_nat fuel ->
               get_it_loop fuel key (root (tree s)) s = Ok (p, s)
               /\ (root (tree s) <> Leaf ->
                   search_loop fuel key (root (tree s)) s = Ok (q, s))).
Proof.
  intros Hpre Hall Hb.
  apply after_api_intro; [done|done|destruct Hb; [by left|right; lia]|].
  intros rs s t Hl [HI _ _ _ _ _]. exists t. pose proof HI as [Hrep Har _ Hrb].
  pose proof (ar_count _ _ _ Har) as Hc. rewrite length_labels in Hc.
  pose proof (rbtree_height t Hrb) as Hh. rewrite Hc in Hh.
  split_and!; [done|done|]. intros key.
  pose proof (ptree_get_it_spec storage64 s t key HI) as Hg.
  pose proof (ptree_search_spec storage64 s t key HI) as Hsr.
  apply wp_inv in Hg as (p & s1 & Hg & -> & Hp).
  apply wp_inv in Hsr as (q & s2 & Hsr & -> & Hq).
  exists p, q. split_and!; [done|done|]. intros fuel Hfuel.
  assert (Rel storage64 s (addrs t) s t) as H by (by apply Rel_refl).
  destruct Hrep as (_ & Hroot & _). rewrite Hroot. split.
  - apply wp_run. subst p.
    apply (get_it_loop_spec storage64 s (addrs t) key t [] fuel s H). lia.
  - intros Hne. apply wp_run. subst q.
    apply (search_loop_spec storage64 s (addrs t) key t [] fuel s); [|done|lia].
    intros ->. done.
Qed.

Lemma search_logarithmic_witness :
  after_session
    (api_session false Z.sub Z.sub 0 (configured (fun _ => true) 0)
       [Call_insert 1; Call_insert 2; Call_insert 3; Call_insert 4; Call_insert 5])
    (fun _ s => exists t,
       heap_rep false s t
       /\ Z.of_nat (height t) <= 2 * Z.log2 (nodes_num (tree s) + 1)
       /\ forall key, exists p q,
            ptree_get_it key s = Ok (p, s) /\ ptree_search key s = Ok (q, s)
            /\ forall fuel, 2 * Z.log2 (nodes_num (tree s) + 1) < Z.of_nat fuel ->
               get_it_loop fuel key (root (tree s)) s = Ok (p, s)
               /\ (root (tree s) <> Leaf ->
                   search_loop fuel key (root (tree s)) s = Ok (q, s))).
Proof.
  apply (search_is_logarithmic false Z.sub Z.sub 0 (fun _ => true) 0
           [Call_insert 1; Call_insert 2; Call_insert 3; Call_insert 4; Call_insert 5]).
  - lia.
  - reflexivity.
  - left. reflexivity.
Defined.

(** ** The flags word *)

Lemma flags_split storage64 f :
  0 <= f < 2 ^ word_bits storage64 ->
  exists c i, 0 <= i < red_flag storage64 /\ f = mkflags storage64 c i.
Proof.
  intros Hf. rewrite word_red in Hf. pose proof (red_flag_pos storage64).
  destruct (Z.lt_ge_cases f (red_flag storage64)) as [Hlt|Hge].
  - exists false, f. unfold mkflags. split; lia.
  - exists true, (f - red_flag storage64). unfold mkflags. split; lia.
Qed.

(** X20: on a flags word, the macros of the colour and those of the index
    do not interfere: [set_node_index] of an index below [red_flag] is read
    back by [get_node_index] and keeps the colour, [paint_red] and
    [paint_black] set the colour and keep the index, and the index read is
    below [red_flag]. *)
Theorem flags_colour_and_index storage64 f i :
  0 <= f < 2 ^ word_bits storage64 -> 0 <= i < red_flag storage64 ->
  flags_get_index storage64 (flags_set_index storage64 f i) = i
  /\ flags_is_red storage64 (flags_set_index storage64 f i) = flags_is_red storage64 f
  /\ flags_is_red storage64 (flags_paint_red storage64 f) = true
  /\ flags_get_index storage64 (flags_paint_red storage64 f)
     = flags_get_index storage64 f
  /\ flags_is_red storage64 (flags_paint_black storage64 f) = false
  /\ flags_get_index storage64 (flags_paint_black storage64 f)
     = flags_get_index storage64 f
  /\ 0 <= flags_get_index storage64 f < red_flag storage64.
Proof.
  intros Hf Hi. destruct (flags_split storage64 f Hf) as (c & j & Hj & ->).
  rewrite (mkflags_set_index storage64 c j Hj i Hi).
  rewrite (mkflags_paint_red storage64 c j Hj), (mkflags_paint_black storage64 c j Hj).
  rewrite (mkflags_get_index storage64 c i Hi), (mkflags_get_index storage64 c j Hj).
  rewrite (mkflags_get_index storage64 true j Hj), (mkflags_get_index storage64 false j Hj).
  rewrite (mkflags_is_red storage64 c i Hi), (mkflags_is_red storage64 c j Hj).
  rewrite (mkflags_is_red storage64 true j Hj), (mkflags_is_red storage64 false j Hj).
  done.
Qed.

Lemma flags_colour_and_index_witness :
  flags_get_index false (flags_set_index false 0x80000005 7) = 7
  /\ flags_is_red false (flags_set_index false 0x80000005 7)
     = flags_is_red false 0x80000005
  /\ flags_is_red false (flags_paint_red false 0x80000005) = true
  /\ flags_get_index false (flags_paint_red false 0x80000005)
     = flags_get_index false 0x80000005
  /\ flags_is_red false (flags_paint_black false 0x80000005) = false
  /\ flags_get_index false (flags_paint_black false 0x80000005)
     = flags_get_index false 0x80000005
  /\ 0 <= flags_get_index false 0x80000005 < red_flag false.
Proof.
  apply (flags_colour_and_index false 0x80000005 7).
  - unfold word_bits. lia.
  - unfold red_flag. lia.
Defined.

(** ** A negative number of preallocated nodes *)

(** X21: [ptree_new] with a negative [preallocated_nodes] stops the process
    by [oom()]: the conversion of the [int32_t] to [size_t] and then to
    [ptree_size_int] gives a number above [max_nodes]. *)
Theorem new_negative_aborts storage64 cmpf ck pre oracle cap :
  - 2 ^ 31 <= pre < 0 ->
  ptree_new storage64 cmpf ck pre (configured oracle cap) = Fail Oom.
Proof.
  intros Hpre.
  assert ((max_nodes storage64 <? wrap storage64 (0 + to_size_t pre)) = true) as Hbig.
  { apply Z.ltb_lt. unfold to_size_t. rewrite Z.add_0_l.
    replace (pre mod 2 ^ 64) with (pre + 2 ^ 64)
      by (apply Z.mod_unique with (-1); lia).
    unfold wrap, max_nodes, word_bits. destruct storage64.
    - rewrite Z.mod_small by lia. lia.
    - replace ((pre + 2 ^ 64) mod 2 ^ 32) with (pre + 2 ^ 32)
        by (apply Z.mod_unique with (2 ^ 32 - 1); lia).
      lia. }
  unfold ptree_new. destruct (alloc_ok _ _); [|done].
  unfold ptree_allocate_nodes, bind, get_tree.
  cbn [tree allocated_nodes_num]. by rewrite Hbig.
Qed.

Lemma new_negative_witness :
  ptree_new false Z.sub Z.sub (-1) (configured (fun _ => true) 0) = Fail Oom.
Proof.
  apply (new_negative_aborts false Z.sub Z.sub (-1) (fun _ => true) 0). lia.
Defined.

(** ** A table whose size in bytes does not fit [size_t] *)

Lemma table_slots_wrap t : 2 ^ 61 <= t < 2 ^ 64 -> 0 <= table_slots t <= t - 2 ^ 61.
Proof.
  intros Ht. unfold table_slots, to_size_t, sizeof_ptr.
  change (2 ^ 64) with (2 ^ 61 * 8). rewrite Z.mul_mod_distr_r by lia.
  rewrite Z.div_mul by lia.
  pose proof (Z.mod_pos_bound t (2 ^ 61) ltac:(lia)) as Hm.
  assert (1 <= t / 2 ^ 61) as Hq by (apply Z.div_le_lower_bound; lia).
  rewrite Z.mod_eq in * by lia. lia.
Qed.

Lemma set_slot_inv i p s s' :
  set_slot i p s = Ok (tt, s') ->
  0 <= i < Z.of_nat (length (nodes (tree s)))
  /\ length (nodes (tree s')) = length (nodes (tree s)).
Proof.
  unfold set_slot, bind, get_tree, put_tree, fail.
  destruct (Z.leb_spec 0 i), (Z.ltb_spec i (Z.of_nat (length (nodes (tree s)))));
    simpl; try done.
  intros [= <-]. simpl. by rewrite length_insert.
Qed.

Lemma set_slot_fails i p s f : set_slot i p s = Fail f -> f = Undefined.
Proof.
  unfold set_slot, bind, get_tree, put_tree, fail.
  destruct (_ && _); [done|]. by intros [= <-].
Qed.

Lemma store_fails p n s f : store p n s = Fail f -> f = Undefined.
Proof.
  unfold store. destruct p as [| |a]; [by intros [= <-]|done|].
  destruct (heap (mem s) !! a); [done|by intros [= <-]].
Qed.

Lemma set_flags_fails p g s f :
  (do f0 <- get_flags p ;; set_flags p (g f0)) s = Fail f -> f = Undefined.
Proof.
  unfold get_flags, set_flags, bind, load, store, ret.
  destruct p as [| |a]; [by intros [= <-]|done|].
  destruct (heap (mem s) !! a) eqn:Ha; simpl.
  - rewrite Ha. by rewrite Ha.
  - by intros [= <-].
Qed.

(** The loop of [ptree_allocate_nodes] returns only when the slots that it
    writes are slots of the table. *)
Lemma allocate_loop_outcome storage64 count : forall i s,
  match allocate_loop storage64 count i s with
  | Ok (_, s') =>
      length (nodes (tree s')) = length (nodes (tree s))
      /\ (count = 0%nat
          \/ (0 <= i /\ i + Z.of_nat count <= Z.of_nat (length (nodes (tree s)))))
  | Fail f => f = Oom \/ f = Undefined
  end.
Proof.
  induction count as [|count IH]; intros i s; [by split; [|left]|].
  cbn [allocate_loop]. unfold bind at 1.
  destruct (malloc_node s) as [[p s1]|f] eqn:Hm.
  2: { unfold malloc_node, bind, get_mem, put_mem, ret in Hm.
       by destruct (alloc_ok _ _). }
  assert (tree s1 = tree s) as Ht1.
  { unfold malloc_node, bind, get_mem, put_mem, ret in Hm.
    destruct (alloc_ok _ _); by injection Hm as _ <-. }
  unfold bind at 1.
  destruct (set_slot i p s1) as [[[] s2]|f] eqn:Hs;
    [|right; by eapply set_slot_fails].
  destruct (set_slot_inv _ _ _ _ Hs) as [Hi Hl2]. rewrite Ht1 in Hi, Hl2.
  destruct (ptr_eqb p Null); [by left|].
  unfold bind at 1. pose proof (quiet_store p zero_node s2) as Hq3.
  unfold quiet_rel in Hq3.
  destruct (store p zero_node s2) as [[[] s3]|f] eqn:H3;
    [|right; by eapply store_fails].
  unfold bind at 1. pose proof (quiet_set_node_index storage64 p i s3) as Hq4.
  unfold quiet_rel in Hq4.
  destruct (set_node_index storage64 p i s3) as [[[] s4]|f] eqn:H4;
    [|right; exact (set_flags_fails p (fun f0 => flags_set_index storage64 f0 i) s3 f H4)].
  unfold bind at 1. pose proof (quiet_paint_black storage64 p s4) as Hq5.
  unfold quiet_rel in Hq5.
  destruct (paint_black storage64 p s4) as [[[] s5]|f] eqn:H5;
    [|right; exact (set_flags_fails p (flags_paint_black storage64) s4 f H5)].
  specialize (IH (i + 1) s5).
  destruct (allocate_loop storage64 count (i + 1) s5) as [[[] s6]|f]; [|done].
  destruct IH as [Hl6 Hc].
  rewrite (kp_len _ _ Hq5), (kp_len _ _ Hq4), (kp_len _ _ Hq3), Hl2 in Hl6, Hc.
  split; [done|]. right. destruct Hc as [->|Hc]; lia.
Qed.

(** X22: with indices of 64 bits, in the state left by a session of calls, a
    call of [ptree_allocate_nodes] that would bring the capacity to [2 ^ 61]
    slots or more (and to [max_nodes] at most) does not return: the size in
    bytes of the table, taken in [size_t], is that of fewer slots, so that
    the loop writes past the end of the table, unless the allocator has
    refused a request before and the process is stopped by [oom()]. *)
Theorem reserve_table_size_wraps cmpf ck pre oracle cap calls n :
  0 <= pre < 2 ^ 31 -> forallb (call_ok true) calls = true ->
  Z.of_nat (length calls) < 2 ^ 31 ->
  after_session (api_session true cmpf ck pre (configured oracle cap) calls)
    (fun _ s =>
       2 ^ 61 <= allocated_nodes_num (tree s) + n <= max_nodes true ->
       match ptree_allocate_nodes true n s with
       | Ok _ => False
       | Fail f =>
           f = Undefined
           \/ (f = Oom
               /\ exists j, (j <= Z.to_nat n)%nat
                    /\ alloc_ok (mem s) (allocs (mem s) + j)%nat = false)
       end).
Proof.
  intros Hpre Hall Hb.
  apply after_api_intro; [done|done|right; lia|].
  intros rs s t Hl [[_ Har _ _] _ _ _ _ Hroom] Hrange.
  destruct Hroom as [?|Hroom]; [done|].
  pose proof (ar_num _ _ _ Har) as Hnum. pose proof (ar_len _ _ _ Har) as Hlen.
  assert (wrap true (allocated_nodes_num (tree s) + n)
          = allocated_nodes_num (tree s) + n) as Hw.
  { apply wrap_small. unfold max_nodes, red_flag in *. lia. }
  pose proof (ptree_allocate_nodes_effect true s n) as He.
  unfold allocate_effect in He. rewrite Hw in He.
  replace (allocated_nodes_num (tree s) + n - allocated_nodes_num (tree s)) with n
    in He by lia.
  assert (match ptree_allocate_nodes true n s with
          | Ok _ => False
          | Fail f => f = Oom \/ f = Undefined
          end) as Hmain.
  { unfold ptree_allocate_nodes. unfold bind at 1, get_tree at 1. cbv beta iota zeta.
    rewrite Hw. rewrite (proj2 (Z.ltb_ge _ _)) by lia.
    unfold realloc_nodes. rewrite !bind_assoc.
    unfold bind at 1, get_mem at 1. cbv beta iota.
    rewrite bind_assoc. unfold bind at 1, put_mem at 1. cbv beta iota.
    destruct (alloc_ok (mem s) (allocs (mem s))).
    2: { unfold bind at 1, ret at 1. cbv beta iota. simpl. by left. }
    rewrite !bind_assoc. unfold bind at 1, get_tree at 1. cbv beta iota zeta.
    rewrite bind_assoc. unfold bind at 1, put_tree at 1. cbv beta iota.
    unfold bind at 1, ret at 1. cbv beta iota. cbn [negb].
    set (s1 := State _ _).
    pose proof (allocate_loop_outcome true
                  (Z.to_nat (allocated_nodes_num (tree s) + n
                             - allocated_nodes_num (tree s)))
                  (allocated_nodes_num (tree s)) s1) as Ho.
    unfold bind at 1.
    destruct (allocate_loop true _ (allocated_nodes_num (tree s)) s1)
      as [[[] s2]|f]; [|done].
    destruct Ho as [_ [H0|[_ Hle]]]; [lia|].
    unfold s1 in Hle. simpl in Hle.
    rewrite length_app, length_take, length_replicate in Hle.
    pose proof (table_slots_wrap (allocated_nodes_num (tree s) + n)) as Hts.
    unfold max_nodes in Hrange. lia. }
  destruct (ptree_allocate_nodes true n s) as [[[] s']|f]; [done|].
  destruct Hmain as [-> | ->]; [right|by left].
  split; [done|]. destruct (He eq_refl) as [?|?]; [lia|done].
Qed.

Lemma reserve_table_size_witness :
  after_session
    (api_session true Z.sub Z.sub 0 (configured (fun _ => true) 0) [Call_insert 5])
    (fun _ s =>
       2 ^ 61 <= allocated_nodes_num (tree s) + (2 ^ 61 + 1) <= max_nodes true ->
       match ptree_allocate_nodes true (2 ^ 61 + 1) s with
       | Ok _ => False
       | Fail f =>
           f = Undefined
           \/ (f = Oom
               /\ exists j, (j <= Z.to_nat (2 ^ 61 + 1))%nat
                    /\ alloc_ok (mem s) (allocs (mem s) + j)%nat = false)
       end).
Proof.
  apply (reserve_table_size_wraps Z.sub Z.sub 0 (fun _ => true) 0 [Call_insert 5]
           (2 ^ 61 + 1)).
  - lia.
  - reflexivity.
  - simpl. lia.
Defined.
